(** * Rooted-reference allocators: a shallow embedding and its properties

    The development embeds two of the storage engines of the repository:

    - [Rem]: the pool-with-remembered-set engine ([rem_boxroot.c]), with its
      pools, the two per-pool free lists, the two pool rings and the scan
      callback;
    - [Bitmap]: the bitmap-chunk engine ([boxroot/bitmap_boxroot.c]).

    Memory is a finite map from the base address of a pool (or chunk) to a
    record of its fields; addresses and machine words are integers of [Z].
    Every function of the C code that can fault (a null or wild dereference,
    a failed [assert]) returns in an error monad over the engine state.  The
    engines are embedded as built without [BOXROOT_DEBUG]: [DEBUGassert] is
    empty and the debug-only counters are not kept, while plain [assert]s are
    checked. *)

From stdpp Require Import base gmap sets list strings.

Local Open Scope Z_scope.

(** ** Faults and the state-and-error monad *)

Inductive fault : Type :=
  | NullDeref                     (* a field of the null pointer was accessed *)
  | WildAccess (a : Z)            (* an address outside every live pool *)
  | AssertFailed (what : string)  (* an [assert] of the source failed *)
  | Undefined (what : string)     (* an operation C leaves undefined *)
  | OutOfFuel.                    (* the loop bound of the embedding was hit *)

Inductive result (A : Type) : Type :=
  | Ok (a : A)
  | Err (e : fault).
Arguments Ok {A} a.
Arguments Err {A} e.

Definition M (S A : Type) : Type := S → result (A * S).

Definition ret {S A} (a : A) : M S A := λ s, Ok (a, s).
Definition fail {S A} (e : fault) : M S A := λ _, Err e.
Definition bind {S A B} (m : M S A) (k : A → M S B) : M S B :=
  λ s, match m s with
       | Ok (a, s') => k a s'
       | Err e => Err e
       end.
Definition get {S} : M S S := λ s, Ok (s, s).
Definition gets {S A} (f : S → A) : M S A := λ s, Ok (f s, s).
Definition modify {S} (f : S → S) : M S unit := λ s, Ok (tt, f s).
Definition assert {S} (what : string) (b : bool) : M S unit :=
  if b then ret tt else fail (AssertFailed what).

Notation "'do' x <- m ; k" := (bind m (λ x, k))
  (at level 10, x name, m at level 100, k at level 200).
Notation "m ;; k" := (bind m (λ _, k))
  (at level 100, k at level 200, right associativity).

(** The 64-bit machine word. *)
Definition word_max : Z := 2 ^ 64.
Definition is_word (v : Z) : Prop := 0 ≤ v < word_max.

(** The state a computation ends in (the start state if it faults), and the
    value it returns ([d] if it faults). *)
Definition state_after {S A} (m : M S A) (s : S) : S :=
  match m s with
  | Ok (_, s') => s'
  | Err _ => s
  end.

Definition value_after {S A} (m : M S A) (s : S) (d : A) : A :=
  match m s with
  | Ok (a, _) => a
  | Err _ => d
  end.

(** ** The pool-with-remembered-set engine *)

Module Rem.

(** *** Parameters *)

Definition POOL_LOG_SIZE : Z := 14.
Definition POOL_SIZE : Z := Z.shiftl 1 POOL_LOG_SIZE.

(** [sizeof(struct header)] and [sizeof(slot)] on an LP64 target: five
    pointers, an [int] and its padding; one machine word. *)
Definition header_size : Z := 48.
Definition slot_size : Z := 8.

Definition POOL_ROOTS_CAPACITY : Z := (POOL_SIZE - header_size) / slot_size.

(** The capacity as the length of the array [roots]. *)
Definition CAP : nat := Z.to_nat POOL_ROOTS_CAPACITY.

(** *** Data types *)

Record pool : Type := mk_pool {
  prev : Z;
  next : Z;
  major_free_list : Z;
  minor_free_list : Z;
  last_minor_free_slot : Z;
  alloc_count : Z;
  roots : list Z
}.

(** The counters of [struct stats] that the engine reads or that the
    properties below speak of.  In C they are [int]s ([long long] for the
    two scanning counters), whose overflow is undefined; here they are
    integers without a bound, and a property that leans on a counter bounds
    its growth, so that it speaks of the runs that stay in the range of the
    C type. *)
Record stats : Type := mk_stats {
  minor_collections : Z;
  major_collections : Z;
  total_scanning_work : Z;
  useful_scanning_work : Z;
  total_alloced_pools : Z;
  total_freed_pools : Z;
  live_pools : Z;
  peak_pools : Z;
  ring_operations : Z
}.

(** The globals of the translation unit, the memory holding the pools, and
    the two pieces of the environment the engine writes to: the runtime's
    remembered set ([Add_to_ref_table]) and the standard error stream. *)
Record state : Type := mk_state {
  heap : gmap Z pool;
  pools : Z;
  full_pools : Z;
  stat : stats;
  setup : bool;
  ref_table : list Z;
  stderr : list string
}.

Definition with_prev (q : Z) (x : pool) : pool :=
  mk_pool q (next x) (major_free_list x) (minor_free_list x)
          (last_minor_free_slot x) (alloc_count x) (roots x).
Definition with_next (q : Z) (x : pool) : pool :=
  mk_pool (prev x) q (major_free_list x) (minor_free_list x)
          (last_minor_free_slot x) (alloc_count x) (roots x).
Definition with_major_free_list (s : Z) (x : pool) : pool :=
  mk_pool (prev x) (next x) s (minor_free_list x)
          (last_minor_free_slot x) (alloc_count x) (roots x).
Definition with_minor_free_list (s : Z) (x : pool) : pool :=
  mk_pool (prev x) (next x) (major_free_list x) s
          (last_minor_free_slot x) (alloc_count x) (roots x).
Definition with_last_minor_free_slot (s : Z) (x : pool) : pool :=
  mk_pool (prev x) (next x) (major_free_list x) (minor_free_list x)
          s (alloc_count x) (roots x).
Definition with_alloc_count (n : Z) (x : pool) : pool :=
  mk_pool (prev x) (next x) (major_free_list x) (minor_free_list x)
          (last_minor_free_slot x) n (roots x).
Definition with_roots (r : list Z) (x : pool) : pool :=
  mk_pool (prev x) (next x) (major_free_list x) (minor_free_list x)
          (last_minor_free_slot x) (alloc_count x) r.

Definition with_heap (h : gmap Z pool) (s : state) : state :=
  mk_state h (pools s) (full_pools s) (stat s) (setup s) (ref_table s) (stderr s).
Definition with_pools (p : Z) (s : state) : state :=
  mk_state (heap s) p (full_pools s) (stat s) (setup s) (ref_table s) (stderr s).
Definition with_full_pools (p : Z) (s : state) : state :=
  mk_state (heap s) (pools s) p (stat s) (setup s) (ref_table s) (stderr s).
Definition with_stat (t : stats) (s : state) : state :=
  mk_state (heap s) (pools s) (full_pools s) t (setup s) (ref_table s) (stderr s).
Definition with_setup (b : bool) (s : state) : state :=
  mk_state (heap s) (pools s) (full_pools s) (stat s) b (ref_table s) (stderr s).
Definition with_ref_table (r : list Z) (s : state) : state :=
  mk_state (heap s) (pools s) (full_pools s) (stat s) (setup s) r (stderr s).
Definition with_stderr (l : list string) (s : state) : state :=
  mk_state (heap s) (pools s) (full_pools s) (stat s) (setup s) (ref_table s) l.

Definition empty_stats : stats := mk_stats 0 0 0 0 0 0 0 0 0.

(** The state of the translation unit when the program starts: every static
    is zero and no pool exists. *)
Definition initial_state : state := mk_state ∅ 0 0 empty_stats false [] [].

Abbreviation E := (M state).

(** *** Memory accesses *)

(** [p->hd]: the header of the pool at [p]. *)
Definition load_pool (p : Z) : E pool :=
  λ s, if p =? 0 then Err NullDeref
       else match heap s !! p with
            | Some x => Ok (x, s)
            | None => Err (WildAccess p)
            end.

Definition update_pool (p : Z) (f : pool → pool) : E unit :=
  do x <- load_pool p ;
  modify (λ s, with_heap (<[p := f x]> (heap s)) s).

(** [hot path] The owning pool of a slot: the low bits are masked off. *)
Definition get_pool_header (v : Z) : Z :=
  Z.land v (Z.lnot (POOL_SIZE - 1)).

(** The address of [p->roots[i]] and, for an address, the index of the cell
    of its pool it denotes (none for an address inside the header or not on
    a cell boundary). *)
Definition slot_addr (p : Z) (i : nat) : Z :=
  p + header_size + slot_size * Z.of_nat i.

Definition slot_index (a : Z) : option nat :=
  let off := a - get_pool_header a in
  if (header_size <=? off) && ((off - header_size) mod slot_size =? 0)
  then Some (Z.to_nat ((off - header_size) / slot_size))
  else None.

(** [s->raw] (equally [s->free] and [s->full]: the three members of the
    union share the word). *)
Definition load_slot (a : Z) : E Z :=
  do x <- load_pool (get_pool_header a) ;
  match slot_index a with
  | Some i => match roots x !! i with
              | Some v => ret v
              | None => fail (WildAccess a)
              end
  | None => fail (WildAccess a)
  end.

Definition store_slot (a : Z) (v : Z) : E unit :=
  do x <- load_pool (get_pool_header a) ;
  match slot_index a with
  | Some i => if decide (i < length (roots x))%nat
              then update_pool (get_pool_header a)
                               (λ x, with_roots (<[i := v]> (roots x)) x)
              else fail (WildAccess a)
  | None => fail (WildAccess a)
  end.

Definition bump (f : stats → stats) : E unit :=
  modify (λ s, with_stat (f (stat s)) s).

(** *** Tests in the hot path *)

(** [is_free_slot(v, p)]: [v] has its low bit set and shares the high bits
    of [p]. *)
Definition is_free_slot (v : Z) (p : Z) : bool :=
  Z.lor p 1 =? Z.land v (Z.lnot (POOL_SIZE - 2)).

Definition is_empty_free_list (v : Z) (p : Z) : bool := v =? p.

Definition Is_block (v : Z) : bool := Z.land v 1 =? 0.
Definition Is_long (v : Z) : bool := negb (Z.land v 1 =? 0).

Section Engine.

(** The runtime's nursery test ([Is_young] of [caml/address_class.h]). *)
Variable Is_young : Z → bool.

Definition is_young_block (v : Z) : bool := Is_block v && Is_young v.

(** [remember(dom_st, s)]: [Add_to_ref_table]. *)
Definition remember (s : Z) : E unit :=
  modify (λ st, with_ref_table (s :: ref_table st) st).

(** *** Ring operations *)

Definition ring_link (p q : Z) : E unit :=
  update_pool p (with_next q) ;;
  update_pool q (with_prev p) ;;
  bump (λ t, mk_stats (minor_collections t) (major_collections t)
                      (total_scanning_work t) (useful_scanning_work t)
                      (total_alloced_pools t) (total_freed_pools t)
                      (live_pools t) (peak_pools t) (ring_operations t + 1)).

(** [ring_push_back(source, &target)]: the ring [source] goes to the back of
    the ring [*target]; the result is the new [*target]. *)
Definition ring_push_back (source : Z) (target : Z) : E Z :=
  if source =? 0 then ret target
  else if target =? 0 then ret source
  else
    do t <- load_pool target ;
    let target_last := prev t in
    do s <- load_pool source ;
    let source_last := prev s in
    ring_link target_last source ;;
    ring_link source_last target ;;
    ret target.

(** [ring_pop(&target)]: the removed front pool and the new [*target]. *)
Definition ring_pop (target : Z) : E (Z * Z) :=
  let front := target in
  assert "front" (negb (front =? 0)) ;;
  do x <- load_pool front ;
  if next x =? front then ret (front, 0)
  else
    ring_link (prev x) (next x) ;;
    do x' <- load_pool front ;
    let target' := next x' in
    ring_link front front ;;
    ret (front, target').

(** *** Free list management *)

Definition untag_free_slot (v : Z) : Z := Z.lor v 1 - 1.
Definition tag_free_slot (s : Z) : Z := Z.lor s 1.

(** The two free lists of a pool header, as the C code passes them by
    address ([&(p->hd.major_free_list)], [&(p->hd.minor_free_list)]). *)
Inductive free_list_field : Type := Major | Minor.

Definition free_list_of (fl : free_list_field) (x : pool) : Z :=
  match fl with Major => major_free_list x | Minor => minor_free_list x end.
Definition with_free_list (fl : free_list_field) (s : Z) (x : pool) : pool :=
  match fl with
  | Major => with_major_free_list s x
  | Minor => with_minor_free_list s x
  end.

(** [free_list_push(s, &(p->hd.<fl>))] *)
Definition free_list_push (s : Z) (p : Z) (fl : free_list_field) : E unit :=
  do x <- load_pool p ;
  store_slot s (tag_free_slot (free_list_of fl x)) ;;
  update_pool p (with_free_list fl s).

(** [free_list_pop(&(p->hd.<fl>))] *)
Definition free_list_pop (p : Z) (fl : free_list_field) : E Z :=
  do x <- load_pool p ;
  let s := free_list_of fl x in
  do v <- load_slot s ;
  update_pool p (with_free_list fl (untag_free_slot v)) ;;
  ret s.

(** *** Pool management *)

Definition empty_free_list (p : Z) : Z := p.

Definition is_full_pool (x : pool) : bool :=
  alloc_count x =? POOL_ROOTS_CAPACITY.
Definition is_empty_pool (x : pool) : bool := alloc_count x =? 0.
Definition is_almost_full_pool (x : pool) : bool :=
  POOL_ROOTS_CAPACITY * 3 / 4 <? alloc_count x.

(** [bxr_alloc_uninitialised_pool(POOL_SIZE)] belongs to the platform layer.
    Its answer [mem] is an input of the embedding: [0] when the page
    allocator fails, the base of a fresh pool otherwise.  The fresh memory
    is arbitrary; [get_empty_pool] writes every field of the header and
    every cell before anything reads them, so it enters the heap as zeros. *)
Definition blank_pool : pool :=
  mk_pool 0 0 0 0 0 0 (replicate CAP 0).

Definition bxr_alloc_uninitialised_pool (mem : Z) : E Z :=
  if mem =? 0 then ret 0
  else modify (λ s, with_heap (<[mem := blank_pool]> (heap s)) s) ;; ret mem.

(** [bxr_free_pool(p)] *)
Definition bxr_free_pool (p : Z) : E unit :=
  modify (λ s, with_heap (delete p (heap s)) s).

(** The cells [roots[n-1]], ..., [roots[0]] in the order the initialising
    loop of [get_empty_pool] visits them. *)
Definition descending (n : nat) : list nat := reverse (seq 0 n).

Fixpoint push_all (p : Z) (l : list nat) : E unit :=
  match l with
  | [] => ret tt
  | i :: l' => free_list_push (slot_addr p i) p Major ;; push_all p l'
  end.

Definition get_empty_pool (mem : Z) : E Z :=
  bump (λ t, mk_stats (minor_collections t) (major_collections t)
                      (total_scanning_work t) (useful_scanning_work t)
                      (total_alloced_pools t) (total_freed_pools t)
                      (live_pools t + 1)
                      (if peak_pools t <? live_pools t + 1
                       then live_pools t + 1 else peak_pools t)
                      (ring_operations t)) ;;
  do p <- bxr_alloc_uninitialised_pool mem ;
  if p =? 0 then ret 0
  else
    bump (λ t, mk_stats (minor_collections t) (major_collections t)
                        (total_scanning_work t) (useful_scanning_work t)
                        (total_alloced_pools t + 1) (total_freed_pools t)
                        (live_pools t) (peak_pools t) (ring_operations t)) ;;
    ring_link p p ;;
    update_pool p (with_major_free_list (empty_free_list p)) ;;
    update_pool p (with_minor_free_list (empty_free_list p)) ;;
    update_pool p (with_last_minor_free_slot 0) ;;
    update_pool p (with_alloc_count 0) ;;
    push_all p (descending CAP) ;;
    ret p.

(** The [while] loop of [find_available_pool]: full pools at the front of
    the ring go to the ring of full pools.  Each turn takes one pool off the
    ring, so the number of pools in memory bounds the turns. *)
Fixpoint skip_full_pools (fuel : nat) : E unit :=
  match fuel with
  | O => fail OutOfFuel
  | S fuel' =>
      do p <- gets pools ;
      if p =? 0 then ret tt
      else
        do x <- load_pool p ;
        if is_full_pool x then
          do r <- ring_pop p ;
          modify (with_pools (snd r)) ;;
          do f <- gets full_pools ;
          do f' <- ring_push_back (fst r) f ;
          modify (with_full_pools f') ;;
          skip_full_pools fuel'
        else ret tt
  end.

Definition find_available_pool (mem : Z) : E Z :=
  do n <- gets (λ s, size (heap s)) ;
  skip_full_pools (S n) ;;
  do p <- gets pools ;
  if p =? 0 then
    do q <- get_empty_pool mem ;
    modify (with_pools q) ;;
    if q =? 0 then ret 0
    else
      do x <- load_pool q ;
      assert "pools != NULL && !is_full_pool(pools)" (negb (is_full_pool x)) ;;
      ret q
  else
    do x <- load_pool p ;
    assert "pools != NULL && !is_full_pool(pools)" (negb (is_full_pool x)) ;;
    ret p.

(** [pool_remove(p)]: [p] leaves the ring it is in. *)
Definition pool_remove (p : Z) : E Z :=
  do r <- ring_pop p ;
  let removed := fst r in
  let p' := snd r in
  do ps <- gets pools ;
  (if removed =? ps then modify (with_pools p') else ret tt) ;;
  do fs <- gets full_pools ;
  (if removed =? fs then modify (with_full_pools p') else ret tt) ;;
  ret removed.

Definition bump_freed : E unit :=
  bump (λ t, mk_stats (minor_collections t) (major_collections t)
                      (total_scanning_work t) (useful_scanning_work t)
                      (total_alloced_pools t) (total_freed_pools t + 1)
                      (live_pools t) (peak_pools t) (ring_operations t)).

(** The [while] loop of [free_all_pools], bounded like [skip_full_pools]. *)
Fixpoint free_all_pools_loop (fuel : nat) : E unit :=
  match fuel with
  | O => fail OutOfFuel
  | S fuel' =>
      do p <- gets pools ;
      if p =? 0 then ret tt
      else
        do r <- ring_pop p ;
        modify (with_pools (snd r)) ;;
        bxr_free_pool (fst r) ;;
        bump_freed ;;
        free_all_pools_loop fuel'
  end.

Definition free_all_pools : E unit :=
  do n <- gets (λ s, size (heap s)) ;
  free_all_pools_loop (S n).

(** *** Allocation, deallocation *)

Definition alloc_slot (mem : Z) (for_young : bool) : E Z :=
  do p0 <- gets pools ;
  do full <- (if p0 =? 0 then ret true
           else do x <- load_pool p0 ; ret (is_full_pool x)) ;
  do p <- (if (full : bool) then
          do su <- gets setup ;
          if negb su then
            modify (λ s, with_stderr (stderr s ++ ["boxroot is not setup"]) s) ;;
            ret 0
          else
            do q <- find_available_pool mem ;
            if q =? 0 then ret 0
            else
              do x <- load_pool q ;
              assert "!is_full_pool(p)" (negb (is_full_pool x)) ;;
              ret q
        else ret p0) ;
  if p =? 0 then ret 0
  else
    update_pool p (λ x, with_alloc_count (alloc_count x + 1) x) ;;
    do x <- load_pool p ;
    if for_young then
      if negb (is_empty_free_list (minor_free_list x) p) then
        free_list_pop p Minor
      else
        do new_slot <- free_list_pop p Major ;
        remember new_slot ;;
        ret new_slot
    else
      if negb (is_empty_free_list (major_free_list x) p) then
        free_list_pop p Major
      else
        free_list_pop p Minor.

Definition dealloc_slot (v : Z) : E unit :=
  let p := get_pool_header v in
  do full <- load_slot v ;
  (if negb (is_young_block full) then
     free_list_push v p Major
   else
     do x <- load_pool p ;
     (if is_empty_free_list (minor_free_list x) p
      then update_pool p (with_last_minor_free_slot v)
      else ret tt) ;;
     free_list_push v p Minor) ;;
  update_pool p (λ x, with_alloc_count (alloc_count x - 1) x) ;;
  do x <- load_pool p ;
  if alloc_count x =? POOL_ROOTS_CAPACITY * 3 / 4 then
    do removed <- pool_remove p ;
    do ps <- gets pools ;
    do ps' <- ring_push_back removed ps ;
    modify (with_pools ps')
  else ret tt.

(** *** Boxroot API implementation *)

Definition rem_boxroot_create (mem : Z) (init : Z) : E Z :=
  do cell <- alloc_slot mem (is_young_block init) ;
  if cell =? 0 then ret 0
  else store_slot cell init ;; ret cell.

Definition rem_boxroot_get (root : Z) : E Z := load_slot root.

Definition rem_boxroot_delete (root : Z) : E unit := dealloc_slot root.

(** [rem_boxroot_modify(&root, new_value)]: the caller's handle variable is
    passed by address; the result is its content on return. *)
Definition rem_boxroot_modify (root : Z) (new_value : Z) : E Z :=
  let cell := root in
  (if negb (is_young_block new_value) then
     store_slot cell new_value
   else
     do old_value <- load_slot cell ;
     store_slot cell new_value ;;
     if negb (is_young_block old_value) then remember cell else ret tt) ;;
  ret root.

(** *** Scanning *)

(** The walk of [validate_free_list(p, free_list, &count)]: the number of
    cells on the list, or the assertion that failed.  A list without a cycle
    has at most [POOL_ROOTS_CAPACITY] cells, which bounds the walk. *)
Fixpoint validate_free_list_loop (fuel : nat) (p : Z) (s : Z) (count : Z)
    : E Z :=
  match fuel with
  | O => fail OutOfFuel
  | S fuel' =>
      if is_empty_free_list s p then ret count
      else
        do v <- load_slot s ;
        assert "Is_long(s->full)" (Is_long v) ;;
        assert "is_free_slot(s->raw, p)" (is_free_slot v p) ;;
        validate_free_list_loop fuel' p (untag_free_slot v) (count + 1)
  end.

Definition validate_free_list (p : Z) (fl : free_list_field) : E Z :=
  do x <- load_pool p ;
  validate_free_list_loop (S CAP) p
                          (free_list_of fl x) 0.

(** The free and the full cells of [validate_roots]. *)
Definition count_free_roots (p : Z) (x : pool) : Z :=
  Z.of_nat (length (filter (λ v, is_free_slot v p = true) (roots x))).
Definition count_full_roots (p : Z) (x : pool) : Z :=
  Z.of_nat (length (filter (λ v, is_free_slot v p = false) (roots x))).

Definition validate_pool (p : Z) : E unit :=
  do x <- load_pool p ;
  let free_roots_count := count_free_roots p x in
  let full_roots_count := count_full_roots p x in
  do c1 <- validate_free_list p Major ;
  do c2 <- validate_free_list p Minor ;
  let free_list_count := c1 + c2 in
  (if is_empty_free_list (minor_free_list x) p then ret tt
   else
     assert "p->hd.last_minor_free_slot != NULL"
            (negb (last_minor_free_slot x =? 0)) ;;
     do l <- load_slot (last_minor_free_slot x) ;
     assert "is_free_slot(p->hd.last_minor_free_slot->raw, p)"
            (is_free_slot l p)) ;;
  assert "free_roots_count == free_list_count"
         (free_roots_count =? free_list_count) ;;
  assert "full_roots_count == p->hd.alloc_count"
         (full_roots_count =? alloc_count x) ;;
  assert "free_roots_count + full_roots_count == POOL_ROOTS_CAPACITY"
         (free_roots_count + full_roots_count =? POOL_ROOTS_CAPACITY).

Definition add_scanning_work (total useful : Z) : E unit :=
  bump (λ t, mk_stats (minor_collections t) (major_collections t)
                      (total_scanning_work t + total)
                      (useful_scanning_work t + useful)
                      (total_alloced_pools t) (total_freed_pools t)
                      (live_pools t) (peak_pools t) (ring_operations t)).

Section Scanning.

(** The runtime's scanning action with its opaque data:
    [CALL_GC_ACTION(action, data, v, &slot)] receives the data, the payload
    and the address of the cell, and leaves a (possibly forwarded) payload
    in the cell. *)
Context {D : Type}.
Variable action : D → Z → Z → D * Z.

(** The [for] loop of [scan_pool] over the cells [l] still to visit. *)
Fixpoint scan_slots (p : Z) (l : list nat) (allocs_to_find : Z) (d : D)
    : E D :=
  match l with
  | [] =>
      assert "allocs_to_find == 0" (allocs_to_find =? 0) ;;
      add_scanning_work POOL_ROOTS_CAPACITY 0 ;;
      ret d
  | i :: l' =>
      if allocs_to_find =? 0 then
        add_scanning_work (Z.of_nat i) 0 ;;
        ret d
      else
        let current := slot_addr p i in
        do v <- load_slot current ;
        if negb (is_free_slot v p) then
          let r := action d v current in
          store_slot current (snd r) ;;
          scan_slots p l' (allocs_to_find - 1) (fst r)
        else scan_slots p l' allocs_to_find d
  end.

(** [scan_pool(action, data, p)]; [minor] is the answer of
    [bxr_in_minor_collection()]. *)
Definition scan_pool (minor : bool) (p : Z) (d : D) : E D :=
  if minor then
    do x <- load_pool p ;
    if negb (is_empty_free_list (minor_free_list x) p) then
      assert "p->hd.last_minor_free_slot != NULL"
             (negb (last_minor_free_slot x =? 0)) ;;
      do v <- load_slot (minor_free_list x) ;
      assert "is_free_slot(p->hd.minor_free_list->raw, p)"
             (is_free_slot v p) ;;
      do l <- load_slot (last_minor_free_slot x) ;
      assert "is_empty_free_list(untag_free_slot(p->hd.last_minor_free_slot->free), p)"
             (is_empty_free_list (untag_free_slot l) p) ;;
      store_slot (last_minor_free_slot x) (tag_free_slot (major_free_list x)) ;;
      update_pool p (λ x, with_major_free_list (minor_free_list x) x) ;;
      update_pool p (with_minor_free_list (empty_free_list p)) ;;
      ret d
    else ret d
  else
    do x <- load_pool p ;
    let allocs_to_find := alloc_count x in
    add_scanning_work 0 (alloc_count x) ;;
    scan_slots p (seq 0 CAP) allocs_to_find d.

(** The [do ... while] loop of [scan_pool_ring]; a ring has no more pools
    than the memory has. *)
Fixpoint scan_pool_ring_loop (fuel : nat) (minor : bool) (first_pool p : Z)
    (d : D) : E D :=
  match fuel with
  | O => fail OutOfFuel
  | S fuel' =>
      do d' <- scan_pool minor p d ;
      do x <- load_pool p ;
      if next x =? first_pool then ret d'
      else scan_pool_ring_loop fuel' minor first_pool (next x) d'
  end.

Definition scan_pool_ring (minor : bool) (first_pool : Z) (d : D) : E D :=
  if first_pool =? 0 then ret d
  else
    do n <- gets (λ s, size (heap s)) ;
    scan_pool_ring_loop n minor first_pool first_pool d.

(** The [do ... while] loop of [free_empty_pools]. *)
Fixpoint free_empty_pools_loop (fuel : nat) (p : Z) (keep_empty_pools : Z)
    : E unit :=
  match fuel with
  | O => fail OutOfFuel
  | S fuel' =>
      do x <- load_pool p ;
      let next_pool := next x in
      do keep <- (if is_empty_pool x then
                    if 0 <? keep_empty_pools then ret (keep_empty_pools - 1)
                    else
                      do removed <- pool_remove p ;
                      bxr_free_pool removed ;;
                      bump_freed ;;
                      ret keep_empty_pools
                  else ret keep_empty_pools) ;
      do ps <- gets pools ;
      if next_pool =? ps then ret tt
      else free_empty_pools_loop fuel' next_pool keep
  end.

Definition free_empty_pools : E unit :=
  do p <- gets pools ;
  do n <- gets (λ s, size (heap s)) ;
  free_empty_pools_loop (S n) p 1.

Definition scan_roots (minor : bool) (d : D) : E D :=
  do ps <- gets pools ;
  do d1 <- scan_pool_ring minor ps d ;
  do fs <- gets full_pools ;
  do d2 <- scan_pool_ring minor fs d1 ;
  free_empty_pools ;;
  ret d2.

(** *** Hook setup *)

Definition boxroot_used : E bool :=
  gets (λ s, negb (pools s =? 0) || (0 <? ring_operations (stat s))).

(** [scanning_callback(action, only_young, data)].  The wall-clock counters
    [total_major_time] and [peak_major_time] are not kept. *)
Definition scanning_callback (minor : bool) (d : D) : E D :=
  do su <- gets setup ;
  if negb su then ret d
  else
    bump (λ t, mk_stats
                 (if minor then minor_collections t + 1 else minor_collections t)
                 (if minor then major_collections t else major_collections t + 1)
                 (total_scanning_work t) (useful_scanning_work t)
                 (total_alloced_pools t) (total_freed_pools t)
                 (live_pools t) (peak_pools t) (ring_operations t)) ;;
    do used <- boxroot_used ;
    if (used : bool) then scan_roots minor d else ret d.

End Scanning.

(** [rem_boxroot_setup()]; the registration of the hook lives in the
    runtime. *)
Definition rem_boxroot_setup : E Z :=
  do su <- gets setup ;
  if (su : bool) then ret 0
  else
    modify (with_stat empty_stats) ;;
    modify (with_pools 0) ;;
    modify (with_full_pools 0) ;;
    modify (with_setup true) ;;
    ret 1.

Definition rem_boxroot_teardown : E unit :=
  do su <- gets setup ;
  if negb su then ret tt
  else
    modify (with_setup false) ;;
    free_all_pools.

End Engine.

(** *** Well-formed states

    The predicates below describe the memory the engine builds: what a pool
    base is, what the free lists of a pool look like in its cells, and how
    the headers chain the pools of a ring. *)

(** A pool base: not null and aligned on the pool size. *)
Definition valid_base (b : Z) : Prop := 0 < b ∧ b mod POOL_SIZE = 0.

(** What the page allocator may answer in a memory [h]: a failure, or the
    base of a pool that is not in use. *)
Definition fresh_mem (h : gmap Z pool) (mem : Z) : Prop :=
  mem = 0 ∨ (valid_base mem ∧ h !! mem = None).

(** [chain b r hd l]: starting from the head [hd], the free-list links kept
    in the cells [r] of the pool at [b] go through the cells of indices [l]
    in this order and end on the empty free list of the pool. *)
Fixpoint chain (b : Z) (r : list Z) (hd : Z) (l : list nat) : Prop :=
  match l with
  | [] => hd = b
  | i :: l' =>
      hd = slot_addr b i ∧ (i < CAP)%nat ∧
      ∃ nx, r !! i = Some (tag_free_slot nx) ∧ chain b r nx l'
  end.

(** The free lists [lmaj] and [lmin] of the pool [x] at [b], when [live] is
    the set of the handles in use. *)
Record pool_lists (b : Z) (x : pool) (live : gset Z) (lmaj lmin : list nat)
    : Prop := {
  pl_length : length (roots x) = CAP;
  pl_major : chain b (roots x) (major_free_list x) lmaj;
  pl_minor : chain b (roots x) (minor_free_list x) lmin;
  pl_nodup : NoDup (lmaj ++ lmin);
  pl_live : ∀ i, (i < CAP)%nat → i ∈ lmaj ++ lmin ↔ slot_addr b i ∉ live;
  pl_count : alloc_count x
             = POOL_ROOTS_CAPACITY - Z.of_nat (length (lmaj ++ lmin));
  pl_last : lmin ≠ [] →
            ∃ j, last lmin = Some j ∧ last_minor_free_slot x = slot_addr b j
}.

Definition pool_ok (b : Z) (x : pool) (live : gset Z) : Prop :=
  ∃ lmaj lmin, pool_lists b x live lmaj lmin.

(** [lnk h a b]: in [h], [a->hd.next == b] and [b->hd.prev == a]. *)
Definition lnk (h : gmap Z pool) (a b : Z) : Prop :=
  next <$> h !! a = Some b ∧ prev <$> h !! b = Some a.

Fixpoint path (h : gmap Z pool) (a : Z) (l : list Z) : Prop :=
  match l with
  | [] => True
  | b :: l' => lnk h a b ∧ path h b l'
  end.

(** The pools [l], linked in a cycle. *)
Definition cyc (h : gmap Z pool) (l : list Z) : Prop :=
  match l with
  | [] => True
  | a :: l' => path h a (l' ++ [a])
  end.

(** [ring h hd l]: [hd] points to the ring made of the pools [l], in the
    order of the [next] links, starting with [hd]; the null pointer is the
    empty ring. *)
Definition ring_head (l : list Z) : Z :=
  match l with
  | [] => 0
  | a :: _ => a
  end.

Definition ring (h : gmap Z pool) (hd : Z) (l : list Z) : Prop :=
  hd = ring_head l ∧ cyc h l.

(** The invariant of the engine between two calls of its API, for the set
    [live] of the handles given out and not yet deleted: the two rings hold
    every pool of the memory once, each pool has well-formed free lists whose
    cells are exactly the cells that are not in use, and every handle in use
    is a cell of a pool. *)
Record Inv (s : state) (live : gset Z) : Prop := {
  inv_setup : setup s = true;
  inv_rings :
    ∃ lp lf, ring (heap s) (pools s) lp ∧ ring (heap s) (full_pools s) lf ∧
             NoDup (lp ++ lf) ∧ ∀ b, b ∈ lp ++ lf ↔ is_Some (heap s !! b);
  inv_base : ∀ b, is_Some (heap s !! b) → valid_base b;
  inv_pool : ∀ b x, heap s !! b = Some x → pool_ok b x live;
  inv_live : ∀ h, h ∈ live →
             ∃ b i, h = slot_addr b i ∧ (i < CAP)%nat ∧ is_Some (heap s !! b)
}.

(** The states the API reaches from [rem_boxroot_setup], with the handles in
    use: [create] under any answer of the page allocator, [delete] and
    [modify] of a handle in use. *)
Inductive reachable (Is_young : Z → bool) : state → gset Z → Prop :=
  | reach_setup s :
      rem_boxroot_setup initial_state = Ok (1, s) →
      reachable Is_young s ∅
  | reach_create s live mem v r s' :
      reachable Is_young s live →
      fresh_mem (heap s) mem →
      rem_boxroot_create Is_young mem v s = Ok (r, s') →
      reachable Is_young s' (if decide (r = 0) then live else {[r]} ∪ live)
  | reach_delete s live h s' :
      reachable Is_young s live →
      h ∈ live →
      rem_boxroot_delete Is_young h s = Ok (tt, s') →
      reachable Is_young s' (live ∖ {[h]})
  | reach_modify s live h v h' s' :
      reachable Is_young s live →
      h ∈ live →
      rem_boxroot_modify Is_young h v s = Ok (h', s') →
      reachable Is_young s' live.

(** *** Definitions of the specification

    The notions the properties are stated with: what an operation leaves
    alone, the scans as functions, runs of the API, and the states the
    properties are tried on. *)

(** The fields of a header that the ring operations leave alone. *)
Definition body (x : pool) : Z * Z * Z * Z * list Z :=
  (major_free_list x, minor_free_list x, last_minor_free_slot x,
   alloc_count x, roots x).

Definition bodies_eq (h h' : gmap Z pool) : Prop :=
  ∀ a, body <$> h' !! a = body <$> h !! a.

(** Outside of the pools [l], the links of [h'] are those of [h]. *)
Definition links_out (h h' : gmap Z pool) (l : list Z) : Prop :=
  ∀ a, a ∉ l →
       next <$> h' !! a = next <$> h !! a ∧ prev <$> h' !! a = prev <$> h !! a.

(** The effect of [ring_link(p, q)] on the links. *)
Definition link_upd (h h' : gmap Z pool) (p q : Z) : Prop :=
  (∀ a, a ≠ p → next <$> h' !! a = next <$> h !! a) ∧
  (∀ a, a ≠ q → prev <$> h' !! a = prev <$> h !! a) ∧
  next <$> h' !! p = Some q ∧ prev <$> h' !! q = Some p.

(** What the ring operations keep of the globals. *)
Definition same_ctl (s s' : state) : Prop :=
  pools s' = pools s ∧ full_pools s' = full_pools s ∧ setup s' = setup s ∧
  live_pools (stat s') = live_pools (stat s).

(** The pools of [a :: l] that a path leaves through a [next] link: all but
    the last. *)
Fixpoint srcs (a : Z) (l : list Z) : list Z :=
  match l with
  | [] => []
  | b :: l' => a :: srcs b l'
  end.

Definition lastd (a : Z) (l : list Z) : Z := default a (last l).

(** The end of [alloc_slot], once the pool [p] to allocate from is known. *)
Definition take_slot (p : Z) (for_young : bool) : E Z :=
  update_pool p (λ x, with_alloc_count (alloc_count x + 1) x) ;;
  do x <- load_pool p ;
  if for_young then
    if negb (is_empty_free_list (minor_free_list x) p) then
      free_list_pop p Minor
    else
      do new_slot <- free_list_pop p Major ;
      remember new_slot ;;
      ret new_slot
  else
    if negb (is_empty_free_list (major_free_list x) p) then
      free_list_pop p Major
    else
      free_list_pop p Minor.

(** What an operation keeps besides the memory. *)
Definition same_frame (s s' : state) : Prop :=
  pools s' = pools s ∧ full_pools s' = full_pools s ∧ setup s' = setup s ∧
  stat s' = stat s ∧ ∀ b, is_Some (heap s' !! b) ↔ is_Some (heap s !! b).

(** What [create] guarantees about the cell it hands out. *)
Definition fresh_cell (s' : state) (live : gset Z) (r : Z) : Prop :=
  ∃ b i, r = slot_addr b i ∧ (i < CAP)%nat ∧ valid_base b ∧
         is_Some (heap s' !! b) ∧ r ∉ live.

Definition requeue (p : Z) : E unit :=
  do removed <- pool_remove p ;
  do ps <- gets pools ;
  do ps' <- ring_push_back removed ps ;
  modify (with_pools ps').

Section Runs.

Variable Is_young : Z → bool.

(** [create] for each payload of a list, each with the answer the page
    allocator would give, and [delete] for each handle of a list. *)
Fixpoint create_all (reqs : list (Z * Z)) : E (list Z) :=
  match reqs with
  | [] => ret []
  | (mem, v) :: reqs' =>
      do h <- rem_boxroot_create Is_young mem v ;
      do hs <- create_all reqs' ;
      ret (h :: hs)
  end.

Fixpoint delete_all (hs : list Z) : E unit :=
  match hs with
  | [] => ret tt
  | h :: hs' => rem_boxroot_delete Is_young h ;; delete_all hs'
  end.

(** Each answer of the page allocator is a failure or a pool that is not in
    use when it is given. *)
Fixpoint fresh_run (reqs : list (Z * Z)) (s : state) : Prop :=
  match reqs with
  | [] => True
  | (mem, v) :: reqs' =>
      fresh_mem (heap s) mem ∧
      match rem_boxroot_create Is_young mem v s with
      | Ok (_, s') => fresh_run reqs' s'
      | Err _ => True
      end
  end.

End Runs.

(** What a scan leaves alone, and the work it adds to the statistics. *)
Definition scan_frame (s s' : state) (total useful : Z) : Prop :=
  pools s' = pools s ∧ full_pools s' = full_pools s ∧ setup s' = setup s ∧
  total_scanning_work (stat s') = total_scanning_work (stat s) + total ∧
  useful_scanning_work (stat s') = useful_scanning_work (stat s) + useful.

(** The work [w] of each pool of [l], added up. *)
Definition ring_work (w : Z → pool → Z) (h : gmap Z pool) (l : list Z) : Z :=
  foldr (λ b acc, from_option (w b) 0 (h !! b) + acc) 0 l.

Section RingFold.

Context {D : Type}.
Variable f : Z → pool → D → D * pool.

(** The scan of the pools [l] one after the other, as a function. *)
Fixpoint fold_ring (h : gmap Z pool) (l : list Z) (d : D) : D * gmap Z pool :=
  match l with
  | [] => (d, h)
  | p :: l' =>
      match h !! p with
      | Some x => fold_ring (<[p := snd (f p x d)]> h) l' (fst (f p x d))
      | None => (d, h)
      end
  end.

End RingFold.

(** The pool after the minor free list went to the head of the major free
    list: the last minor cell is linked to the former major head, the major
    list starts where the minor list started, the minor list is empty. *)
Definition minor_splice (p : Z) (x : pool) : pool :=
  if is_empty_free_list (minor_free_list x) p then x
  else
    with_minor_free_list (empty_free_list p)
      (with_major_free_list (minor_free_list x)
         (with_roots
            (<[default 0%nat (slot_index (last_minor_free_slot x))
               := tag_free_slot (major_free_list x)]> (roots x)) x)).

(** The full cells among [cells], the cells of the pool [p] from the index
    [i] on: each with its payload and its address, in address order. *)
Fixpoint full_cells (p : Z) (i : nat) (cells : list Z) : list (Z * Z) :=
  match cells with
  | [] => []
  | v :: cs =>
      if is_free_slot v p then full_cells p (S i) cs
      else (v, slot_addr p i) :: full_cells p (S i) cs
  end.

Definition count_full (p : Z) (cells : list Z) : Z :=
  Z.of_nat (length (filter (λ v, is_free_slot v p = false) cells)).

(** Where the walk of the cells stops: at the first index from which every
    cell is free. *)
Fixpoint scan_stop (p : Z) (i : nat) (cells : list Z) : nat :=
  match cells with
  | [] => i
  | v :: cs => if count_full p cells =? 0 then i else scan_stop p (S i) cs
  end.

Section CellScan.

Context {D : Type}.
Variable action : D → Z → Z → D * Z.

(** The scan of the cells as a function: the data after the calls of the
    action and the cells as the action leaves them. *)
Fixpoint scan_cells (p : Z) (i : nat) (cells : list Z) (d : D) : D * list Z :=
  match cells with
  | [] => (d, [])
  | v :: cs =>
      if is_free_slot v p then
        let r := scan_cells p (S i) cs d in (fst r, v :: snd r)
      else
        let a := action d v (slot_addr p i) in
        let r := scan_cells p (S i) cs (fst a) in (fst r, snd a :: snd r)
  end.

End CellScan.

(** One turn of the loop of [free_empty_pools] on the pool [p]: what it
    does to the pool, and the count of empty pools still to keep. *)
Definition free_if_empty (p : Z) (x : pool) (keep_empty_pools : Z) : E Z :=
  if is_empty_pool x then
    if 0 <? keep_empty_pools then ret (keep_empty_pools - 1)
    else
      do removed <- pool_remove p ;
      bxr_free_pool removed ;;
      bump_freed ;;
      ret keep_empty_pools
  else ret keep_empty_pools.

(** The rings as the loop sees them: the ring of available pools is
    [l1 ++ l2], of which [l1] has been visited. *)
Definition rings_at (s : state) (l1 l2 lf : list Z) : Prop :=
  ring (heap s) (pools s) (l1 ++ l2) ∧ ring (heap s) (full_pools s) lf ∧
  NoDup ((l1 ++ l2) ++ lf) ∧ (0 ∉ (l1 ++ l2) ++ lf) ∧
  ∀ b, b ∈ (l1 ++ l2) ++ lf ↔ is_Some (heap s !! b).

(** What the release of empty pools keeps: no pool is created or changed,
    and a pool that holds a handle stays. *)
Definition pools_kept (s s' : state) : Prop :=
  pools s' = pools s ∧ full_pools s' = full_pools s ∧ setup s' = setup s ∧
  (∀ b x, heap s' !! b = Some x → ∃ y, heap s !! b = Some y ∧ body x = body y) ∧
  (∀ b y, heap s !! b = Some y → alloc_count y ≠ 0 → is_Some (heap s' !! b)).

Section RingScans.

Context {D : Type}.
Variable action : D → Z → Z → D * Z.
Variable minor : bool.

(** The two ring scans of [scan_roots], one after the other. *)
Definition scan_rings (d : D) : E D :=
  do ps <- gets pools ;
  do d1 <- scan_pool_ring action minor ps d ;
  do fs <- gets full_pools ;
  scan_pool_ring action minor fs d1.

End RingScans.

(** An action that leaves the payload where it is. *)
Definition idle_action (d : unit) (v : Z) (a : Z) : unit * Z := (d, v).

Definition splice_f {D} (p : Z) (x : pool) (d : D) : D * pool :=
  (d, minor_splice p x).

(** The full cells of the pools [l], pool after pool, each with its payload
    and its address. *)
Definition ring_cells (h : gmap Z pool) (l : list Z) : list (Z * Z) :=
  l ≫= λ b, from_option (λ x, full_cells b 0 (roots x)) [] (h !! b).

Section MajorFold.

Context {D : Type}.
Variable action : D → Z → Z → D * Z.

(** The scan of one pool, as a function. *)
Definition major_f (p : Z) (x : pool) (d : D) : D * pool :=
  (fst (scan_cells action p 0 (roots x) d),
   with_roots (snd (scan_cells action p 0 (roots x) d)) x).

(** The calls of the action on a list of cells. *)
Definition visit (d : D) (cells : list (Z * Z)) : D :=
  foldl (λ d c, fst (action d (fst c) (snd c))) d cells.

End MajorFold.

Definition scannable (p : Z) (x : pool) : Prop :=
  valid_base p ∧ length (roots x) = CAP ∧ count_full_roots p x = alloc_count x.

Definition work (s : state) : Z * Z :=
  (total_scanning_work (stat s), useful_scanning_work (stat s)).

(** The choice of the pool in [alloc_slot]: the head pool, or the pool
    [find_available_pool] makes the head when the head is missing or full. *)
Definition select_pool (mem : Z) : E Z :=
  do p0 <- gets pools ;
  do full <- (if p0 =? 0 then ret true
              else do x <- load_pool p0 ; ret (is_full_pool x)) ;
  if (full : bool) then
    do su <- gets setup ;
    if negb su then
      modify (λ s, with_stderr (stderr s ++ ["boxroot is not setup"]) s) ;;
      ret 0
    else
      do q <- find_available_pool mem ;
      if q =? 0 then ret 0
      else
        do x <- load_pool q ;
        assert "!is_full_pool(p)" (negb (is_full_pool x)) ;;
        ret q
  else ret p0.

(** The free list the specification takes the slot from, and whether the
    slot enters the remembered set. *)
Definition chosen_list (young : bool) (x : pool) (p : Z) : free_list_field :=
  if young then
    if is_empty_free_list (minor_free_list x) p then Major else Minor
  else
    if is_empty_free_list (major_free_list x) p then Minor else Major.

Definition remembered (young : bool) (x : pool) (p : Z) : bool :=
  young && is_empty_free_list (minor_free_list x) p.

Definition other_list (fl : free_list_field) : free_list_field :=
  match fl with Major => Minor | Minor => Major end.

(** The header of a pool without its cells. *)
Definition header (x : pool) : Z * Z * Z * Z * Z * Z :=
  (prev x, next x, major_free_list x, minor_free_list x,
   last_minor_free_slot x, alloc_count x).

Section ModifyAll.

Variable Is_young : Z → bool.

(** [modify] called again and again through the same handle variable. *)
Fixpoint modify_all (root : Z) (vs : list Z) : E Z :=
  match vs with
  | [] => ret root
  | v :: vs' =>
      do root' <- rem_boxroot_modify Is_young root v ;
      modify_all root' vs'
  end.

End ModifyAll.

(** A nursery between the addresses 1000 and 2000. *)
Definition nursery (v : Z) : bool := (1000 <? v) && (v <? 2000).

(** The state [rem_boxroot_setup] leaves. *)
Definition fresh_state : state := mk_state ∅ 0 0 empty_stats true [] [].

(** One handle on a mature payload. *)
Definition one_handle : state :=
  state_after (rem_boxroot_create nursery 16384 1) fresh_state.

(** As many creates as a pool has cells: the page allocator gives the pool
    at the first one. *)
Definition fill_requests : list (Z * Z) :=
  (16384, 1) :: replicate 2041 (0, 1).

Definition fill_handles : list Z :=
  value_after (create_all nursery fill_requests) fresh_state [].

Definition full_pool : state :=
  state_after (create_all nursery fill_requests) fresh_state.


(** One more create, and the page allocator gives a second pool. *)
Definition two_pools : state :=
  state_after (rem_boxroot_create nursery 32768 1) full_pool.

(** The counter of the writes to a [next] field. *)
Definition ops (s : state) : Z := ring_operations (stat s).

(** Every pool has as many full cells as its allocation count says: no
    payload in a cell looks like a link of a free list. *)
Definition counted (s : state) : Prop :=
  ∀ b x, heap s !! b = Some x → count_full_roots b x = alloc_count x.

End Rem.

(** ** The bitmap-chunk engine *)

Module Bitmap.

(** *** Data types *)

(** [CHUNK_SIZE] is [8 * sizeof(bitmap)], the number of bits of an
    [unsigned long] on an LP64 target; a [value] is a machine word. *)
Definition CHUNK_SIZE : Z := 64.
Definition value_size : Z := 8.
Definition CHUNK_ALIGNMENT : Z := CHUNK_SIZE * value_size.
Definition CHUNK_MASK : Z := CHUNK_ALIGNMENT - 1.

(** [~(bitmap)0] *)
Definition BITMAP_EMPTY : Z := Z.ones CHUNK_SIZE.

(** [~x] on a [bitmap]. *)
Definition bitmap_not (x : Z) : Z := Z.lxor x BITMAP_EMPTY.

(** [(bitmap)1 << index]; the shift is undefined from the width on. *)
Definition bit (index : Z) : Z := Z.shiftl 1 index.

Record chunk : Type := mk_chunk {
  slot : list Z;
  prev : Z;
  next : Z;
  is_young : bool;
  free : Z
}.

(** The counters the engine keeps without [BOXROOT_DEBUG]. *)
Record stats : Type := mk_stats {
  minor_collections : Z;
  major_collections : Z;
  total_scanning_work_minor : Z;
  total_scanning_work_major : Z;
  total_alloced_pools : Z;
  total_freed_pools : Z;
  peak_pools : Z
}.

(** The globals [rings.young], [rings.old], [stats] and [setup], and the
    memory holding the chunks. *)
Record state : Type := mk_state {
  heap : gmap Z chunk;
  young : Z;
  old : Z;
  stat : stats;
  setup : bool
}.

Definition with_slot (l : list Z) (c : chunk) : chunk :=
  mk_chunk l (prev c) (next c) (is_young c) (free c).
Definition with_prev (q : Z) (c : chunk) : chunk :=
  mk_chunk (slot c) q (next c) (is_young c) (free c).
Definition with_next (q : Z) (c : chunk) : chunk :=
  mk_chunk (slot c) (prev c) q (is_young c) (free c).
Definition with_is_young (b : bool) (c : chunk) : chunk :=
  mk_chunk (slot c) (prev c) (next c) b (free c).
Definition with_free (f : Z) (c : chunk) : chunk :=
  mk_chunk (slot c) (prev c) (next c) (is_young c) f.

Definition with_heap (h : gmap Z chunk) (s : state) : state :=
  mk_state h (young s) (old s) (stat s) (setup s).
Definition with_young (r : Z) (s : state) : state :=
  mk_state (heap s) r (old s) (stat s) (setup s).
Definition with_old (r : Z) (s : state) : state :=
  mk_state (heap s) (young s) r (stat s) (setup s).
Definition with_stat (t : stats) (s : state) : state :=
  mk_state (heap s) (young s) (old s) t (setup s).
Definition with_setup (b : bool) (s : state) : state :=
  mk_state (heap s) (young s) (old s) (stat s) b.

Definition empty_stats : stats := mk_stats 0 0 0 0 0 0 0.

Definition initial_state : state := mk_state ∅ 0 0 empty_stats false.

Abbreviation E := (M state).

(** *** Memory accesses *)

(** [*c]: the chunk at [c]. *)
Definition load_chunk (c : Z) : E chunk :=
  λ s, if c =? 0 then Err NullDeref
       else match heap s !! c with
            | Some x => Ok (x, s)
            | None => Err (WildAccess c)
            end.

Definition update_chunk (c : Z) (f : chunk → chunk) : E unit :=
  do x <- load_chunk c ;
  modify (λ s, with_heap (<[c := f x]> (heap s)) s).

(** [&chunk->slot[index]]: the array [slot] is the first member. *)
Definition chunk_index (c : Z) (index : nat) : Z :=
  c + value_size * Z.of_nat index.

(** [chunk_of_root(root)] *)
Definition chunk_of_root (root : Z) : Z :=
  Z.land root (Z.lnot CHUNK_MASK).

(** The index of the cell an address denotes in the chunk around it. *)
Definition root_index (a : Z) : option nat :=
  let off := a - chunk_of_root a in
  if off mod value_size =? 0 then Some (Z.to_nat (off / value_size))
  else None.

(** [*elem] for an address inside the array [slot] of a chunk. *)
Definition load_value (a : Z) : E Z :=
  do x <- load_chunk (chunk_of_root a) ;
  match root_index a with
  | Some i => match slot x !! i with
              | Some v => ret v
              | None => fail (WildAccess a)
              end
  | None => fail (WildAccess a)
  end.

Definition store_value (a : Z) (v : Z) : E unit :=
  do x <- load_chunk (chunk_of_root a) ;
  match root_index a with
  | Some i => if decide (i < length (slot x))%nat
              then update_chunk (chunk_of_root a)
                                (λ x, with_slot (<[i := v]> (slot x)) x)
              else fail (WildAccess a)
  | None => fail (WildAccess a)
  end.

Definition bump (f : stats → stats) : E unit :=
  modify (λ s, with_stat (f (stat s)) s).

(** [count_trailing_zeros(x)]: [__builtin_ctzl], undefined on [0]. *)
Fixpoint ctz_from (fuel : nat) (i : nat) (x : Z) : nat :=
  match fuel with
  | O => i
  | S fuel' => if Z.testbit x (Z.of_nat i) then i else ctz_from fuel' (S i) x
  end.

Definition count_trailing_zeros (x : Z) : E nat :=
  if x =? 0 then fail (Undefined "__builtin_ctzl(0)")
  else ret (ctz_from (Z.to_nat CHUNK_SIZE) 0 x).

(** [atomic_xor(&c->free, src)]: the old bitmap is returned. *)
Definition atomic_xor (c : Z) (src : Z) : E Z :=
  do x <- load_chunk c ;
  update_chunk c (with_free (Z.lxor (free x) src)) ;;
  ret (free x).

Definition Is_block (v : Z) : bool := Z.land v 1 =? 0.

Section Engine.

(** The runtime's nursery: [Is_young] of [caml/address_class.h], and the
    bounds [young_start] and [young_range] that [scan_ring_young] computes
    from the domain state. *)
Variable Is_young : Z → bool.
Variables young_start young_range : Z.

Definition is_young_block (v : Z) : bool := Is_block v && Is_young v.

(** *** Ring operations *)

(** [FOREACH_ELEM_IN_CHUNK(elem, chunk, action)]: the bitmap is read once,
    before the cells are visited. *)
Fixpoint foreach_index {A} (body : Z → A → E A) (c : Z) (allocated : Z)
    (l : list nat) (acc : A) : E A :=
  match l with
  | [] => ret acc
  | i :: l' =>
      if Z.testbit allocated (Z.of_nat i) then
        do acc' <- body (chunk_index c i) acc ;
        foreach_index body c allocated l' acc'
      else foreach_index body c allocated l' acc
  end.

Definition foreach_elem_in_chunk {A} (body : Z → A → E A) (c : Z) (acc : A)
    : E A :=
  do x <- load_chunk c ;
  let allocated := bitmap_not (free x) in
  foreach_index body c allocated (seq 0 (Z.to_nat CHUNK_SIZE)) acc.

(** The [do ... while] loop of [FOREACH_ELEM_IN_RING]; a ring has no more
    chunks than the memory has. *)
Fixpoint foreach_chunk {A} (fuel : nat) (body : Z → A → E A) (end_ c : Z)
    (acc : A) : E A :=
  match fuel with
  | O => fail OutOfFuel
  | S fuel' =>
      do acc' <- foreach_elem_in_chunk body c acc ;
      do x <- load_chunk c ;
      if next x =? end_ then ret acc'
      else foreach_chunk fuel' body end_ (next x) acc'
  end.

Definition foreach_elem_in_ring {A} (body : Z → A → E A) (r : Z) (acc : A)
    : E A :=
  if r =? 0 then ret acc
  else
    do n <- gets (λ s, size (heap s)) ;
    foreach_chunk n body r r acc.

Definition ring_link (p q : Z) : E unit :=
  update_chunk p (with_next q) ;;
  update_chunk q (with_prev p).

(** [ring_push_back(source, &target)]: the result is the new [*target]. *)
Definition ring_push_back (source : Z) (target : Z) : E Z :=
  if target =? 0 then ret source
  else
    do t <- load_chunk target ;
    let target_last := prev t in
    do s <- load_chunk source ;
    let source_last := prev s in
    ring_link target_last source ;;
    ring_link source_last target ;;
    ret target.

Definition ring_push_front (source : Z) (target : Z) : E Z :=
  ring_push_back source target ;;
  ret source.

(** [ring_pop(&target)]: the removed front chunk and the new [*target]. *)
Definition ring_pop (target : Z) : E (Z * Z) :=
  let front := target in
  do x <- load_chunk front ;
  do target' <- (if next x =? front then ret 0
                 else
                   ring_link (prev x) (next x) ;;
                   ret (next x)) ;
  ring_link front front ;;
  ret (front, target').

Definition ring_remove_chunk (c : Z) : E unit :=
  do r <- ring_pop c ;
  let removed := fst r in
  let c' := snd r in
  do o <- gets old ;
  (if o =? removed then modify (with_old c') else ret tt) ;;
  do y <- gets young ;
  (if y =? removed then modify (with_young c') else ret tt).

(** [free(cur)] *)
Definition free_chunk (c : Z) : E unit :=
  modify (λ s, with_heap (delete c (heap s)) s).

Fixpoint free_ring_loop (fuel : nat) (r cur : Z) : E unit :=
  match fuel with
  | O => fail OutOfFuel
  | S fuel' =>
      do x <- load_chunk cur ;
      free_chunk cur ;;
      if next x =? r then ret tt
      else free_ring_loop fuel' r (next x)
  end.

Definition free_ring (r : Z) : E unit :=
  if r =? 0 then ret tt
  else
    do n <- gets (λ s, size (heap s)) ;
    free_ring_loop n r r.

(** *** Chunks *)

(** [posix_memalign] belongs to the C library.  Its answer [mem] is an input
    of the embedding: [0] when it fails, the address of a fresh aligned
    block otherwise.  [create_chunk] writes every field of the block before
    anything reads it, so the block enters the heap as zeros. *)
Definition blank_chunk : chunk :=
  mk_chunk (replicate (Z.to_nat CHUNK_SIZE) 0) 0 0 false 0.

Definition create_chunk (mem : Z) : E Z :=
  if mem =? 0 then ret 0
  else
    modify (λ s, with_heap (<[mem := blank_chunk]> (heap s)) s) ;;
    bump (λ t,
      let alloced := total_alloced_pools t + 1 in
      let live_pools := alloced - total_freed_pools t in
      mk_stats (minor_collections t) (major_collections t)
               (total_scanning_work_minor t) (total_scanning_work_major t)
               alloced (total_freed_pools t)
               (if peak_pools t <? live_pools then live_pools
                else peak_pools t)) ;;
    ring_link mem mem ;;
    update_chunk mem (with_slot (replicate (Z.to_nat CHUNK_SIZE) 0)) ;;
    update_chunk mem (with_free BITMAP_EMPTY) ;;
    update_chunk mem (with_is_young false) ;;
    ret mem.

Definition delete_chunk (c : Z) : E unit :=
  free_chunk c ;;
  bump (λ t, mk_stats (minor_collections t) (major_collections t)
                      (total_scanning_work_minor t)
                      (total_scanning_work_major t)
                      (total_alloced_pools t) (total_freed_pools t + 1)
                      (peak_pools t)).

Definition chunk_is_full (x : chunk) : bool := free x =? 0.

(** [*target] of [get_available_chunk] and [reclassify_chunk]. *)
Definition ring_of (is_young : bool) (s : state) : Z :=
  if is_young then young s else old s.
Definition with_ring (is_young : bool) (r : Z) (s : state) : state :=
  if is_young then with_young r s else with_old r s.

Definition get_available_chunk (mem : Z) (young_ : bool) : E Z :=
  do new <- gets (ring_of young_) ;
  do usable <- (if new =? 0 then ret false
                else do x <- load_chunk new ; ret (negb (chunk_is_full x))) ;
  if (usable : bool) then ret new
  else
    do o <- gets old ;
    do demote <- (if young_ && negb (o =? 0)
                  then do x <- load_chunk o ; ret (negb (chunk_is_full x))
                  else ret false) ;
    do new <- (if (demote : bool) then
                 do r <- ring_pop o ;
                 modify (with_old (snd r)) ;;
                 ret (fst r)
               else create_chunk mem) ;
    update_chunk new (with_is_young young_) ;;
    do t <- gets (ring_of young_) ;
    do t' <- ring_push_front new t ;
    modify (with_ring young_ t') ;;
    ret new.

Definition reclassify_chunk (c : Z) : E unit :=
  do x <- load_chunk c ;
  let free_ := free x in
  let target := is_young x in
  ring_remove_chunk c ;;
  if free_ =? BITMAP_EMPTY then delete_chunk c
  else if free_ =? 0 then
    do t <- gets (ring_of target) ;
    do t' <- ring_push_back c t ;
    modify (with_ring target t')
  else
    do t <- gets (ring_of target) ;
    do t' <- ring_push_front c t ;
    modify (with_ring target t').

(** [alloc_from_chunk(chunk, init, &root)]: the result is [*root_out]. *)
Definition alloc_from_chunk (c : Z) (init : Z) : E Z :=
  do x <- load_chunk c ;
  do index <- count_trailing_zeros (free x) ;
  let slot_ := chunk_index c index in
  store_value slot_ init ;;
  let bitmask := bit (Z.of_nat index) in
  do old_ <- atomic_xor c bitmask ;
  let is_full := Z.lxor old_ bitmask =? 0 in
  (if is_full then reclassify_chunk c else ret tt) ;;
  ret slot_.

(** [remove_from_chunk(slot, chunk)]: [slot - chunk->slot] is a difference
    of pointers to [value]. *)
Definition remove_from_chunk (slot_ : Z) (c : Z) : E bool :=
  let index := (slot_ - c) / value_size in
  do x <- load_chunk c ;
  if negb ((0 <=? index) && (index <? CHUNK_SIZE))
  then fail (Undefined "(bitmap)1 << index")
  else
    let bitmask := bit index in
    do old_ <- atomic_xor c bitmask ;
    let was_full := old_ =? 0 in
    let is_empty := Z.lxor old_ bitmask =? BITMAP_EMPTY in
    ret (was_full || is_empty).

(** *** Boxroot API implementation *)

(** [ENABLE_BOXROOT_GENERATIONAL] is [1]; the test of the payload is
    commented out in the source. *)
Definition ENABLE_BOXROOT_GENERATIONAL : bool := true.

Definition bitmap_boxroot_create (mem : Z) (init : Z) : E Z :=
  let young_ := ENABLE_BOXROOT_GENERATIONAL in
  do c <- get_available_chunk mem young_ ;
  alloc_from_chunk c init.

Definition bitmap_boxroot_get (r : Z) : E Z := load_value r.

Definition bitmap_boxroot_delete (root : Z) : E unit :=
  let c := chunk_of_root root in
  do maybe_reclassify <- remove_from_chunk root c ;
  if (maybe_reclassify : bool) then
    do y <- gets young ;
    do o <- gets old ;
    if negb (c =? y) && negb (c =? o) then reclassify_chunk c else ret tt
  else ret tt.

(** [bitmap_boxroot_modify(&root, new_value)]: the result is the content of
    the caller's handle variable on return. *)
Definition bitmap_boxroot_modify (mem : Z) (root : Z) (new_value : Z) : E Z :=
  let old_value := root in
  do in_place <- (if negb (is_young_block new_value) then ret true
                  else do v <- load_value old_value ;
                       ret (is_young_block v)) ;
  if (in_place : bool) then
    store_value old_value new_value ;;
    ret root
  else
    bitmap_boxroot_delete root ;;
    bitmap_boxroot_create mem new_value.

(** *** Scanning *)

Definition validate_all_rings : E unit :=
  do y <- gets young ;
  foreach_elem_in_ring
    (λ elem (_ : unit),
       do v <- load_value elem ;
       assert "is_young_block(*elem)" (is_young_block v)) y tt ;;
  do o <- gets old ;
  foreach_elem_in_ring
    (λ elem (_ : unit),
       do v <- load_value elem ;
       assert "!is_young_block(*elem)" (negb (is_young_block v))) o tt.

Section Scanning.

(** The runtime's scanning action, as in the pool engine: it receives the
    data, the payload and the address of the cell, and leaves a payload in
    the cell. *)
Context {D : Type}.
Variable action : D → Z → Z → D * Z.

(** The body of the two scans; the accumulator is the data and the work. *)
Definition visit_elem (elem : Z) (acc : D * Z) : E (D * Z) :=
  do v <- load_value elem ;
  let r := action (fst acc) v elem in
  store_value elem (snd r) ;;
  ret (fst r, snd acc + 1).

Definition scan_ring_gen (r : Z) (d : D) : E (D * Z) :=
  foreach_elem_in_ring visit_elem r (d, 0).

(** [(uintnat)v - young_start <= young_range] on unsigned machine words. *)
Definition in_young_range (v : Z) : bool :=
  (v - young_start) mod word_max <=? young_range.

Definition scan_ring_young (d : D) : E (D * Z) :=
  do y <- gets young ;
  foreach_elem_in_ring
    (λ elem acc,
       do v <- load_value elem ;
       if in_young_range v && Is_block v then
         let r := action (fst acc) v elem in
         store_value elem (snd r) ;;
         ret (fst r, snd acc + 1)
       else ret acc) y (d, 0).

(** The [do ... while] loop of [scan_roots] that clears [is_young]. *)
Fixpoint clear_young_loop (fuel : nat) (c : Z) : E unit :=
  match fuel with
  | O => fail OutOfFuel
  | S fuel' =>
      update_chunk c (with_is_young false) ;;
      do x <- load_chunk c ;
      do y <- gets young ;
      if next x =? y then ret tt
      else clear_young_loop fuel' (next x)
  end.

(** [scan_roots(action, data)]; [minor] is the answer of
    [bxr_in_minor_collection()]. *)
Definition scan_roots (minor : bool) (d : D) : E D :=
  if ENABLE_BOXROOT_GENERATIONAL && minor then
    do r <- scan_ring_young d ;
    do y <- gets young ;
    (if negb (y =? 0) then
       do n <- gets (λ s, size (heap s)) ;
       clear_young_loop n y ;;
       do o <- gets old ;
       do o' <- ring_push_back y o ;
       modify (with_old o')
     else ret tt) ;;
    modify (with_young 0) ;;
    bump (λ t, mk_stats (minor_collections t) (major_collections t)
                        (total_scanning_work_minor t + snd r)
                        (total_scanning_work_major t)
                        (total_alloced_pools t) (total_freed_pools t)
                        (peak_pools t)) ;;
    ret (fst r)
  else
    do y <- gets young ;
    do r1 <- scan_ring_gen y d ;
    do o <- gets old ;
    do r2 <- scan_ring_gen o (fst r1) ;
    bump (λ t, mk_stats (minor_collections t) (major_collections t)
                        (total_scanning_work_minor t)
                        (total_scanning_work_major t + (snd r1 + snd r2))
                        (total_alloced_pools t) (total_freed_pools t)
                        (peak_pools t)) ;;
    ret (fst r2).

(** [scanning_callback(action, only_young, data)], without the wall-clock
    counters. *)
Definition scanning_callback (minor : bool) (d : D) : E D :=
  do su <- gets setup ;
  if negb su then ret d
  else
    bump (λ t, mk_stats
                 (if minor then minor_collections t + 1 else minor_collections t)
                 (if minor then major_collections t else major_collections t + 1)
                 (total_scanning_work_minor t) (total_scanning_work_major t)
                 (total_alloced_pools t) (total_freed_pools t)
                 (peak_pools t)) ;;
    scan_roots minor d.

End Scanning.

(** *** Hook setup *)

Definition bitmap_boxroot_setup : E Z :=
  do su <- gets setup ;
  if (su : bool) then ret 0
  else
    modify (with_stat empty_stats) ;;
    modify (with_young 0) ;;
    modify (with_old 0) ;;
    modify (with_setup true) ;;
    ret 1.

Definition bitmap_boxroot_teardown : E unit :=
  do su <- gets setup ;
  if negb su then ret tt
  else
    modify (with_setup false) ;;
    do y <- gets young ;
    free_ring y ;;
    modify (with_young 0) ;;
    do o <- gets old ;
    free_ring o ;;
    modify (with_old 0).

End Engine.

(** *** Definitions of the specification *)

(** The state [bitmap_boxroot_setup] leaves. *)
Definition ready : state := mk_state ∅ 0 0 empty_stats true.

(** One chunk at the address 512, at the head of the young ring, with the
    payload [v] in its first cell. *)
Definition one_root (v : Z) : state :=
  mk_state
    {[ 512 := mk_chunk (v :: replicate 63 0) 512 512 true (BITMAP_EMPTY - 1) ]}
    512 0 (mk_stats 0 0 0 0 1 0 1) true.

(** The same chunk after a minor collection. *)
Definition one_root_scanned (v : Z) : state :=
  mk_state
    {[ 512 := mk_chunk (v :: replicate 63 0) 512 512 false (BITMAP_EMPTY - 1) ]}
    0 512 (mk_stats 1 0 0 0 1 0 1) true.

(** An action that records the addresses it is called on. *)
Definition collect (d : list Z) (v a : Z) : list Z * Z := (a :: d, v).

End Bitmap.

(** * Properties *)

(** ** Running the monad *)

Lemma bind_ok {S A B} (m : M S A) (k : A → M S B) s a s' :
  m s = Ok (a, s') → bind m k s = k a s'.
Proof. unfold bind. by intros ->. Qed.

Lemma bind_err {S A B} (m : M S A) (k : A → M S B) s e :
  m s = Err e → bind m k s = Err e.
Proof. unfold bind. by intros ->. Qed.

Lemma bind_inv {S A B} (m : M S A) (k : A → M S B) s b s'' :
  bind m k s = Ok (b, s'') → ∃ a s', m s = Ok (a, s') ∧ k a s' = Ok (b, s'').
Proof.
  unfold bind. destruct (m s) as [[a s']|e]; [|done]. intros H. by exists a, s'.
Qed.

Lemma bind_gets {S A B} (f : S → A) (k : A → M S B) s :
  bind (gets f) k s = k (f s) s.
Proof. reflexivity. Qed.

Lemma bind_modify {S B} (f : S → S) (k : unit → M S B) s :
  bind (modify f) k s = k tt (f s).
Proof. reflexivity. Qed.

Lemma bind_ret {S A B} (a : A) (k : A → M S B) s : bind (ret a) k s = k a s.
Proof. reflexivity. Qed.

Lemma bind_assoc {S A B C} (m : M S A) (k1 : A → M S B) (k2 : B → M S C) s :
  bind (bind m k1) k2 s = bind m (λ x, bind (k1 x) k2) s.
Proof. unfold bind. by destruct (m s) as [[]|]. Qed.

Lemma assert_true {S} what (s : S) : assert what true s = Ok (tt, s).
Proof. reflexivity. Qed.

(** ** The pool-with-remembered-set engine *)

Module RemProofs.

Import Rem.

(** *** Addresses *)

Arguments CAP : simpl never.
Arguments POOL_ROOTS_CAPACITY : simpl never.
Arguments POOL_SIZE : simpl never.

Lemma POOL_SIZE_val : POOL_SIZE = 16384.
Proof. reflexivity. Qed.

Lemma capacity_val : POOL_ROOTS_CAPACITY = 2042.
Proof. reflexivity. Qed.

Lemma CAP_val : Z.of_nat CAP = 2042.
Proof. reflexivity. Qed.

Lemma get_pool_header_eq v : get_pool_header v = POOL_SIZE * (v / POOL_SIZE).
Proof.
  unfold get_pool_header. rewrite <- Z.ldiff_land.
  change (POOL_SIZE - 1) with (Z.ones 14).
  rewrite Z.ldiff_ones_r by lia.
  rewrite Z.shiftl_mul_pow2, Z.shiftr_div_pow2 by lia.
  change (2 ^ 14) with POOL_SIZE. lia.
Qed.

Lemma low_bit_eq v : Z.land v 1 = v mod 2.
Proof. change 1 with (Z.ones 1). rewrite Z.land_ones by lia. reflexivity. Qed.

Lemma lor_1_even s : s mod 2 = 0 → Z.lor s 1 = s + 1.
Proof.
  intros Hs. pose proof (Z.add_lor_land s 1) as H.
  rewrite low_bit_eq, Hs in H. lia.
Qed.

Lemma free_mask_eq v :
  Z.land v (Z.lnot (POOL_SIZE - 2)) = POOL_SIZE * (v / POOL_SIZE) + v mod 2.
Proof.
  change (Z.lnot (POOL_SIZE - 2)) with (Z.lor (Z.lnot (POOL_SIZE - 1)) 1).
  rewrite Z.land_lor_distr_r.
  fold (get_pool_header v). rewrite get_pool_header_eq, low_bit_eq.
  pose proof (Z.add_lor_land (POOL_SIZE * (v / POOL_SIZE)) (v mod 2)) as H.
  assert (Z.land (POOL_SIZE * (v / POOL_SIZE)) (v mod 2) = 0) as H0.
  { pose proof (Z.mod_pos_bound v 2 ltac:(lia)) as Hb.
    assert (v mod 2 = 0 ∨ v mod 2 = 1) as [->| ->] by lia.
    - apply Z.land_0_r.
    - rewrite low_bit_eq, POOL_SIZE_val.
      replace (16384 * (v / 16384)) with ((8192 * (v / 16384)) * 2) by lia.
      apply Z.mod_mul. lia. }
  lia.
Qed.

(** A valid base and an offset below the pool size: the division by the
    pool size finds the base again. *)
Lemma base_div b r :
  valid_base b → 0 ≤ r < POOL_SIZE → POOL_SIZE * ((b + r) / POOL_SIZE) = b.
Proof.
  intros [Hb Hm] Hr. rewrite POOL_SIZE_val in *.
  apply Z.mod_divide in Hm as [k ->]; [|lia].
  replace (k * 16384 + r) with (r + k * 16384) by lia.
  rewrite Z.div_add by lia. rewrite Z.div_small by lia. lia.
Qed.

Lemma valid_base_even b : valid_base b → b mod 2 = 0.
Proof.
  intros [_ Hm]. rewrite POOL_SIZE_val in Hm.
  apply Z.mod_divide in Hm as [k ->]; [|lia].
  replace (k * 16384) with ((k * 8192) * 2) by lia. apply Z.mod_mul. lia.
Qed.

Lemma valid_base_nonzero b : valid_base b → b ≠ 0.
Proof. intros [? _]. lia. Qed.

Lemma slot_offset i :
  (i < CAP)%nat →
  0 ≤ header_size + slot_size * Z.of_nat i < POOL_SIZE - 1.
Proof.
  intros Hi. pose proof CAP_val. rewrite POOL_SIZE_val.
  unfold header_size, slot_size. lia.
Qed.

Lemma get_pool_header_base b : valid_base b → get_pool_header b = b.
Proof.
  intros Hb. rewrite get_pool_header_eq.
  replace b with (b + 0) at 1 by lia. apply base_div; [done|].
  rewrite POOL_SIZE_val. lia.
Qed.

Lemma get_pool_header_slot b i :
  valid_base b → (i < CAP)%nat → get_pool_header (slot_addr b i) = b.
Proof.
  intros Hb Hi. rewrite get_pool_header_eq. unfold slot_addr.
  rewrite <- Z.add_assoc. apply base_div; [done|].
  pose proof (slot_offset i Hi). lia.
Qed.

Lemma slot_index_slot b i :
  valid_base b → (i < CAP)%nat → slot_index (slot_addr b i) = Some i.
Proof.
  intros Hb Hi. unfold slot_index. rewrite get_pool_header_slot by done.
  unfold slot_addr, header_size, slot_size.
  replace (b + 48 + 8 * Z.of_nat i - b - 48) with (Z.of_nat i * 8) by lia.
  rewrite Z.mod_mul, Z.div_mul by lia.
  replace (48 <=? b + 48 + 8 * Z.of_nat i - b) with true by (symmetry; apply Z.leb_le; lia).
  simpl. by rewrite Nat2Z.id.
Qed.

Lemma slot_addr_even b i : valid_base b → slot_addr b i mod 2 = 0.
Proof.
  intros Hb. apply valid_base_even in Hb.
  unfold slot_addr, header_size, slot_size.
  replace (b + 48 + 8 * Z.of_nat i) with (b + (24 + 4 * Z.of_nat i) * 2) by lia.
  by rewrite Z.mod_add by lia.
Qed.

Lemma slot_addr_inj b i j : slot_addr b i = slot_addr b j → i = j.
Proof. unfold slot_addr, slot_size. lia. Qed.

Lemma slot_addr_not_base b i : slot_addr b i ≠ b.
Proof. unfold slot_addr, header_size, slot_size. lia. Qed.

Lemma slot_addr_nonzero b i : valid_base b → slot_addr b i ≠ 0.
Proof. intros [? _]. unfold slot_addr, header_size, slot_size. lia. Qed.

Lemma slot_addr_pool_inj b b' i j :
  valid_base b → valid_base b' → (i < CAP)%nat → (j < CAP)%nat →
  slot_addr b i = slot_addr b' j → b = b' ∧ i = j.
Proof.
  intros Hb Hb' Hi Hj Heq.
  assert (b = b') as <-.
  { rewrite <- (get_pool_header_slot b i), <- (get_pool_header_slot b' j) by done.
    by rewrite Heq. }
  split; [done|]. by eapply slot_addr_inj.
Qed.

(** *** Tags *)

Lemma untag_tag s : s mod 2 = 0 → untag_free_slot (tag_free_slot s) = s.
Proof.
  intros Hs. unfold untag_free_slot, tag_free_slot.
  rewrite (lor_1_even s Hs).
  pose proof (Z.add_lor_land (s + 1) 1) as H. rewrite low_bit_eq in H.
  replace ((s + 1) mod 2) with 1 in H; [lia|].
  rewrite Z.add_mod, Hs by lia. reflexivity.
Qed.

Lemma tag_odd s : s mod 2 = 0 → tag_free_slot s mod 2 = 1.
Proof.
  intros Hs. unfold tag_free_slot. rewrite lor_1_even by done.
  rewrite Z.add_mod, Hs by lia. reflexivity.
Qed.

Lemma Is_long_tag s : s mod 2 = 0 → Is_long (tag_free_slot s) = true.
Proof.
  intros Hs. unfold Is_long. rewrite low_bit_eq, tag_odd by done. reflexivity.
Qed.

Lemma is_free_slot_spec v p :
  valid_base p →
  is_free_slot v p = true ↔ POOL_SIZE * (v / POOL_SIZE) = p ∧ v mod 2 = 1.
Proof.
  intros Hp. unfold is_free_slot.
  rewrite free_mask_eq, lor_1_even by by apply valid_base_even.
  rewrite Z.eqb_eq.
  pose proof (Z.mod_pos_bound v 2 ltac:(lia)) as Hb.
  destruct Hp as [Hp0 Hpm]. rewrite POOL_SIZE_val in *.
  apply Z.mod_divide in Hpm as [k Hk]; [|lia]. lia.
Qed.

Lemma is_free_slot_tag_base p : valid_base p → is_free_slot (tag_free_slot p) p = true.
Proof.
  intros Hp. apply is_free_slot_spec; [done|].
  split; [|by apply tag_odd, valid_base_even].
  unfold tag_free_slot. rewrite lor_1_even by by apply valid_base_even.
  apply base_div; [done|]. rewrite POOL_SIZE_val. lia.
Qed.

Lemma is_free_slot_tag_slot p i :
  valid_base p → (i < CAP)%nat →
  is_free_slot (tag_free_slot (slot_addr p i)) p = true.
Proof.
  intros Hp Hi. apply is_free_slot_spec; [done|].
  split; [|by apply tag_odd, slot_addr_even].
  unfold tag_free_slot. rewrite lor_1_even by by apply slot_addr_even.
  unfold slot_addr. rewrite <- !Z.add_assoc. apply base_div; [done|].
  pose proof (slot_offset i Hi). lia.
Qed.

(** The capacity is used through [CAP_val] from here on. *)
Global Opaque CAP.

(** *** Memory accesses *)

Lemma load_pool_ok p x s :
  p ≠ 0 → heap s !! p = Some x → load_pool p s = Ok (x, s).
Proof.
  intros Hp Hx. unfold load_pool.
  destruct (Z.eqb_spec p 0); [done|]. by rewrite Hx.
Qed.

Lemma load_pool_null s : load_pool 0 s = Err NullDeref.
Proof. reflexivity. Qed.

Lemma load_pool_inv p x s s' :
  load_pool p s = Ok (x, s') → s' = s ∧ p ≠ 0 ∧ heap s !! p = Some x.
Proof.
  unfold load_pool. destruct (Z.eqb_spec p 0); [done|].
  destruct (heap s !! p); [|done]. intros [= -> ->]. done.
Qed.

Lemma update_pool_ok p f x s :
  p ≠ 0 → heap s !! p = Some x →
  update_pool p f s = Ok (tt, with_heap (<[p := f x]> (heap s)) s).
Proof.
  intros Hp Hx. unfold update_pool.
  by rewrite (bind_ok _ _ _ _ _ (load_pool_ok _ _ _ Hp Hx)).
Qed.

Lemma load_slot_ok b i x v s :
  valid_base b → (i < CAP)%nat → heap s !! b = Some x → roots x !! i = Some v →
  load_slot (slot_addr b i) s = Ok (v, s).
Proof.
  intros Hb Hi Hx Hv. unfold load_slot.
  rewrite get_pool_header_slot, slot_index_slot by done.
  rewrite (bind_ok _ _ _ _ _ (load_pool_ok _ _ _ (valid_base_nonzero _ Hb) Hx)).
  by rewrite Hv.
Qed.

Lemma store_slot_ok b i x v s :
  valid_base b → (i < CAP)%nat → heap s !! b = Some x →
  length (roots x) = CAP →
  store_slot (slot_addr b i) v s
  = Ok (tt, with_heap (<[b := with_roots (<[i := v]> (roots x)) x]> (heap s)) s).
Proof.
  intros Hb Hi Hx Hl. unfold store_slot.
  rewrite get_pool_header_slot, slot_index_slot by done.
  rewrite (bind_ok _ _ _ _ _ (load_pool_ok _ _ _ (valid_base_nonzero _ Hb) Hx)).
  destruct (decide (i < length (roots x))%nat) as [|Hn]; [|lia].
  by rewrite (update_pool_ok _ _ x) by (done || by apply valid_base_nonzero).
Qed.

(** *** Free list management *)

Lemma free_list_push_ok b i fl x s :
  valid_base b → (i < CAP)%nat → heap s !! b = Some x →
  length (roots x) = CAP →
  free_list_push (slot_addr b i) b fl s
  = Ok (tt, with_heap
              (<[b := with_free_list fl (slot_addr b i)
                        (with_roots (<[i := tag_free_slot (free_list_of fl x)]>
                                       (roots x)) x)]> (heap s)) s).
Proof.
  intros Hb Hi Hx Hl. unfold free_list_push.
  pose proof (valid_base_nonzero _ Hb) as Hb0.
  rewrite (bind_ok _ _ _ _ _ (load_pool_ok _ _ _ Hb0 Hx)).
  rewrite (bind_ok _ _ _ _ _ (store_slot_ok _ _ _ _ _ Hb Hi Hx Hl)).
  erewrite update_pool_ok; [|done|by apply lookup_insert_eq].
  simpl. by rewrite insert_insert_eq.
Qed.

Lemma free_list_pop_ok b i fl x v s :
  valid_base b → (i < CAP)%nat → heap s !! b = Some x →
  free_list_of fl x = slot_addr b i → roots x !! i = Some v →
  free_list_pop b fl s
  = Ok (slot_addr b i,
        with_heap (<[b := with_free_list fl (untag_free_slot v) x]> (heap s)) s).
Proof.
  intros Hb Hi Hx Hfl Hv. unfold free_list_pop.
  pose proof (valid_base_nonzero _ Hb) as Hb0.
  rewrite (bind_ok _ _ _ _ _ (load_pool_ok _ _ _ Hb0 Hx)).
  rewrite Hfl.
  rewrite (bind_ok _ _ _ _ _ (load_slot_ok _ _ _ _ _ Hb Hi Hx Hv)).
  rewrite (bind_ok _ _ _ _ _ (update_pool_ok _ _ _ _ Hb0 Hx)).
  done.
Qed.

(** *** Free lists in the cells of a pool *)

Lemma chain_frame b r hd l i v :
  chain b r hd l → i ∉ l → chain b (<[i := v]> r) hd l.
Proof.
  revert hd. induction l as [|j l IH]; intros hd; simpl; [done|].
  intros (-> & Hj & nx & Hnx & Hl) Hi.
  apply not_elem_of_cons in Hi as [Hij Hil].
  split_and!; [done..|]. exists nx. split; [|by apply IH].
  by rewrite list_lookup_insert_ne.
Qed.

Lemma chain_bound b r hd l i : chain b r hd l → i ∈ l → (i < CAP)%nat.
Proof.
  revert hd. induction l as [|j l IH]; intros hd; simpl.
  - by intros _ ?%elem_of_nil.
  - intros (_ & Hj & nx & _ & Hl) [->|Hi]%elem_of_cons; [done|]. by eapply IH.
Qed.

Lemma chain_even b r hd l : valid_base b → chain b r hd l → hd mod 2 = 0.
Proof.
  intros Hb. destruct l as [|j l]; simpl.
  - intros ->. by apply valid_base_even.
  - intros (-> & _). by apply slot_addr_even.
Qed.

Lemma chain_nil_iff b r hd l : chain b r hd l → hd = b ↔ l = [].
Proof.
  destruct l as [|j l]; simpl; [done|].
  intros (-> & _). split; [|done]. by intros ?%slot_addr_not_base.
Qed.

Lemma chain_is_empty b r hd l :
  chain b r hd l → is_empty_free_list hd b = true ↔ l = [].
Proof.
  intros H. unfold is_empty_free_list. rewrite Z.eqb_eq. by eapply chain_nil_iff.
Qed.

(** The cells of a chain are distinct and below the capacity, so there are
    no more of them than the pool has cells. *)
Lemma bounded_nodup_length (l : list nat) (n : nat) :
  NoDup l → (∀ i, i ∈ l → (i < n)%nat) → (length l ≤ n)%nat.
Proof.
  intros Hnd Hb.
  transitivity (length (seq 0 n)); [|by rewrite length_seq].
  apply submseteq_length, NoDup_submseteq; [done|].
  intros i Hi. apply elem_of_seq. specialize (Hb i Hi). lia.
Qed.

Lemma pool_lists_bound b x live lmaj lmin i :
  pool_lists b x live lmaj lmin → i ∈ lmaj ++ lmin → (i < CAP)%nat.
Proof.
  intros H [Hi|Hi]%elem_of_app.
  - eapply chain_bound; [apply (pl_major _ _ _ _ _ H)|done].
  - eapply chain_bound; [apply (pl_minor _ _ _ _ _ H)|done].
Qed.

Lemma pool_lists_length b x live lmaj lmin :
  pool_lists b x live lmaj lmin → (length (lmaj ++ lmin) ≤ CAP)%nat.
Proof.
  intros H. apply bounded_nodup_length; [apply H|].
  intros i. by eapply pool_lists_bound.
Qed.

Lemma pool_lists_count_range b x live lmaj lmin :
  pool_lists b x live lmaj lmin → 0 ≤ alloc_count x ≤ POOL_ROOTS_CAPACITY.
Proof.
  intros H. pose proof (pool_lists_length _ _ _ _ _ H).
  rewrite (pl_count _ _ _ _ _ H). pose proof CAP_val. rewrite capacity_val. lia.
Qed.

(** A pool that is not full has a cell on one of its free lists. *)
Lemma pool_lists_not_full b x live lmaj lmin :
  pool_lists b x live lmaj lmin → is_full_pool x = false →
  lmaj ≠ [] ∨ lmin ≠ [].
Proof.
  intros H Hf. unfold is_full_pool in Hf. apply Z.eqb_neq in Hf.
  rewrite (pl_count _ _ _ _ _ H) in Hf.
  destruct lmaj; [|by left]. destruct lmin; [|by right].
  simpl in Hf. lia.
Qed.

(** **** Taking the first cell of a free list *)

Lemma pool_lists_pop_major b x live i lmaj lmin :
  valid_base b →
  pool_lists b x live (i :: lmaj) lmin →
  ∃ v, roots x !! i = Some v ∧ major_free_list x = slot_addr b i ∧
       (i < CAP)%nat ∧ slot_addr b i ∉ live ∧
       pool_lists b (with_major_free_list (untag_free_slot v)
                       (with_alloc_count (alloc_count x + 1) x))
                  ({[slot_addr b i]} ∪ live) lmaj lmin.
Proof.
  intros Hb H. destruct (pl_major _ _ _ _ _ H) as (Hhd & Hi & nx & Hnx & Hl).
  exists (tag_free_slot nx). split_and!; [done..| |].
  { apply (pl_live _ _ _ _ _ H); [done|]. set_solver. }
  pose proof (pl_nodup _ _ _ _ _ H) as Hnd. simpl in Hnd.
  apply NoDup_cons in Hnd as [Hni Hnd].
  rewrite untag_tag by by eapply chain_even.
  split; simpl; [apply H|done|apply H|done| | |apply H].
  - intros j Hj. pose proof (pl_live _ _ _ _ _ H j Hj) as Hlv. simpl in Hlv.
    rewrite elem_of_cons in Hlv.
    rewrite elem_of_union, elem_of_singleton.
    split.
    + intros Hin [Heq|Hlive].
      * apply slot_addr_inj in Heq as ->. done.
      * apply Hlv in Hlive; [done|by right].
    + intros Hn. destruct (proj2 Hlv) as [->|?]; [tauto| |done].
      exfalso. apply Hn. by left.
  - rewrite (pl_count _ _ _ _ _ H). simpl length. lia.
Qed.

Lemma pool_lists_pop_minor b x live i lmaj lmin :
  valid_base b →
  pool_lists b x live lmaj (i :: lmin) →
  ∃ v, roots x !! i = Some v ∧ minor_free_list x = slot_addr b i ∧
       (i < CAP)%nat ∧ slot_addr b i ∉ live ∧
       pool_lists b (with_minor_free_list (untag_free_slot v)
                       (with_alloc_count (alloc_count x + 1) x))
                  ({[slot_addr b i]} ∪ live) lmaj lmin.
Proof.
  intros Hb H. destruct (pl_minor _ _ _ _ _ H) as (Hhd & Hi & nx & Hnx & Hl).
  exists (tag_free_slot nx). split_and!; [done..| |].
  { apply (pl_live _ _ _ _ _ H); [done|]. set_solver. }
  pose proof (pl_nodup _ _ _ _ _ H) as Hnd.
  apply NoDup_app in Hnd as (Hnd1 & Hdisj & [Hni Hnd2]%NoDup_cons).
  rewrite untag_tag by by eapply chain_even.
  split; simpl; [apply H|apply H|done| | | |].
  - apply NoDup_app. split_and!; [done| |done].
    intros j Hj Hj'. apply (Hdisj j Hj). by right.
  - intros j Hj. pose proof (pl_live _ _ _ _ _ H j Hj) as Hlv.
    rewrite elem_of_app, elem_of_cons in Hlv.
    rewrite elem_of_app, elem_of_union, elem_of_singleton.
    split.
    + intros Hin [Heq|Hlive].
      * apply slot_addr_inj in Heq as ->.
        destruct Hin as [Hin|Hin]; [|done]. apply (Hdisj i Hin). by left.
      * apply Hlv in Hlive; [done|tauto].
    + intros Hn. destruct (proj2 Hlv) as [?|[->|?]]; [tauto|by left| |by right].
      exfalso. apply Hn. by left.
  - rewrite (pl_count _ _ _ _ _ H). rewrite !length_app. simpl length. lia.
  - intros Hne. destruct (pl_last _ _ _ _ _ H) as (j & Hj & Hlast); [done|].
    exists j. split; [|done]. destruct lmin; [done|]. done.
Qed.

(** **** Writing a cell that is in use *)

Lemma pool_lists_store b x live lmaj lmin i v :
  pool_lists b x live lmaj lmin → (i < CAP)%nat → slot_addr b i ∈ live →
  pool_lists b (with_roots (<[i := v]> (roots x)) x) live lmaj lmin.
Proof.
  intros H Hi Hlive.
  assert (i ∉ lmaj ++ lmin) as Hni.
  { intros Hin. by apply (pl_live _ _ _ _ _ H i Hi) in Hin. }
  apply not_elem_of_app in Hni as [Hn1 Hn2].
  split; simpl; [|apply chain_frame; [apply H|done]..|apply H|apply H|apply H|apply H].
  rewrite length_insert. apply H.
Qed.

(** **** Putting a cell back on a free list *)

Lemma pool_lists_push_major b x live lmaj lmin i :
  valid_base b →
  pool_lists b x live lmaj lmin → (i < CAP)%nat → slot_addr b i ∈ live →
  pool_lists b
    (with_alloc_count (alloc_count x - 1)
       (with_major_free_list (slot_addr b i)
          (with_roots (<[i := tag_free_slot (major_free_list x)]> (roots x)) x)))
    (live ∖ {[slot_addr b i]}) (i :: lmaj) lmin.
Proof.
  intros Hb H Hi Hlive.
  assert (i ∉ lmaj ++ lmin) as Hni.
  { intros Hin. by apply (pl_live _ _ _ _ _ H i Hi) in Hin. }
  pose proof Hni as [Hn1 Hn2]%not_elem_of_app.
  split; simpl.
  - rewrite length_insert. apply H.
  - split_and!; [done..|]. exists (major_free_list x). split.
    + apply list_lookup_insert_eq. rewrite (pl_length _ _ _ _ _ H). done.
    + apply chain_frame; [apply H|done].
  - apply chain_frame; [apply H|done].
  - apply NoDup_cons. split; [done|apply H].
  - intros j Hj. pose proof (pl_live _ _ _ _ _ H j Hj) as Hlv.
    rewrite elem_of_cons, elem_of_difference, elem_of_singleton.
    split.
    + intros [->|Hin]; [tauto|]. apply Hlv in Hin. tauto.
    + intros Hn. destruct (decide (j = i)) as [->|Hne]; [by left|right].
      apply Hlv. intros Hl. apply Hn. split; [done|].
      intros Heq. by apply slot_addr_inj in Heq.
  - rewrite (pl_count _ _ _ _ _ H). simpl length. lia.
  - apply H.
Qed.

Lemma pool_lists_push_minor b x live lmaj lmin i :
  valid_base b →
  pool_lists b x live lmaj lmin → (i < CAP)%nat → slot_addr b i ∈ live →
  pool_lists b
    (with_alloc_count (alloc_count x - 1)
       (with_minor_free_list (slot_addr b i)
          (with_roots (<[i := tag_free_slot (minor_free_list x)]> (roots x))
             (if is_empty_free_list (minor_free_list x) b
              then with_last_minor_free_slot (slot_addr b i) x else x))))
    (live ∖ {[slot_addr b i]}) lmaj (i :: lmin).
Proof.
  intros Hb H Hi Hlive.
  assert (i ∉ lmaj ++ lmin) as Hni.
  { intros Hin. by apply (pl_live _ _ _ _ _ H i Hi) in Hin. }
  pose proof Hni as [Hn1 Hn2]%not_elem_of_app.
  pose proof (chain_is_empty _ _ _ _ (pl_minor _ _ _ _ _ H)) as Hemp.
  assert (∀ y : pool, roots (if is_empty_free_list (minor_free_list x) b
                     then with_last_minor_free_slot (slot_addr b i) x else x)
              = roots x) as Hr by (intros; by destruct is_empty_free_list).
  split; simpl; rewrite ?Hr.
  - rewrite length_insert. apply H.
  - replace (major_free_list _) with (major_free_list x)
      by by destruct is_empty_free_list.
    apply chain_frame; [apply H|done].
  - split_and!; [done..|]. exists (minor_free_list x). split.
    + apply list_lookup_insert_eq. rewrite (pl_length _ _ _ _ _ H). done.
    + apply chain_frame; [apply H|done].
  - apply NoDup_app. pose proof (pl_nodup _ _ _ _ _ H) as (?&Hd&?)%NoDup_app.
    split_and!; [done| |by apply NoDup_cons].
    intros j Hj [->|Hj']%elem_of_cons; [done|]. by apply (Hd j).
  - intros j Hj. pose proof (pl_live _ _ _ _ _ H j Hj) as Hlv.
    rewrite elem_of_app in Hlv.
    rewrite elem_of_app, elem_of_cons, elem_of_difference, elem_of_singleton.
    split.
    + intros [Hin|[->|Hin]]; [|tauto|].
      * assert (slot_addr b j ∉ live) by (apply Hlv; by left). tauto.
      * assert (slot_addr b j ∉ live) by (apply Hlv; by right). tauto.
    + intros Hn. destruct (decide (j = i)) as [->|Hne]; [right; by left|].
      destruct (proj2 Hlv) as [?|?]; [|by left|right; by right].
      intros Hl. apply Hn. split; [done|].
      intros Heq. by apply slot_addr_inj in Heq.
  - replace (alloc_count _) with (alloc_count x)
      by by destruct is_empty_free_list.
    rewrite (pl_count _ _ _ _ _ H). rewrite !length_app. simpl length. lia.
  - intros _. destruct lmin as [|k lmin].
    + exists i. split; [done|].
      replace (is_empty_free_list (minor_free_list x) b) with true
        by (symmetry; by apply Hemp). done.
    + destruct (pl_last _ _ _ _ _ H) as (j & Hj & Hlast); [done|].
      exists j. split; [done|].
      destruct (is_empty_free_list (minor_free_list x) b); [|done].
      by destruct Hemp as [Hemp _]; specialize (Hemp eq_refl).
Qed.

(** *** Links between pools *)

Lemma bodies_eq_refl h : bodies_eq h h.
Proof. done. Qed.

Lemma bodies_eq_trans h1 h2 h3 :
  bodies_eq h1 h2 → bodies_eq h2 h3 → bodies_eq h1 h3.
Proof. intros H1 H2 a. by rewrite H2, H1. Qed.

Lemma bodies_eq_is_Some h h' a :
  bodies_eq h h' → is_Some (h' !! a) ↔ is_Some (h !! a).
Proof.
  intros H. specialize (H a). rewrite <- !(fmap_is_Some body). by rewrite H.
Qed.

Lemma same_ctl_refl s : same_ctl s s.
Proof. done. Qed.

Lemma same_ctl_trans s1 s2 s3 : same_ctl s1 s2 → same_ctl s2 s3 → same_ctl s1 s3.
Proof. unfold same_ctl. intros (?&?&?&?) (?&?&?&?). split_and!; congruence. Qed.

Lemma links_out_refl h l : links_out h h l.
Proof. done. Qed.

Lemma links_out_trans h1 h2 h3 l :
  links_out h1 h2 l → links_out h2 h3 l → links_out h1 h3 l.
Proof.
  intros H1 H2 a Ha. destruct (H1 a Ha) as [<- <-]. by apply H2.
Qed.

Lemma links_out_mono h h' l l' :
  links_out h h' l → (∀ a, a ∈ l → a ∈ l') → links_out h h' l'.
Proof. intros H Hsub a Ha. apply H. intros Hin. by apply Ha, Hsub. Qed.

Lemma link_upd_out h h' p q : link_upd h h' p q → links_out h h' [p; q].
Proof.
  intros (Hn & Hp & _) a Ha.
  apply not_elem_of_cons in Ha as [? Ha]. apply not_elem_of_cons in Ha as [? _].
  split; [by apply Hn|by apply Hp].
Qed.

Lemma lnk_is_Some h a b : lnk h a b → is_Some (h !! a) ∧ is_Some (h !! b).
Proof.
  intros [H1 H2]. split.
  - apply (fmap_is_Some next). rewrite H1. eauto.
  - apply (fmap_is_Some prev). rewrite H2. eauto.
Qed.

Lemma lnk_frame h h' l a b :
  links_out h h' l → a ∉ l → b ∉ l → lnk h a b → lnk h' a b.
Proof.
  intros H Ha Hb [H1 H2]. split.
  - by rewrite (proj1 (H a Ha)).
  - by rewrite (proj2 (H b Hb)).
Qed.

Lemma lnk_upd h h' p q a b :
  link_upd h h' p q → a ≠ p → b ≠ q → lnk h a b → lnk h' a b.
Proof.
  intros (Hn & Hp & _) Ha Hb [H1 H2]. split.
  - by rewrite Hn.
  - by rewrite Hp.
Qed.

Lemma lnk_upd_new h h' p q : link_upd h h' p q → lnk h' p q.
Proof. intros (_ & _ & ? & ?). by split. Qed.

(** *** Paths and cycles *)

Lemma lastd_cons a b l : lastd a (b :: l) = lastd b l.
Proof.
  unfold lastd. destruct l as [|c l]; [done|].
  rewrite last_cons_cons. destruct (last (c :: l)) eqn:E; [done|].
  by apply last_None in E.
Qed.

Lemma lastd_snoc a l b : lastd a (l ++ [b]) = b.
Proof. unfold lastd. by rewrite last_snoc. Qed.

Lemma srcs_snoc a l b : srcs a (l ++ [b]) = a :: l.
Proof.
  revert a. induction l as [|c l IH]; intros a; simpl; [done|]. by rewrite IH.
Qed.

Lemma srcs_lastd a l : srcs a l ++ [lastd a l] = a :: l.
Proof.
  revert a. induction l as [|c l IH]; intros a; [done|].
  simpl. rewrite lastd_cons. by rewrite IH.
Qed.

Lemma lastd_elem a l : lastd a l ∈ a :: l.
Proof. rewrite <- srcs_lastd. set_solver. Qed.

Lemma srcs_elem a l x : x ∈ srcs a l → x ∈ a :: l.
Proof. rewrite <- srcs_lastd. set_solver. Qed.

Lemma lastd_not_src a l : NoDup (a :: l) → lastd a l ∉ srcs a l.
Proof.
  rewrite <- srcs_lastd. intros (_ & H & _)%NoDup_app Hin.
  apply (H _ Hin). set_solver.
Qed.

Lemma path_app h a l1 l2 :
  path h a (l1 ++ l2) ↔ path h a l1 ∧ path h (lastd a l1) l2.
Proof.
  revert a. induction l1 as [|b l1 IH]; intros a; simpl.
  - unfold lastd. simpl. tauto.
  - rewrite lastd_cons, IH. tauto.
Qed.

Lemma path_frame h h' l a l0 :
  links_out h h' l → (∀ x, x ∈ a :: l0 → x ∉ l) → path h a l0 → path h' a l0.
Proof.
  intros Hout. revert a. induction l0 as [|b l0 IH]; intros a Hd; simpl; [done|].
  intros [Hl Hp]. split.
  - eapply lnk_frame; [done| | |done]; apply Hd; set_solver.
  - apply IH; [|done]. intros x Hx. apply Hd. set_solver.
Qed.

Lemma path_upd h h' p q a l :
  link_upd h h' p q → p ∉ srcs a l → q ∉ l → path h a l → path h' a l.
Proof.
  intros Hu. revert a. induction l as [|b l IH]; intros a; simpl; [done|].
  intros [Hpa Hps]%not_elem_of_cons [Hqb Hql]%not_elem_of_cons [Hl Hp]. split.
  - eapply lnk_upd; done.
  - by apply IH.
Qed.

Lemma path_is_Some h a l x : path h a l → x ∈ l → is_Some (h !! x).
Proof.
  revert a. induction l as [|b l IH]; intros a; simpl.
  - by intros _ ?%elem_of_nil.
  - intros [Hl Hp] [->|Hx]%elem_of_cons.
    + by apply lnk_is_Some in Hl as [_ ?].
    + by eapply IH.
Qed.

Lemma cyc_is_Some h l x : cyc h l → x ∈ l → is_Some (h !! x).
Proof.
  destruct l as [|a l]; simpl; [by intros _ ?%elem_of_nil|].
  intros Hp Hx. eapply path_is_Some; [done|]. set_solver.
Qed.

Lemma cyc_frame h h' l l0 :
  links_out h h' l → (∀ x, x ∈ l0 → x ∉ l) → cyc h l0 → cyc h' l0.
Proof.
  destruct l0 as [|a l0]; simpl; [done|]. intros Hout Hd.
  apply path_frame with (l := l); [done|]. intros x Hx. apply Hd. set_solver.
Qed.

(** A cycle can be read from any of its pools. *)
Lemma cyc_rot h l1 l2 : cyc h (l1 ++ l2) → cyc h (l2 ++ l1).
Proof.
  destruct l1 as [|a1 l1]; [by rewrite app_nil_r|].
  destruct l2 as [|a2 l2]; [by rewrite app_nil_r|].
  simpl. rewrite <- !app_assoc. simpl.
  rewrite !path_app. simpl. rewrite !path_app. simpl. tauto.
Qed.

(** The links around the head of a cycle. *)
Lemma cyc_head_links h a l :
  cyc h (a :: l) →
  next <$> h !! a = Some (ring_head (l ++ [a])) ∧
  prev <$> h !! a = Some (lastd a l).
Proof.
  simpl. rewrite path_app. simpl. intros [Hp [[Hn Hprev] _]]. split; [|done].
  destruct l as [|b l]; simpl in *.
  - apply Hn.
  - apply Hp.
Qed.

(** *** Ring operations *)

Lemma ring_link_spec p q s :
  p ≠ 0 → q ≠ 0 → is_Some (heap s !! p) → is_Some (heap s !! q) →
  ∃ s', ring_link p q s = Ok (tt, s') ∧
        link_upd (heap s) (heap s') p q ∧ bodies_eq (heap s) (heap s') ∧
        same_ctl s s' ∧
        ring_operations (stat s') = ring_operations (stat s) + 1.
Proof.
  intros Hp Hq [xp Hxp] [xq Hxq]. unfold ring_link.
  rewrite (bind_ok _ _ _ _ _ (update_pool_ok _ _ _ _ Hp Hxp)).
  set (s1 := with_heap _ s).
  assert (∃ y, heap s1 !! q = Some y ∧ body y = body xq ∧ prev y = prev xq
               ∧ (q = p → next y = q) ∧ (q ≠ p → next y = next xq))
    as (y & Hy & Hby & Hpy & Hny1 & Hny2).
  { subst s1. simpl. destruct (decide (q = p)) as [->|Hne].
    - rewrite lookup_insert_eq. exists (with_next p xp).
      assert (xq = xp) as -> by congruence. done.
    - rewrite lookup_insert_ne by done. exists xq. done. }
  rewrite (bind_ok _ _ _ _ _ (update_pool_ok _ _ _ _ Hq Hy)).
  eexists. split; [reflexivity|]. subst s1. simpl.
  split_and!; [| |done|done].
  - split_and!.
    + intros a Ha. destruct (decide (a = q)) as [->|Haq].
      * rewrite lookup_insert_eq, Hxq. simpl. f_equal. by apply Hny2.
      * by rewrite !lookup_insert_ne.
    + intros a Ha. rewrite lookup_insert_ne by done.
      destruct (decide (a = p)) as [->|Hap].
      * by rewrite lookup_insert_eq, Hxp.
      * by rewrite lookup_insert_ne.
    + destruct (decide (p = q)) as [->|Hne].
      * rewrite lookup_insert_eq. simpl. f_equal. by apply Hny1.
      * rewrite lookup_insert_ne, lookup_insert_eq by done. done.
    + by rewrite lookup_insert_eq.
  - intros a. destruct (decide (a = q)) as [->|Haq].
    + rewrite lookup_insert_eq, Hxq. simpl. f_equal.
      unfold body in *. simpl. done.
    + rewrite lookup_insert_ne by done.
      destruct (decide (a = p)) as [->|Hap].
      * rewrite lookup_insert_eq, Hxp. done.
      * by rewrite lookup_insert_ne.
Qed.

Lemma lookup_fmap_Some {A} (f : pool → A) (h : gmap Z pool) a v :
  f <$> h !! a = Some v → ∃ x, h !! a = Some x ∧ f x = v.
Proof. destruct (h !! a) as [x|]; [|done]. intros [= <-]. by exists x. Qed.

Lemma ring_pop_spec a l s :
  cyc (heap s) (a :: l) → NoDup (a :: l) → 0 ∉ a :: l →
  ∃ s', ring_pop a s = Ok ((a, ring_head l), s') ∧
        cyc (heap s') l ∧ cyc (heap s') [a] ∧
        links_out (heap s) (heap s') (a :: l) ∧
        bodies_eq (heap s) (heap s') ∧ same_ctl s s'.
Proof.
  intros Hc Hnd H0.
  assert (a ≠ 0) as Ha0 by (intros ->; apply H0; set_solver).
  pose proof (cyc_head_links _ _ _ Hc) as [Hn Hp].
  apply lookup_fmap_Some in Hn as (x & Hx & Hnx).
  rewrite Hx in Hp. injection Hp as Hpx.
  unfold ring_pop.
  replace (negb (a =? 0)) with true by (symmetry; apply negb_true_iff, Z.eqb_neq; done).
  rewrite (bind_ok _ _ _ _ _ (assert_true _ _)).
  rewrite (bind_ok _ _ _ _ _ (load_pool_ok _ _ _ Ha0 Hx)).
  destruct l as [|b l].
  - simpl in Hnx. rewrite Hnx, Z.eqb_refl.
    exists s.
    split_and!; [done|done|done|apply links_out_refl|apply bodies_eq_refl|apply same_ctl_refl].
  - simpl in Hnx. rewrite lastd_cons in Hpx. rewrite Hnx, Hpx.
    apply NoDup_cons in Hnd as [Hab Hndl].
    assert (b ≠ a) as Hba by (intros ->; apply Hab; set_solver).
    replace (b =? a) with false by (symmetry; by apply Z.eqb_neq).
    pose proof (lastd_elem b l) as Hlast.
    assert (∀ y, y ∈ a :: b :: l → y ≠ 0 ∧ is_Some (heap s !! y)) as Hin.
    { intros y Hy. split; [intros ->; by apply H0|]. by eapply cyc_is_Some. }
    destruct (ring_link_spec (lastd b l) b s) as (s1 & E1 & Hu1 & Hb1 & Hc1 & _);
      [apply Hin; set_solver..|].
    rewrite (bind_ok _ _ _ _ _ E1).
    assert (next <$> heap s1 !! a = Some b) as Hna1.
    { destruct Hu1 as (Hu & _). rewrite Hu; [by rewrite Hx; simpl; f_equal|].
      intros ->. by apply Hab. }
    apply lookup_fmap_Some in Hna1 as (x' & Hx' & Hnx').
    rewrite (bind_ok _ _ _ _ _ (load_pool_ok _ _ _ Ha0 Hx')).
    destruct (ring_link_spec a a s1) as (s2 & E2 & Hu2 & Hb2 & Hc2 & _);
      [done|done|by eauto|by eauto|].
    rewrite (bind_ok _ _ _ _ _ E2). rewrite Hnx'.
    exists s2. split; [done|].
    simpl in Hc. destruct Hc as [Hlab Hc]. apply path_app in Hc as [Hc1' Hc2'].
    split_and!.
    + simpl. apply (path_upd _ _ _ _ _ _ Hu2).
      * rewrite srcs_snoc. done.
      * set_solver.
      * apply path_app. split.
        -- apply (path_upd _ _ _ _ _ _ Hu1); [| |done].
           ++ by apply lastd_not_src.
           ++ by apply NoDup_cons in Hndl as [? _].
        -- simpl. split; [|done]. apply (lnk_upd_new _ _ _ _ Hu1).
    + simpl. split; [|done]. apply (lnk_upd_new _ _ _ _ Hu2).
    + eapply links_out_trans.
      * eapply links_out_mono; [by apply link_upd_out|]. set_solver.
      * eapply links_out_mono; [by apply link_upd_out|]. set_solver.
    + by eapply bodies_eq_trans.
    + by eapply same_ctl_trans.
Qed.

Lemma ring_push_back_spec ls lt s :
  cyc (heap s) ls → cyc (heap s) lt → NoDup (lt ++ ls) → 0 ∉ lt ++ ls →
  ∃ s', ring_push_back (ring_head ls) (ring_head lt) s
        = Ok (ring_head (lt ++ ls), s') ∧
        cyc (heap s') (lt ++ ls) ∧
        links_out (heap s) (heap s') (lt ++ ls) ∧
        bodies_eq (heap s) (heap s') ∧ same_ctl s s'.
Proof.
  intros Hcs Hct Hnd H0. unfold ring_push_back.
  destruct ls as [|a ls].
  { simpl. rewrite app_nil_r. exists s.
    split_and!; [done|done|apply links_out_refl|apply bodies_eq_refl|apply same_ctl_refl]. }
  assert (∀ y, y ∈ lt ++ a :: ls → y ≠ 0 ∧ is_Some (heap s !! y)) as Hin.
  { intros y Hy. split; [intros ->; by apply H0|].
    apply elem_of_app in Hy as [Hy|Hy];
      [by apply (cyc_is_Some _ lt)|by apply (cyc_is_Some _ (a :: ls))]. }
  assert (a ≠ 0) as Ha0 by (apply Hin; set_solver).
  assert (a =? 0 = false) as Ea by by apply Z.eqb_neq.
  destruct lt as [|t lt].
  { simpl. rewrite Ea. exists s.
    split_and!; [done|done|apply links_out_refl|apply bodies_eq_refl|apply same_ctl_refl]. }
  assert (t ≠ 0) as Ht0 by (apply Hin; set_solver).
  assert (t =? 0 = false) as Et by by apply Z.eqb_neq.
  change (ring_head (a :: ls)) with a. change (ring_head (t :: lt)) with t. rewrite Ea, Et.
  pose proof (cyc_head_links _ _ _ Hct) as [_ Hpt].
  apply lookup_fmap_Some in Hpt as (xt & Hxt & Hpt).
  pose proof (cyc_head_links _ _ _ Hcs) as [_ Hpa].
  apply lookup_fmap_Some in Hpa as (xa & Hxa & Hpa).
  rewrite (bind_ok _ _ _ _ _ (load_pool_ok _ _ _ Ht0 Hxt)).
  rewrite (bind_ok _ _ _ _ _ (load_pool_ok _ _ _ Ha0 Hxa)).
  rewrite Hpt, Hpa.
  pose proof (lastd_elem t lt) as Hlt. pose proof (lastd_elem a ls) as Hls.
  destruct (ring_link_spec (lastd t lt) a s) as (s1 & E1 & Hu1 & Hb1 & Hc1 & _);
    [apply Hin; set_solver..|].
  rewrite (bind_ok _ _ _ _ _ E1).
  destruct (ring_link_spec (lastd a ls) t s1) as (s2 & E2 & Hu2 & Hb2 & Hc2 & _).
  { apply Hin; set_solver. }
  { done. }
  { apply (bodies_eq_is_Some _ _ _ Hb1), Hin. set_solver. }
  { apply (bodies_eq_is_Some _ _ _ Hb1), Hin. set_solver. }
  rewrite (bind_ok _ _ _ _ _ E2).
  exists s2. split; [done|].
  assert (NoDup (t :: lt) ∧ NoDup (a :: ls) ∧
          ∀ y, y ∈ t :: lt → y ∈ a :: ls → False) as (Hndt & Hnds & Hdj).
  { change (NoDup ((t :: lt) ++ a :: ls)) in Hnd.
    apply NoDup_app in Hnd as (? & ? & ?). split_and!; [done..|]. eauto. }
  assert (t ∉ lt ∧ a ∉ ls) as [Htl Hal].
  { by apply NoDup_cons in Hndt as [? _], Hnds as [? _]. }
  assert (∀ y, y ∈ srcs t lt → y ∈ t :: lt) as Hst by apply srcs_elem.
  assert (∀ y, y ∈ srcs a ls → y ∈ a :: ls) as Hsa by apply srcs_elem.
  pose proof (lastd_not_src _ _ Hndt) as Hlt'.
  pose proof (lastd_not_src _ _ Hnds) as Hls'.
  clear Hin H0 Hnd E1 E2 Hxt Hxa Hpt Hpa.
  split_and!.
  - simpl. simpl in Hct, Hcs.
    apply path_app in Hct as [Hct _]. apply path_app in Hcs as [Hcs _].
    rewrite <- app_assoc. simpl.
    apply path_app. split; [|simpl; split].
    + apply (path_upd _ _ _ _ _ _ Hu2).
      * intros Hin'%Hst. by apply (Hdj (lastd a ls)).
      * done.
      * apply (path_upd _ _ _ _ _ _ Hu1); [done| |done].
        intros Hin'. apply (Hdj a); [by right|by left].
    + apply (lnk_upd _ _ _ _ _ _ Hu2); [| |apply (lnk_upd_new _ _ _ _ Hu1)].
      * intros Heq. rewrite Heq in Hlt. by apply (Hdj (lastd a ls)).
      * intros ->. apply (Hdj t); by left.
    + apply path_app. split;
        [|simpl; split; [apply (lnk_upd_new _ _ _ _ Hu2)|done]].
      apply (path_upd _ _ _ _ _ _ Hu2).
      * done.
      * intros Hin'. apply (Hdj t); [by left|by right].
      * apply (path_upd _ _ _ _ _ _ Hu1); [| |done].
        -- intros Hin'%Hsa. by apply (Hdj (lastd t lt)).
        -- done.
  - eapply links_out_trans.
    + eapply links_out_mono; [by apply link_upd_out|].
      intros y Hy. apply elem_of_app.
      apply elem_of_cons in Hy as [->|Hy]; [by left|].
      apply elem_of_cons in Hy as [->|Hy]; [right; by left|].
      by apply elem_of_nil in Hy.
    + eapply links_out_mono; [by apply link_upd_out|].
      intros y Hy. apply elem_of_app.
      apply elem_of_cons in Hy as [->|Hy]; [by right|].
      apply elem_of_cons in Hy as [->|Hy]; [left; by left|].
      by apply elem_of_nil in Hy.
  - by eapply bodies_eq_trans.
  - by eapply same_ctl_trans.
Qed.

Lemma ring_head_elem l : l ≠ [] → ring_head l ∈ l.
Proof. destruct l; [done|]. intros _. by left. Qed.

Lemma ring_head_neq b l : b ≠ 0 → b ∉ l → b ≠ ring_head l.
Proof.
  intros Hb Hn ->. destruct l as [|a l]; [done|]. apply Hn. by left.
Qed.

(** A pool leaves the cycle it is in, wherever it stands in it. *)
Lemma ring_remove_spec l1 b l2 s :
  cyc (heap s) (l1 ++ b :: l2) → NoDup (l1 ++ b :: l2) → 0 ∉ l1 ++ b :: l2 →
  ∃ s', ring_pop b s = Ok ((b, ring_head (l2 ++ l1)), s') ∧
        cyc (heap s') (l1 ++ l2) ∧ cyc (heap s') [b] ∧
        links_out (heap s) (heap s') (l1 ++ b :: l2) ∧
        bodies_eq (heap s) (heap s') ∧ same_ctl s s'.
Proof.
  intros Hc Hnd H0.
  assert (l1 ++ b :: l2 ≡ₚ b :: l2 ++ l1) as Hperm.
  { rewrite (Permutation_app_comm l1). done. }
  destruct (ring_pop_spec b (l2 ++ l1) s) as (s' & E & Hc1 & Hc2 & Ho & Hb & Hctl).
  - by apply (cyc_rot _ l1 (b :: l2)).
  - by rewrite <- Hperm.
  - by rewrite <- Hperm.
  - exists s'. split_and!; [done|by apply cyc_rot|done| |done|done].
    eapply links_out_mono; [done|]. intros y. by rewrite Hperm.
Qed.

Lemma pool_remove_spec b lp lf s :
  ring (heap s) (pools s) lp → ring (heap s) (full_pools s) lf →
  NoDup (lp ++ lf) → 0 ∉ lp ++ lf → b ∈ lp ++ lf →
  ∃ s' lp' lf',
    pool_remove b s = Ok (b, s') ∧
    ring (heap s') (pools s') lp' ∧ ring (heap s') (full_pools s') lf' ∧
    cyc (heap s') [b] ∧
    ((∃ l1 l2, lp = l1 ++ b :: l2 ∧ lp' = l1 ++ l2 ∧ lf' = lf) ∨
     (∃ l1 l2, lf = l1 ++ b :: l2 ∧ lf' = l1 ++ l2 ∧ lp' = lp)) ∧
    bodies_eq (heap s) (heap s') ∧ setup s' = setup s ∧
    live_pools (stat s') = live_pools (stat s).
Proof.
  intros [Hhp Hcp] [Hhf Hcf] Hnd H0 Hb.
  assert (b ≠ 0) as Hb0 by (intros ->; done).
  apply NoDup_app in Hnd as (Hndp & Hdisj & Hndf).
  assert (0 ∉ lp ∧ 0 ∉ lf) as [H0p H0f] by by apply not_elem_of_app.
  unfold pool_remove.
  apply elem_of_app in Hb as [Hb|Hb].
  - apply list_elem_of_split in Hb as (l1 & l2 & ->).
    destruct (ring_remove_spec l1 b l2 s) as (s' & E & Hc1 & Hc2 & Ho & Hbd & Hctl);
      [done..|].
    destruct Hctl as (Ep & Ef & Es & El).
    rewrite (bind_ok _ _ _ _ _ E). simpl fst. simpl snd.
    rewrite bind_gets, Ep, Hhp.
    assert (b ∉ lf) as Hbf by (apply Hdisj; set_solver).
    assert (cyc (heap s') lf) as Hcf'.
    { eapply cyc_frame; [done| |done]. intros y Hy Hy'. by apply (Hdisj y). }
    destruct l1 as [|c l1].
    + simpl. rewrite Z.eqb_refl. rewrite bind_modify, bind_gets. simpl.
      rewrite Ef, Hhf.
      replace (b =? ring_head lf) with false
        by (symmetry; by apply Z.eqb_neq, ring_head_neq).
      rewrite bind_ret. eexists _, l2, lf. split; [reflexivity|].
      rewrite app_nil_r in *.
      refine (conj _ (conj _ (conj Hc2 (conj _ (conj Hbd (conj Es El)))))).
      * by split.
      * split; [simpl; congruence|done].
      * left. by exists [], l2.
    + simpl ring_head.
      assert (b ≠ c) as Hbc.
      { intros ->. apply NoDup_cons in Hndp as [Hn _]. apply Hn. set_solver. }
      replace (b =? c) with false by (symmetry; by apply Z.eqb_neq).
      rewrite bind_ret, bind_gets, Ef, Hhf.
      replace (b =? ring_head lf) with false
        by (symmetry; by apply Z.eqb_neq, ring_head_neq).
      rewrite bind_ret. exists s', ((c :: l1) ++ l2), lf.
      split; [reflexivity|].
      refine (conj _ (conj _ (conj Hc2 (conj _ (conj Hbd (conj Es El)))))).
      * split; [|done]. by rewrite Ep, Hhp.
      * split; [|done]. by rewrite Ef.
      * left. by exists (c :: l1), l2.
  - apply list_elem_of_split in Hb as (l1 & l2 & ->).
    destruct (ring_remove_spec l1 b l2 s) as (s' & E & Hc1 & Hc2 & Ho & Hbd & Hctl);
      [done..|].
    destruct Hctl as (Ep & Ef & Es & El).
    rewrite (bind_ok _ _ _ _ _ E). simpl fst. simpl snd.
    rewrite bind_gets, Ep, Hhp.
    assert (b ∉ lp) as Hbp by (intros Hin; apply (Hdisj b Hin); set_solver).
    assert (cyc (heap s') lp) as Hcp'.
    { eapply cyc_frame; [done| |done]. intros y Hy Hy'. by apply (Hdisj y). }
    replace (b =? ring_head lp) with false
      by (symmetry; by apply Z.eqb_neq, ring_head_neq).
    rewrite bind_ret, bind_gets, Ef, Hhf.
    destruct l1 as [|c l1].
    + simpl. rewrite Z.eqb_refl. rewrite bind_modify.
      eexists _, lp, l2. split; [reflexivity|].
      rewrite app_nil_r in *.
      refine (conj _ (conj _ (conj Hc2 (conj _ (conj Hbd (conj Es El)))))).
      * split; [|done]. simpl. by rewrite Ep.
      * by split.
      * right. by exists [], l2.
    + simpl ring_head.
      assert (b ≠ c) as Hbc.
      { intros ->. apply NoDup_cons in Hndf as [Hn _]. apply Hn. set_solver. }
      replace (b =? c) with false by (symmetry; by apply Z.eqb_neq).
      rewrite bind_ret. exists s', lp, ((c :: l1) ++ l2).
      split; [reflexivity|].
      refine (conj _ (conj _ (conj Hc2 (conj _ (conj Hbd (conj Es El)))))).
      * split; [|done]. by rewrite Ep.
      * split; [|done]. by rewrite Ef, Hhf.
      * right. by exists (c :: l1), l2.
Qed.

(** *** The invariant under local changes *)

Lemma pool_lists_body b x x' live lmaj lmin :
  body x' = body x → pool_lists b x live lmaj lmin →
  pool_lists b x' live lmaj lmin.
Proof.
  unfold body. intros [= E1 E2 E3 E4 E5] H.
  split; rewrite ?E1, ?E2, ?E3, ?E4, ?E5; apply H.
Qed.

Lemma pool_ok_body b x x' live : body x' = body x → pool_ok b x live → pool_ok b x' live.
Proof.
  intros Hb (lmaj & lmin & H). exists lmaj, lmin. by eapply pool_lists_body.
Qed.

Lemma pool_lists_live b x live live' lmaj lmin :
  (∀ i, (i < CAP)%nat → slot_addr b i ∈ live' ↔ slot_addr b i ∈ live) →
  pool_lists b x live lmaj lmin → pool_lists b x live' lmaj lmin.
Proof.
  intros Hl H. split; try apply H.
  intros i Hi. rewrite (pl_live _ _ _ _ _ H i Hi). by rewrite (Hl i Hi).
Qed.

Lemma pool_ok_live b x live live' :
  (∀ i, (i < CAP)%nat → slot_addr b i ∈ live' ↔ slot_addr b i ∈ live) →
  pool_ok b x live → pool_ok b x live'.
Proof.
  intros Hl (lmaj & lmin & H). exists lmaj, lmin. by eapply pool_lists_live.
Qed.

Lemma Inv_ext s s' live :
  Inv s live → heap s' = heap s → pools s' = pools s →
  full_pools s' = full_pools s → setup s' = setup s → Inv s' live.
Proof.
  intros [H1 H2 H3 H4 H5] Eh Ep Ef Es.
  split; rewrite ?Eh, ?Ep, ?Ef, ?Es; done.
Qed.

Lemma update_links_out (h : gmap Z pool) b x x' :
  h !! b = Some x → next x' = next x → prev x' = prev x →
  links_out h (<[b := x']> h) [].
Proof.
  intros Hx Hn Hp a _. destruct (decide (a = b)) as [->|Hne].
  - rewrite lookup_insert_eq, Hx. simpl. by rewrite Hn, Hp.
  - by rewrite lookup_insert_ne.
Qed.

Lemma ring_update h hd l b x x' :
  h !! b = Some x → next x' = next x → prev x' = prev x →
  ring h hd l → ring (<[b := x']> h) hd l.
Proof.
  intros Hx Hn Hp [Hh Hc]. split; [done|].
  eapply cyc_frame; [by eapply update_links_out| |done].
  intros y _ Hy. by apply elem_of_nil in Hy.
Qed.

(** A pool [b] is rewritten, its links kept; the handles in use change in
    the cells of [b] only. *)
Lemma Inv_update s live live' b x x' :
  Inv s live → heap s !! b = Some x →
  next x' = next x → prev x' = prev x →
  pool_ok b x' live' →
  (∀ b' i, b' ≠ b → valid_base b' → (i < CAP)%nat →
           slot_addr b' i ∈ live' ↔ slot_addr b' i ∈ live) →
  (∀ h, h ∈ live' → h ∈ live ∨ ∃ i, (i < CAP)%nat ∧ h = slot_addr b i) →
  Inv (with_heap (<[b := x']> (heap s)) s) live'.
Proof.
  intros [H1 H2 H3 H4 H5] Hx Hn Hp Hok Hfr Hnew.
  assert (∀ a, is_Some (<[b := x']> (heap s) !! a) ↔ is_Some (heap s !! a)) as Hdom.
  { intros a. rewrite lookup_insert_is_Some. split.
    - intros [<-|[_ ?]]; [by eexists|done].
    - intros Ha. destruct (decide (b = a)); [by left|by right]. }
  split; simpl.
  - done.
  - destruct H2 as (lp & lf & Hrp & Hrf & Hnd & Hd). exists lp, lf.
    refine (conj _ (conj _ (conj Hnd _)));
      [by eapply ring_update|by eapply ring_update|].
    intros a. by rewrite Hdom, Hd.
  - intros a Ha. by apply H3, Hdom.
  - intros a y Hy. destruct (decide (a = b)) as [->|Hne].
    + rewrite lookup_insert_eq in Hy. by injection Hy as <-.
    + rewrite lookup_insert_ne in Hy by done.
      eapply pool_ok_live; [|by eapply H4].
      intros i Hi. apply Hfr; [done| |done]. apply H3. by eauto.
  - intros h Hh. destruct (Hnew h Hh) as [Hl|(i & Hi & ->)].
    + destruct (H5 h Hl) as (b' & i & -> & Hi & Hs). exists b', i.
      split_and!; [done..|]. by apply Hdom.
    + exists b, i. split_and!; [done..|]. apply Hdom. by eauto.
Qed.

(** The rings are rearranged, the bodies of the pools kept. *)
Lemma Inv_rings s s' live lp lf :
  Inv s live → bodies_eq (heap s) (heap s') → setup s' = setup s →
  ring (heap s') (pools s') lp → ring (heap s') (full_pools s') lf →
  NoDup (lp ++ lf) → (∀ b, b ∈ lp ++ lf ↔ is_Some (heap s !! b)) →
  Inv s' live.
Proof.
  intros [H1 H2 H3 H4 H5] Hb Hs Hrp Hrf Hnd Hd.
  split.
  - congruence.
  - exists lp, lf. refine (conj Hrp (conj Hrf (conj Hnd _))).
    intros b. by rewrite Hd, (bodies_eq_is_Some _ _ _ Hb).
  - intros b Hbs. by apply H3, (bodies_eq_is_Some _ _ _ Hb).
  - intros b x' Hx'. specialize (Hb b). rewrite Hx' in Hb.
    destruct (heap s !! b) as [x|] eqn:Hx; [|done].
    apply (pool_ok_body b x x'); [by apply (inj Some)|by eapply H4].
  - intros h Hh. destruct (H5 h Hh) as (b & i & -> & Hi & Hsm).
    exists b, i. split_and!; [done..|]. by apply (bodies_eq_is_Some _ _ _ Hb).
Qed.

Lemma Inv_rings_data s live :
  Inv s live →
  ∃ lp lf, ring (heap s) (pools s) lp ∧ ring (heap s) (full_pools s) lf ∧
           NoDup (lp ++ lf) ∧ 0 ∉ lp ++ lf ∧
           (∀ b, b ∈ lp ++ lf ↔ is_Some (heap s !! b)) ∧
           size (heap s) = length (lp ++ lf).
Proof.
  intros [H1 H2 H3 H4 H5]. destruct H2 as (lp & lf & Hrp & Hrf & Hnd & Hd).
  exists lp, lf. refine (conj Hrp (conj Hrf (conj Hnd (conj _ (conj Hd _))))).
  - intros H0%Hd%H3. destruct H0. lia.
  - rewrite <- size_dom. unfold size, set_size. simpl.
    apply Permutation_length, NoDup_Permutation; [apply NoDup_elements|done|].
    intros b. rewrite elem_of_elements, elem_of_dom. by rewrite Hd.
Qed.

Lemma Inv_slot s live h :
  Inv s live → h ∈ live →
  ∃ b i x, h = slot_addr b i ∧ (i < CAP)%nat ∧ valid_base b ∧
           heap s !! b = Some x ∧ pool_ok b x live.
Proof.
  intros HI Hh. destruct (inv_live _ _ HI h Hh) as (b & i & -> & Hi & [x Hx]).
  exists b, i, x. split_and!; [done..| |done|].
  - apply (inv_base _ _ HI). by eauto.
  - by eapply inv_pool.
Qed.

(** *** Allocation *)

Lemma alloc_slot_eq mem for_young :
  alloc_slot mem for_young
  = (do p0 <- gets pools ;
     do full <- (if p0 =? 0 then ret true
                 else do x <- load_pool p0 ; ret (is_full_pool x)) ;
     do p <- (if (full : bool) then
                do su <- gets setup ;
                if negb su then
                  modify (λ s, with_stderr (stderr s ++ ["boxroot is not setup"]) s) ;;
                  ret 0
                else
                  do q <- find_available_pool mem ;
                  if q =? 0 then ret 0
                  else
                    do x <- load_pool q ;
                    assert "!is_full_pool(p)" (negb (is_full_pool x)) ;;
                    ret q
              else ret p0) ;
     if p =? 0 then ret 0 else take_slot p for_young).
Proof. reflexivity. Qed.

Lemma insert_is_Some_same (h : gmap Z pool) p x y b :
  h !! p = Some x → is_Some (<[p := y]> h !! b) ↔ is_Some (h !! b).
Proof.
  intros Hx. rewrite lookup_insert_is_Some. split.
  - intros [<-|[_ ?]]; [by eexists|done].
  - intros Hb. destruct (decide (p = b)); [by left|by right].
Qed.

Lemma same_frame_update s p x y :
  heap s !! p = Some x → same_frame s (with_heap (<[p := y]> (heap s)) s).
Proof.
  intros Hx. split_and!; [done..|]. intros b. simpl. by eapply insert_is_Some_same.
Qed.

Lemma same_frame_trans s1 s2 s3 :
  same_frame s1 s2 → same_frame s2 s3 → same_frame s1 s3.
Proof.
  intros (?&?&?&?&Hd1) (?&?&?&?&Hd2). split_and!; try congruence.
  intros b. by rewrite Hd2, Hd1.
Qed.

Lemma take_slot_spec p x for_young s live :
  Inv s live → heap s !! p = Some x → is_full_pool x = false →
  ∃ i s', take_slot p for_young s = Ok (slot_addr p i, s') ∧
          (i < CAP)%nat ∧ slot_addr p i ∉ live ∧
          Inv s' ({[slot_addr p i]} ∪ live) ∧ same_frame s s'.
Proof.
  intros HI Hx Hnf.
  assert (valid_base p) as Hp by (apply (inv_base _ _ HI); by eauto).
  pose proof (valid_base_nonzero _ Hp) as Hp0.
  destruct (inv_pool _ _ HI p x Hx) as (lmaj & lmin & Hl).
  pose proof (pool_lists_not_full _ _ _ _ _ Hl Hnf) as Hne.
  pose proof (chain_is_empty _ _ _ _ (pl_major _ _ _ _ _ Hl)) as Hemaj.
  pose proof (chain_is_empty _ _ _ _ (pl_minor _ _ _ _ _ Hl)) as Hemin.
  unfold take_slot.
  rewrite (bind_ok _ _ _ _ _ (update_pool_ok _ _ _ _ Hp0 Hx)).
  set (x1 := with_alloc_count (alloc_count x + 1) x).
  set (s1 := with_heap (<[p := x1]> (heap s)) s).
  assert (heap s1 !! p = Some x1) as Hx1 by apply lookup_insert_eq.
  rewrite (bind_ok _ _ _ _ _ (load_pool_ok _ _ _ Hp0 Hx1)).
  (* the two ways a cell is taken *)
  assert (∀ i lmaj', lmaj = i :: lmaj' →
            ∃ s2, free_list_pop p Major s1 = Ok (slot_addr p i, s2) ∧
                  (i < CAP)%nat ∧ slot_addr p i ∉ live ∧
                  Inv s2 ({[slot_addr p i]} ∪ live) ∧ same_frame s s2) as Hmaj.
  { intros i lmaj' ->.
    destruct (pool_lists_pop_major _ _ _ _ _ _ Hp Hl)
      as (v & Hv & Hhd & Hi & Hnl & Hl').
    eexists. split; [by eapply (free_list_pop_ok p i Major x1 v)|].
    split_and!; [done..| |].
    2:{ eapply same_frame_trans; [by apply (same_frame_update s p x x1)|].
        by apply (same_frame_update s1 p x1). }
    eapply Inv_ext;
      [apply (Inv_update s live ({[slot_addr p i]} ∪ live) p x
                (with_major_free_list (untag_free_slot v) x1) HI Hx)|..];
      [done|done| | | | |done|done|done].
    - eexists _, _. apply Hl'.
    - intros b' j Hb' Hvb' Hj. rewrite elem_of_union, elem_of_singleton.
      split; [|by right]. intros [Heq|?]; [|done].
      by apply slot_addr_pool_inj in Heq as [-> _].
    - intros h [->%elem_of_singleton|?]%elem_of_union; [right; by eauto|by left].
    - simpl. subst s1. simpl. by rewrite insert_insert_eq. }
  assert (∀ i lmin', lmin = i :: lmin' →
            ∃ s2, free_list_pop p Minor s1 = Ok (slot_addr p i, s2) ∧
                  (i < CAP)%nat ∧ slot_addr p i ∉ live ∧
                  Inv s2 ({[slot_addr p i]} ∪ live) ∧ same_frame s s2) as Hmin.
  { intros i lmin' ->.
    destruct (pool_lists_pop_minor _ _ _ _ _ _ Hp Hl)
      as (v & Hv & Hhd & Hi & Hnl & Hl').
    eexists. split; [by eapply (free_list_pop_ok p i Minor x1 v)|].
    split_and!; [done..| |].
    2:{ eapply same_frame_trans; [by apply (same_frame_update s p x x1)|].
        by apply (same_frame_update s1 p x1). }
    eapply Inv_ext;
      [apply (Inv_update s live ({[slot_addr p i]} ∪ live) p x
                (with_minor_free_list (untag_free_slot v) x1) HI Hx)|..];
      [done|done| | | | |done|done|done].
    - eexists _, _. apply Hl'.
    - intros b' j Hb' Hvb' Hj. rewrite elem_of_union, elem_of_singleton.
      split; [|by right]. intros [Heq|?]; [|done].
      by apply slot_addr_pool_inj in Heq as [-> _].
    - intros h [->%elem_of_singleton|?]%elem_of_union; [right; by eauto|by left].
    - simpl. subst s1. simpl. by rewrite insert_insert_eq. }
  change (minor_free_list x1) with (minor_free_list x).
  change (major_free_list x1) with (major_free_list x).
  destruct for_young.
  - destruct lmin as [|i lmin'].
    + replace (is_empty_free_list (minor_free_list x) p) with true
        by (symmetry; by apply Hemin).
      cbn [negb].
      destruct lmaj as [|i lmaj']; [by destruct Hne|].
      destruct (Hmaj i lmaj' eq_refl) as (s2 & E & Hi & Hnl & HI2 & Hfr).
      rewrite (bind_ok _ _ _ _ _ E).
      exists i, (with_ref_table (slot_addr p i :: ref_table s2) s2).
      split; [done|]. split_and!; [done..| |].
      * by eapply Inv_ext.
      * eapply same_frame_trans; [done|]. split_and!; done.
    + replace (is_empty_free_list (minor_free_list x) p) with false.
      2:{ symmetry. apply not_true_is_false. by intros ?%Hemin. }
      cbn [negb].
      destruct (Hmin i lmin' eq_refl) as (s2 & E & Hi & Hnl & HI2 & Hfr).
      by exists i, s2.
  - destruct lmaj as [|i lmaj'].
    + replace (is_empty_free_list (major_free_list x) p) with true
        by (symmetry; by apply Hemaj).
      cbn [negb].
      destruct lmin as [|i lmin']; [by destruct Hne|].
      destruct (Hmin i lmin' eq_refl) as (s2 & E & Hi & Hnl & HI2 & Hfr).
      by exists i, s2.
    + replace (is_empty_free_list (major_free_list x) p) with false.
      2:{ symmetry. apply not_true_is_false. by intros ?%Hemaj. }
      cbn [negb].
      destruct (Hmaj i lmaj' eq_refl) as (s2 & E & Hi & Hnl & HI2 & Hfr).
      by exists i, s2.
Qed.

(** *** A fresh pool *)

Lemma with_heap_id s : with_heap (heap s) s = s.
Proof. by destruct s. Qed.

Lemma push_all_spec p l :
  ∀ x s lm,
    valid_base p → heap s !! p = Some x → length (roots x) = CAP →
    (∀ i, i ∈ l → (i < CAP)%nat) → NoDup (l ++ lm) →
    chain p (roots x) (major_free_list x) lm →
    ∃ x', push_all p l s = Ok (tt, with_heap (<[p := x']> (heap s)) s) ∧
          length (roots x') = CAP ∧
          chain p (roots x') (major_free_list x') (reverse l ++ lm) ∧
          prev x' = prev x ∧ next x' = next x ∧
          minor_free_list x' = minor_free_list x ∧
          last_minor_free_slot x' = last_minor_free_slot x ∧
          alloc_count x' = alloc_count x.
Proof.
  induction l as [|i l IH]; intros x s lm Hp Hx Hlen Hb Hnd Hch.
  - exists x. simpl. rewrite insert_id by done. rewrite with_heap_id.
    split_and!; done.
  - simpl push_all.
    assert (i < CAP)%nat as Hi by (apply Hb; by left).
    rewrite (bind_ok _ _ _ _ _ (free_list_push_ok p i Major x s Hp Hi Hx Hlen)).
    set (x1 := with_free_list Major _ _).
    set (s1 := with_heap _ s).
    simpl in Hnd. apply NoDup_cons in Hnd as [Hni Hnd].
    destruct (IH x1 s1 (i :: lm)) as (x' & E & Hlen' & Hch' & ? & ? & ? & ? & ?).
    + done.
    + apply lookup_insert_eq.
    + subst x1. simpl. by rewrite length_insert.
    + intros j Hj. apply Hb. by right.
    + apply NoDup_app. apply NoDup_app in Hnd as (Hnl & Hd & Hnm).
      split_and!; [done| |].
      * intros j Hj [->|Hj']%elem_of_cons.
        -- apply Hni. apply elem_of_app. by left.
        -- by apply (Hd j).
      * apply NoDup_cons. split; [|done].
        intros Hin. apply Hni. apply elem_of_app. by right.
    + subst x1. simpl. split_and!; [done..|].
      exists (major_free_list x). split.
      * apply list_lookup_insert_eq. by rewrite Hlen.
      * apply chain_frame; [done|]. intros Hin. apply Hni. apply elem_of_app. by right.
    + exists x'. rewrite E. subst s1. simpl. rewrite insert_insert_eq.
      split; [done|]. rewrite reverse_cons, <- app_assoc. simpl.
      split_and!; done.
Qed.

Lemma descending_reverse n : reverse (descending n) = seq 0 n.
Proof. unfold descending. apply reverse_involutive. Qed.

Lemma get_empty_pool_fail s :
  get_empty_pool 0 s
  = Ok (0, with_stat
             (mk_stats (minor_collections (stat s)) (major_collections (stat s))
                (total_scanning_work (stat s)) (useful_scanning_work (stat s))
                (total_alloced_pools (stat s)) (total_freed_pools (stat s))
                (live_pools (stat s) + 1)
                (if peak_pools (stat s) <? live_pools (stat s) + 1
                 then live_pools (stat s) + 1 else peak_pools (stat s))
                (ring_operations (stat s))) s).
Proof. reflexivity. Qed.

Lemma update_pool_at p f x h s :
  p ≠ 0 → heap s = <[p := x]> h →
  update_pool p f s = Ok (tt, with_heap (<[p := f x]> h) s).
Proof.
  intros Hp Hh. rewrite (update_pool_ok p f x s Hp).
  - by rewrite Hh, insert_insert_eq.
  - rewrite Hh. apply lookup_insert_eq.
Qed.

Lemma bxr_alloc_ok mem s :
  mem ≠ 0 →
  bxr_alloc_uninitialised_pool mem s
  = Ok (mem, with_heap (<[mem := blank_pool]> (heap s)) s).
Proof.
  intros Hm. unfold bxr_alloc_uninitialised_pool.
  by replace (mem =? 0) with false by (symmetry; by apply Z.eqb_neq).
Qed.

Ltac upd_pool H0 :=
  rewrite ?bind_assoc;
  cbn [with_heap with_stat heap stat pools full_pools setup ref_table stderr];
  match goal with
  | |- context [bind (update_pool ?p ?f) ?k ?s] =>
      let h := eval cbn [heap with_heap with_stat] in (heap s) in
      match h with
      | <[p := ?x]> ?h0 =>
          rewrite (bind_ok _ _ _ _ _ (update_pool_at p f x h0 s H0 eq_refl))
      end
  end.

Lemma get_empty_pool_spec mem s :
  valid_base mem → heap s !! mem = None →
  ∃ x s', get_empty_pool mem s = Ok (mem, s') ∧
          heap s' = <[mem := x]> (heap s) ∧
          next x = mem ∧ prev x = mem ∧ alloc_count x = 0 ∧
          length (roots x) = CAP ∧
          chain mem (roots x) (major_free_list x) (seq 0 CAP) ∧
          minor_free_list x = mem ∧
          pools s' = pools s ∧ full_pools s' = full_pools s ∧
          setup s' = setup s ∧
          live_pools (stat s') = live_pools (stat s) + 1.
Proof.
  intros Hm Hfresh. pose proof (valid_base_nonzero _ Hm) as Hm0.
  assert (mem =? 0 = false) as E0 by by apply Z.eqb_neq.
  unfold get_empty_pool. unfold bump at 1. rewrite bind_modify.
  rewrite (bind_ok _ _ _ _ _ (bxr_alloc_ok mem _ Hm0)). rewrite E0.
  unfold bump at 1. rewrite bind_modify.
  unfold ring_link. rewrite !bind_assoc.
  upd_pool Hm0. upd_pool Hm0.
  unfold bump at 1. rewrite bind_modify.
  upd_pool Hm0. upd_pool Hm0. upd_pool Hm0. upd_pool Hm0.
  set (x0 := with_alloc_count 0 _).
  set (s0 := with_heap (<[mem := x0]> (heap s)) _).
  destruct (push_all_spec mem (descending CAP) x0 s0 [])
    as (x' & E & Hlen & Hch & Hprev & Hnext & Hmin & _ & Hcount).
  - done.
  - apply lookup_insert_eq.
  - apply length_replicate.
  - intros i Hi. unfold descending in Hi.
    rewrite elem_of_reverse, elem_of_seq in Hi. exact (proj2 Hi).
  - rewrite app_nil_r. unfold descending. rewrite reverse_Permutation. apply NoDup_seq.
  - done.
  - rewrite (bind_ok _ _ _ _ _ E). rewrite descending_reverse, app_nil_r in Hch.
    exists x'. eexists. split; [reflexivity|].
    split_and!; try assumption; try reflexivity.
    subst s0. cbn [heap with_heap]. by rewrite insert_insert_eq.
Qed.

(** *** Finding a pool with a free cell *)

Lemma skip_full_pools_spec lp :
  ∀ lf s fuel,
    ring (heap s) (pools s) lp → ring (heap s) (full_pools s) lf →
    NoDup (lp ++ lf) → 0 ∉ lp ++ lf → (length lp < fuel)%nat →
    ∃ s' lp' lf',
      skip_full_pools fuel s = Ok (tt, s') ∧
      ring (heap s') (pools s') lp' ∧ ring (heap s') (full_pools s') lf' ∧
      lp' ++ lf' ≡ₚ lp ++ lf ∧
      bodies_eq (heap s) (heap s') ∧ setup s' = setup s ∧
      live_pools (stat s') = live_pools (stat s) ∧
      (pools s' = 0 ∨
       ∃ x, heap s' !! pools s' = Some x ∧ is_full_pool x = false).
Proof.
  induction lp as [|a lp IH]; intros lf s fuel Hrp Hrf Hnd H0 Hfuel.
  - destruct fuel as [|fuel]; [simpl in Hfuel; lia|].
    destruct Hrp as [Hp _]. simpl in Hp. simpl skip_full_pools.
    rewrite bind_gets, Hp. simpl.
    exists s, [], lf.
    split_and!; [done|by split|done|done|apply bodies_eq_refl|done|done|by left].
  - destruct fuel as [|fuel]; [simpl in Hfuel; lia|].
    pose proof Hrp as [Hp Hcp]. simpl in Hp. pose proof Hrf as [Hf Hcf].
    assert (a ≠ 0) as Ha0 by (intros ->; apply H0; by left).
    destruct (cyc_is_Some _ _ a Hcp) as [x Hx]; [by left|].
    simpl skip_full_pools. rewrite bind_gets, Hp.
    replace (a =? 0) with false by (symmetry; by apply Z.eqb_neq).
    rewrite (bind_ok _ _ _ _ _ (load_pool_ok _ _ _ Ha0 Hx)).
    destruct (is_full_pool x) eqn:Hfull.
    2:{ exists s, (a :: lp), lf.
        split_and!; [done|done|done|done|apply bodies_eq_refl|done|done|].
        right. exists x. by rewrite Hp. }
    simpl in Hnd. pose proof Hnd as [Hna Hnd']%NoDup_cons.
    assert (NoDup (a :: lp) ∧ NoDup lf ∧ ∀ y, y ∈ a :: lp → y ∉ lf)
      as (Hndp & Hndf & Hdj).
    { change (NoDup ((a :: lp) ++ lf)) in Hnd.
      apply NoDup_app in Hnd as (? & ? & ?). done. }
    destruct (ring_pop_spec a lp s) as (s1 & E1 & Hc1 & Hc1a & Ho1 & Hb1 & Hctl1).
    { done. }
    { done. }
    { intros Hin. apply H0. apply elem_of_app. by left. }
    rewrite (bind_ok _ _ _ _ _ E1). cbn [fst snd].
    rewrite bind_modify, bind_gets.
    destruct Hctl1 as (Ep1 & Ef1 & Es1 & El1).
    set (s1' := with_pools (ring_head lp) s1).
    assert (cyc (heap s1') lf) as Hcf1.
    { eapply cyc_frame; [done| |done]. intros y Hy Hy'. by apply (Hdj y). }
    assert (full_pools s1' = ring_head lf) as Ef1' by (simpl; congruence).
    destruct (ring_push_back_spec [a] lf s1') as (s2 & E2 & Hc2 & Ho2 & Hb2 & Hctl2).
    { done. }
    { done. }
    { apply NoDup_app. split_and!; [done| |apply NoDup_singleton].
      intros y Hy Hy'%list_elem_of_singleton. subst y. apply (Hdj a); [by left|done]. }
    { intros [Hin|Hin%list_elem_of_singleton]%elem_of_app; [|done].
      apply H0. apply elem_of_app. by right. }
    rewrite Ef1'. change a with (ring_head [a]) at 1.
    rewrite (bind_ok _ _ _ _ _ E2). rewrite bind_modify.
    destruct Hctl2 as (Ep2 & Ef2 & Es2 & El2).
    set (s2' := with_full_pools (ring_head (lf ++ [a])) s2).
    destruct (IH (lf ++ [a]) s2' fuel)
      as (s' & lp' & lf' & E & Hrp' & Hrf' & Hperm & Hb' & Hs' & Hl' & Hhead).
    + split; [simpl; by rewrite Ep2|].
      simpl. eapply cyc_frame; [apply Ho2| |done].
      intros y Hy [Hin|Hin%list_elem_of_singleton]%elem_of_app.
      * apply (Hdj y); [by right|done].
      * subst y. apply NoDup_cons in Hndp as [Hn _]. done.
    + by split.
    + rewrite app_assoc. apply NoDup_app. split_and!; [done| |apply NoDup_singleton].
      intros y Hy Hy'%list_elem_of_singleton. subst y. done.
    + rewrite app_assoc.
      intros [Hin|?%list_elem_of_singleton]%elem_of_app; [|done].
      apply H0. by right.
    + simpl in Hfuel. lia.
    + exists s', lp', lf'. split; [done|].
      split_and!; [done|done| | |simpl in *; congruence|simpl in *; congruence|done].
      * rewrite Hperm. simpl.
        rewrite (Permutation_app_comm lf [a]). simpl.
        symmetry. apply Permutation_middle.
      * eapply bodies_eq_trans; [|done]. eapply bodies_eq_trans; done.
Qed.

Lemma ring_nil_head h hd l : ring h hd l → 0 ∉ l → hd = 0 → l = [].
Proof.
  intros [Hh _] H0 ->. destruct l as [|a l]; [done|].
  simpl in Hh. subst a. exfalso. apply H0. by left.
Qed.

Lemma Inv_new_pool s s' live mem x :
  Inv s live → pools s = 0 → valid_base mem → heap s !! mem = None →
  heap s' = <[mem := x]> (heap s) →
  next x = mem → prev x = mem → alloc_count x = 0 →
  length (roots x) = CAP →
  chain mem (roots x) (major_free_list x) (seq 0 CAP) →
  minor_free_list x = mem →
  pools s' = mem → full_pools s' = full_pools s → setup s' = setup s →
  Inv s' live.
Proof.
  intros HI Hp0 Hm Hfresh Hh Hn Hpv Hac Hlen Hch Hmin Hp Hf Hs.
  destruct (Inv_rings_data _ _ HI) as (lp & lf & Hrp & Hrf & Hnd & H0 & Hd & _).
  assert (lp = []) as ->.
  { eapply ring_nil_head; [done| |done]. intros Hin. apply H0, elem_of_app. by left. }
  simpl in *.
  assert (mem ∉ lf) as Hml.
  { intros Hin%Hd. rewrite Hfresh in Hin. by destruct Hin. }
  assert (∀ h, h ∈ live → get_pool_header h ≠ mem) as Hlive.
  { intros h Hh' Heq. destruct (inv_live _ _ HI h Hh') as (b & i & -> & Hi & Hb).
    rewrite get_pool_header_slot in Heq; [|by apply (inv_base _ _ HI)|done].
    subst b. rewrite Hfresh in Hb. by destruct Hb. }
  split.
  - rewrite Hs. apply HI.
  - exists [mem], lf. rewrite Hh, Hp, Hf. split_and!.
    + split; [done|]. simpl. split; [|done]. split; by rewrite lookup_insert_eq; simpl; f_equal.
    + destruct Hrf as [Hhf Hcf]. split; [done|].
      eapply (cyc_frame _ _ [mem]); [| |done].
      * intros a Ha. rewrite lookup_insert_ne; [done|]. intros <-. apply Ha. by left.
      * intros y Hy Hy'%list_elem_of_singleton. by subst y.
    + apply NoDup_cons. done.
    + intros b. change ([mem] ++ lf) with (mem :: lf).
      rewrite lookup_insert_is_Some, elem_of_cons, Hd.
      split; [intros [->|?]; [by left|]|intros [->|[? ?]]; [by left|by right]].
      destruct (decide (mem = b)); [by left|by right].
  - intros b. rewrite Hh, lookup_insert_is_Some. intros [<-|[_ Hb]]; [done|].
    by apply (inv_base _ _ HI).
  - intros b y. rewrite Hh. destruct (decide (b = mem)) as [->|Hne].
    + rewrite lookup_insert_eq. intros [= <-].
      exists (seq 0 CAP), []. split; rewrite ?app_nil_r.
      * done.
      * done.
      * by rewrite Hmin.
      * apply NoDup_seq.
      * intros i Hi. rewrite elem_of_seq. split; [|intros _; lia].
        intros _ Hin. apply (Hlive _ Hin). by apply get_pool_header_slot.
      * rewrite Hac, length_seq. pose proof CAP_val. rewrite capacity_val. lia.
      * done.
    + rewrite lookup_insert_ne by done. by apply (inv_pool _ _ HI).
  - intros h Hh'. destruct (inv_live _ _ HI h Hh') as (b & i & -> & Hi & Hb).
    exists b, i. split_and!; [done..|]. rewrite Hh, lookup_insert_is_Some.
    destruct (decide (mem = b)); [by left|by right].
Qed.

Lemma find_available_pool_spec mem s live :
  Inv s live → fresh_mem (heap s) mem →
  ∃ q s', find_available_pool mem s = Ok (q, s') ∧ Inv s' live ∧
          live_pools (stat s) ≤ live_pools (stat s') ∧
          (∀ b, is_Some (heap s !! b) → is_Some (heap s' !! b)) ∧
          (q = 0 ∨
           (q ≠ 0 ∧ pools s' = q ∧
            ∃ x, heap s' !! q = Some x ∧ is_full_pool x = false)).
Proof.
  intros HI Hfresh.
  destruct (Inv_rings_data _ _ HI) as (lp & lf & Hrp & Hrf & Hnd & H0 & Hd & Hsz).
  unfold find_available_pool. rewrite bind_gets.
  destruct (skip_full_pools_spec lp lf s (S (size (heap s))))
    as (s1 & lp' & lf' & E & Hrp' & Hrf' & Hperm & Hb & Hs & Hl & Hhead);
    [done..| |].
  { rewrite Hsz, length_app. lia. }
  rewrite (bind_ok _ _ _ _ _ E), bind_gets.
  assert (Inv s1 live) as HI1.
  { eapply (Inv_rings s s1 live lp' lf'); [done..| |].
    - by rewrite Hperm.
    - intros b. by rewrite Hperm. }
  assert (∀ b, is_Some (heap s !! b) → is_Some (heap s1 !! b)) as Hmono1.
  { intros b. by rewrite (bodies_eq_is_Some _ _ _ Hb). }
  destruct Hhead as [Hp0|(x & Hx & Hnf)].
  - rewrite Hp0. change (0 =? 0) with true. cbv iota.
    destruct Hfresh as [->|[Hm Hnone]].
    + rewrite (bind_ok _ _ _ _ _ (get_empty_pool_fail s1)).
      rewrite bind_modify. change (0 =? 0) with true. cbv iota.
      eexists 0, _. split; [reflexivity|]. split_and!.
      * eapply Inv_ext; [exact HI1|done|by simpl|done|done].
      * simpl. lia.
      * done.
      * by left.
    + assert (heap s1 !! mem = None) as Hnone1.
      { apply eq_None_not_Some. rewrite (bodies_eq_is_Some _ _ _ Hb).
        by rewrite Hnone; intros []. }
      destruct (get_empty_pool_spec mem s1 Hm Hnone1)
        as (y & s2 & E2 & Hh2 & Hn2 & Hp2 & Hac2 & Hlen2 & Hch2 & Hmin2
            & Ep2 & Ef2 & Es2 & El2).
      rewrite (bind_ok _ _ _ _ _ E2). rewrite bind_modify.
      pose proof (valid_base_nonzero _ Hm) as Hm0.
      replace (mem =? 0) with false by (symmetry; by apply Z.eqb_neq).
      assert (heap (with_pools mem s2) !! mem = Some y) as Hy.
      { simpl. rewrite Hh2. apply lookup_insert_eq. }
      assert (is_full_pool y = false) as Hnf.
      { unfold is_full_pool. rewrite Hac2, capacity_val. done. }
      rewrite (bind_ok _ _ _ _ _ (load_pool_ok _ _ _ Hm0 Hy)), Hnf.
      cbn [negb]. rewrite (bind_ok _ _ _ _ _ (assert_true _ _)).
      eexists mem, _. split; [reflexivity|]. split_and!.
      * eapply (Inv_new_pool s1 _ live mem y); try done.
      * simpl. lia.
      * intros b Hbs. simpl. rewrite Hh2, lookup_insert_is_Some.
        destruct (decide (mem = b)); [by left|right]. split; [done|]. by apply Hmono1.
      * right. split; [done|]. split; [done|]. by exists y.
  - assert (pools s1 ≠ 0) as Hp0.
    { intros Heq. rewrite Heq in Hx.
      assert (valid_base 0) as [? _] by (apply (inv_base _ _ HI1); by eauto). lia. }
    replace (pools s1 =? 0) with false by (symmetry; by apply Z.eqb_neq).
    rewrite (bind_ok _ _ _ _ _ (load_pool_ok _ _ _ Hp0 Hx)), Hnf.
    cbn [negb]. rewrite (bind_ok _ _ _ _ _ (assert_true _ _)).
    exists (pools s1), s1. split; [done|]. split_and!; [done|lia|done|].
    right. split; [done|]. split; [done|]. by exists x.
Qed.

Lemma Inv_head_pool s live :
  Inv s live → pools s ≠ 0 → is_Some (heap s !! pools s).
Proof.
  intros HI Hp.
  destruct (Inv_rings_data _ _ HI) as (lp & lf & [Hh Hc] & _ & _ & _ & Hd & _).
  apply Hd, elem_of_app. left. rewrite Hh.
  destruct lp as [|a lp]; [done|]. by left.
Qed.

Lemma alloc_slot_spec mem for_young s live :
  Inv s live → fresh_mem (heap s) mem →
  ∃ r s', alloc_slot mem for_young s = Ok (r, s') ∧
          live_pools (stat s) ≤ live_pools (stat s') ∧
          (∀ b, is_Some (heap s !! b) → is_Some (heap s' !! b)) ∧
          ((r = 0 ∧ Inv s' live) ∨
           (fresh_cell s' live r ∧ Inv s' ({[r]} ∪ live))).
Proof.
  intros HI Hfresh. rewrite alloc_slot_eq. rewrite bind_gets.
  assert (∀ p x s1,
            Inv s1 live → heap s1 !! p = Some x → is_full_pool x = false →
            live_pools (stat s) ≤ live_pools (stat s1) →
            (∀ b, is_Some (heap s !! b) → is_Some (heap s1 !! b)) →
            ∃ r s', take_slot p for_young s1 = Ok (r, s') ∧
              live_pools (stat s) ≤ live_pools (stat s') ∧
              (∀ b, is_Some (heap s !! b) → is_Some (heap s' !! b)) ∧
              ((r = 0 ∧ Inv s' live) ∨
               (fresh_cell s' live r ∧ Inv s' ({[r]} ∪ live)))) as Htake.
  { intros p x s1 HI1 Hx Hnf Hl1 Hd1.
    destruct (take_slot_spec p x for_young s1 live HI1 Hx Hnf)
      as (i & s' & E & Hi & Hnl & HI' & (Ep & Ef & Es & Est & Hdom)).
    exists (slot_addr p i), s'. split; [done|]. split_and!.
    - rewrite Est. done.
    - intros b Hb. by apply Hdom, Hd1.
    - right. split; [|done]. exists p, i. split_and!; [done..| | |done].
      + apply (inv_base _ _ HI1). by eauto.
      + apply Hdom. by eauto. }
  destruct (decide (pools s = 0)) as [Hp0|Hp0].
  - rewrite Hp0. change (0 =? 0) with true. cbv iota. rewrite bind_ret.
    cbv iota. rewrite bind_assoc, bind_gets, (inv_setup _ _ HI). cbn [negb].
    destruct (find_available_pool_spec mem s live HI Hfresh)
      as (q & s1 & E & HI1 & Hl1 & Hd1 & Hq).
    rewrite bind_assoc, (bind_ok _ _ _ _ _ E).
    destruct Hq as [->|(Hq0 & Hpq & x & Hx & Hnf)].
    + change (0 =? 0) with true. cbv iota. rewrite bind_ret.
      change (0 =? 0) with true. cbv iota.
      exists 0, s1. split; [done|]. split_and!; [done..|]. left. done.
    + replace (q =? 0) with false by (symmetry; by apply Z.eqb_neq).
      rewrite bind_assoc, (bind_ok _ _ _ _ _ (load_pool_ok _ _ _ Hq0 Hx)), Hnf.
      cbn [negb]. rewrite bind_assoc, (bind_ok _ _ _ _ _ (assert_true _ _)).
      rewrite bind_ret.
      replace (q =? 0) with false by (symmetry; by apply Z.eqb_neq).
      by eapply Htake.
  - replace (pools s =? 0) with false by (symmetry; by apply Z.eqb_neq).
    destruct (Inv_head_pool _ _ HI Hp0) as [x Hx].
    rewrite bind_assoc, (bind_ok _ _ _ _ _ (load_pool_ok _ _ _ Hp0 Hx)), bind_ret.
    destruct (is_full_pool x) eqn:Hfull.
    + rewrite bind_assoc, bind_gets, (inv_setup _ _ HI). cbn [negb].
      destruct (find_available_pool_spec mem s live HI Hfresh)
        as (q & s1 & E & HI1 & Hl1 & Hd1 & Hq).
      rewrite bind_assoc, (bind_ok _ _ _ _ _ E).
      destruct Hq as [->|(Hq0 & Hpq & y & Hy & Hnf)].
      * change (0 =? 0) with true. cbv iota. rewrite bind_ret.
        change (0 =? 0) with true. cbv iota.
        exists 0, s1. split; [done|]. split_and!; [done..|]. left. done.
      * replace (q =? 0) with false by (symmetry; by apply Z.eqb_neq).
        rewrite bind_assoc, (bind_ok _ _ _ _ _ (load_pool_ok _ _ _ Hq0 Hy)), Hnf.
        cbn [negb]. rewrite bind_assoc, (bind_ok _ _ _ _ _ (assert_true _ _)).
        rewrite bind_ret.
        replace (q =? 0) with false by (symmetry; by apply Z.eqb_neq).
        by eapply Htake.
    + rewrite bind_ret.
      replace (pools s =? 0) with false by (symmetry; by apply Z.eqb_neq).
      eapply Htake; [done..|lia|done].
Qed.

(** *** Cells in use *)

Lemma load_live_spec s live h :
  Inv s live → h ∈ live → ∃ v, load_slot h s = Ok (v, s).
Proof.
  intros HI Hh.
  destruct (Inv_slot _ _ _ HI Hh) as (b & i & x & -> & Hi & Hb & Hx & lmaj & lmin & Hl).
  destruct (lookup_lt_is_Some_2 (roots x) i) as [v Hv].
  { rewrite (pl_length _ _ _ _ _ Hl). done. }
  exists v. by eapply load_slot_ok.
Qed.

Lemma store_live_spec s live h v :
  Inv s live → h ∈ live →
  ∃ s', store_slot h v s = Ok (tt, s') ∧ Inv s' live ∧ same_frame s s' ∧
        load_slot h s' = Ok (v, s') ∧
        ref_table s' = ref_table s ∧ stderr s' = stderr s.
Proof.
  intros HI Hh.
  destruct (Inv_slot _ _ _ HI Hh) as (b & i & x & -> & Hi & Hb & Hx & lmaj & lmin & Hl).
  pose proof (pl_length _ _ _ _ _ Hl) as Hlen.
  eexists. split; [by eapply store_slot_ok|].
  split_and!.
  - eapply (Inv_update s live live b x); [done..| | |].
    + exists lmaj, lmin. by apply pool_lists_store.
    + done.
    + intros h' ?. by left.
  - by eapply same_frame_update.
  - eapply load_slot_ok; [done..| |].
    + simpl. apply lookup_insert_eq.
    + simpl. apply list_lookup_insert_eq. by rewrite Hlen.
  - done.
  - done.
Qed.

(** *** A pool goes back to the ring of available pools *)

Lemma requeue_spec s live b :
  Inv s live → is_Some (heap s !! b) →
  ∃ s', requeue b s = Ok (tt, s') ∧ Inv s' live ∧
        bodies_eq (heap s) (heap s') ∧
        live_pools (stat s') = live_pools (stat s).
Proof.
  intros HI Hb.
  destruct (Inv_rings_data _ _ HI) as (lp & lf & Hrp & Hrf & Hnd & H0 & Hd & _).
  assert (b ≠ 0) as Hb0.
  { intros ->. by apply H0, Hd. }
  destruct (pool_remove_spec b lp lf s) as
    (s1 & lp' & lf' & E1 & Hrp1 & Hrf1 & Hcb & Hcase & Hb1 & Hs1 & Hl1);
    [done..|by apply Hd|].
  unfold requeue. rewrite (bind_ok _ _ _ _ _ E1), bind_gets.
  assert (b :: lp' ++ lf' ≡ₚ lp ++ lf) as Hperm.
  { destruct Hcase as [(l1 & l2 & -> & -> & ->)|(l1 & l2 & -> & -> & ->)].
    - rewrite <- !app_assoc. simpl. by rewrite Permutation_middle.
    - rewrite (Permutation_app_comm lp (l1 ++ b :: l2)).
      rewrite (Permutation_app_comm lp (l1 ++ l2)).
      rewrite <- !app_assoc. simpl. by rewrite Permutation_middle. }
  assert (NoDup (b :: lp' ++ lf')) as Hnd1 by by rewrite Hperm.
  assert (0 ∉ b :: lp' ++ lf') as H01 by by rewrite Hperm.
  apply NoDup_cons in Hnd1 as [Hbn Hnd1].
  apply NoDup_app in Hnd1 as (Hndp & Hdj & Hndf).
  destruct Hrp1 as [Hhp1 Hcp1]. destruct Hrf1 as [Hhf1 Hcf1].
  destruct (ring_push_back_spec [b] lp' s1) as (s2 & E2 & Hc2 & Ho2 & Hb2 & Hctl2).
  { done. }
  { done. }
  { apply NoDup_app. split_and!; [done| |apply NoDup_singleton].
    intros y Hy Hy'%list_elem_of_singleton. subst y.
    apply Hbn, elem_of_app. by left. }
  { intros [Hin|Hin%list_elem_of_singleton]%elem_of_app; [|done].
    apply H01. right. apply elem_of_app. by left. }
  rewrite Hhp1. change b with (ring_head [b]) at 1.
  rewrite (bind_ok _ _ _ _ _ E2).
  destruct Hctl2 as (Ep2 & Ef2 & Es2 & El2).
  eexists. split; [reflexivity|]. split_and!.
  - eapply (Inv_rings s _ live (lp' ++ [b]) lf' HI).
    + simpl. by eapply bodies_eq_trans.
    + simpl. congruence.
    + by split.
    + split; [simpl; congruence|]. simpl.
      eapply cyc_frame; [apply Ho2| |done].
      intros y Hy [Hin|Hin%list_elem_of_singleton]%elem_of_app.
      * by apply (Hdj y).
      * subst y. apply Hbn, elem_of_app. by right.
    + rewrite <- app_assoc. simpl. rewrite <- Permutation_middle.
      apply NoDup_cons. split; [done|]. apply NoDup_app. done.
    + intros y. rewrite <- Hd, <- Hperm.
      rewrite <- app_assoc. simpl. by rewrite <- Permutation_middle.
  - simpl. by eapply bodies_eq_trans.
  - simpl. congruence.
Qed.

(** *** The API keeps the invariant *)

Section Api.

Variable Is_young : Z → bool.

Lemma dealloc_slot_eq v :
  dealloc_slot Is_young v
  = (let p := get_pool_header v in
     do full <- load_slot v ;
     (if negb (is_young_block Is_young full) then
        free_list_push v p Major
      else
        do x <- load_pool p ;
        (if is_empty_free_list (minor_free_list x) p
         then update_pool p (with_last_minor_free_slot v)
         else ret tt) ;;
        free_list_push v p Minor) ;;
     update_pool p (λ x, with_alloc_count (alloc_count x - 1) x) ;;
     do x <- load_pool p ;
     if alloc_count x =? POOL_ROOTS_CAPACITY * 3 / 4 then requeue p
     else ret tt).
Proof. reflexivity. Qed.

Lemma create_spec mem v s live :
  Inv s live → fresh_mem (heap s) mem →
  ∃ r s', rem_boxroot_create Is_young mem v s = Ok (r, s') ∧
          Inv s' (if decide (r = 0) then live else {[r]} ∪ live) ∧
          (r ≠ 0 → r ∉ live ∧ load_slot r s' = Ok (v, s')) ∧
          live_pools (stat s) ≤ live_pools (stat s') ∧
          (∀ b, is_Some (heap s !! b) → is_Some (heap s' !! b)).
Proof.
  intros HI Hfresh. unfold rem_boxroot_create.
  destruct (alloc_slot_spec mem (is_young_block Is_young v) s live HI Hfresh)
    as (r & s1 & E & Hl & Hd & Hr).
  rewrite (bind_ok _ _ _ _ _ E).
  destruct Hr as [[-> HI1]|[(b & i & -> & Hi & Hb & Hsb & Hnl) HI1]].
  - change (0 =? 0) with true. cbv iota.
    exists 0, s1. split; [done|]. rewrite decide_True by done.
    split_and!; done.
  - pose proof (slot_addr_nonzero b i Hb) as Hr0.
    replace (slot_addr b i =? 0) with false by (symmetry; by apply Z.eqb_neq).
    destruct (store_live_spec s1 _ (slot_addr b i) v HI1)
      as (s2 & E2 & HI2 & (Ep & Ef & Es & Est & Hdom) & Hload & _).
    { apply elem_of_union. left. by apply elem_of_singleton. }
    rewrite (bind_ok _ _ _ _ _ E2).
    exists (slot_addr b i), s2. split; [done|]. rewrite decide_False by done.
    split_and!; [done|done|by rewrite Est|].
    intros b' Hb'. by apply Hdom, Hd.
Qed.

Lemma load_slot_heap a v s s' :
  load_slot a s = Ok (v, s) → heap s' = heap s → load_slot a s' = Ok (v, s').
Proof.
  unfold load_slot, load_pool, bind, ret, fail. intros H ->.
  destruct (get_pool_header a =? 0); [done|].
  destruct (heap s !! get_pool_header a); [|done].
  destruct (slot_index a); [|done].
  destruct (roots p !! n); [|done]. congruence.
Qed.

Lemma modify_spec h v s live :
  Inv s live → h ∈ live →
  ∃ s', rem_boxroot_modify Is_young h v s = Ok (h, s') ∧ Inv s' live ∧
        load_slot h s' = Ok (v, s') ∧
        stat s' = stat s ∧
        (∀ b, is_Some (heap s' !! b) ↔ is_Some (heap s !! b)).
Proof.
  intros HI Hh. unfold rem_boxroot_modify.
  destruct (store_live_spec s live h v HI Hh)
    as (s1 & E1 & HI1 & (Ep & Ef & Es & Est & Hdom) & Hload & _).
  destruct (negb (is_young_block Is_young v)).
  - rewrite (bind_ok _ _ _ _ _ E1). exists s1. split_and!; done.
  - destruct (load_live_spec s live h HI Hh) as [old Hold].
    rewrite bind_assoc, (bind_ok _ _ _ _ _ Hold).
    rewrite bind_assoc, (bind_ok _ _ _ _ _ E1).
    destruct (negb (is_young_block Is_young old)).
    + eexists. split; [reflexivity|]. split_and!; [| |done..].
      * by eapply Inv_ext.
      * by eapply load_slot_heap.
    + exists s1. split_and!; done.
Qed.

Lemma delete_spec h s live :
  Inv s live → h ∈ live →
  ∃ s', rem_boxroot_delete Is_young h s = Ok (tt, s') ∧
        Inv s' (live ∖ {[h]}) ∧
        live_pools (stat s') = live_pools (stat s) ∧
        (∀ b, is_Some (heap s' !! b) ↔ is_Some (heap s !! b)).
Proof.
  intros HI Hh. unfold rem_boxroot_delete. rewrite dealloc_slot_eq.
  destruct (Inv_slot _ _ _ HI Hh) as (b & i & x & -> & Hi & Hb & Hx & lmaj & lmin & Hl).
  pose proof (pl_length _ _ _ _ _ Hl) as Hlen.
  pose proof (valid_base_nonzero _ Hb) as Hb0.
  destruct (load_live_spec s live _ HI Hh) as [full Hfull].
  cbv zeta. rewrite get_pool_header_slot by done.
  rewrite (bind_ok _ _ _ _ _ Hfull).
  (* the pool after the push and the decrement *)
  assert (∃ x2,
    (do _ <- (if negb (is_young_block Is_young full)
              then free_list_push (slot_addr b i) b Major
              else
                do x <- load_pool b ;
                (if is_empty_free_list (minor_free_list x) b
                 then update_pool b (with_last_minor_free_slot (slot_addr b i))
                 else ret tt) ;;
                free_list_push (slot_addr b i) b Minor) ;
     update_pool b (λ x, with_alloc_count (alloc_count x - 1) x)) s
    = Ok (tt, with_heap (<[b := x2]> (heap s)) s) ∧
    next x2 = next x ∧ prev x2 = prev x ∧
    pool_ok b x2 (live ∖ {[slot_addr b i]})) as (x2 & E & Hn2 & Hp2 & Hok2).
  { destruct (negb (is_young_block Is_young full)).
    - rewrite (bind_ok _ _ _ _ _ (free_list_push_ok b i Major x s Hb Hi Hx Hlen)).
      eexists. split.
      + erewrite (update_pool_at b _ _ (heap s)); [reflexivity|done|reflexivity].
      + split_and!; [done..|]. exists (i :: lmaj), lmin.
        exact (pool_lists_push_major b x live lmaj lmin i Hb Hl Hi Hh).
    - rewrite bind_assoc, (bind_ok _ _ _ _ _ (load_pool_ok _ _ _ Hb0 Hx)).
      rewrite bind_assoc.
      pose proof (pool_lists_push_minor b x live lmaj lmin i Hb Hl Hi Hh) as Hpush.
      destruct (is_empty_free_list (minor_free_list x) b).
      + rewrite (bind_ok _ _ _ _ _ (update_pool_ok _ _ _ _ Hb0 Hx)).
        set (x0 := with_last_minor_free_slot (slot_addr b i) x).
        set (s0 := with_heap (<[b := x0]> (heap s)) s).
        assert (heap s0 !! b = Some x0) as Hx0 by apply lookup_insert_eq.
        rewrite (bind_ok _ _ _ _ _ (free_list_push_ok b i Minor x0 s0 Hb Hi Hx0 Hlen)).
        eexists. split.
        * erewrite (update_pool_at b _ _ (heap s)); [reflexivity|done|].
          simpl. by rewrite insert_insert_eq.
        * split_and!; [done..|]. exists lmaj, (i :: lmin). exact Hpush.
      + rewrite bind_ret.
        rewrite (bind_ok _ _ _ _ _ (free_list_push_ok b i Minor x s Hb Hi Hx Hlen)).
        eexists. split.
        * erewrite (update_pool_at b _ _ (heap s)); [reflexivity|done|reflexivity].
        * split_and!; [done..|]. exists lmaj, (i :: lmin). exact Hpush. }
  rewrite <- bind_assoc. rewrite (bind_ok _ _ _ _ _ E).
  set (s2 := with_heap _ s).
  assert (Inv s2 (live ∖ {[slot_addr b i]})) as HI2.
  { eapply (Inv_update s live _ b x x2); [done..| |].
    - intros b' j Hb' Hvb' Hj. rewrite elem_of_difference, elem_of_singleton.
      split; [by intros [? _]|]. intros Hin. split; [done|].
      intros Heq. by apply slot_addr_pool_inj in Heq as [-> _].
    - intros h' [? _]%elem_of_difference. by left. }
  assert (heap s2 !! b = Some x2) as Hx2 by apply lookup_insert_eq.
  rewrite (bind_ok _ _ _ _ _ (load_pool_ok _ _ _ Hb0 Hx2)).
  assert (∀ b', is_Some (heap s2 !! b') ↔ is_Some (heap s !! b')) as Hdom2.
  { intros b'. simpl. by eapply insert_is_Some_same. }
  destruct (alloc_count x2 =? POOL_ROOTS_CAPACITY * 3 / 4).
  - destruct (requeue_spec s2 _ b HI2) as (s3 & E3 & HI3 & Hb3 & Hl3); [by eauto|].
    exists s3. split_and!; [done|done|done|].
    intros b'. by rewrite (bodies_eq_is_Some _ _ _ Hb3), Hdom2.
  - exists s2. split_and!; done.
Qed.

End Api.

(** *** Reachable states *)

Lemma setup_initial :
  rem_boxroot_setup initial_state
  = Ok (1, mk_state ∅ 0 0 empty_stats true [] []).
Proof. reflexivity. Qed.

Lemma Inv_after_setup : Inv (mk_state ∅ 0 0 empty_stats true [] []) ∅.
Proof.
  split; simpl.
  - done.
  - exists [], []. split_and!; [by split|by split|apply NoDup_nil_2|].
    intros b. rewrite lookup_empty. split; [by intros ?%elem_of_nil|by intros []].
  - intros b. rewrite lookup_empty. by intros [].
  - intros b x. by rewrite lookup_empty.
  - intros h ?%elem_of_empty. done.
Qed.

Section Reach.

Variable Is_young : Z → bool.

Lemma reachable_Inv s live : reachable Is_young s live → Inv s live.
Proof.
  induction 1 as [s E|s live mem v r s' _ IH Hf E|s live h s' _ IH Hh E
                  |s live h v h' s' _ IH Hh E].
  - rewrite setup_initial in E. injection E as <-. apply Inv_after_setup.
  - destruct (create_spec Is_young mem v s live IH Hf) as (r' & s'' & E' & HI & _).
    rewrite E in E'. by injection E' as <- <-.
  - destruct (delete_spec Is_young h s live IH Hh) as (s'' & E' & HI & _).
    rewrite E in E'. by injection E' as <-.
  - destruct (modify_spec Is_young h v s live IH Hh) as (s'' & E' & HI & _).
    rewrite E in E'. by injection E' as <- <-.
Qed.

End Reach.

(** *** Walking a free list *)

Lemma chain_head_cases b r hd l :
  chain b r hd l → hd = b ∨ ∃ j, (j < CAP)%nat ∧ hd = slot_addr b j.
Proof.
  destruct l as [|j l]; simpl; [by left|]. intros (-> & Hj & _). right. by exists j.
Qed.

Lemma validate_free_list_loop_chain b x s l :
  ∀ hd fuel count,
    valid_base b → heap s !! b = Some x → chain b (roots x) hd l →
    (length l < fuel)%nat →
    validate_free_list_loop fuel b hd count s
    = Ok (count + Z.of_nat (length l), s).
Proof.
  induction l as [|i l IH]; intros hd fuel count Hb Hx Hch Hfuel.
  - destruct fuel as [|fuel]; [simpl in Hfuel; lia|].
    simpl in Hch. subst hd. simpl.
    unfold is_empty_free_list. rewrite Z.eqb_refl. unfold ret. do 2 f_equal. lia.
  - destruct fuel as [|fuel]; [simpl in Hfuel; lia|].
    simpl in Hch. destruct Hch as (-> & Hi & nx & Hnx & Hch).
    simpl validate_free_list_loop.
    replace (is_empty_free_list (slot_addr b i) b) with false.
    2:{ symmetry. apply Z.eqb_neq, slot_addr_not_base. }
    rewrite (bind_ok _ _ _ _ _ (load_slot_ok _ _ _ _ _ Hb Hi Hx Hnx)).
    pose proof (chain_even _ _ _ _ Hb Hch) as Hev.
    rewrite Is_long_tag by done.
    rewrite (bind_ok _ _ _ _ _ (assert_true _ _)).
    replace (is_free_slot (tag_free_slot nx) b) with true.
    2:{ symmetry. destruct (chain_head_cases _ _ _ _ Hch) as [->|(j & Hj & ->)].
        - by apply is_free_slot_tag_base.
        - by apply is_free_slot_tag_slot. }
    rewrite (bind_ok _ _ _ _ _ (assert_true _ _)).
    rewrite untag_tag by done.
    rewrite (IH nx fuel (count + 1)); [|done..|simpl in Hfuel; lia].
    do 2 f_equal. simpl length. lia.
Qed.

Lemma chain_cells_free b r hd l i :
  valid_base b → chain b r hd l → i ∈ l →
  ∃ v, r !! i = Some v ∧ is_free_slot v b = true ∧ Is_long v = true.
Proof.
  intros Hb. revert hd. induction l as [|j l IH]; intros hd; simpl.
  - by intros _ ?%elem_of_nil.
  - intros (-> & Hj & nx & Hnx & Hch) [->|Hi]%elem_of_cons; [|by eapply IH].
    exists (tag_free_slot nx). split; [done|].
    pose proof (chain_even _ _ _ _ Hb Hch) as Hev.
    split; [|by apply Is_long_tag].
    destruct (chain_head_cases _ _ _ _ Hch) as [->|(k & Hk & ->)].
    + by apply is_free_slot_tag_base.
    + by apply is_free_slot_tag_slot.
Qed.

Lemma validate_free_list_ok b x s live lmaj lmin :
  valid_base b → heap s !! b = Some x → pool_lists b x live lmaj lmin →
  validate_free_list b Major s = Ok (Z.of_nat (length lmaj), s) ∧
  validate_free_list b Minor s = Ok (Z.of_nat (length lmin), s).
Proof.
  intros Hb Hx Hl. pose proof (valid_base_nonzero _ Hb) as Hb0.
  pose proof (pool_lists_length _ _ _ _ _ Hl) as Hlen. rewrite length_app in Hlen.
  unfold validate_free_list.
  rewrite !(bind_ok _ _ _ _ _ (load_pool_ok _ _ _ Hb0 Hx)).
  split.
  - rewrite (validate_free_list_loop_chain b x s lmaj); [done..|apply Hl|lia].
  - rewrite (validate_free_list_loop_chain b x s lmin); [done..|apply Hl|lia].
Qed.

(** *** Counting the cells in use *)

(** The allocation count of a pool is fixed by the handles in use. *)
Lemma alloc_count_determined b x x' live lmaj lmin lmaj' lmin' :
  pool_lists b x live lmaj lmin → pool_lists b x' live lmaj' lmin' →
  alloc_count x = alloc_count x'.
Proof.
  intros H H'. rewrite (pl_count _ _ _ _ _ H), (pl_count _ _ _ _ _ H').
  do 2 f_equal. apply Permutation_length, NoDup_Permutation; [apply H|apply H'|].
  intros i. split; intros Hi.
  - pose proof (pool_lists_bound _ _ _ _ _ _ H Hi) as Hb.
    apply (pl_live _ _ _ _ _ H'); [done|]. by apply (pl_live _ _ _ _ _ H).
  - pose proof (pool_lists_bound _ _ _ _ _ _ H' Hi) as Hb.
    apply (pl_live _ _ _ _ _ H); [done|]. by apply (pl_live _ _ _ _ _ H').
Qed.

Lemma Inv_alloc_count s s' live b x x' :
  Inv s live → Inv s' live → heap s !! b = Some x → heap s' !! b = Some x' →
  alloc_count x = alloc_count x'.
Proof.
  intros HI HI' Hx Hx'.
  destruct (inv_pool _ _ HI b x Hx) as (? & ? & H).
  destruct (inv_pool _ _ HI' b x' Hx') as (? & ? & H').
  by eapply alloc_count_determined.
Qed.

(** A pool without a handle in use has an allocation count of zero. *)
Lemma Inv_alloc_count_zero s live b x :
  Inv s live → heap s !! b = Some x →
  (∀ i, (i < CAP)%nat → slot_addr b i ∉ live) → alloc_count x = 0.
Proof.
  intros HI Hx Hfree. destruct (inv_pool _ _ HI b x Hx) as (lmaj & lmin & H).
  rewrite (pl_count _ _ _ _ _ H).
  pose proof (pool_lists_length _ _ _ _ _ H) as Hle.
  assert (CAP ≤ length (lmaj ++ lmin))%nat as Hge.
  { transitivity (length (seq 0 CAP)); [by rewrite length_seq|].
    apply submseteq_length, NoDup_submseteq; [apply NoDup_seq|].
    intros i [_ Hi]%elem_of_seq. apply (pl_live _ _ _ _ _ H); [done|].
    by apply Hfree. }
  pose proof CAP_val. rewrite capacity_val. lia.
Qed.

(** *** Sequences of calls *)

Section Runs.

Variable Is_young : Z → bool.

Lemma create_all_spec reqs :
  ∀ s live hs s1,
    reachable Is_young s live → fresh_run Is_young reqs s →
    create_all Is_young reqs s = Ok (hs, s1) → 0 ∉ hs →
    reachable Is_young s1 (list_to_set hs ∪ live) ∧ NoDup hs ∧
    (∀ h, h ∈ hs → h ∉ live) ∧
    live_pools (stat s) ≤ live_pools (stat s1) ∧
    (∀ b, is_Some (heap s !! b) → is_Some (heap s1 !! b)).
Proof.
  induction reqs as [|[mem v] reqs IH]; intros s live hs s1 Hr Hf E H0.
  - injection E as <- <-. simpl. rewrite union_empty_l_L.
    split_and!; [done|apply NoDup_nil_2| |lia|done].
    by intros h ?%elem_of_nil.
  - simpl in E. destruct Hf as [Hfresh Hf].
    apply bind_inv in E as (h & s0 & Ec & E).
    apply bind_inv in E as (hs' & s0' & Ea & E). injection E as <- <-.
    rewrite Ec in Hf.
    assert (h ≠ 0) as Hh0 by (intros ->; apply H0; by left).
    assert (0 ∉ hs') as H0' by (intros ?; apply H0; by right).
    pose proof (reachable_Inv _ _ _ Hr) as HI.
    destruct (create_spec Is_young mem v s live HI Hfresh)
      as (r' & s'' & E' & _ & Hnew & Hl & Hd).
    rewrite Ec in E'. injection E' as <- <-.
    destruct (Hnew Hh0) as [Hnl _].
    pose proof (reach_create _ _ _ _ _ _ _ Hr Hfresh Ec) as Hr0.
    rewrite decide_False in Hr0 by done.
    destruct (IH s0 _ hs' s0' Hr0 Hf Ea H0') as (Hr1 & Hnd & Hnl' & Hl' & Hd').
    split_and!.
    + simpl. replace ({[h]} ∪ list_to_set hs' ∪ live)
        with (list_to_set hs' ∪ ({[h]} ∪ live)) by set_solver. done.
    + apply NoDup_cons. split; [|done]. intros Hin. apply (Hnl' h Hin). set_solver.
    + intros h' [->|Hin]%elem_of_cons; [done|].
      intros Hl''. apply (Hnl' h' Hin). set_solver.
    + lia.
    + intros b Hb. by apply Hd', Hd.
Qed.

Lemma delete_all_spec hs :
  ∀ s live,
    reachable Is_young s live → NoDup hs → (∀ h, h ∈ hs → h ∈ live) →
    ∃ s2, delete_all Is_young hs s = Ok (tt, s2) ∧
          reachable Is_young s2 (live ∖ list_to_set hs) ∧
          live_pools (stat s2) = live_pools (stat s) ∧
          (∀ b, is_Some (heap s2 !! b) ↔ is_Some (heap s !! b)).
Proof.
  induction hs as [|h hs IH]; intros s live Hr Hnd Hin.
  - exists s. simpl. rewrite difference_empty_L. split_and!; done.
  - apply NoDup_cons in Hnd as [Hnh Hnd].
    pose proof (reachable_Inv _ _ _ Hr) as HI.
    destruct (delete_spec Is_young h s live HI) as (s1 & E1 & _ & Hl1 & Hd1).
    { apply Hin. by left. }
    pose proof (reach_delete _ _ _ _ _ Hr (Hin h ltac:(by left)) E1) as Hr1.
    destruct (IH s1 _ Hr1 Hnd) as (s2 & E2 & Hr2 & Hl2 & Hd2).
    { intros h' Hh'. apply elem_of_difference. split; [apply Hin; by right|].
      intros ->%elem_of_singleton. done. }
    exists s2. simpl. rewrite (bind_ok _ _ _ _ _ E1).
    split_and!; [done| |lia|].
    + replace (live ∖ ({[h]} ∪ list_to_set hs))
        with (live ∖ {[h]} ∖ list_to_set hs) by set_solver. done.
    + intros b. by rewrite Hd2, Hd1.
Qed.

End Runs.

(** *** Walking a ring of pools *)

Lemma scan_frame_refl s : scan_frame s s 0 0.
Proof. unfold scan_frame. split_and!; [done..|lia|lia]. Qed.

Lemma scan_frame_trans s1 s2 s3 a b c d :
  scan_frame s1 s2 a b → scan_frame s2 s3 c d → scan_frame s1 s3 (a + c) (b + d).
Proof.
  intros (H1 & H2 & H3 & H4 & H5) (G1 & G2 & G3 & G4 & G5).
  unfold scan_frame. split_and!; [congruence..|lia|lia].
Qed.

Lemma ring_work_insert w h l p y :
  p ∉ l → ring_work w (<[p := y]> h) l = ring_work w h l.
Proof.
  induction l as [|b l IH]; intros Hp; [done|].
  apply not_elem_of_cons in Hp as [Hpb Hp]. simpl.
  rewrite lookup_insert_ne by done. by rewrite <- (IH Hp).
Qed.

Lemma ring_work_app w h l1 l2 :
  ring_work w h (l1 ++ l2) = ring_work w h l1 + ring_work w h l2.
Proof.
  induction l1 as [|b l1 IH]; [done|].
  change (from_option (w b) 0 (h !! b) + ring_work w h (l1 ++ l2)
          = from_option (w b) 0 (h !! b) + ring_work w h l1 + ring_work w h l2).
  rewrite IH. lia.
Qed.

Section RingWalk.

Context {D : Type}.
Variable action : D → Z → Z → D * Z.
Variable minor : bool.

(** What the scan of one pool computes: the new data and the new pool. *)
Variable f : Z → pool → D → D * pool.
(** The pools the scan of one pool is specified for. *)
Variable good : Z → pool → Prop.
(** The work the scan of one pool adds to the statistics: slots walked, and
    slots in use. *)
Variables wt wu : Z → pool → Z.

Hypothesis f_links : ∀ p x d,
  next (snd (f p x d)) = next x ∧ prev (snd (f p x d)) = prev x.

Hypothesis scan_pool_f : ∀ p x d s,
  heap s !! p = Some x → good p x →
  ∃ s', scan_pool action minor p d s = Ok (fst (f p x d), s') ∧
        heap s' = <[p := snd (f p x d)]> (heap s) ∧
        scan_frame s s' (wt p x) (wu p x).

Lemma cyc_next h l1 p l2 :
  cyc h (l1 ++ p :: l2) →
  next <$> h !! p = Some (ring_head (l2 ++ l1 ++ [p])).
Proof.
  intros Hc. apply (cyc_rot _ l1 (p :: l2)) in Hc.
  apply cyc_head_links in Hc as [Hn _]. by rewrite <- app_assoc in Hn.
Qed.

Lemma scan_pool_ring_loop_spec l2 :
  ∀ l1 p s d fuel,
    cyc (heap s) (l1 ++ p :: l2) → NoDup (l1 ++ p :: l2) →
    0 ∉ l1 ++ p :: l2 →
    (∀ b, b ∈ p :: l2 → ∃ x, heap s !! b = Some x ∧ good b x) →
    (length l2 < fuel)%nat →
    ∃ s', scan_pool_ring_loop action fuel minor
            (ring_head (l1 ++ p :: l2)) p d s
          = Ok (fst (fold_ring f (heap s) (p :: l2) d), s') ∧
          heap s' = snd (fold_ring f (heap s) (p :: l2) d) ∧
          scan_frame s s' (ring_work wt (heap s) (p :: l2))
                     (ring_work wu (heap s) (p :: l2)).
Proof.
  induction l2 as [|q l2 IH]; intros l1 p s d fuel Hc Hnd H0 Hgood Hfuel.
  - destruct fuel as [|fuel]; [simpl in Hfuel; lia|].
    destruct (Hgood p) as (x & Hx & Hg); [by left|].
    destruct (scan_pool_f p x d s Hx Hg) as (s1 & E1 & Hh1 & Hfr).
    simpl scan_pool_ring_loop. rewrite (bind_ok _ _ _ _ _ E1).
    assert (p ≠ 0) as Hp0.
    { intros ->. apply H0, elem_of_app. right. by left. }
    assert (heap s1 !! p = Some (snd (f p x d))) as Hx1.
    { rewrite Hh1. apply lookup_insert_eq. }
    rewrite (bind_ok _ _ _ _ _ (load_pool_ok _ _ _ Hp0 Hx1)).
    pose proof (cyc_next _ _ _ _ Hc) as Hn. rewrite Hx in Hn.
    injection Hn as Hn. rewrite (proj1 (f_links p x d)), Hn. simpl app.
    replace (ring_head (l1 ++ [p]) =? ring_head (l1 ++ [p])) with true
      by (symmetry; apply Z.eqb_refl).
    exists s1. simpl. rewrite Hx. simpl. rewrite !Z.add_0_r. done.
  - destruct fuel as [|fuel]; [simpl in Hfuel; lia|].
    destruct (Hgood p) as (x & Hx & Hg); [by left|].
    destruct (scan_pool_f p x d s Hx Hg) as (s1 & E1 & Hh1 & Hfr).
    simpl scan_pool_ring_loop. rewrite (bind_ok _ _ _ _ _ E1).
    assert (p ≠ 0) as Hp0.
    { intros ->. apply H0, elem_of_app. right. by left. }
    assert (heap s1 !! p = Some (snd (f p x d))) as Hx1.
    { rewrite Hh1. apply lookup_insert_eq. }
    rewrite (bind_ok _ _ _ _ _ (load_pool_ok _ _ _ Hp0 Hx1)).
    pose proof (cyc_next _ _ _ _ Hc) as Hn. rewrite Hx in Hn.
    injection Hn as Hn. rewrite (proj1 (f_links p x d)), Hn.
    change (ring_head ((q :: l2) ++ l1 ++ [p])) with q.
    assert (l1 ++ p :: q :: l2 = (l1 ++ [p]) ++ q :: l2) as Hl
      by by rewrite <- app_assoc.
    assert (q ≠ ring_head (l1 ++ p :: q :: l2)) as Hq.
    { apply NoDup_app in Hnd as (Hn1 & Hd & [Hp' [Hq' _]%NoDup_cons]%NoDup_cons).
      destruct l1 as [|a l1]; simpl.
      - intros Heq. apply Hp'. rewrite <- Heq. by left.
      - intros Heq. apply (Hd a); [by left|]. right. rewrite <- Heq. by left. }
    replace (q =? ring_head (l1 ++ p :: q :: l2)) with false
      by (symmetry; by apply Z.eqb_neq).
    rewrite Hl.
    destruct (IH (l1 ++ [p]) q s1 (fst (f p x d)) fuel)
      as (s' & E & Hh & Hfr').
    + rewrite <- Hl, Hh1. destruct (f_links p x d) as [Hfn Hfp].
      eapply cyc_frame; [by eapply update_links_out| |done].
      intros y _ Hy. by apply elem_of_nil in Hy.
    + by rewrite <- Hl.
    + by rewrite <- Hl.
    + intros b Hb. destruct (Hgood b) as (y & Hy & Hgy); [by right|].
      exists y. split; [|done]. rewrite Hh1, lookup_insert_ne; [done|].
      intros ->. apply NoDup_app in Hnd as (_ & _ & [Hp' _]%NoDup_cons). done.
    + simpl in Hfuel. lia.
    + exists s'. rewrite E. simpl fold_ring. rewrite Hx, <- Hh1.
      split; [done|]. split; [done|].
      assert (p ∉ q :: l2) as Hpq.
      { by apply NoDup_app in Hnd as (_ & _ & [Hp' _]%NoDup_cons). }
      rewrite Hh1, !ring_work_insert in Hfr' by done.
      pose proof (scan_frame_trans _ _ _ _ _ _ _ Hfr Hfr') as Htr.
      change (ring_work wt (heap s) (p :: q :: l2))
        with (from_option (wt p) 0 (heap s !! p) + ring_work wt (heap s) (q :: l2)).
      change (ring_work wu (heap s) (p :: q :: l2))
        with (from_option (wu p) 0 (heap s !! p) + ring_work wu (heap s) (q :: l2)).
      rewrite Hx. exact Htr.
Qed.

Lemma scan_pool_ring_spec l s d :
  ring (heap s) (ring_head l) l → NoDup l → 0 ∉ l →
  (∀ b, b ∈ l → ∃ x, heap s !! b = Some x ∧ good b x) →
  (length l ≤ size (heap s))%nat →
  ∃ s', scan_pool_ring action minor (ring_head l) d s
        = Ok (fst (fold_ring f (heap s) l d), s') ∧
        heap s' = snd (fold_ring f (heap s) l d) ∧
        scan_frame s s' (ring_work wt (heap s) l) (ring_work wu (heap s) l).
Proof.
  intros [_ Hc] Hnd H0 Hgood Hsz. unfold scan_pool_ring.
  destruct l as [|p l].
  - simpl. exists s. split; [done|]. split; [done|]. apply scan_frame_refl.
  - assert (p ≠ 0) as Hp0 by (intros ->; apply H0; by left).
    change (ring_head (p :: l)) with p.
    replace (p =? 0) with false by (symmetry; by apply Z.eqb_neq).
    rewrite bind_gets.
    apply (scan_pool_ring_loop_spec l [] p s d (size (heap s))); done.
Qed.

(** The pools outside of [l] are not touched, and the pools of [l] keep
    their links. *)
Lemma fold_ring_other l :
  ∀ h d b, b ∉ l → snd (fold_ring f h l d) !! b = h !! b.
Proof.
  induction l as [|p l IH]; intros h d b Hb; [done|].
  apply not_elem_of_cons in Hb as [Hbp Hb]. simpl.
  destruct (h !! p) as [x|] eqn:Hx; [|done].
  rewrite IH by done. by rewrite lookup_insert_ne.
Qed.

Lemma fold_ring_links l :
  ∀ h d, links_out h (snd (fold_ring f h l d)) [].
Proof.
  induction l as [|p l IH]; intros h d; [done|]. simpl.
  destruct (h !! p) as [x|] eqn:Hx; [|done].
  eapply links_out_trans; [|apply IH].
  destruct (f_links p x d). by eapply update_links_out.
Qed.

Lemma fold_ring_is_Some l :
  ∀ h d b, is_Some (snd (fold_ring f h l d) !! b) ↔ is_Some (h !! b).
Proof.
  induction l as [|p l IH]; intros h d b; [done|]. simpl.
  destruct (h !! p) as [x|] eqn:Hx; [|done].
  rewrite IH. by eapply insert_is_Some_same.
Qed.

End RingWalk.

(** *** The scan of a pool during a minor collection *)

Lemma chain_last_cell b r hd l j :
  chain b r hd l → last l = Some j →
  (j < CAP)%nat ∧ r !! j = Some (tag_free_slot b).
Proof.
  revert hd. induction l as [|i l IH]; intros hd; [done|].
  simpl chain. intros (-> & Hi & nx & Hnx & Hch) Hlast.
  destruct l as [|i' l].
  - simpl in Hlast, Hch. injection Hlast as <-. subst nx. done.
  - rewrite last_cons_cons in Hlast. by eapply IH.
Qed.

Lemma chain_splice b r hd l j hd2 l2 :
  chain b r hd l → last l = Some j → NoDup l → (∀ i, i ∈ l → i ∉ l2) →
  chain b r hd2 l2 →
  chain b (<[j := tag_free_slot hd2]> r) hd (l ++ l2).
Proof.
  revert hd. induction l as [|i l IH]; intros hd; [done|].
  simpl chain. intros (-> & Hi & nx & Hnx & Hch) Hlast Hnd Hdj Hch2.
  apply NoDup_cons in Hnd as [Hni Hnd].
  split_and!; [done..|].
  destruct l as [|i' l].
  - simpl in Hlast, Hch. injection Hlast as <-. subst nx.
    exists hd2. split.
    + apply list_lookup_insert_eq. by eapply lookup_lt_Some.
    + simpl. apply chain_frame; [done|]. apply Hdj. by left.
  - rewrite last_cons_cons in Hlast.
    exists nx. split.
    + rewrite list_lookup_insert_ne; [done|].
      intros <-. apply Hni. by eapply last_Some_elem_of.
    + apply IH; [done..| |done]. intros k Hk. apply Hdj. by right.
Qed.

Lemma pool_lists_splice b x live lmaj lmin :
  valid_base b → pool_lists b x live lmaj lmin →
  pool_lists b (minor_splice b x) live (lmin ++ lmaj) [].
Proof.
  intros Hb H. unfold minor_splice.
  pose proof (chain_is_empty _ _ _ _ (pl_minor _ _ _ _ _ H)) as Hemp.
  pose proof (pl_nodup _ _ _ _ _ H) as Hnd.
  assert (lmin ++ lmaj ≡ₚ lmaj ++ lmin) as Hperm by apply Permutation_app_comm.
  destruct (is_empty_free_list (minor_free_list x) b) eqn:He.
  - assert (lmin = []) as -> by by apply Hemp.
    simpl. rewrite app_nil_r in *. done.
  - assert (lmin ≠ []) as Hne by (intros ?%Hemp; congruence).
    destruct (pl_last _ _ _ _ _ H Hne) as (j & Hj & Hlast).
    destruct (chain_last_cell _ _ _ _ _ (pl_minor _ _ _ _ _ H) Hj) as [Hjc _].
    rewrite Hlast, slot_index_slot by done. simpl default.
    pose proof Hnd as (Hnd1 & Hdj & Hnd2)%NoDup_app.
    split; simpl; rewrite ?app_nil_r.
    + rewrite length_insert. apply H.
    + eapply chain_splice; [apply H|done|done| |apply H].
      intros i Hi Hi'. by apply (Hdj i).
    + done.
    + by rewrite Hperm.
    + intros i Hi. rewrite Hperm. by apply (pl_live _ _ _ _ _ H).
    + rewrite (pl_count _ _ _ _ _ H). by rewrite Hperm.
    + done.
Qed.

Section MinorScan.

Context {D : Type}.
Variable action : D → Z → Z → D * Z.

Lemma scan_pool_minor_spec p x d s live lmaj lmin :
  valid_base p → heap s !! p = Some x → pool_lists p x live lmaj lmin →
  scan_pool action true p d s
  = Ok (d, with_heap (<[p := minor_splice p x]> (heap s)) s).
Proof.
  intros Hp Hx H. pose proof (valid_base_nonzero _ Hp) as Hp0.
  unfold scan_pool, minor_splice.
  rewrite (bind_ok _ _ _ _ _ (load_pool_ok _ _ _ Hp0 Hx)).
  pose proof (chain_is_empty _ _ _ _ (pl_minor _ _ _ _ _ H)) as Hemp.
  destruct (is_empty_free_list (minor_free_list x) p) eqn:He.
  - simpl. unfold ret. rewrite insert_id by done. by rewrite with_heap_id.
  - cbn [negb].
    assert (lmin ≠ []) as Hne by (intros ?%Hemp; congruence).
    destruct (pl_last _ _ _ _ _ H Hne) as (j & Hj & Hlast).
    destruct (chain_last_cell _ _ _ _ _ (pl_minor _ _ _ _ _ H) Hj) as [Hjc Hjv].
    destruct lmin as [|i lmin]; [done|].
    destruct (pl_minor _ _ _ _ _ H) as (Hhd & Hi & nx & Hnx & Hch).
    rewrite Hlast.
    replace (slot_addr p j =? 0) with false
      by (symmetry; by apply Z.eqb_neq, slot_addr_nonzero).
    cbn [negb]. rewrite (bind_ok _ _ _ _ _ (assert_true _ _)).
    rewrite Hhd.
    rewrite (bind_ok _ _ _ _ _ (load_slot_ok _ _ _ _ _ Hp Hi Hx Hnx)).
    replace (is_free_slot (tag_free_slot nx) p) with true.
    2:{ symmetry. destruct (chain_head_cases _ _ _ _ Hch) as [->|(k & Hk & ->)].
        - by apply is_free_slot_tag_base.
        - by apply is_free_slot_tag_slot. }
    rewrite (bind_ok _ _ _ _ _ (assert_true _ _)).
    rewrite (bind_ok _ _ _ _ _ (load_slot_ok _ _ _ _ _ Hp Hjc Hx Hjv)).
    rewrite untag_tag by by apply valid_base_even.
    unfold is_empty_free_list at 1. rewrite Z.eqb_refl.
    rewrite (bind_ok _ _ _ _ _ (assert_true _ _)).
    rewrite (bind_ok _ _ _ _ _
               (store_slot_ok _ _ _ _ _ Hp Hjc Hx (pl_length _ _ _ _ _ H))).
    upd_pool Hp0. upd_pool Hp0.
    rewrite slot_index_slot by done. simpl default.
    unfold ret. do 2 f_equal.
    cbn [minor_free_list with_roots]. rewrite Hhd. reflexivity.
Qed.

(** In a minor collection the data of the action comes back as it went
    in, whatever the action is: the action is not called. *)
Lemma scan_pool_minor_data p d s r s' :
  scan_pool action true p d s = Ok (r, s') → r = d.
Proof.
  unfold scan_pool. intros H.
  apply bind_inv in H as (x & s1 & _ & H).
  destruct (negb (is_empty_free_list (minor_free_list x) p)).
  - repeat (apply bind_inv in H as (? & ? & _ & H)). by injection H as <- _.
  - by injection H as <- _.
Qed.

Lemma scan_pool_ring_loop_minor_data fuel :
  ∀ first p d s r s',
    scan_pool_ring_loop action fuel true first p d s = Ok (r, s') → r = d.
Proof.
  induction fuel as [|fuel IH]; intros first p d s r s' H; [done|].
  simpl in H. apply bind_inv in H as (d1 & s1 & H1 & H).
  apply scan_pool_minor_data in H1 as ->.
  apply bind_inv in H as (x & s2 & _ & H).
  destruct (next x =? first).
  - by injection H as <- _.
  - by eapply IH.
Qed.

Lemma scan_pool_ring_minor_data first d s r s' :
  scan_pool_ring action true first d s = Ok (r, s') → r = d.
Proof.
  unfold scan_pool_ring. destruct (first =? 0).
  - by intros [= <- _].
  - rewrite bind_gets. apply scan_pool_ring_loop_minor_data.
Qed.

Lemma scan_roots_minor_data d s r s' :
  scan_roots action true d s = Ok (r, s') → r = d.
Proof.
  unfold scan_roots. rewrite bind_gets. intros H.
  apply bind_inv in H as (d1 & s1 & H1 & H).
  apply scan_pool_ring_minor_data in H1 as ->.
  rewrite bind_gets in H.
  apply bind_inv in H as (d2 & s2 & H2 & H).
  apply scan_pool_ring_minor_data in H2 as ->.
  apply bind_inv in H as (? & ? & _ & H). by injection H as <- _.
Qed.

Lemma scanning_callback_minor_data d s r s' :
  scanning_callback action true d s = Ok (r, s') → r = d.
Proof.
  unfold scanning_callback. rewrite bind_gets.
  destruct (negb (setup s)); [by intros [= <- _]|].
  unfold bump. rewrite bind_modify. unfold boxroot_used. rewrite bind_gets.
  match goal with |- context [if ?c then _ else _] => destruct c end.
  - apply scan_roots_minor_data.
  - by intros [= <- _].
Qed.

End MinorScan.

(** *** The scan of a pool during a major collection *)

Lemma count_full_cons p v cs :
  count_full p (v :: cs)
  = if is_free_slot v p then count_full p cs else count_full p cs + 1.
Proof.
  unfold count_full. rewrite filter_cons.
  destruct (is_free_slot v p).
  - by rewrite decide_False.
  - rewrite decide_True by done. simpl length. lia.
Qed.

Lemma count_full_nonneg p cs : 0 ≤ count_full p cs.
Proof. unfold count_full. lia. Qed.

Lemma count_full_roots_eq p x : count_full_roots p x = count_full p (roots x).
Proof. reflexivity. Qed.

Lemma full_cells_length p i cells :
  Z.of_nat (length (full_cells p i cells)) = count_full p cells.
Proof.
  revert i. induction cells as [|v cs IH]; intros i; [done|].
  rewrite count_full_cons. simpl. destruct (is_free_slot v p).
  - apply IH.
  - simpl length. rewrite <- (IH (S i)). lia.
Qed.

Lemma full_cells_none p i cells : count_full p cells = 0 → full_cells p i cells = [].
Proof.
  intros H. rewrite <- (full_cells_length p i) in H.
  destruct (full_cells p i cells); [done|]. simpl in H. lia.
Qed.

Section MajorScan.

Context {D : Type}.
Variable action : D → Z → Z → D * Z.

(** The data is the action called on each full cell, once, in address
    order. *)
Lemma scan_cells_data p i cells d :
  fst (scan_cells action p i cells d)
  = foldl (λ d c, fst (action d (fst c) (snd c))) d (full_cells p i cells).
Proof.
  revert i d. induction cells as [|v cs IH]; intros i d; [done|].
  simpl. destruct (is_free_slot v p); simpl; apply IH.
Qed.

Lemma scan_cells_free p i cells d :
  count_full p cells = 0 → scan_cells action p i cells d = (d, cells).
Proof.
  revert i. induction cells as [|v cs IH]; intros i; [done|].
  rewrite count_full_cons. simpl. destruct (is_free_slot v p).
  - intros H. by rewrite IH.
  - pose proof (count_full_nonneg p cs). lia.
Qed.

Lemma scan_cells_length p i cells d :
  length (snd (scan_cells action p i cells d)) = length cells.
Proof.
  revert i d. induction cells as [|v cs IH]; intros i d; [done|].
  simpl. destruct (is_free_slot v p); simpl; by rewrite IH.
Qed.

Lemma with_roots_id x : with_roots (roots x) x = x.
Proof. by destruct x. Qed.

(** What a scan keeps and what it counts. *)

Lemma scan_slots_spec p cells :
  ∀ pre x s d,
    valid_base p → heap s !! p = Some x → roots x = pre ++ cells →
    length (pre ++ cells) = CAP →
    ∃ s', scan_slots action p (seq (length pre) (length cells))
            (count_full p cells) d s
          = Ok (fst (scan_cells action p (length pre) cells d), s') ∧
          heap s'
          = <[p := with_roots (pre ++ snd (scan_cells action p (length pre) cells d)) x]>
              (heap s) ∧
          scan_frame s s' (Z.of_nat (scan_stop p (length pre) cells)) 0.
Proof.
  induction cells as [|v cs IH]; intros pre x s d Hp Hx Hr Hlen.
  - cbn [length seq scan_slots scan_cells scan_stop fst snd].
    change (count_full p [] =? 0) with true.
    rewrite (bind_ok _ _ _ _ _ (assert_true _ _)).
    unfold add_scanning_work, bump. rewrite bind_modify.
    eexists. split; [reflexivity|]. simpl. split.
    + rewrite <- Hr, with_roots_id. by rewrite insert_id.
    + rewrite app_nil_r in Hlen. rewrite Hlen.
      unfold scan_frame. simpl. pose proof CAP_val. rewrite capacity_val.
      split_and!; [done..|lia|lia].
  - cbn [length seq scan_slots].
    destruct (count_full p (v :: cs) =? 0) eqn:Hz.
    + apply Z.eqb_eq in Hz. unfold add_scanning_work, bump. rewrite bind_modify.
      rewrite (scan_cells_free _ _ _ _ Hz). simpl fst. simpl snd.
      eexists. split; [reflexivity|]. simpl scan_stop.
      replace (count_full p (v :: cs) =? 0) with true by (symmetry; by apply Z.eqb_eq).
      split.
      * simpl. rewrite <- Hr, with_roots_id. by rewrite insert_id.
      * unfold scan_frame. simpl. split_and!; [done..|lia|lia].
    + assert (length pre < CAP)%nat as Hi.
      { rewrite <- Hlen, length_app. simpl. lia. }
      assert (roots x !! length pre = Some v) as Hv.
      { rewrite Hr. by rewrite list_lookup_middle. }
      rewrite (bind_ok _ _ _ _ _ (load_slot_ok _ _ _ _ _ Hp Hi Hx Hv)).
      simpl scan_stop. rewrite Hz. simpl scan_cells.
      rewrite count_full_cons in *.
      destruct (is_free_slot v p) eqn:Hfree.
      * cbn [negb].
        destruct (IH (pre ++ [v]) x s d Hp Hx) as (s' & E & Hh & Hfr).
        { by rewrite <- app_assoc. }
        { by rewrite <- app_assoc. }
        rewrite length_app in E, Hh, Hfr. simpl in E, Hh, Hfr.
        rewrite Nat.add_1_r in E, Hh, Hfr.
        exists s'. split; [done|]. simpl fst. simpl snd.
        split; [|done]. rewrite Hh. by rewrite <- app_assoc.
      * cbn [negb].
        assert (length (roots x) = CAP) as Hlx by by rewrite Hr.
        rewrite (bind_ok _ _ _ _ _ (store_slot_ok _ _ _ _ _ Hp Hi Hx Hlx)).
        set (a := action d v (slot_addr p (length pre))).
        set (x1 := with_roots _ x). set (s1 := with_heap _ s).
        assert (roots x1 = (pre ++ [snd a]) ++ cs) as Hr1.
        { subst x1. simpl. rewrite Hr.
          rewrite insert_app_r_alt by done. rewrite Nat.sub_diag. simpl.
          by rewrite <- app_assoc. }
        replace (count_full p cs + 1 - 1) with (count_full p cs) by lia.
        destruct (IH (pre ++ [snd a]) x1 s1 (fst a) Hp) as (s' & E & Hh & Hfr).
        { apply lookup_insert_eq. }
        { done. }
        { rewrite <- app_assoc. rewrite <- Hlen, !length_app. done. }
        rewrite length_app in E, Hh, Hfr. simpl in E, Hh, Hfr.
        rewrite Nat.add_1_r in E, Hh, Hfr.
        exists s'. split; [done|]. simpl fst. simpl snd.
        split; [|done]. rewrite Hh. subst s1. simpl.
        rewrite insert_insert_eq. by rewrite <- app_assoc.
Qed.

Lemma scan_pool_major_spec p x d s :
  valid_base p → heap s !! p = Some x → length (roots x) = CAP →
  count_full_roots p x = alloc_count x →
  ∃ s', scan_pool action false p d s
        = Ok (fst (scan_cells action p 0 (roots x) d), s') ∧
        heap s' = <[p := with_roots (snd (scan_cells action p 0 (roots x) d)) x]>
                    (heap s) ∧
        scan_frame s s' (Z.of_nat (scan_stop p 0 (roots x))) (alloc_count x).
Proof.
  intros Hp Hx Hlen Hcount. pose proof (valid_base_nonzero _ Hp) as Hp0.
  unfold scan_pool.
  rewrite (bind_ok _ _ _ _ _ (load_pool_ok _ _ _ Hp0 Hx)).
  unfold add_scanning_work, bump. rewrite bind_modify.
  rewrite <- Hcount, count_full_roots_eq.
  destruct (scan_slots_spec p (roots x) [] x
              (with_stat
                 (mk_stats (minor_collections (stat s)) (major_collections (stat s))
                    (total_scanning_work (stat s) + 0)
                    (useful_scanning_work (stat s) + count_full p (roots x))
                    (total_alloced_pools (stat s)) (total_freed_pools (stat s))
                    (live_pools (stat s)) (peak_pools (stat s))
                    (ring_operations (stat s))) s) d Hp)
    as (s' & E & Hh & Hfr); [done..|].
  simpl length in E. rewrite <- Hlen. rewrite E.
  exists s'. split; [done|]. split; [done|].
  destruct Hfr as (? & ? & ? & Ht & Hu). simpl in *.
  split_and!; [done..|lia|lia].
Qed.

End MajorScan.

(** *** Releasing the empty pools *)

(** The [next] links fix the list of a ring. *)
Lemma path_unique h a :
  ∀ l l' c, path h c (l ++ [a]) → path h c (l' ++ [a]) → a ∉ l → a ∉ l' → l = l'.
Proof.
  induction l as [|b l IH]; intros l' c Hp Hp' Ha Ha'.
  - destruct l' as [|b' l']; [done|]. simpl in Hp, Hp'.
    destruct Hp as [[Hn _] _]. destruct Hp' as [[Hn' _] _].
    rewrite Hn in Hn'. injection Hn' as <-. exfalso. apply Ha'. by left.
  - destruct l' as [|b' l']; simpl in Hp, Hp'.
    + destruct Hp as [[Hn _] _]. destruct Hp' as [[Hn' _] _].
      rewrite Hn in Hn'. injection Hn' as ->. exfalso. apply Ha. by left.
    + destruct Hp as [[Hn _] Hp]. destruct Hp' as [[Hn' _] Hp'].
      rewrite Hn in Hn'. injection Hn' as <-. f_equal.
      apply (IH l' b); [done..| |].
      * intros ?. apply Ha. by right.
      * intros ?. apply Ha'. by right.
Qed.

Lemma ring_unique h hd l l' :
  ring h hd l → ring h hd l' → NoDup l → NoDup l' → 0 ∉ l → 0 ∉ l' → l = l'.
Proof.
  intros [Hh Hc] [Hh' Hc'] Hnd Hnd' H0 H0'.
  destruct l as [|a l], l' as [|a' l']; simpl in *.
  - done.
  - exfalso. apply H0'. apply elem_of_cons. left. congruence.
  - exfalso. apply H0. apply elem_of_cons. left. congruence.
  - assert (a = a') as <- by congruence. f_equal.
    apply NoDup_cons in Hnd as [Ha _]. apply NoDup_cons in Hnd' as [Ha' _].
    by eapply path_unique.
Qed.

Lemma NoDup_split_unique (l1 l2 l1' l2' : list Z) p :
  NoDup (l1 ++ p :: l2) → l1 ++ p :: l2 = l1' ++ p :: l2' → l1 = l1' ∧ l2 = l2'.
Proof.
  revert l1'. induction l1 as [|a l1 IH]; intros l1' Hnd Heq.
  - destruct l1' as [|a' l1']; simpl in *.
    + by injection Heq as ->.
    + injection Heq as <- ->. apply NoDup_cons in Hnd as [Hn _].
      exfalso. apply Hn, elem_of_app. right. by left.
  - destruct l1' as [|a' l1']; simpl in *.
    + injection Heq as -> <-. apply NoDup_cons in Hnd as [Hn _].
      exfalso. apply Hn, elem_of_app. right. by left.
    + injection Heq as <- Heq. apply NoDup_cons in Hnd as [_ Hnd].
      destruct (IH l1' Hnd Heq) as [-> ->]. done.
Qed.

(** A pool with no allocation has no cell in use. *)
Lemma pool_lists_empty b x live lmaj lmin i :
  pool_lists b x live lmaj lmin → alloc_count x = 0 → (i < CAP)%nat →
  slot_addr b i ∉ live.
Proof.
  intros H Hz Hi. apply (pl_live _ _ _ _ _ H); [done|].
  assert (lmaj ++ lmin ≡ₚ seq 0 CAP) as Hperm.
  { apply submseteq_length_Permutation.
    - apply NoDup_submseteq; [apply H|]. intros j Hj. apply elem_of_seq.
      pose proof (pool_lists_bound _ _ _ _ _ _ H Hj). lia.
    - rewrite length_seq. rewrite (pl_count _ _ _ _ _ H) in Hz.
      pose proof CAP_val. rewrite capacity_val in Hz. lia. }
  rewrite Hperm. apply elem_of_seq. lia.
Qed.

(** The invariant when an empty pool that left its ring is released. *)
Lemma Inv_free_pool s s1 s' live p lp lf :
  Inv s live → bodies_eq (heap s) (heap s1) →
  ring (heap s1) (pools s') lp → ring (heap s1) (full_pools s') lf →
  NoDup (p :: lp ++ lf) → (∀ b, b ∈ p :: lp ++ lf ↔ is_Some (heap s !! b)) →
  (∀ x, heap s !! p = Some x → alloc_count x = 0) →
  heap s' = delete p (heap s1) → setup s' = setup s →
  Inv s' live.
Proof.
  intros HI Hb Hrp Hrf Hnd Hd Hz Hh Hs.
  apply NoDup_cons in Hnd as [Hp Hnd].
  assert (links_out (heap s1) (delete p (heap s1)) [p]) as Hout.
  { intros a Ha. rewrite lookup_delete_ne; [done|]. intros <-. apply Ha. by left. }
  assert (∀ b x', heap s1 !! b = Some x' →
                  ∃ x, heap s !! b = Some x ∧ body x' = body x) as Hback.
  { intros b x' Hx'. specialize (Hb b). rewrite Hx' in Hb.
    destruct (heap s !! b) as [x|]; [|done]. exists x. split; [done|].
    by apply (inj Some). }
  split.
  - rewrite Hs. apply HI.
  - exists lp, lf. rewrite Hh. split_and!; [| |done|].
    + destruct Hrp as [? Hc]. split; [done|].
      eapply cyc_frame; [done| |done]. intros y Hy Hy'%list_elem_of_singleton.
      subst y. apply Hp, elem_of_app. by left.
    + destruct Hrf as [? Hc]. split; [done|].
      eapply cyc_frame; [done| |done]. intros y Hy Hy'%list_elem_of_singleton.
      subst y. apply Hp, elem_of_app. by right.
    + intros b. rewrite lookup_delete_is_Some, (bodies_eq_is_Some _ _ _ Hb).
      rewrite <- Hd, elem_of_cons.
      split; [|intros [? [?|?]]; [congruence|done]].
      intros Hbl. split; [|by right]. intros <-. done.
  - intros b. rewrite Hh, lookup_delete_is_Some.
    rewrite (bodies_eq_is_Some _ _ _ Hb). intros [_ Hbs].
    by apply (inv_base _ _ HI).
  - intros b x'. rewrite Hh, lookup_delete_Some. intros [_ Hx'].
    destruct (Hback b x' Hx') as (x & Hx & Hbx).
    eapply pool_ok_body; [done|]. by apply (inv_pool _ _ HI).
  - intros h Hhl. destruct (inv_live _ _ HI h Hhl) as (b & i & -> & Hi & [x Hx]).
    exists b, i. split_and!; [done..|]. rewrite Hh, lookup_delete_is_Some.
    rewrite (bodies_eq_is_Some _ _ _ Hb).
    split; [|by eauto]. intros <-.
    destruct (inv_pool _ _ HI p x Hx) as (lmaj & lmin & Hl).
    by eapply (pool_lists_empty p x live lmaj lmin i Hl (Hz x Hx) Hi).
Qed.

Lemma free_empty_pools_loop_eq fuel p keep :
  free_empty_pools_loop (S fuel) p keep
  = (do x <- load_pool p ;
     let next_pool := next x in
     do keep' <- free_if_empty p x keep ;
     do ps <- gets pools ;
     if next_pool =? ps then ret tt
     else free_empty_pools_loop fuel next_pool keep').
Proof. reflexivity. Qed.

Lemma pools_kept_refl s : pools_kept s s.
Proof.
  split_and!; [done..| |].
  - intros b x Hx. by exists x.
  - intros b y Hy _. by eauto.
Qed.

Lemma pools_kept_trans s1 s2 s3 :
  pools_kept s1 s2 → pools_kept s2 s3 → pools_kept s1 s3.
Proof.
  intros (?&?&?&Hb1&Hk1) (?&?&?&Hb2&Hk2). split_and!; [congruence..| |].
  - intros b x Hx. destruct (Hb2 b x Hx) as (y & Hy & Hxy).
    destruct (Hb1 b y Hy) as (z & Hz & Hyz). exists z. split; [done|congruence].
  - intros b y Hy Hn. destruct (Hk1 b y Hy Hn) as [z Hz].
    destruct (Hb1 b z Hz) as (y' & Hy' & Hzy).
    assert (y' = y) as -> by congruence.
    apply (Hk2 b z Hz). unfold body in Hzy. injection Hzy as _ _ _ Hc _. congruence.
Qed.

Lemma free_if_empty_spec l1 p l2 lf x keep s live :
  Inv s live → rings_at s l1 (p :: l2) lf → heap s !! p = Some x →
  (keep ≤ 0 → l1 ≠ []) →
  ∃ keep' l1' s',
    free_if_empty p x keep s = Ok (keep', s') ∧ Inv s' live ∧
    rings_at s' l1' l2 lf ∧ (keep' ≤ 0 → l1' ≠ []) ∧ l1' ≠ [] ∧
    ring_head (l1' ++ l2) = ring_head (l1 ++ p :: l2) ∧
    pools_kept s s'.
Proof.
  intros HI (Hrp & Hrf & Hnd & H0 & Hd) Hx Hkeep. unfold free_if_empty.
  assert (rings_at s (l1 ++ [p]) l2 lf) as Hsame.
  { unfold rings_at.
    replace ((l1 ++ [p]) ++ l2) with (l1 ++ p :: l2) by by rewrite <- app_assoc.
    done. }
  assert (l1 ++ [p] ≠ []) as Hne by (by destruct l1).
  assert (ring_head ((l1 ++ [p]) ++ l2) = ring_head (l1 ++ p :: l2)) as Hhd
    by by rewrite <- app_assoc.
  destruct (is_empty_pool x) eqn:Hemp; [destruct (0 <? keep) eqn:Hk|].
  - exists (keep - 1), (l1 ++ [p]), s.
    split_and!; [done..|apply pools_kept_refl].
  - apply Z.ltb_ge in Hk. specialize (Hkeep Hk).
    pose proof Hnd as (Hndp & Hdj & Hndf)%NoDup_app.
    assert (p ∈ l1 ++ p :: l2) as Hpl by (apply elem_of_app; right; by left).
    destruct (pool_remove_spec p (l1 ++ p :: l2) lf s)
      as (s1 & lp' & lf' & E1 & Hrp1 & Hrf1 & Hcb & Hcase & Hb1 & Hs1 & Hl1);
      [done..|by apply elem_of_app; left|].
    assert (lp' = l1 ++ l2 ∧ lf' = lf) as [-> ->].
    { destruct Hcase as [(l1' & l2' & Heq & -> & ->)|(l1' & l2' & -> & _)].
      - by apply (NoDup_split_unique l1 l2 l1' l2' p Hndp) in Heq as [-> <-].
      - exfalso. apply (Hdj p Hpl). apply elem_of_app. right. by left. }
    assert (ring_head (l1 ++ l2) = ring_head (l1 ++ p :: l2)) as Hhd1.
    { destruct l1 as [|a l1]; [done|]. done. }
    rewrite (bind_ok _ _ _ _ _ E1).
    unfold bxr_free_pool, bump_freed, bump.
    rewrite bind_modify, bind_modify.
    eexists keep, l1, _. split; [reflexivity|].
    assert (p :: (l1 ++ l2) ++ lf ≡ₚ (l1 ++ p :: l2) ++ lf) as Hperm.
    { rewrite <- !app_assoc. simpl. by rewrite Permutation_middle. }
    assert (alloc_count x = 0) as Hz by by apply Z.eqb_eq.
    split_and!.
    + eapply (Inv_free_pool s s1 _ live p (l1 ++ l2) lf HI Hb1).
      * exact Hrp1.
      * exact Hrf1.
      * by rewrite Hperm.
      * intros b. by rewrite Hperm.
      * intros y Hy. congruence.
      * reflexivity.
      * simpl. done.
    + assert (links_out (heap s1) (delete p (heap s1)) [p]) as Hout.
      { intros a Ha. rewrite lookup_delete_ne; [done|]. intros <-. apply Ha. by left. }
      assert (p ∉ (l1 ++ l2) ++ lf) as Hpn.
      { assert (NoDup (p :: (l1 ++ l2) ++ lf)) as Hn by by rewrite Hperm.
        by apply NoDup_cons in Hn as [? _]. }
      unfold rings_at. simpl. split_and!.
      * destruct Hrp1 as [? Hc]. split; [done|].
        eapply cyc_frame; [done| |done]. intros y Hy Hy'%list_elem_of_singleton.
        subst y. apply Hpn, elem_of_app. by left.
      * destruct Hrf1 as [? Hc]. split; [done|].
        eapply cyc_frame; [done| |done]. intros y Hy Hy'%list_elem_of_singleton.
        subst y. apply Hpn, elem_of_app. by right.
      * assert (NoDup (p :: (l1 ++ l2) ++ lf)) as Hn by by rewrite Hperm.
        by apply NoDup_cons in Hn as [_ ?].
      * intros Hin. apply H0. rewrite <- Hperm. by right.
      * intros b. rewrite lookup_delete_is_Some, (bodies_eq_is_Some _ _ _ Hb1).
        rewrite <- Hd, <- Hperm, elem_of_cons.
        split; [|intros [? [?|?]]; [congruence|done]].
        intros Hbl. split; [|by right]. intros <-. done.
    + done.
    + done.
    + done.
    + split_and!; simpl.
      * destruct Hrp1 as [-> _]. destruct Hrp as [-> _]. done.
      * destruct Hrf1 as [-> _]. destruct Hrf as [-> _]. done.
      * done.
      * intros b y. rewrite lookup_delete_Some. intros [_ Hy].
        specialize (Hb1 b). rewrite Hy in Hb1.
        destruct (heap s !! b) as [z|]; [|done]. exists z. split; [done|].
        by apply (inj Some).
      * intros b y Hy Hn. rewrite lookup_delete_is_Some.
        rewrite (bodies_eq_is_Some _ _ _ Hb1). split; [|by eauto].
        intros <-. congruence.
  - exists keep, (l1 ++ [p]), s.
    split_and!; [done..|apply pools_kept_refl].
Qed.

Lemma free_empty_pools_loop_spec l2 :
  ∀ l1 p s keep fuel live lf,
    Inv s live → rings_at s l1 (p :: l2) lf →
    (keep ≤ 0 → l1 ≠ []) → (length l2 < fuel)%nat →
    ∃ s', free_empty_pools_loop fuel p keep s = Ok (tt, s') ∧ Inv s' live ∧
          pools_kept s s'.
Proof.
  induction l2 as [|q l2 IH]; intros l1 p s keep fuel live lf HI Hr Hkeep Hfuel.
  all: destruct fuel as [|fuel]; [simpl in Hfuel; lia|].
  all: rewrite free_empty_pools_loop_eq.
  all: pose proof Hr as ([Hhp Hcp] & _ & Hnd & H0 & _).
  all: pose proof (cyc_next _ _ _ _ Hcp) as Hn.
  all: destruct (lookup_fmap_Some _ _ _ _ Hn) as (x & Hx & Hnx).
  all: assert (p ≠ 0) as Hp0
         by (intros ->; apply H0, elem_of_app; left; apply elem_of_app; right; by left).
  all: rewrite (bind_ok _ _ _ _ _ (load_pool_ok _ _ _ Hp0 Hx)); cbv zeta.
  all: destruct (free_if_empty_spec l1 p _ lf x keep s live HI Hr Hx Hkeep)
         as (keep' & l1' & s1 & E1 & HI1 & Hr1 & Hkeep1 & Hne1 & Hhd1 & Hk1).
  all: rewrite (bind_ok _ _ _ _ _ E1), bind_gets.
  all: pose proof Hr1 as ([Hhp1 _] & _).
  all: rewrite Hnx, Hhp1, Hhd1.
  - simpl app. rewrite Z.eqb_refl. by exists s1.
  - change (ring_head ((q :: l2) ++ l1 ++ [p])) with q.
    assert (q ≠ ring_head (l1 ++ p :: q :: l2)) as Hq.
    { apply NoDup_app in Hnd as (Hndp & _ & _).
      apply NoDup_app in Hndp as (Hn1 & Hd & [Hp' [Hq' _]%NoDup_cons]%NoDup_cons).
      destruct l1 as [|a l1]; simpl.
      - intros Heq. apply Hp'. rewrite <- Heq. by left.
      - intros Heq. apply (Hd a); [by left|]. right. rewrite <- Heq. by left. }
    replace (q =? ring_head (l1 ++ p :: q :: l2)) with false
      by (symmetry; by apply Z.eqb_neq).
    destruct (IH l1' q s1 keep' fuel live lf HI1 Hr1 Hkeep1) as (s' & E & HI' & Hk');
      [simpl in Hfuel; lia|].
    exists s'. split_and!; [done..|]. by eapply pools_kept_trans.
Qed.

Lemma free_empty_pools_spec s live :
  Inv s live → pools s ≠ 0 →
  ∃ s', free_empty_pools s = Ok (tt, s') ∧ Inv s' live ∧ pools_kept s s'.
Proof.
  intros HI Hp.
  destruct (Inv_rings_data _ _ HI) as (lp & lf & Hrp & Hrf & Hnd & H0 & Hd & Hsz).
  unfold free_empty_pools. rewrite !bind_gets.
  destruct lp as [|p lp].
  { destruct Hrp as [Hh _]. done. }
  pose proof Hrp as [Hhp _]. simpl in Hhp. rewrite Hhp.
  apply (free_empty_pools_loop_spec lp [] p s 1 _ live lf); [done| |lia|].
  - exact (conj Hrp (conj Hrf (conj Hnd (conj H0 Hd)))).
  - rewrite Hsz. simpl. rewrite length_app. lia.
Qed.

(** *** The scan of the two rings *)

Section FoldRing.

Context {D : Type}.
Variable f : Z → pool → D → D * pool.

Lemma fold_ring_app l1 :
  ∀ l2 h d,
    (∀ b, b ∈ l1 → is_Some (h !! b)) →
    fold_ring f h (l1 ++ l2) d
    = fold_ring f (snd (fold_ring f h l1 d)) l2 (fst (fold_ring f h l1 d)).
Proof.
  induction l1 as [|p l1 IH]; intros l2 h d Hin; [done|].
  simpl. destruct (Hin p) as [x Hx]; [by left|]. rewrite Hx.
  apply IH. intros b Hb. rewrite lookup_insert_is_Some.
  destruct (decide (p = b)); [by left|right]. split; [done|]. apply Hin. by right.
Qed.

(** A relation between a pool before and after its scan holds for every
    pool of the memory after the scan of a ring. *)
Lemma fold_ring_rel (R : Z → pool → pool → Prop) l :
  (∀ b x, R b x x) → (∀ p x d, R p x (snd (f p x d))) →
  NoDup l →
  ∀ h d b x x', h !! b = Some x → snd (fold_ring f h l d) !! b = Some x' →
                R b x x'.
Proof.
  intros Hrefl Hstep. induction l as [|p l IH]; intros Hnd h d b x x' Hx Hx'.
  - simpl in Hx'. assert (x' = x) as -> by congruence. done.
  - apply NoDup_cons in Hnd as [Hp Hnd]. simpl in Hx'.
    destruct (h !! p) as [y|] eqn:Hy.
    + destruct (decide (b = p)) as [->|Hne].
      * rewrite (fold_ring_other f l _ _ p Hp), lookup_insert_eq in Hx'.
        assert (y = x) as -> by congruence. injection Hx' as <-. done.
      * eapply (IH Hnd _ _ b x x'); [|done]. by rewrite lookup_insert_ne.
    + simpl in Hx'. assert (x' = x) as -> by congruence. done.
Qed.

End FoldRing.

(** Every pool is rewritten in place, its links kept and its free lists
    still well formed. *)
Lemma Inv_pools_changed s s' live :
  Inv s live →
  (∀ b, is_Some (heap s' !! b) ↔ is_Some (heap s !! b)) →
  (∀ b x x', heap s !! b = Some x → heap s' !! b = Some x' →
             next x' = next x ∧ prev x' = prev x ∧
             (valid_base b → pool_ok b x live → pool_ok b x' live)) →
  pools s' = pools s → full_pools s' = full_pools s → setup s' = setup s →
  Inv s' live.
Proof.
  intros HI Hdom Hch Ep Ef Es.
  assert (links_out (heap s) (heap s') []) as Hout.
  { intros a _. destruct (heap s !! a) as [x|] eqn:Hx.
    - destruct (proj2 (Hdom a)) as [x' Hx']; [by eauto|].
      destruct (Hch a x x' Hx Hx') as (Hn & Hp & _).
      rewrite Hx'. simpl. by rewrite Hn, Hp.
    - destruct (heap s' !! a) as [x'|] eqn:Hx'; [|done].
      destruct (proj1 (Hdom a)) as [x Hx'']; [by eauto|]. congruence. }
  destruct (Inv_rings_data _ _ HI) as (lp & lf & [Hhp Hcp] & [Hhf Hcf] & Hnd & H0 & Hd & _).
  split.
  - rewrite Es. apply HI.
  - exists lp, lf. rewrite Ep, Ef. split_and!; [| |done|].
    + split; [done|]. eapply cyc_frame; [done| |done].
      intros y _ Hy. by apply elem_of_nil in Hy.
    + split; [done|]. eapply cyc_frame; [done| |done].
      intros y _ Hy. by apply elem_of_nil in Hy.
    + intros b. by rewrite Hdom.
  - intros b Hb. by apply (inv_base _ _ HI), Hdom.
  - intros b x' Hx'. destruct (proj1 (Hdom b)) as [x Hx]; [by eauto|].
    destruct (Hch b x x' Hx Hx') as (_ & _ & Hok). apply Hok.
    + apply (inv_base _ _ HI). by eauto.
    + by apply (inv_pool _ _ HI).
  - intros h Hh. destruct (inv_live _ _ HI h Hh) as (b & i & -> & Hi & Hb).
    exists b, i. split_and!; [done..|]. by apply Hdom.
Qed.

(** The cells that look free are left alone by the scan of the cells. *)
Lemma scan_cells_lookup_free {D} (action : D → Z → Z → D * Z) p cells :
  ∀ i d k v, cells !! k = Some v → is_free_slot v p = true →
             snd (scan_cells action p i cells d) !! k = Some v.
Proof.
  induction cells as [|w cs IH]; intros i d k v Hk Hfree; [done|].
  simpl. destruct k as [|k]; simpl in Hk.
  - injection Hk as ->. by rewrite Hfree.
  - destruct (is_free_slot w p); simpl; by apply IH.
Qed.

Lemma chain_ext b r r' hd l :
  chain b r hd l → (∀ i, i ∈ l → r' !! i = r !! i) → chain b r' hd l.
Proof.
  revert hd. induction l as [|i l IH]; intros hd; simpl; [done|].
  intros (-> & Hi & nx & Hnx & Hch) Hext. split_and!; [done..|].
  exists nx. split.
  - rewrite Hext; [done|by left].
  - apply IH; [done|]. intros j Hj. apply Hext. by right.
Qed.

Lemma pool_lists_scan {D} (action : D → Z → Z → D * Z) b x d live lmaj lmin :
  valid_base b → pool_lists b x live lmaj lmin →
  pool_lists b (with_roots (snd (scan_cells action b 0 (roots x) d)) x)
             live lmaj lmin.
Proof.
  intros Hb H.
  assert (∀ hd l, chain b (roots x) hd l →
                  chain b (snd (scan_cells action b 0 (roots x) d)) hd l) as Hch.
  { intros hd l Hc. eapply chain_ext; [done|]. intros i Hi.
    destruct (chain_cells_free _ _ _ _ i Hb Hc Hi) as (v & Hv & Hfree & _).
    rewrite Hv. by apply scan_cells_lookup_free. }
  split; simpl; [|apply Hch, H|apply Hch, H|apply H..].
  rewrite scan_cells_length. apply H.
Qed.

Lemma size_same_dom (h h' : gmap Z pool) :
  (∀ b, is_Some (h' !! b) ↔ is_Some (h !! b)) → size h' = size h.
Proof.
  intros Hd. rewrite <- !size_dom. f_equal. apply set_eq. intros b.
  by rewrite !elem_of_dom.
Qed.

Lemma ring_work_ext w (h h' : gmap Z pool) l :
  (∀ b, b ∈ l → h' !! b = h !! b) → ring_work w h' l = ring_work w h l.
Proof.
  induction l as [|b l IH]; intros Hl; [done|].
  change (from_option (w b) 0 (h' !! b) + ring_work w h' l
          = from_option (w b) 0 (h !! b) + ring_work w h l).
  rewrite Hl by by left. rewrite IH; [done|]. intros c Hc. apply Hl. by right.
Qed.

Section BothRings.

Context {D : Type}.
Variable action : D → Z → Z → D * Z.
Variable minor : bool.
Variable f : Z → pool → D → D * pool.
Variable good : Z → pool → Prop.
Variables wt wu : Z → pool → Z.

Hypothesis f_links : ∀ p x d,
  next (snd (f p x d)) = next x ∧ prev (snd (f p x d)) = prev x.

Hypothesis scan_pool_f : ∀ p x d s,
  heap s !! p = Some x → good p x →
  ∃ s', scan_pool action minor p d s = Ok (fst (f p x d), s') ∧
        heap s' = <[p := snd (f p x d)]> (heap s) ∧
        scan_frame s s' (wt p x) (wu p x).

Lemma scan_roots_eq d s :
  scan_roots action minor d s
  = (do d2 <- scan_rings action minor d ; free_empty_pools ;; ret d2) s.
Proof.
  unfold scan_roots, scan_rings, bind, gets.
  destruct (scan_pool_ring action minor (pools s) d s) as [[d1 s1]|]; [|done].
  by destruct (scan_pool_ring action minor (full_pools s1) d1 s1) as [[d2 s2]|].
Qed.

Lemma ring_work_other w l l' h d :
  (∀ b, b ∈ l' → b ∉ l) →
  ring_work w (snd (fold_ring f h l d)) l' = ring_work w h l'.
Proof.
  intros Hd. apply ring_work_ext. intros b Hb. apply fold_ring_other. by apply Hd.
Qed.

Lemma scan_rings_spec s live lp lf d :
  Inv s live →
  ring (heap s) (pools s) lp → ring (heap s) (full_pools s) lf →
  NoDup (lp ++ lf) → 0 ∉ lp ++ lf →
  (∀ b, b ∈ lp ++ lf ↔ is_Some (heap s !! b)) →
  (∀ b x, heap s !! b = Some x → good b x) →
  ∃ s', scan_rings action minor d s = Ok (fst (fold_ring f (heap s) (lp ++ lf) d), s') ∧
        heap s' = snd (fold_ring f (heap s) (lp ++ lf) d) ∧
        scan_frame s s' (ring_work wt (heap s) (lp ++ lf))
                   (ring_work wu (heap s) (lp ++ lf)).
Proof.
  intros HI Hrp Hrf Hnd H0 Hd Hgood.
  assert (size (heap s) = length (lp ++ lf)) as Hsz.
  { rewrite <- size_dom. unfold size, set_size. simpl.
    apply Permutation_length, NoDup_Permutation; [apply NoDup_elements|done|].
    intros b. by rewrite elem_of_elements, elem_of_dom, Hd. }
  apply NoDup_app in Hnd as (Hndp & Hdisj & Hndf).
  assert (∀ b, b ∈ lp → is_Some (heap s !! b)) as Hinp.
  { intros b Hb. apply Hd, elem_of_app. by left. }
  assert (∀ b, b ∈ lf → is_Some (heap s !! b)) as Hinf.
  { intros b Hb. apply Hd, elem_of_app. by right. }
  destruct Hrp as [Ehp Hcp]. destruct Hrf as [Ehf Hcf].
  destruct (scan_pool_ring_spec action minor f good wt wu f_links scan_pool_f
              lp s d)
    as (s1 & Hrun1 & Hh1 & Hfr1).
  { by split. }
  { done. }
  { intros Hx. apply H0, elem_of_app. by left. }
  { intros b Hb. destruct (Hinp b Hb) as [x Hx]. exists x. split; [done|].
    by apply (Hgood b). }
  { rewrite Hsz, length_app. lia. }
  assert (∀ b, is_Some (heap s1 !! b) ↔ is_Some (heap s !! b)) as Hdom1.
  { intros b. rewrite Hh1. apply fold_ring_is_Some. }
  destruct (scan_pool_ring_spec action minor f good wt wu f_links scan_pool_f
              lf s1 (fst (fold_ring f (heap s) lp d)))
    as (s2 & Hrun2 & Hh2 & Hfr2).
  { split; [done|]. rewrite Hh1. eapply cyc_frame; [apply fold_ring_links; done| |done].
    intros y _ Hy. by apply elem_of_nil in Hy. }
  { done. }
  { intros Hx. apply H0, elem_of_app. by right. }
  { intros b Hb. destruct (Hinf b Hb) as [x Hx]. exists x. split.
    - rewrite Hh1, fold_ring_other; [done|]. intros Hbp. by apply (Hdisj b).
    - by apply (Hgood b). }
  { rewrite (size_same_dom _ _ Hdom1), Hsz, length_app. lia. }
  exists s2. unfold scan_rings.
  rewrite bind_gets. rewrite Ehp. rewrite (bind_ok _ _ _ _ _ Hrun1).
  rewrite bind_gets. rewrite (proj1 (proj2 Hfr1)), Ehf. rewrite Hrun2.
  rewrite (fold_ring_app f lp lf (heap s) d Hinp), <- Hh1.
  split; [done|]. split; [done|].
  rewrite !ring_work_app.
  replace (ring_work wt (heap s) lf) with (ring_work wt (heap s1) lf).
  2:{ rewrite Hh1. apply ring_work_other. intros b Hb Hbp. by apply (Hdisj b). }
  replace (ring_work wu (heap s) lf) with (ring_work wu (heap s1) lf).
  2:{ rewrite Hh1. apply ring_work_other. intros b Hb Hbp. by apply (Hdisj b). }
  by eapply scan_frame_trans.
Qed.

End BothRings.

(** *** The scan of a minor collection *)

Section MinorFree.

Context {D : Type}.
Variable action : D → Z → Z → D * Z.

Ltac split_run :=
  repeat match goal with
         | |- context [match ?m ?s with Ok _ => _ | Err _ => _ end] =>
             destruct (m s) as [[? ?]|]; try done
         end.

(** In a minor collection the scan is the same computation whatever the
    action is. *)
Lemma scan_pool_minor_idle p d s :
  scan_pool action true p d s
  = (scan_pool idle_action true p tt ;; ret d) s.
Proof.
  unfold scan_pool, bind.
  destruct (load_pool p s) as [[x s1]|]; [|done].
  destruct (negb (is_empty_free_list (minor_free_list x) p)); [|done].
  split_run.
Qed.

Lemma idle_ok {A} (m : E A) (m0 : E unit) (d : A) s s1 :
  m s = (m0 ;; ret d) s → m0 s = Ok (tt, s1) → m s = Ok (d, s1).
Proof. intros -> H. by rewrite (bind_ok _ _ _ _ _ H). Qed.

Lemma idle_err {A} (m : E A) (m0 : E unit) (d : A) s e :
  m s = (m0 ;; ret d) s → m0 s = Err e → m s = Err e.
Proof. intros -> H. by rewrite (bind_err _ _ _ _ H). Qed.

Lemma scan_pool_ring_loop_minor_idle fuel :
  ∀ first p d s,
    scan_pool_ring_loop action fuel true first p d s
    = (scan_pool_ring_loop idle_action fuel true first p tt ;; ret d) s.
Proof.
  induction fuel as [|fuel IH]; intros first p d s; [done|].
  cbn [scan_pool_ring_loop]. rewrite bind_assoc.
  destruct (scan_pool idle_action true p tt s) as [[[] s1]|e] eqn:E1.
  - rewrite (bind_ok _ _ _ _ _ (idle_ok _ _ d _ _ (scan_pool_minor_idle p d s) E1)).
    rewrite (bind_ok _ _ _ _ _ E1). rewrite bind_assoc.
    destruct (load_pool p s1) as [[x s2]|e] eqn:E2.
    + rewrite !(bind_ok _ _ _ _ _ E2). destruct (next x =? first); [done|].
      apply IH.
    + by rewrite !(bind_err _ _ _ _ E2).
  - rewrite (bind_err _ _ _ _ (idle_err _ _ d _ _ (scan_pool_minor_idle p d s) E1)).
    by rewrite (bind_err _ _ _ _ E1).
Qed.

Lemma scan_pool_ring_minor_idle first d s :
  scan_pool_ring action true first d s
  = (scan_pool_ring idle_action true first tt ;; ret d) s.
Proof.
  unfold scan_pool_ring. destruct (first =? 0); [done|].
  rewrite bind_assoc, !bind_gets. apply scan_pool_ring_loop_minor_idle.
Qed.

Lemma scan_roots_minor_idle d s :
  scan_roots action true d s = (scan_roots idle_action true tt ;; ret d) s.
Proof.
  unfold scan_roots. rewrite bind_assoc, !bind_gets, bind_assoc.
  destruct (scan_pool_ring idle_action true (pools s) tt s)
    as [[[] s1]|e] eqn:E1.
  - rewrite (bind_ok _ _ _ _ _
               (idle_ok _ _ d _ _ (scan_pool_ring_minor_idle (pools s) d s) E1)).
    rewrite (bind_ok _ _ _ _ _ E1). rewrite bind_assoc, !bind_gets, bind_assoc.
    destruct (scan_pool_ring idle_action true (full_pools s1) tt s1)
      as [[[] s2]|e] eqn:E2.
    + rewrite (bind_ok _ _ _ _ _
                 (idle_ok _ _ d _ _
                    (scan_pool_ring_minor_idle (full_pools s1) d s1) E2)).
      rewrite (bind_ok _ _ _ _ _ E2). rewrite bind_assoc.
      unfold bind. by destruct (free_empty_pools s2) as [[[] s3]|].
    + rewrite (bind_err _ _ _ _
                 (idle_err _ _ d _ _
                    (scan_pool_ring_minor_idle (full_pools s1) d s1) E2)).
      by rewrite (bind_err _ _ _ _ E2).
  - rewrite (bind_err _ _ _ _
               (idle_err _ _ d _ _ (scan_pool_ring_minor_idle (pools s) d s) E1)).
    by rewrite (bind_err _ _ _ _ E1).
Qed.

Lemma scanning_callback_minor_idle d s :
  scanning_callback action true d s
  = (scanning_callback idle_action true tt ;; ret d) s.
Proof.
  unfold scanning_callback. rewrite bind_assoc, !bind_gets.
  destruct (negb (setup s)); [done|].
  rewrite bind_assoc. unfold bump. rewrite !bind_modify.
  rewrite bind_assoc. unfold boxroot_used. rewrite !bind_gets.
  match goal with |- context [if ?b then _ else _] => destruct b end; [|done].
  apply scan_roots_minor_idle.
Qed.

End MinorFree.

Lemma minor_splice_links p x :
  next (minor_splice p x) = next x ∧ prev (minor_splice p x) = prev x.
Proof. unfold minor_splice. by destruct (is_empty_free_list _ _). Qed.

Lemma minor_splice_alloc_count p x :
  alloc_count (minor_splice p x) = alloc_count x.
Proof. unfold minor_splice. by destruct (is_empty_free_list _ _). Qed.

Lemma fold_ring_splice_data {D} l :
  ∀ h (d : D), fst (fold_ring splice_f h l d) = d.
Proof.
  induction l as [|p l IH]; intros h d; [done|]. simpl.
  destruct (h !! p); [|done]. apply IH.
Qed.

Lemma fold_ring_splice_heap {D} l :
  ∀ h (d : D) b,
    NoDup l → (∀ a, a ∈ l → is_Some (h !! a)) → b ∈ l →
    snd (fold_ring splice_f h l d) !! b = minor_splice b <$> h !! b.
Proof.
  induction l as [|p l IH]; intros h d b Hnd Hin Hb.
  - by apply elem_of_nil in Hb.
  - apply NoDup_cons in Hnd as [Hp Hnd]. simpl.
    destruct (Hin p) as [x Hx]; [by left|]. rewrite Hx.
    destruct (decide (b = p)) as [->|Hne].
    + rewrite fold_ring_other by done. by rewrite lookup_insert_eq, Hx.
    + apply elem_of_cons in Hb as [?|Hb]; [done|].
      rewrite IH; [|done| |done].
      * by rewrite lookup_insert_ne.
      * intros a Ha. rewrite lookup_insert_is_Some.
        destruct (decide (p = a)); [by left|right]. split; [done|].
        apply Hin. by right.
Qed.

Section MinorCallback.

Context {D : Type}.
Variable action : D → Z → Z → D * Z.

Lemma scan_pool_splice live p x d s :
  heap s !! p = Some x → valid_base p ∧ pool_ok p x live →
  ∃ s', scan_pool action true p d s = Ok (fst (splice_f p x d), s') ∧
        heap s' = <[p := snd (splice_f p x d)]> (heap s) ∧
        scan_frame s s' 0 0.
Proof.
  intros Hx [Hb (lmaj & lmin & Hl)].
  exists (with_heap (<[p := minor_splice p x]> (heap s)) s).
  split; [by eapply scan_pool_minor_spec|]. split; [done|].
  unfold scan_frame. simpl. split_and!; [done..|lia|lia].
Qed.

Lemma scan_rings_minor_spec s live d :
  Inv s live →
  ∃ s', scan_rings action true d s = Ok (d, s') ∧ Inv s' live ∧
        pools s' = pools s ∧
        (∀ b, heap s' !! b = minor_splice b <$> heap s !! b).
Proof.
  intros HI.
  destruct (Inv_rings_data _ _ HI) as (lp & lf & Hrp & Hrf & Hnd & H0 & Hd & _).
  destruct (scan_rings_spec action true splice_f
              (λ p x, valid_base p ∧ pool_ok p x live) (λ _ _, 0) (λ _ _, 0)
              (λ p x _, minor_splice_links p x)
              (scan_pool_splice live) s live lp lf d HI Hrp Hrf Hnd H0 Hd)
    as (s' & Hrun & Hh & Hfr).
  { intros b x Hx. split.
    - apply (inv_base _ _ HI). by eauto.
    - by apply (inv_pool _ _ HI). }
  rewrite fold_ring_splice_data in Hrun.
  assert (∀ b, heap s' !! b = minor_splice b <$> heap s !! b) as Hall.
  { intros b. rewrite Hh. destruct (decide (b ∈ lp ++ lf)) as [Hb|Hb].
    - apply fold_ring_splice_heap; [done| |done]. intros a Ha. by apply Hd.
    - rewrite fold_ring_other by done.
      destruct (heap s !! b) as [x|] eqn:Hx; [|done].
      exfalso. apply Hb, Hd. by eauto. }
  destruct Hfr as (Ep & Ef & Es & _).
  exists s'. split; [done|]. split; [|done].
  apply (Inv_pools_changed s s' live HI); [| |done..].
  - intros b. rewrite Hall. by rewrite fmap_is_Some.
  - intros b x x' Hx Hx'. rewrite Hall, Hx in Hx'. injection Hx' as <-.
    destruct (minor_splice_links b x) as [-> ->]. split_and!; [done..|].
    intros Hb (lmaj & lmin & Hl). exists (lmin ++ lmaj), [].
    by apply pool_lists_splice.
Qed.

Lemma scanning_callback_minor_spec s live d :
  Inv s live → pools s ≠ 0 →
  ∃ s', scanning_callback action true d s = Ok (d, s') ∧ Inv s' live ∧
        (∀ b x', heap s' !! b = Some x' →
                 ∃ x, heap s !! b = Some x ∧ body x' = body (minor_splice b x)) ∧
        (∀ b x, heap s !! b = Some x → alloc_count x ≠ 0 →
                is_Some (heap s' !! b)).
Proof.
  intros HI Hp. unfold scanning_callback. rewrite bind_gets.
  rewrite (inv_setup _ _ HI). cbn [negb]. unfold bump. rewrite bind_modify.
  unfold boxroot_used. rewrite bind_gets.
  set (s0 := with_stat _ s).
  assert (Inv s0 live) as HI0 by by apply (Inv_ext s).
  replace (negb (pools s0 =? 0)) with true
    by (symmetry; apply negb_true_iff; by apply Z.eqb_neq).
  cbn [orb]. rewrite scan_roots_eq.
  destruct (scan_rings_minor_spec s0 live d HI0) as (s1 & E1 & HI1 & Hp1 & Hh1).
  rewrite (bind_ok _ _ _ _ _ E1).
  destruct (free_empty_pools_spec s1 live HI1) as (s2 & E2 & HI2 & Hk);
    [by rewrite Hp1|].
  rewrite (bind_ok _ _ _ _ _ E2).
  destruct Hk as (_ & _ & _ & Hb & Hkeep).
  exists s2. split; [done|]. split; [done|]. split.
  - intros b x' Hx'. destruct (Hb b x' Hx') as (y & Hy & Hxy).
    rewrite Hh1 in Hy. change (heap s0) with (heap s) in Hy.
    destruct (heap s !! b) as [x|]; [|done]. injection Hy as <-.
    by exists x.
  - intros b x Hx Hn. apply (Hkeep b (minor_splice b x)).
    + rewrite Hh1. change (heap s0) with (heap s). by rewrite Hx.
    + by rewrite minor_splice_alloc_count.
Qed.

End MinorCallback.

(** *** The scan of a major collection *)

Lemma ring_cells_cons h b l :
  ring_cells h (b :: l)
  = from_option (λ x, full_cells b 0 (roots x)) [] (h !! b) ++ ring_cells h l.
Proof. done. Qed.

Lemma ring_cells_insert h l p y :
  p ∉ l → ring_cells (<[p := y]> h) l = ring_cells h l.
Proof.
  induction l as [|b l IH]; intros Hp; [done|].
  apply not_elem_of_cons in Hp as [Hpb Hp].
  rewrite !ring_cells_cons, lookup_insert_ne by done. by rewrite IH.
Qed.

(** Where the walk of a pool stops: no full cell is left from there on, and
    one is left from every earlier cell on. *)
Lemma scan_stop_spec p cells :
  ∀ i, let k := (scan_stop p i cells - i)%nat in
       (i ≤ scan_stop p i cells)%nat ∧ (k ≤ length cells)%nat ∧
       count_full p (drop k cells) = 0 ∧
       ∀ j, (j < k)%nat → count_full p (drop j cells) ≠ 0.
Proof.
  induction cells as [|v cs IH]; intros i; simpl.
  - replace (i - i)%nat with 0%nat by lia. split_and!; [lia|lia|done|lia].
  - destruct (count_full p (v :: cs) =? 0) eqn:Hc.
    + replace (i - i)%nat with 0%nat by lia. apply Z.eqb_eq in Hc.
      split_and!; [lia|lia|done|lia].
    + apply Z.eqb_neq in Hc. destruct (IH (S i)) as (Hle & Hlen & Hz & Hnz).
      replace (scan_stop p (S i) cs - i)%nat
        with (S (scan_stop p (S i) cs - S i)) by lia.
      split_and!; [lia|lia|done|].
      intros [|j] Hj; [done|]. simpl. apply Hnz. lia.
Qed.

(** The full cells are the cells that do not look free, each once, with the
    address of the cell. *)
Lemma full_cells_elem p cells v a :
  ∀ i, (v, a) ∈ full_cells p i cells ↔
       ∃ k, cells !! k = Some v ∧ is_free_slot v p = false ∧
            a = slot_addr p (i + k).
Proof.
  induction cells as [|w cs IH]; intros i; simpl.
  - split; [by intros ?%elem_of_nil|by intros (k & ? & _)].
  - destruct (is_free_slot w p) eqn:Hw.
    + rewrite IH. split.
      * intros (k & Hk & Hf & ->). exists (S k). split_and!; [done..|].
        f_equal. lia.
      * intros ([|k] & Hk & Hf & ->); simpl in Hk.
        -- injection Hk as ->. congruence.
        -- exists k. split_and!; [done..|]. f_equal. lia.
    + rewrite elem_of_cons, IH. split.
      * intros [Heq|(k & Hk & Hf & ->)].
        -- injection Heq as -> ->. exists 0%nat. split_and!; [done..|].
           f_equal. lia.
        -- exists (S k). split_and!; [done..|]. f_equal. lia.
      * intros ([|k] & Hk & Hf & ->); simpl in Hk.
        -- injection Hk as ->. left. do 2 f_equal. lia.
        -- right. exists k. split_and!; [done..|]. f_equal. lia.
Qed.

Lemma full_cells_addr_bound p cells a :
  ∀ i, a ∈ (full_cells p i cells).*2 → slot_addr p i ≤ a.
Proof.
  induction cells as [|w cs IH]; intros i; simpl.
  - by intros ?%elem_of_nil.
  - assert (slot_addr p i ≤ slot_addr p (S i)) as Hle
      by (unfold slot_addr, slot_size; lia).
    destruct (is_free_slot w p).
    + intros Ha%IH. lia.
    + simpl. intros [->|Ha%IH]%elem_of_cons; lia.
Qed.

Lemma full_cells_NoDup p cells :
  ∀ i, NoDup (full_cells p i cells).*2.
Proof.
  induction cells as [|w cs IH]; intros i; simpl; [constructor|].
  destruct (is_free_slot w p); [apply IH|]. simpl. constructor; [|apply IH].
  intros Ha%full_cells_addr_bound. unfold slot_addr, slot_size in Ha. lia.
Qed.

Section MajorCallback.

Context {D : Type}.
Variable action : D → Z → Z → D * Z.

Lemma fold_ring_major_data l :
  ∀ h d, NoDup l → (∀ a, a ∈ l → is_Some (h !! a)) →
         fst (fold_ring (major_f action) h l d) = visit action d (ring_cells h l).
Proof.
  induction l as [|p l IH]; intros h d Hnd Hin; [done|].
  apply NoDup_cons in Hnd as [Hp Hnd]. simpl fold_ring.
  destruct (Hin p) as [x Hx]; [by left|]. rewrite Hx.
  rewrite IH; [|done|].
  - rewrite ring_cells_insert by done. rewrite ring_cells_cons, Hx.
    unfold visit. rewrite foldl_app. simpl. by rewrite scan_cells_data.
  - intros a Ha. rewrite lookup_insert_is_Some.
    destruct (decide (p = a)); [by left|right]. split; [done|].
    apply Hin. by right.
Qed.

Lemma scan_pool_major_f p x d s :
  heap s !! p = Some x → scannable p x →
  ∃ s', scan_pool action false p d s = Ok (fst (major_f action p x d), s') ∧
        heap s' = <[p := snd (major_f action p x d)]> (heap s) ∧
        scan_frame s s' (Z.of_nat (scan_stop p 0 (roots x))) (alloc_count x).
Proof.
  intros Hx (Hb & Hlen & Hc). by apply scan_pool_major_spec.
Qed.

Lemma scan_rings_major_spec s live lp lf d :
  Inv s live →
  ring (heap s) (pools s) lp → ring (heap s) (full_pools s) lf →
  NoDup (lp ++ lf) → 0 ∉ lp ++ lf →
  (∀ b, b ∈ lp ++ lf ↔ is_Some (heap s !! b)) →
  (∀ b x, heap s !! b = Some x → count_full_roots b x = alloc_count x) →
  ∃ s', scan_rings action false d s
        = Ok (visit action d (ring_cells (heap s) (lp ++ lf)), s') ∧
        Inv s' live ∧
        scan_frame s s'
          (ring_work (λ b x, Z.of_nat (scan_stop b 0 (roots x))) (heap s)
                     (lp ++ lf))
          (ring_work (λ _ x, alloc_count x) (heap s) (lp ++ lf)).
Proof.
  intros HI Hrp Hrf Hnd H0 Hd Hcount.
  destruct (scan_rings_spec action false (major_f action) scannable
              (λ b x, Z.of_nat (scan_stop b 0 (roots x)))
              (λ _ x, alloc_count x)
              (λ p x d, conj eq_refl eq_refl)
              scan_pool_major_f s live lp lf d HI Hrp Hrf Hnd H0 Hd)
    as (s' & Hrun & Hh & Hfr).
  { intros b x Hx. split_and!.
    - apply (inv_base _ _ HI). by eauto.
    - destruct (inv_pool _ _ HI b x Hx) as (lmaj & lmin & Hl). apply Hl.
    - by apply Hcount. }
  rewrite fold_ring_major_data in Hrun; [|done|by intros a Ha; apply Hd].
  exists s'. split; [done|]. split; [|done].
  destruct Hfr as (Ep & Ef & Es & _).
  apply (Inv_pools_changed s s' live HI); [| |done..].
  - intros b. rewrite Hh. apply fold_ring_is_Some.
  - intros b x x' Hx Hx'. rewrite Hh in Hx'.
    apply (fold_ring_rel (major_f action)
             (λ b x x', next x' = next x ∧ prev x' = prev x ∧
                        (valid_base b → pool_ok b x live → pool_ok b x' live))
             (lp ++ lf)) with (h := heap s) (d := d); [| |done..].
    + done.
    + intros p y d0. split_and!; [done..|].
      intros Hb (lmaj & lmin & Hl). exists lmaj, lmin.
      by apply pool_lists_scan.
Qed.

End MajorCallback.

(** *** The scanning work is counted by the scan only *)

Lemma update_pool_work p f s r s' :
  update_pool p f s = Ok (r, s') → work s' = work s.
Proof.
  unfold update_pool. intros (x & s1 & H1 & H2)%bind_inv.
  apply load_pool_inv in H1 as (-> & _ & _). by injection H2 as _ <-.
Qed.

Lemma ring_link_work p q s r s' :
  ring_link p q s = Ok (r, s') → work s' = work s.
Proof.
  unfold ring_link. intros (? & s1 & H1 & (? & s2 & H2 & H3)%bind_inv)%bind_inv.
  apply update_pool_work in H1, H2. injection H3 as _ <-.
  transitivity (work s2); [done|congruence].
Qed.

Lemma ring_pop_work a s r s' :
  ring_pop a s = Ok (r, s') → work s' = work s.
Proof.
  unfold ring_pop. intros (? & s1 & H1 & (x & s2 & H2 & H3)%bind_inv)%bind_inv.
  unfold assert in H1. destruct (negb (a =? 0)); [|done]. injection H1 as _ <-.
  apply load_pool_inv in H2 as (-> & _ & _).
  destruct (next x =? a); [by injection H3 as _ <-|].
  apply bind_inv in H3 as (? & s3 & H3 & (y & s4 & H4 & H5)%bind_inv).
  apply load_pool_inv in H4 as (-> & _ & _).
  apply bind_inv in H5 as (? & s5 & H5 & H6). injection H6 as _ <-.
  apply ring_link_work in H3, H5. congruence.
Qed.

Lemma pool_remove_work p s r s' :
  pool_remove p s = Ok (r, s') → work s' = work s.
Proof.
  unfold pool_remove. intros (x & s1 & H1 & H2)%bind_inv.
  apply ring_pop_work in H1. rewrite bind_gets in H2.
  apply bind_inv in H2 as (? & s2 & H2 & H3). rewrite bind_gets in H3.
  apply bind_inv in H3 as (? & s3 & H3 & H4). injection H4 as _ <-.
  assert (work s2 = work s1) as E2.
  { destruct (x.1 =? pools s1); by injection H2 as _ <-. }
  assert (work s3 = work s2) as E3.
  { destruct (x.1 =? full_pools s2); by injection H3 as _ <-. }
  congruence.
Qed.

Lemma free_if_empty_work p x keep s r s' :
  free_if_empty p x keep s = Ok (r, s') → work s' = work s.
Proof.
  unfold free_if_empty. destruct (is_empty_pool x); [|by intros [= _ <-]].
  destruct (0 <? keep); [by intros [= _ <-]|].
  intros (y & s1 & H1 & H2)%bind_inv. apply pool_remove_work in H1.
  unfold bxr_free_pool, bump_freed, bump in H2.
  rewrite !bind_modify in H2. injection H2 as _ <-. done.
Qed.

Lemma free_empty_pools_loop_work fuel :
  ∀ p keep s r s',
    free_empty_pools_loop fuel p keep s = Ok (r, s') → work s' = work s.
Proof.
  induction fuel as [|fuel IH]; intros p keep s r s'; [done|].
  rewrite free_empty_pools_loop_eq. intros (x & s1 & H1 & H2)%bind_inv.
  apply load_pool_inv in H1 as (-> & _ & _).
  apply bind_inv in H2 as (k & s2 & H2 & H3). apply free_if_empty_work in H2.
  rewrite bind_gets in H3. destruct (next x =? pools s2).
  - injection H3 as _ <-. done.
  - apply IH in H3. congruence.
Qed.

Lemma free_empty_pools_work s r s' :
  free_empty_pools s = Ok (r, s') → work s' = work s.
Proof.
  unfold free_empty_pools. rewrite !bind_gets. apply free_empty_pools_loop_work.
Qed.

Section MajorTotal.

Context {D : Type}.
Variable action : D → Z → Z → D * Z.

Lemma scanning_callback_major_spec s live lp lf d :
  Inv s live → pools s ≠ 0 →
  ring (heap s) (pools s) lp → ring (heap s) (full_pools s) lf →
  NoDup (lp ++ lf) → 0 ∉ lp ++ lf →
  (∀ b, b ∈ lp ++ lf ↔ is_Some (heap s !! b)) →
  (∀ b x, heap s !! b = Some x → count_full_roots b x = alloc_count x) →
  ∃ s', scanning_callback action false d s
        = Ok (visit action d (ring_cells (heap s) (lp ++ lf)), s') ∧
        Inv s' live ∧
        total_scanning_work (stat s')
        = total_scanning_work (stat s)
          + ring_work (λ b x, Z.of_nat (scan_stop b 0 (roots x))) (heap s)
                      (lp ++ lf) ∧
        useful_scanning_work (stat s')
        = useful_scanning_work (stat s)
          + ring_work (λ _ x, alloc_count x) (heap s) (lp ++ lf).
Proof.
  intros HI Hp Hrp Hrf Hnd H0 Hd Hcount.
  unfold scanning_callback. rewrite bind_gets.
  rewrite (inv_setup _ _ HI). cbn [negb]. unfold bump. rewrite bind_modify.
  unfold boxroot_used. rewrite bind_gets.
  set (s0 := with_stat _ s).
  assert (Inv s0 live) as HI0 by by apply (Inv_ext s).
  replace (negb (pools s0 =? 0)) with true
    by (symmetry; apply negb_true_iff; by apply Z.eqb_neq).
  cbn [orb]. rewrite scan_roots_eq.
  destruct (scan_rings_major_spec action s0 live lp lf d HI0)
    as (s1 & E1 & HI1 & Hfr); [done..|].
  rewrite (bind_ok _ _ _ _ _ E1).
  destruct Hfr as (Ep & _ & _ & Ht & Hu).
  destruct (free_empty_pools_spec s1 live HI1) as (s2 & E2 & HI2 & Hk);
    [by rewrite Ep|].
  rewrite (bind_ok _ _ _ _ _ E2).
  apply free_empty_pools_work in E2. unfold work in E2.
  injection E2 as Et Eu.
  exists s2. split; [done|]. split; [done|].
  rewrite Et, Eu, Ht, Hu. done.
Qed.

End MajorTotal.

(** *** The list a slot is taken from *)

Lemma alloc_slot_select mem for_young s :
  alloc_slot mem for_young s
  = (do p <- select_pool mem ;
     if p =? 0 then ret 0 else take_slot p for_young) s.
Proof.
  rewrite alloc_slot_eq. unfold select_pool.
  rewrite bind_assoc, !bind_gets, bind_assoc. done.
Qed.

Lemma select_pool_spec mem s live :
  Inv s live → fresh_mem (heap s) mem →
  ∃ q s1, select_pool mem s = Ok (q, s1) ∧ Inv s1 live ∧
          (∀ x, heap s !! pools s = Some x → is_full_pool x = false →
                q = pools s ∧ s1 = s) ∧
          (q = 0 ∨
           (q ≠ 0 ∧ pools s1 = q ∧
            ∃ x, heap s1 !! q = Some x ∧ is_full_pool x = false)).
Proof.
  intros HI Hfresh. unfold select_pool. rewrite bind_gets.
  assert (heap s !! 0 = None) as H0.
  { destruct (heap s !! 0) eqn:E; [|done].
    destruct (inv_base _ _ HI 0) as [? _]; [by eauto|lia]. }
  assert (∃ q s1, (do su <- gets setup ;
                   if negb su then
                     modify (λ s, with_stderr (stderr s ++ ["boxroot is not setup"]) s) ;;
                     ret 0
                   else
                     do q <- find_available_pool mem ;
                     if q =? 0 then ret 0
                     else
                       do x <- load_pool q ;
                       assert "!is_full_pool(p)" (negb (is_full_pool x)) ;;
                       ret q) s = Ok (q, s1) ∧ Inv s1 live ∧
                  (q = 0 ∨
                   (q ≠ 0 ∧ pools s1 = q ∧
                    ∃ x, heap s1 !! q = Some x ∧ is_full_pool x = false)))
    as (q & s1 & Hslow & HI1 & Hq).
  { rewrite bind_gets, (inv_setup _ _ HI). cbn [negb].
    destruct (find_available_pool_spec mem s live HI Hfresh)
      as (q & s1 & E & HI1 & _ & _ & Hq).
    rewrite (bind_ok _ _ _ _ _ E).
    destruct Hq as [->|(Hq0 & Hpq & x & Hx & Hnf)].
    - change (0 =? 0) with true. cbv iota. exists 0, s1. split_and!; [done..|].
      by left.
    - replace (q =? 0) with false by (symmetry; by apply Z.eqb_neq).
      rewrite (bind_ok _ _ _ _ _ (load_pool_ok _ _ _ Hq0 Hx)), Hnf.
      cbn [negb]. rewrite (bind_ok _ _ _ _ _ (assert_true _ _)).
      exists q, s1. split_and!; [done..|]. right. by eauto. }
  destruct (decide (pools s = 0)) as [Hp0|Hp0].
  - rewrite Hp0. change (0 =? 0) with true. cbv iota. rewrite bind_ret.
    exists q, s1. split_and!; [done..| |done].
    intros x Hx. congruence.
  - replace (pools s =? 0) with false by (symmetry; by apply Z.eqb_neq).
    destruct (Inv_head_pool _ _ HI Hp0) as [x Hx].
    rewrite bind_assoc, (bind_ok _ _ _ _ _ (load_pool_ok _ _ _ Hp0 Hx)), bind_ret.
    destruct (is_full_pool x) eqn:Hfull.
    + exists q, s1. split_and!; [done..| |done].
      intros y Hy. congruence.
    + exists (pools s), s. split_and!; [done..|]. right. by eauto.
Qed.

Lemma take_slot_choice p x young s live :
  Inv s live → heap s !! p = Some x → is_full_pool x = false →
  ∃ i link s',
    free_list_of (chosen_list young x p) x = slot_addr p i ∧ (i < CAP)%nat ∧
    roots x !! i = Some link ∧
    take_slot p young s = Ok (slot_addr p i, s') ∧
    heap s'
    = <[p := with_free_list (chosen_list young x p) (untag_free_slot link)
               (with_alloc_count (alloc_count x + 1) x)]> (heap s) ∧
    ref_table s'
    = (if remembered young x p then slot_addr p i :: ref_table s
       else ref_table s) ∧
    pools s' = pools s ∧ full_pools s' = full_pools s ∧ setup s' = setup s ∧
    stat s' = stat s ∧ stderr s' = stderr s.
Proof.
  intros HI Hx Hnf.
  assert (valid_base p) as Hp by (apply (inv_base _ _ HI); by eauto).
  pose proof (valid_base_nonzero _ Hp) as Hp0.
  destruct (inv_pool _ _ HI p x Hx) as (lmaj & lmin & Hl).
  pose proof (pool_lists_not_full _ _ _ _ _ Hl Hnf) as Hne.
  pose proof (chain_is_empty _ _ _ _ (pl_major _ _ _ _ _ Hl)) as Hemaj.
  pose proof (chain_is_empty _ _ _ _ (pl_minor _ _ _ _ _ Hl)) as Hemin.
  unfold take_slot.
  rewrite (bind_ok _ _ _ _ _ (update_pool_ok _ _ _ _ Hp0 Hx)).
  set (x1 := with_alloc_count (alloc_count x + 1) x).
  set (s1 := with_heap (<[p := x1]> (heap s)) s).
  assert (heap s1 !! p = Some x1) as Hx1 by apply lookup_insert_eq.
  rewrite (bind_ok _ _ _ _ _ (load_pool_ok _ _ _ Hp0 Hx1)).
  assert (∀ fl i link,
            free_list_of fl x = slot_addr p i → (i < CAP)%nat →
            roots x !! i = Some link →
            free_list_pop p fl s1
            = Ok (slot_addr p i,
                  with_heap (<[p := with_free_list fl (untag_free_slot link) x1]>
                               (heap s)) s)) as Hpop.
  { intros fl i link Hhd Hi Hv.
    rewrite (free_list_pop_ok p i fl x1 link s1 Hp Hi Hx1); [|by destruct fl|done].
    subst s1. simpl. by rewrite insert_insert_eq. }
  change (minor_free_list x1) with (minor_free_list x).
  change (major_free_list x1) with (major_free_list x).
  unfold chosen_list, remembered.
  destruct young; cbn [andb].
  - destruct lmin as [|i lmin'].
    + replace (is_empty_free_list (minor_free_list x) p) with true
        by (symmetry; by apply Hemin).
      cbn [negb].
      destruct lmaj as [|i lmaj']; [by destruct Hne|].
      destruct (pool_lists_pop_major _ _ _ _ _ _ Hp Hl)
        as (v & Hv & Hhd & Hi & _).
      rewrite (bind_ok _ _ _ _ _ (Hpop Major i v Hhd Hi Hv)).
      exists i, v. eexists. split_and!; [done|done|done|reflexivity|done..].
    + replace (is_empty_free_list (minor_free_list x) p) with false.
      2:{ symmetry. apply not_true_is_false. by intros ?%Hemin. }
      cbn [negb].
      destruct (pool_lists_pop_minor _ _ _ _ _ _ Hp Hl)
        as (v & Hv & Hhd & Hi & _).
      rewrite (Hpop Minor i v Hhd Hi Hv).
      exists i, v. eexists. split_and!; [done|done|done|reflexivity|done..].
  - destruct lmaj as [|i lmaj'].
    + replace (is_empty_free_list (major_free_list x) p) with true
        by (symmetry; by apply Hemaj).
      cbn [negb].
      destruct lmin as [|i lmin']; [by destruct Hne|].
      destruct (pool_lists_pop_minor _ _ _ _ _ _ Hp Hl)
        as (v & Hv & Hhd & Hi & _).
      rewrite (Hpop Minor i v Hhd Hi Hv).
      exists i, v. eexists. split_and!; [done|done|done|reflexivity|done..].
    + replace (is_empty_free_list (major_free_list x) p) with false.
      2:{ symmetry. apply not_true_is_false. by intros ?%Hemaj. }
      cbn [negb].
      destruct (pool_lists_pop_major _ _ _ _ _ _ Hp Hl)
        as (v & Hv & Hhd & Hi & _).
      rewrite (Hpop Major i v Hhd Hi Hv).
      exists i, v. eexists. split_and!; [done|done|done|reflexivity|done..].
Qed.

(** *** Demonstration inputs *)

Lemma valid_base_16384 : valid_base 16384.
Proof. split; [lia|reflexivity]. Qed.

Lemma reachable_fresh_state Is_young : reachable Is_young fresh_state ∅.
Proof. apply reach_setup. reflexivity. Qed.

Section CreateChoice.

Variable Is_young : Z → bool.

(** C3: [rem_boxroot_create] pops the cell from the head pool, the one
    [select_pool] settles on.  For a nursery pointer it is the head of the
    minor free list when that list is not empty, and otherwise the head of
    the major free list, which then enters the remembered set; for any other
    payload it is the head of the major free list when that list is not
    empty, and otherwise the head of the minor free list, the remembered
    set being left alone.  The payload is written into the cell. *)
Theorem create_takes_from_chosen_list mem v s live :
  Inv s live → fresh_mem (heap s) mem →
  ∃ q s1,
    select_pool mem s = Ok (q, s1) ∧
    (∀ x, heap s !! pools s = Some x → is_full_pool x = false →
          q = pools s ∧ s1 = s) ∧
    (q = 0 → rem_boxroot_create Is_young mem v s = Ok (0, s1)) ∧
    (q ≠ 0 →
     pools s1 = q ∧
     ∃ x i link s',
       heap s1 !! q = Some x ∧
       let young := is_young_block Is_young v in
       let fl := chosen_list young x q in
       free_list_of fl x = slot_addr q i ∧ (i < CAP)%nat ∧
       roots x !! i = Some link ∧
       rem_boxroot_create Is_young mem v s = Ok (slot_addr q i, s') ∧
       heap s'
       = <[q := with_roots (<[i := v]> (roots x))
                   (with_free_list fl (untag_free_slot link)
                      (with_alloc_count (alloc_count x + 1) x))]> (heap s1) ∧
       ref_table s'
       = (if remembered young x q then slot_addr q i :: ref_table s1
          else ref_table s1)).
Proof.
  intros HI Hfresh.
  destruct (select_pool_spec mem s live HI Hfresh)
    as (q & s1 & Esel & HI1 & Hhead & Hq).
  exists q, s1. split; [done|]. split; [done|].
  unfold rem_boxroot_create.
  pose proof (alloc_slot_select mem (is_young_block Is_young v) s) as Ealloc.
  rewrite (bind_ok _ _ _ _ _ Esel) in Ealloc.
  split.
  - intros ->. by rewrite (bind_ok _ _ _ _ _ Ealloc).
  - intros Hq0. destruct Hq as [?|(_ & Hpq & x & Hx & Hnf)]; [done|].
    split; [done|].
    replace (q =? 0) with false in Ealloc by (symmetry; by apply Z.eqb_neq).
    destruct (take_slot_choice q x (is_young_block Is_young v) s1 live HI1 Hx Hnf)
      as (i & link & s2 & Hhd & Hi & Hlink & Etake & Hh2 & Hrt & _).
    assert (valid_base q) as Hb by (apply (inv_base _ _ HI1); by eauto).
    rewrite Etake in Ealloc. rewrite (bind_ok _ _ _ _ _ Ealloc).
    replace (slot_addr q i =? 0) with false
      by (symmetry; apply Z.eqb_neq; by apply slot_addr_nonzero).
    set (fl := chosen_list (is_young_block Is_young v) x q) in *.
    set (x2 := with_free_list fl (untag_free_slot link)
                 (with_alloc_count (alloc_count x + 1) x)) in *.
    assert (heap s2 !! q = Some x2) as Hx2 by (rewrite Hh2; apply lookup_insert_eq).
    assert (roots x2 = roots x) as Hr2 by (subst x2; by destruct fl).
    assert (length (roots x2) = CAP) as Hlen.
    { rewrite Hr2. destruct (inv_pool _ _ HI1 q x Hx) as (? & ? & Hl). apply Hl. }
    rewrite (bind_ok _ _ _ _ _ (store_slot_ok q i x2 v s2 Hb Hi Hx2 Hlen)).
    exists x, i, link. eexists. split; [done|]. cbn zeta.
    split_and!; [done|done|done|reflexivity| |done].
    simpl. rewrite Hh2, insert_insert_eq, Hr2. done.
Qed.

End CreateChoice.

Lemma create_takes_from_chosen_list_witness :
  ∃ q s1, select_pool 16384 fresh_state = Ok (q, s1) ∧
          (q = 0 → rem_boxroot_create nursery 16384 1504 fresh_state
                   = Ok (0, s1)).
Proof.
  destruct (create_takes_from_chosen_list nursery 16384 1504 fresh_state ∅)
    as (q & s1 & Esel & _ & Hnull & _).
  - apply (reachable_Inv nursery), reachable_fresh_state.
  - right. split; [apply valid_base_16384|reflexivity].
  - exists q, s1. exact (conj Esel Hnull).
Defined.

(** *** A handle under [modify] *)

Lemma slot_index_inv a j :
  slot_index a = Some j → a = slot_addr (get_pool_header a) j.
Proof.
  unfold slot_index, slot_addr, header_size, slot_size.
  set (off := a - get_pool_header a).
  destruct (48 <=? off) eqn:H1; [|done].
  destruct ((off - 48) mod 8 =? 0) eqn:H2; [|done]. simpl.
  intros [= <-]. apply Z.leb_le in H1. apply Z.eqb_eq in H2.
  rewrite Z2Nat.id by (apply Z.div_pos; lia).
  pose proof (Z.div_mod (off - 48) 8). subst off. lia.
Qed.

Lemma load_slot_inv a v s s' :
  load_slot a s = Ok (v, s') →
  s' = s ∧ ∃ x j, heap s !! get_pool_header a = Some x ∧
                  slot_index a = Some j ∧ roots x !! j = Some v.
Proof.
  unfold load_slot. intros (x & s1 & H1 & H2)%bind_inv.
  apply load_pool_inv in H1 as (-> & _ & Hx).
  destruct (slot_index a) as [j|]; [|done].
  destruct (roots x !! j) as [w|] eqn:Hw; [|done].
  injection H2 as <- <-. split; [done|]. by exists x, j.
Qed.

(** A store into the cell of a handle in use: one cell of one pool changes. *)
Lemma store_live_frame s live h v :
  Inv s live → h ∈ live →
  ∃ s', store_slot h v s = Ok (tt, s') ∧
        (∀ a w, a ≠ h → load_slot a s = Ok (w, s) → load_slot a s' = Ok (w, s')) ∧
        (∀ b x, heap s !! b = Some x →
                ∃ x', heap s' !! b = Some x' ∧ header x' = header x) ∧
        ref_table s' = ref_table s.
Proof.
  intros HI Hh.
  destruct (Inv_slot _ _ _ HI Hh) as (b & i & x & -> & Hi & Hb & Hx & lmaj & lmin & Hl).
  pose proof (pl_length _ _ _ _ _ Hl) as Hlen.
  eexists. split; [by eapply store_slot_ok|]. split_and!; [| |done].
  - intros a w Ha Hload. apply load_slot_inv in Hload as (_ & y & j & Hy & Hj & Hw).
    unfold load_slot.
    assert (get_pool_header a ≠ 0) as Hn0.
    { intros E0. rewrite E0 in Hy.
      destruct (inv_base _ _ HI 0) as [? _]; [by eauto|lia]. }
    destruct (decide (get_pool_header a = b)) as [Eb|Eb].
    + rewrite Eb in *. assert (y = x) as -> by congruence.
      erewrite bind_ok; [|apply load_pool_ok; [done|apply lookup_insert_eq]].
      rewrite Hj. simpl.
      assert (j ≠ i) as Hji.
      { intros ->. apply Ha. rewrite (slot_index_inv a i Hj). by rewrite Eb. }
      rewrite list_lookup_insert_ne by done. by rewrite Hw.
    + erewrite bind_ok;
        [|apply load_pool_ok; [done|simpl; by rewrite lookup_insert_ne]].
      by rewrite Hj, Hw.
  - intros b' y Hy. simpl. destruct (decide (b' = b)) as [->|Hne].
    + rewrite lookup_insert_eq. assert (y = x) as -> by congruence. by eexists.
    + rewrite lookup_insert_ne by done. by exists y.
Qed.

Section Modify.

Variable Is_young : Z → bool.

Lemma modify_frame h v s live :
  Inv s live → h ∈ live →
  ∃ s', rem_boxroot_modify Is_young h v s = Ok (h, s') ∧ Inv s' live ∧
        load_slot h s' = Ok (v, s') ∧
        (∀ a w, a ≠ h → load_slot a s = Ok (w, s) → load_slot a s' = Ok (w, s')) ∧
        (∀ b x, heap s !! b = Some x →
                ∃ x', heap s' !! b = Some x' ∧ header x' = header x).
Proof.
  intros HI Hh. unfold rem_boxroot_modify.
  destruct (store_live_spec s live h v HI Hh)
    as (s1 & E1 & HI1 & (Ep & Ef & Es & Est & Hdom) & Hload & _).
  destruct (store_live_frame s live h v HI Hh) as (s1' & E1' & Hfr & Hhd & _).
  assert (s1' = s1) as -> by congruence.
  destruct (negb (is_young_block Is_young v)).
  - rewrite (bind_ok _ _ _ _ _ E1). exists s1. split_and!; done.
  - destruct (load_live_spec s live h HI Hh) as [old Hold].
    rewrite bind_assoc, (bind_ok _ _ _ _ _ Hold).
    rewrite bind_assoc, (bind_ok _ _ _ _ _ E1).
    destruct (negb (is_young_block Is_young old)).
    + eexists. split; [reflexivity|]. split_and!; [| | |done].
      * by eapply Inv_ext.
      * by eapply load_slot_heap.
      * intros a w Ha Hw. eapply load_slot_heap; [by apply Hfr|done].
    + exists s1. split_and!; done.
Qed.

(** C4: whatever the payloads written through a handle in use, one
    [rem_boxroot_modify] after the other, the handle variable holds the same
    address after each call; the last payload is in the cell of the handle,
    every other cell keeps its content, and no pool header changes (no slot
    is taken or given back). *)
Theorem modify_keeps_handle vs :
  ∀ h s live,
    Inv s live → h ∈ live →
    ∃ s', modify_all Is_young h vs s = Ok (h, s') ∧ Inv s' live ∧
          (∀ v0, load_slot h s = Ok (v0, s) →
                 load_slot h s' = Ok (default v0 (last vs), s')) ∧
          (∀ a w, a ≠ h → load_slot a s = Ok (w, s) →
                  load_slot a s' = Ok (w, s')) ∧
          (∀ b x, heap s !! b = Some x →
                  ∃ x', heap s' !! b = Some x' ∧ header x' = header x).
Proof.
  induction vs as [|v vs IH]; intros h s live HI Hh.
  - exists s. split_and!; [done..|]. intros b x Hx. by exists x.
  - destruct (modify_frame h v s live HI Hh) as (s1 & E1 & HI1 & Hl1 & Hfr1 & Hhd1).
    destruct (IH h s1 live HI1 Hh) as (s' & E & HI' & Hl & Hfr & Hhd).
    exists s'. cbn [modify_all]. rewrite (bind_ok _ _ _ _ _ E1).
    split_and!; [done|done| | |].
    + intros v0 _. rewrite last_cons.
      specialize (Hl v Hl1). by destruct (last vs).
    + intros a w Ha Hw. by apply Hfr, Hfr1.
    + intros b x Hx. destruct (Hhd1 b x Hx) as (x1 & Hx1 & E1').
      destruct (Hhd b x1 Hx1) as (x' & Hx' & E'). exists x'. split; [done|].
      congruence.
Qed.

End Modify.

(** *** The scan callback *)

(** C1: in a minor collection the scan callback returns the data it was
    given and ends in a state that does not depend on the scanning action:
    the action is called on no slot.  Every pool of either ring that is
    still there has its minor free list spliced in front of its major free
    list through [last_minor_free_slot] and then emptied, and a pool that
    holds a handle is still there. *)
Theorem minor_scan_visits_no_slot s live :
  Inv s live → pools s ≠ 0 →
  ∃ s',
    (∀ (D : Type) (action : D → Z → Z → D * Z) (d : D),
       scanning_callback action true d s = Ok (d, s')) ∧
    Inv s' live ∧
    (∀ b x', heap s' !! b = Some x' →
             ∃ x, heap s !! b = Some x ∧ body x' = body (minor_splice b x)) ∧
    (∀ b x, heap s !! b = Some x → alloc_count x ≠ 0 →
            is_Some (heap s' !! b)) ∧
    (∀ b x lmaj lmin, heap s !! b = Some x → pool_lists b x live lmaj lmin →
                      pool_lists b (minor_splice b x) live (lmin ++ lmaj) []).
Proof.
  intros HI Hp.
  destruct (scanning_callback_minor_spec idle_action s live tt HI Hp)
    as (s' & Hrun & HI' & Hbody & Hkeep).
  exists s'. split_and!; [|done..|].
  - intros D action d. rewrite scanning_callback_minor_idle.
    by rewrite (bind_ok _ _ _ _ _ Hrun).
  - intros b x lmaj lmin Hx Hl. apply pool_lists_splice; [|done].
    apply (inv_base _ _ HI). by eauto.
Qed.

(** X8: when every pool has as many cells that look full as its
    allocation count says, the scan callback of a major collection goes
    through both rings, every pool once, and calls the action on the full cells of each
    pool, each once and in address order, with the payload and the address
    of the cell, and on no free cell.  The walk of a pool stops at the first
    cell that has no full cell at or after it, which is what
    [total_scanning_work] counts, and [useful_scanning_work] counts the
    full cells. *)
Lemma major_scan_visits_full_slots {D} (action : D → Z → Z → D * Z) (d : D)
    s live :
  Inv s live → pools s ≠ 0 →
  (∀ b x, heap s !! b = Some x → count_full_roots b x = alloc_count x) →
  ∃ lp lf s',
    ring (heap s) (pools s) lp ∧ ring (heap s) (full_pools s) lf ∧
    NoDup (lp ++ lf) ∧ (∀ b, b ∈ lp ++ lf ↔ is_Some (heap s !! b)) ∧
    scanning_callback action false d s
    = Ok (visit action d (ring_cells (heap s) (lp ++ lf)), s') ∧
    Inv s' live ∧
    (∀ b x, heap s !! b = Some x →
       Z.of_nat (length (full_cells b 0 (roots x))) = alloc_count x ∧
       NoDup (full_cells b 0 (roots x)).*2 ∧
       (∀ v a, (v, a) ∈ full_cells b 0 (roots x) ↔
               ∃ i, roots x !! i = Some v ∧ is_free_slot v b = false ∧
                    a = slot_addr b i) ∧
       (scan_stop b 0 (roots x) ≤ length (roots x))%nat ∧
       count_full b (drop (scan_stop b 0 (roots x)) (roots x)) = 0 ∧
       (∀ j, (j < scan_stop b 0 (roots x))%nat →
             count_full b (drop j (roots x)) ≠ 0)) ∧
    total_scanning_work (stat s')
    = total_scanning_work (stat s)
      + ring_work (λ b x, Z.of_nat (scan_stop b 0 (roots x))) (heap s)
                  (lp ++ lf) ∧
    useful_scanning_work (stat s')
    = useful_scanning_work (stat s)
      + ring_work (λ _ x, alloc_count x) (heap s) (lp ++ lf).
Proof.
  intros HI Hp Hcount.
  destruct (Inv_rings_data _ _ HI) as (lp & lf & Hrp & Hrf & Hnd & H0 & Hd & _).
  destruct (scanning_callback_major_spec action s live lp lf d
              HI Hp Hrp Hrf Hnd H0 Hd Hcount)
    as (s' & Hrun & HI' & Ht & Hu).
  exists lp, lf, s'. split_and!; [done..| |done|done].
  intros b x Hx. split_and!.
  - rewrite full_cells_length, <- count_full_roots_eq. by apply Hcount.
  - apply full_cells_NoDup.
  - intros v a. rewrite full_cells_elem. done.
  - pose proof (scan_stop_spec b (roots x) 0) as Hs. simpl in Hs.
    rewrite Nat.sub_0_r in Hs. apply Hs.
  - pose proof (scan_stop_spec b (roots x) 0) as Hs. simpl in Hs.
    rewrite Nat.sub_0_r in Hs. apply Hs.
  - pose proof (scan_stop_spec b (roots x) 0) as Hs. simpl in Hs.
    rewrite Nat.sub_0_r in Hs. apply Hs.
Qed.

(** *** Free lists *)

Section Integrity.

Variable Is_young : Z → bool.

(** C5: in a state reached by creates, deletes and modifies, the walks of
    [validate_free_list] over the two free lists of a pool succeed (each
    cell they reach is tagged as a free slot of the pool) and count
    [POOL_ROOTS_CAPACITY - alloc_count] cells together; the two lists share
    no cell, a head is never null, and a list is empty exactly when its
    head is the base address of the pool. *)
Theorem free_list_integrity s live b x :
  reachable Is_young s live → heap s !! b = Some x →
  ∃ lmaj lmin,
    validate_free_list b Major s = Ok (Z.of_nat (length lmaj), s) ∧
    validate_free_list b Minor s = Ok (Z.of_nat (length lmin), s) ∧
    Z.of_nat (length lmaj) + Z.of_nat (length lmin)
    = POOL_ROOTS_CAPACITY - alloc_count x ∧
    chain b (roots x) (major_free_list x) lmaj ∧
    chain b (roots x) (minor_free_list x) lmin ∧
    NoDup (lmaj ++ lmin) ∧
    (∀ i, i ∈ lmaj ++ lmin →
          ∃ v, roots x !! i = Some v ∧ is_free_slot v b = true) ∧
    major_free_list x ≠ 0 ∧ minor_free_list x ≠ 0 ∧
    (lmaj = [] ↔ major_free_list x = empty_free_list b) ∧
    (lmin = [] ↔ minor_free_list x = empty_free_list b).
Proof.
  intros Hr Hx. pose proof (reachable_Inv Is_young s live Hr) as HI.
  assert (valid_base b) as Hb by (apply (inv_base _ _ HI); by eauto).
  destruct (inv_pool _ _ HI b x Hx) as (lmaj & lmin & Hl).
  destruct (validate_free_list_ok b x s live lmaj lmin Hb Hx Hl) as [Hv1 Hv2].
  pose proof (pl_major _ _ _ _ _ Hl) as Hcmaj.
  pose proof (pl_minor _ _ _ _ _ Hl) as Hcmin.
  assert (∀ hd l, chain b (roots x) hd l → hd ≠ 0) as Hnz.
  { intros hd l [->|(j & Hj & ->)]%chain_head_cases.
    - by apply valid_base_nonzero.
    - by apply slot_addr_nonzero. }
  exists lmaj, lmin. split_and!; [done|done| |done|done|apply Hl| | | | |].
  - rewrite (pl_count _ _ _ _ _ Hl), length_app. lia.
  - intros i [Hi|Hi]%elem_of_app.
    + destruct (chain_cells_free _ _ _ _ i Hb Hcmaj Hi) as (v & ? & ? & _).
      by exists v.
    + destruct (chain_cells_free _ _ _ _ i Hb Hcmin Hi) as (v & ? & ? & _).
      by exists v.
  - by eapply Hnz.
  - by eapply Hnz.
  - symmetry. by eapply chain_nil_iff.
  - symmetry. by eapply chain_nil_iff.
Qed.

End Integrity.

(** *** Create before setup *)

Lemma with_stderr_twice a b s : with_stderr a (with_stderr b s) = with_stderr a s.
Proof. by destruct s. Qed.

Section BeforeSetup.

Variable Is_young : Z → bool.

Lemma create_before_setup mem v s :
  setup s = false → pools s = 0 →
  rem_boxroot_create Is_young mem v s
  = Ok (0, with_stderr (stderr s ++ ["boxroot is not setup"]) s).
Proof.
  intros Hs Hp. unfold rem_boxroot_create.
  assert (alloc_slot mem (is_young_block Is_young v) s
          = Ok (0, with_stderr (stderr s ++ ["boxroot is not setup"]) s)) as E.
  { rewrite alloc_slot_eq, bind_gets, Hp. change (0 =? 0) with true. cbv iota.
    rewrite bind_ret. cbv iota. rewrite bind_assoc, bind_gets, Hs. cbn [negb].
    rewrite bind_assoc, bind_modify, bind_ret. done. }
  by rewrite (bind_ok _ _ _ _ _ E).
Qed.

(** C8, amended: every create made while the engine is not set up and has
    no pool returns the null handle, and each of them writes the message to
    the log. *)
Theorem create_before_setup_logs_each_time reqs :
  ∀ s, setup s = false → pools s = 0 →
       create_all Is_young reqs s
       = Ok (replicate (length reqs) 0,
             with_stderr
               (stderr s ++ replicate (length reqs) "boxroot is not setup") s).
Proof.
  induction reqs as [|[mem v] reqs IH]; intros s Hs Hp.
  - simpl. rewrite app_nil_r. by destruct s.
  - cbn [create_all]. rewrite (bind_ok _ _ _ _ _ (create_before_setup mem v s Hs Hp)).
    rewrite (bind_ok _ _ _ _ _
               (IH (with_stderr (stderr s ++ ["boxroot is not setup"]) s) Hs Hp)).
    cbn [length replicate ret stderr with_stderr].
    by rewrite with_stderr_twice, <- app_assoc.
Qed.

End BeforeSetup.

Lemma create_before_setup_logs_each_time_witness :
  create_all nursery [(0, 1); (16384, 1504); (0, 3)] initial_state
  = Ok ([0; 0; 0],
        with_stderr ["boxroot is not setup"; "boxroot is not setup";
                     "boxroot is not setup"] initial_state).
Proof.
  apply (create_before_setup_logs_each_time nursery
           [(0, 1); (16384, 1504); (0, 3)] initial_state); reflexivity.
Defined.

(** C8, as stated: two creates before the setup write the message twice. *)
Lemma create_before_setup_logs_twice_counterexample :
  ∃ s, create_all nursery [(0, 1); (0, 1)] initial_state = Ok ([0; 0], s) ∧
       stderr s = ["boxroot is not setup"; "boxroot is not setup"].
Proof. eexists. split; reflexivity. Qed.

(** *** The counter of ring operations never decreases *)

Lemma update_pool_stat p f s r s' :
  update_pool p f s = Ok (r, s') → stat s' = stat s.
Proof.
  unfold update_pool. intros (x & s1 & H1 & H2)%bind_inv.
  apply load_pool_inv in H1 as (-> & _ & _). by injection H2 as _ <-.
Qed.

Lemma load_slot_same a v s s' : load_slot a s = Ok (v, s') → s' = s.
Proof. by intros [-> _]%load_slot_inv. Qed.

Lemma store_slot_stat a v s r s' :
  store_slot a v s = Ok (r, s') → stat s' = stat s.
Proof.
  unfold store_slot. intros (x & s1 & H1 & H2)%bind_inv.
  apply load_pool_inv in H1 as (-> & _ & _).
  destruct (slot_index a) as [i|]; [|done].
  destruct (decide (i < length (roots x))%nat); [|done].
  by apply update_pool_stat in H2.
Qed.

Lemma ring_link_ops p q s r s' :
  ring_link p q s = Ok (r, s') → ops s' = ops s + 1.
Proof.
  unfold ring_link. intros (? & s1 & H1 & (? & s2 & H2 & H3)%bind_inv)%bind_inv.
  apply update_pool_stat in H1, H2. injection H3 as _ <-.
  unfold ops. simpl. by rewrite H2, H1.
Qed.

Lemma ring_pop_ops a s r s' : ring_pop a s = Ok (r, s') → ops s ≤ ops s'.
Proof.
  unfold ring_pop. intros (? & s1 & H1 & (x & s2 & H2 & H3)%bind_inv)%bind_inv.
  unfold assert in H1. destruct (negb (a =? 0)); [|done]. injection H1 as _ <-.
  apply load_pool_inv in H2 as (-> & _ & _).
  destruct (next x =? a); [injection H3 as _ <-; lia|].
  apply bind_inv in H3 as (? & s3 & H3 & (y & s4 & H4 & H5)%bind_inv).
  apply load_pool_inv in H4 as (-> & _ & _).
  apply bind_inv in H5 as (? & s5 & H5 & H6). injection H6 as _ <-.
  apply ring_link_ops in H3, H5. lia.
Qed.

Lemma ring_push_back_ops a b s r s' :
  ring_push_back a b s = Ok (r, s') → ops s ≤ ops s'.
Proof.
  unfold ring_push_back. destruct (a =? 0); [intros [= _ <-]; lia|].
  destruct (b =? 0); [intros [= _ <-]; lia|].
  intros (x & s1 & H1 & (y & s2 & H2 & H3)%bind_inv)%bind_inv.
  apply load_pool_inv in H1 as (-> & _ & _).
  apply load_pool_inv in H2 as (-> & _ & _).
  apply bind_inv in H3 as (? & s3 & H3 & (? & s4 & H4 & H5)%bind_inv).
  injection H5 as _ <-. apply ring_link_ops in H3, H4. lia.
Qed.

Lemma free_list_push_stat a p fl s r s' :
  free_list_push a p fl s = Ok (r, s') → stat s' = stat s.
Proof.
  unfold free_list_push. intros (x & s1 & H1 & (? & s2 & H2 & H3)%bind_inv)%bind_inv.
  apply load_pool_inv in H1 as (-> & _ & _).
  apply store_slot_stat in H2. apply update_pool_stat in H3. congruence.
Qed.

Lemma free_list_pop_stat p fl s r s' :
  free_list_pop p fl s = Ok (r, s') → stat s' = stat s.
Proof.
  unfold free_list_pop. intros (x & s1 & H1 & (v & s2 & H2 & H3)%bind_inv)%bind_inv.
  apply load_pool_inv in H1 as (-> & _ & _). apply load_slot_same in H2 as ->.
  apply bind_inv in H3 as (? & s3 & H3 & H4). injection H4 as _ <-.
  by apply update_pool_stat in H3.
Qed.

Lemma push_all_stat p l :
  ∀ s r s', push_all p l s = Ok (r, s') → stat s' = stat s.
Proof.
  induction l as [|i l IH]; intros s r s'; [by intros [= _ <-]|].
  cbn [push_all]. intros (? & s1 & H1 & H2)%bind_inv.
  apply free_list_push_stat in H1. apply IH in H2. congruence.
Qed.

Lemma get_empty_pool_ops mem s q s' :
  get_empty_pool mem s = Ok (q, s') → ops s ≤ ops s'.
Proof.
  unfold get_empty_pool, bump. rewrite bind_modify.
  unfold bxr_alloc_uninitialised_pool. destruct (mem =? 0) eqn:Hm.
  - rewrite bind_ret. change (0 =? 0) with true. cbv iota.
    intros [= _ <-]. unfold ops. simpl. lia.
  - rewrite bind_assoc, bind_modify, bind_ret, Hm. rewrite bind_modify.
    intros (? & s1 & H1 & H2)%bind_inv. apply ring_link_ops in H1.
    apply bind_inv in H2 as (? & s2 & H2 & H3). apply update_pool_stat in H2.
    apply bind_inv in H3 as (? & s3 & H3 & H4). apply update_pool_stat in H3.
    apply bind_inv in H4 as (? & s4 & H4 & H5). apply update_pool_stat in H4.
    apply bind_inv in H5 as (? & s5 & H5 & H6). apply update_pool_stat in H5.
    apply bind_inv in H6 as (? & s6 & H6 & H7). apply push_all_stat in H6.
    injection H7 as _ <-. unfold ops in *. simpl in H1.
    rewrite H6, H5, H4, H3, H2. lia.
Qed.

Lemma skip_full_pools_ops fuel :
  ∀ s r s', skip_full_pools fuel s = Ok (r, s') → ops s ≤ ops s'.
Proof.
  induction fuel as [|fuel IH]; intros s r s'; [done|].
  cbn [skip_full_pools]. rewrite bind_gets.
  destruct (pools s =? 0); [intros [= _ <-]; lia|].
  intros (x & s1 & H1 & H2)%bind_inv.
  apply load_pool_inv in H1 as (-> & _ & _).
  destruct (is_full_pool x); [|injection H2 as _ <-; lia].
  apply bind_inv in H2 as (p & s2 & H2 & H3). apply ring_pop_ops in H2.
  rewrite bind_modify, bind_gets in H3.
  apply bind_inv in H3 as (f & s3 & H3 & H4). apply ring_push_back_ops in H3.
  rewrite bind_modify in H4. apply IH in H4.
  unfold ops in *. simpl in *. lia.
Qed.

Lemma find_available_pool_ops mem s q s' :
  find_available_pool mem s = Ok (q, s') → ops s ≤ ops s'.
Proof.
  unfold find_available_pool. rewrite bind_gets.
  intros (? & s1 & H1 & H2)%bind_inv. apply skip_full_pools_ops in H1.
  rewrite bind_gets in H2. destruct (pools s1 =? 0).
  - apply bind_inv in H2 as (p & s2 & H2 & H3). apply get_empty_pool_ops in H2.
    rewrite bind_modify in H3. destruct (p =? 0).
    + injection H3 as _ <-. unfold ops in *. simpl. lia.
    + apply bind_inv in H3 as (y & s3 & H3 & H4).
      apply load_pool_inv in H3 as (-> & _ & _).
      apply bind_inv in H4 as (? & s4 & H4 & H5). injection H5 as _ <-.
      unfold assert in H4. destruct (negb (is_full_pool y)); [|done].
      injection H4 as _ <-. unfold ops in *. simpl. lia.
  - apply bind_inv in H2 as (y & s3 & H3 & H4).
    apply load_pool_inv in H3 as (-> & _ & _).
    apply bind_inv in H4 as (? & s4 & H4 & H5). injection H5 as _ <-.
    unfold assert in H4. destruct (negb (is_full_pool y)); [|done].
    injection H4 as _ <-. lia.
Qed.

Lemma take_slot_stat p young s r s' :
  take_slot p young s = Ok (r, s') → stat s' = stat s.
Proof.
  unfold take_slot. intros (? & s1 & H1 & (x & s2 & H2 & H3)%bind_inv)%bind_inv.
  apply update_pool_stat in H1. apply load_pool_inv in H2 as (-> & _ & _).
  destruct young.
  - destruct (negb (is_empty_free_list (minor_free_list x) p)).
    + apply free_list_pop_stat in H3. congruence.
    + apply bind_inv in H3 as (a & s3 & H3 & H4). apply free_list_pop_stat in H3.
      unfold remember in H4. rewrite bind_modify in H4. injection H4 as _ <-.
      simpl. congruence.
  - destruct (negb (is_empty_free_list (major_free_list x) p));
      apply free_list_pop_stat in H3; congruence.
Qed.


Section Ops.

Variable Is_young : Z → bool.


End Ops.

(** *** The cells a create fills *)

Lemma count_full_insert p l :
  ∀ i old v, l !! i = Some old → is_free_slot old p = true →
             is_free_slot v p = false →
             count_full p (<[i := v]> l) = count_full p l + 1.
Proof.
  induction l as [|a l IH]; intros i old v Hi Ho Hv; [done|].
  destruct i as [|i]; simpl in *.
  - injection Hi as ->. rewrite !count_full_cons, Ho, Hv. done.
  - rewrite !count_full_cons, (IH i old v Hi Ho Hv). destruct (is_free_slot a p); lia.
Qed.

Lemma count_full_all_free p l :
  (∀ i v, l !! i = Some v → is_free_slot v p = true) → count_full p l = 0.
Proof.
  induction l as [|a l IH]; intros H; [done|].
  rewrite count_full_cons, (H 0%nat a eq_refl). apply IH.
  intros i v Hi. by apply (H (S i)).
Qed.

(** The cell at the head of a free list holds a link of the pool. *)
Lemma head_cell_free s live p x fl i link :
  Inv s live → heap s !! p = Some x →
  free_list_of fl x = slot_addr p i → roots x !! i = Some link →
  is_free_slot link p = true.
Proof.
  intros HI Hx Hhd Hlink.
  assert (valid_base p) as Hp by (apply (inv_base _ _ HI); by eauto).
  destruct (inv_pool _ _ HI p x Hx) as (lmaj & lmin & Hl).
  assert (∀ l, chain p (roots x) (slot_addr p i) l → is_free_slot link p = true)
    as Hgen.
  { intros l Hch. destruct l as [|j l].
    - simpl in Hch. by apply slot_addr_not_base in Hch.
    - assert (j = i) as ->.
      { destruct Hch as (Hj & _). symmetry. by eapply slot_addr_inj. }
      destruct (chain_cells_free _ _ _ _ i Hp Hch) as (v & Hv & Hf & _);
        [by left|].
      rewrite Hlink in Hv. by injection Hv as <-. }
  destruct fl; simpl in Hhd.
  - apply (Hgen lmaj). rewrite <- Hhd. apply Hl.
  - apply (Hgen lmin). rewrite <- Hhd. apply Hl.
Qed.

Section Fill.

Variable Is_young : Z → bool.

(** Taking a slot of the pool [p] and storing the payload in it. *)
Lemma take_store p x v s live :
  Inv s live → heap s !! p = Some x → is_full_pool x = false →
  ∃ i s2 s' x',
    free_list_of (chosen_list (is_young_block Is_young v) x p) x = slot_addr p i ∧
    take_slot p (is_young_block Is_young v) s = Ok (slot_addr p i, s2) ∧
    store_slot (slot_addr p i) v s2 = Ok (tt, s') ∧
    slot_addr p i ≠ 0 ∧
    pools s' = pools s ∧ full_pools s' = full_pools s ∧ stat s' = stat s ∧
    heap s' !! p = Some x' ∧ alloc_count x' = alloc_count x + 1 ∧
    (is_free_slot v p = false →
     count_full_roots p x' = count_full_roots p x + 1) ∧
    (∀ b, b ≠ p → heap s' !! b = heap s !! b).
Proof.
  intros HI Hx Hnf.
  assert (valid_base p) as Hb by (apply (inv_base _ _ HI); by eauto).
  destruct (take_slot_choice p x (is_young_block Is_young v) s live HI Hx Hnf)
    as (i & link & s2 & Hhd & Hi & Hlink & Etake & Hh2 & Hrt & Ep & Ef & Es
        & Est & _).
  set (fl := chosen_list (is_young_block Is_young v) x p) in *.
  set (x2 := with_free_list fl (untag_free_slot link)
               (with_alloc_count (alloc_count x + 1) x)) in *.
  assert (heap s2 !! p = Some x2) as Hx2
    by (rewrite Hh2; apply lookup_insert_eq).
  assert (roots x2 = roots x) as Hr2 by (subst x2; by destruct fl).
  assert (alloc_count x2 = alloc_count x + 1) as Hc2 by (subst x2; by destruct fl).
  assert (length (roots x2) = CAP) as Hlen.
  { rewrite Hr2. destruct (inv_pool _ _ HI _ x Hx) as (? & ? & Hl). apply Hl. }
  exists i, s2,
    (with_heap (<[p := with_roots (<[i := v]> (roots x2)) x2]> (heap s2)) s2),
    (with_roots (<[i := v]> (roots x2)) x2).
  split; [done|]. split; [done|].
  split; [exact (store_slot_ok _ i x2 v s2 Hb Hi Hx2 Hlen)|].
  split; [by apply slot_addr_nonzero|].
  cbn [pools full_pools stat with_heap heap].
  split_and!; [done|done|done|apply lookup_insert_eq|done| |].
  - intros Hv. rewrite !count_full_roots_eq. cbn [roots with_roots].
    rewrite Hr2. apply (count_full_insert _ _ _ link); [done| |done].
    by eapply (head_cell_free s live p x fl).
  - intros b Hne. rewrite lookup_insert_ne by done. rewrite Hh2.
    by rewrite lookup_insert_ne.
Qed.

(** A create that finds room in the head pool: neither the rings nor the
    statistics change, and the head pool has one more slot in use. *)
Lemma create_hot mem v s live x :
  Inv s live → heap s !! pools s = Some x → is_full_pool x = false →
  ∃ r s', rem_boxroot_create Is_young mem v s = Ok (r, s') ∧ r ≠ 0 ∧
          pools s' = pools s ∧ full_pools s' = full_pools s ∧
          stat s' = stat s ∧
          (∃ x', heap s' !! pools s = Some x' ∧
                 alloc_count x' = alloc_count x + 1 ∧
                 (is_free_slot v (pools s) = false →
                  count_full_roots (pools s) x'
                  = count_full_roots (pools s) x + 1)) ∧
          (∀ b, b ≠ pools s → heap s' !! b = heap s !! b).
Proof.
  intros HI Hx Hnf.
  assert (valid_base (pools s)) as Hb by (apply (inv_base _ _ HI); by eauto).
  pose proof (valid_base_nonzero _ Hb) as Hp0.
  assert (select_pool mem s = Ok (pools s, s)) as Esel.
  { unfold select_pool. rewrite bind_gets.
    replace (pools s =? 0) with false by (symmetry; by apply Z.eqb_neq).
    rewrite bind_assoc, (bind_ok _ _ _ _ _ (load_pool_ok _ _ _ Hp0 Hx)).
    by rewrite bind_ret, Hnf. }
  destruct (take_store (pools s) x v s live HI Hx Hnf)
    as (i & s2 & s' & x' & _ & Etake & Est & Hr0 & Ep & Ef & Es & Hx' & Hc & Hn
        & Hfr).
  pose proof (alloc_slot_select mem (is_young_block Is_young v) s) as Ealloc.
  rewrite (bind_ok _ _ _ _ _ Esel) in Ealloc.
  replace (pools s =? 0) with false in Ealloc by (symmetry; by apply Z.eqb_neq).
  rewrite Etake in Ealloc.
  unfold rem_boxroot_create. rewrite (bind_ok _ _ _ _ _ Ealloc).
  replace (slot_addr (pools s) i =? 0) with false
    by (symmetry; by apply Z.eqb_neq).
  rewrite (bind_ok _ _ _ _ _ Est).
  exists (slot_addr (pools s) i), s'. split; [reflexivity|].
  split_and!; [done..| |done]. by exists x'.
Qed.

(** [n] creates that all find room in the head pool. *)
Lemma fill_spec v n :
  ∀ s live x,
    reachable Is_young s live → heap s !! pools s = Some x →
    alloc_count x + Z.of_nat n ≤ POOL_ROOTS_CAPACITY →
    ∃ hs s',
      create_all Is_young (replicate n (0, v)) s = Ok (hs, s') ∧
      fresh_run Is_young (replicate n (0, v)) s ∧ 0 ∉ hs ∧
      reachable Is_young s' (list_to_set hs ∪ live) ∧
      pools s' = pools s ∧ full_pools s' = full_pools s ∧ stat s' = stat s ∧
      (∃ x', heap s' !! pools s = Some x' ∧
             alloc_count x' = alloc_count x + Z.of_nat n ∧
             (is_free_slot v (pools s) = false →
              count_full_roots (pools s) x'
              = count_full_roots (pools s) x + Z.of_nat n)) ∧
      (∀ b, b ≠ pools s → heap s' !! b = heap s !! b).
Proof.
  induction n as [|n IH]; intros s live x Hr Hx Hle.
  - exists [], s. split; [done|]. split; [done|].
    split; [by intros ?%elem_of_nil|]. split_and!; [|done..| |done].
    + replace (list_to_set [] ∪ live) with live; [done|].
      apply set_eq. intros h. rewrite elem_of_union, list_to_set_nil.
      rewrite elem_of_empty. tauto.
    + exists x. split; [done|]. split; [lia|]. intros _. lia.
  - pose proof (reachable_Inv Is_young _ _ Hr) as HI.
    assert (is_full_pool x = false) as Hnf.
    { unfold is_full_pool. apply Z.eqb_neq. lia. }
    destruct (create_hot 0 v s live x HI Hx Hnf)
      as (r & s1 & E1 & Hr0 & Ep1 & Ef1 & Es1 & (x1 & Hx1 & Hc1 & Hn1) & Hfr1).
    assert (reachable Is_young s1 ({[r]} ∪ live)) as Hr1.
    { pose proof (reach_create Is_young s live 0 v r s1 Hr (or_introl eq_refl) E1)
        as H. by rewrite decide_False in H. }
    rewrite <- Ep1 in Hx1.
    destruct (IH s1 _ x1 Hr1 Hx1)
      as (hs & s' & E & Hfresh & H0 & Hr' & Ep & Ef & Es & Hx' & Hfr); [lia|].
    exists (r :: hs), s'. cbn [replicate create_all fresh_run].
    rewrite (bind_ok _ _ _ _ _ E1), (bind_ok _ _ _ _ _ E). rewrite E1.
    split; [done|]. split; [exact (conj (or_introl eq_refl) Hfresh)|].
    split. { intros [?|?]%elem_of_cons; [by apply Hr0|by apply H0]. }
    split_and!.
    + replace (list_to_set (r :: hs) ∪ live)
        with (list_to_set hs ∪ ({[r]} ∪ live)); [done|].
      apply set_eq. intros h.
      rewrite !elem_of_union, list_to_set_cons, elem_of_union. tauto.
    + congruence.
    + congruence.
    + congruence.
    + destruct Hx' as (x' & Hx' & Hc' & Hn'). exists x'. rewrite <- Ep1.
      split; [done|]. split; [lia|]. intros Hv. rewrite Hn' by done.
      rewrite Ep1 in Hv |- *. rewrite Hn1 by done. lia.
    + intros b Hb. rewrite Hfr by (by rewrite Ep1). by apply Hfr1.
Qed.

End Fill.

(** *** A create when every pool is full *)

Lemma get_empty_pool_ops_new mem s q s' :
  get_empty_pool mem s = Ok (q, s') → mem ≠ 0 → ops s < ops s'.
Proof.
  intros H Hm0. revert H.
  unfold get_empty_pool, bump. rewrite bind_modify.
  unfold bxr_alloc_uninitialised_pool. destruct (mem =? 0) eqn:Hm.
  { by apply Z.eqb_eq in Hm. }
  rewrite bind_assoc, bind_modify, bind_ret, Hm. rewrite bind_modify.
  intros (? & s1 & H1 & H2)%bind_inv. apply ring_link_ops in H1.
  apply bind_inv in H2 as (? & s2 & H2 & H3). apply update_pool_stat in H2.
  apply bind_inv in H3 as (? & s3 & H3 & H4). apply update_pool_stat in H3.
  apply bind_inv in H4 as (? & s4 & H4 & H5). apply update_pool_stat in H4.
  apply bind_inv in H5 as (? & s5 & H5 & H6). apply update_pool_stat in H5.
  apply bind_inv in H6 as (? & s6 & H6 & H7). apply push_all_stat in H6.
  injection H7 as _ <-. unfold ops in *. simpl in H1.
  rewrite H6, H5, H4, H3, H2. lia.
Qed.

Lemma body_alloc_count (x y : pool) : body x = body y → alloc_count x = alloc_count y.
Proof. unfold body. congruence. Qed.

Lemma body_roots (x y : pool) : body x = body y → roots x = roots y.
Proof. unfold body. congruence. Qed.

(** When no pool has room, [find_available_pool] sends every pool to the
    ring of full pools and asks for a new pool, which becomes the head. *)
Lemma find_available_pool_full mem s live :
  Inv s live →
  (∀ b x, heap s !! b = Some x → is_full_pool x = true) →
  fresh_mem (heap s) mem →
  ∃ s', find_available_pool mem s = Ok (mem, s') ∧ Inv s' live ∧
        pools s' = mem ∧
        (∃ lf, ring (heap s') (full_pools s') lf ∧
               ∀ b, b ∈ lf ↔ is_Some (heap s !! b)) ∧
        live_pools (stat s') = live_pools (stat s) + 1 ∧
        (mem ≠ 0 →
         ops s < ops s' ∧
         ∃ y, heap s' !! mem = Some y ∧ alloc_count y = 0 ∧
              major_free_list y = slot_addr mem 0 ∧ minor_free_list y = mem ∧
              count_full_roots mem y = 0) ∧
        (∀ b, b ≠ mem → body <$> heap s' !! b = body <$> heap s !! b).
Proof.
  intros HI Hfull Hfresh.
  destruct (Inv_rings_data _ _ HI) as (lp & lf & Hrp & Hrf & Hnd & H0 & Hd & Hsz).
  unfold find_available_pool. rewrite bind_gets.
  destruct (skip_full_pools_spec lp lf s (S (size (heap s))))
    as (s1 & lp' & lf' & E & Hrp' & Hrf' & Hperm & Hb & Hs & Hl & Hhead);
    [done..| |].
  { rewrite Hsz, length_app. lia. }
  pose proof (skip_full_pools_ops _ _ _ _ E) as Hops1.
  rewrite (bind_ok _ _ _ _ _ E), bind_gets.
  assert (Inv s1 live) as HI1.
  { eapply (Inv_rings s s1 live lp' lf'); [done..| |].
    - by rewrite Hperm.
    - intros b. by rewrite Hperm. }
  assert (pools s1 = 0) as Hp0.
  { destruct Hhead as [?|(x & Hx & Hnf)]; [done|].
    pose proof (Hb (pools s1)) as Hbody. rewrite Hx in Hbody.
    destruct (heap s !! pools s1) as [y|] eqn:Hy; [|done].
    assert (alloc_count x = alloc_count y) as Hac
        by (simpl in Hbody; unfold body in Hbody; congruence).
    specialize (Hfull _ _ Hy). unfold is_full_pool in *. congruence. }
  assert (0 ∉ lp' ++ lf') as H0' by by rewrite Hperm.
  assert (lp' = []) as ->.
  { eapply ring_nil_head; [done| |done]. intros Hin. apply H0', elem_of_app. by left. }
  simpl in Hperm, H0'.
  assert (∀ b, b ∈ lf' ↔ is_Some (heap s !! b)) as Hd'.
  { intros b. by rewrite Hperm. }
  rewrite Hp0. change (0 =? 0) with true. cbv iota.
  destruct Hfresh as [->|[Hm Hnone]].
  - rewrite (bind_ok _ _ _ _ _ (get_empty_pool_fail s1)).
    rewrite bind_modify. change (0 =? 0) with true. cbv iota.
    eexists. split; [reflexivity|]. cbn [pools full_pools heap stat with_pools
      with_stat live_pools].
    split_and!; [|done| |by rewrite Hl|done|].
    + eapply Inv_ext; [exact HI1|done|by simpl|done|done].
    + by exists lf'.
    + intros b _. apply Hb.
  - assert (heap s1 !! mem = None) as Hnone1.
    { apply eq_None_not_Some. rewrite (bodies_eq_is_Some _ _ _ Hb).
      by rewrite Hnone; intros []. }
    destruct (get_empty_pool_spec mem s1 Hm Hnone1)
      as (y & s2 & E2 & Hh2 & Hn2 & Hp2 & Hac2 & Hlen2 & Hch2 & Hmin2
          & Ep2 & Ef2 & Es2 & El2).
    pose proof (get_empty_pool_ops_new _ _ _ _ E2 (valid_base_nonzero _ Hm))
      as Hops2.
    rewrite (bind_ok _ _ _ _ _ E2). rewrite bind_modify.
    pose proof (valid_base_nonzero _ Hm) as Hm0.
    replace (mem =? 0) with false by (symmetry; by apply Z.eqb_neq).
    assert (heap (with_pools mem s2) !! mem = Some y) as Hy.
    { simpl. rewrite Hh2. apply lookup_insert_eq. }
    assert (is_full_pool y = false) as Hnf.
    { unfold is_full_pool. rewrite Hac2, capacity_val. done. }
    rewrite (bind_ok _ _ _ _ _ (load_pool_ok _ _ _ Hm0 Hy)), Hnf.
    cbn [negb]. rewrite (bind_ok _ _ _ _ _ (assert_true _ _)).
    eexists. split; [reflexivity|].
    cbn [pools full_pools heap stat with_pools].
    split_and!.
    + eapply (Inv_new_pool s1 _ live mem y); try done.
    + done.
    + exists lf'. rewrite Ef2. split; [|done].
      destruct Hrf' as [Ehd Hc]. split; [done|]. rewrite Hh2.
      eapply (cyc_frame _ _ [mem]); [| |done].
      * intros a Ha. rewrite lookup_insert_ne; [done|]. intros <-. apply Ha. by left.
      * intros b Hbl ->%list_elem_of_singleton. apply Hd' in Hbl.
        rewrite Hnone in Hbl. by destruct Hbl.
    + rewrite El2, Hl. done.
    + intros _. split; [unfold ops in *; simpl; lia|].
      exists y. split; [done|]. split; [done|].
      split. { change (seq 0 CAP) with (0%nat :: seq 1 (pred CAP)) in Hch2.
               by destruct Hch2 as [? _]. }
      split; [done|]. rewrite count_full_roots_eq. apply count_full_all_free.
      intros i v Hv.
      destruct (chain_cells_free _ _ _ _ i Hm Hch2) as (v' & Hv' & Hf & _).
      { apply elem_of_seq. apply lookup_lt_Some in Hv. lia. }
      rewrite Hv in Hv'. by injection Hv' as <-.
    + intros b Hne. rewrite Hh2, lookup_insert_ne by done. apply Hb.
Qed.

Section FullCreate.

Variable Is_young : Z → bool.

(** A create when every pool is full (or there is none): the page allocator
    is asked for a pool.  With a pool, the handle is its first cell; without,
    the create gives the null handle and leaves the ring [pools] empty. *)
Lemma create_full mem v s live :
  Inv s live →
  (∀ b x, heap s !! b = Some x → is_full_pool x = true) →
  fresh_mem (heap s) mem →
  ∃ r s', rem_boxroot_create Is_young mem v s = Ok (r, s') ∧
          r = (if mem =? 0 then 0 else slot_addr mem 0) ∧
          pools s' = mem ∧
          (∃ lf, ring (heap s') (full_pools s') lf ∧
                 ∀ b, b ∈ lf ↔ is_Some (heap s !! b)) ∧
          live_pools (stat s') = live_pools (stat s) + 1 ∧
          (mem ≠ 0 →
           ops s < ops s' ∧
           ∃ y, heap s' !! mem = Some y ∧ alloc_count y = 1 ∧
                (is_free_slot v mem = false → count_full_roots mem y = 1)) ∧
          (∀ b, b ≠ mem → body <$> heap s' !! b = body <$> heap s !! b).
Proof.
  intros HI Hfull Hfresh.
  destruct (find_available_pool_full mem s live HI Hfull Hfresh)
    as (s1 & Efind & HI1 & Ep1 & Hlf1 & Hl1 & Hnew & Hb1).
  assert (select_pool mem s
          = (if mem =? 0 then Ok (0, s1) else Ok (mem, s1))) as Esel.
  { unfold select_pool. rewrite bind_gets.
    assert ((if pools s =? 0 then ret true
             else do x <- load_pool (pools s) ; ret (is_full_pool x)) s
            = Ok (true, s)) as E.
    { destruct (decide (pools s = 0)) as [E0|Hp].
      - by rewrite E0.
      - replace (pools s =? 0) with false by (symmetry; by apply Z.eqb_neq).
        destruct (Inv_head_pool _ _ HI Hp) as [x Hx].
        rewrite (bind_ok _ _ _ _ _ (load_pool_ok _ _ _ Hp Hx)).
        by rewrite (Hfull _ _ Hx). }
    rewrite (bind_ok _ _ _ _ _ E). cbv iota.
    rewrite bind_gets, (inv_setup _ _ HI). cbn [negb].
    rewrite (bind_ok _ _ _ _ _ Efind).
    destruct (Z.eqb_spec mem 0) as [E0|Hm]; [done|].
    destruct (Hnew Hm) as (_ & y & Hy & Hc & _).
    rewrite (bind_ok _ _ _ _ _ (load_pool_ok _ _ _ Hm Hy)).
    assert (is_full_pool y = false) as ->
        by (unfold is_full_pool; by rewrite Hc, capacity_val).
    cbn [negb]. by rewrite (bind_ok _ _ _ _ _ (assert_true _ _)). }
  pose proof (alloc_slot_select mem (is_young_block Is_young v) s) as Ealloc.
  unfold rem_boxroot_create.
  pose proof (find_available_pool_ops _ _ _ _ Efind) as Hops1.
  destruct (Z.eqb_spec mem 0) as [E0|Hm].
  - rewrite (bind_ok _ _ _ _ _ Esel) in Ealloc.
    change (0 =? 0) with true in Ealloc. cbv iota in Ealloc.
    rewrite (bind_ok _ _ _ _ _ Ealloc). change (0 =? 0) with true. cbv iota.
    exists 0, s1. split; [done|]. split_and!; done.
  - rewrite (bind_ok _ _ _ _ _ Esel) in Ealloc.
    replace (mem =? 0) with false in Ealloc by (symmetry; by apply Z.eqb_neq).
    destruct (Hnew Hm) as (Hops & y & Hy & Hc & Hmaj & Hmin & Hcnt).
    assert (is_full_pool y = false) as Hnf
        by (unfold is_full_pool; by rewrite Hc, capacity_val).
    destruct (take_store Is_young mem y v s1 live HI1 Hy Hnf)
      as (i & s2 & s' & y' & Hhd & Etake & Est & Hr0 & Ep & Ef & Es & Hy' & Hc'
          & Hn' & Hfr).
    assert (chosen_list (is_young_block Is_young v) y mem = Major) as Ech.
    { unfold chosen_list, is_empty_free_list. rewrite Hmin, Hmaj, Z.eqb_refl.
      replace (slot_addr mem 0 =? mem) with false
        by (symmetry; apply Z.eqb_neq, slot_addr_not_base).
      by destruct (is_young_block Is_young v). }
    rewrite Ech in Hhd. simpl in Hhd. rewrite Hmaj in Hhd.
    rewrite <- Hhd in Etake, Est, Hr0.
    rewrite Etake in Ealloc.
    rewrite (bind_ok _ _ _ _ _ Ealloc).
    replace (slot_addr mem 0 =? 0) with false by (symmetry; by apply Z.eqb_neq).
    rewrite (bind_ok _ _ _ _ _ Est).
    exists (slot_addr mem 0), s'. split; [done|].
    split_and!; [done|congruence| |congruence| |].
    + destruct Hlf1 as (lf & [Ehd Hc1] & Hd1). exists lf. split; [|done].
      split; [congruence|].
      assert (mem ∉ lf) as Hml.
      { intros Hin%Hd1. destruct Hfresh as [?|[_ Hn]]; [done|].
        rewrite Hn in Hin. by destruct Hin. }
      eapply (cyc_frame _ _ [mem]); [| |exact Hc1].
      * intros a Ha. rewrite Hfr; [done|]. intros ->. apply Ha. by left.
      * intros b Hbl ->%list_elem_of_singleton. done.
    + intros _. split; [unfold ops in *; rewrite Es; lia|].
      exists y'. split; [done|]. split; [lia|]. intros Hv. rewrite Hn' by done. lia.
    + intros b Hne. rewrite Hfr by done. by apply Hb1.
Qed.

End FullCreate.

(** *** Teardown *)

Lemma lookup_eq_parts (h h' : gmap Z pool) a :
  next <$> h' !! a = next <$> h !! a → prev <$> h' !! a = prev <$> h !! a →
  body <$> h' !! a = body <$> h !! a → h' !! a = h !! a.
Proof.
  destruct (h' !! a) as [[]|], (h !! a) as [[]|]; simpl; unfold body; simpl;
    congruence.
Qed.

Lemma teardown_not_setup s :
  setup s = false → rem_boxroot_teardown s = Ok (tt, s).
Proof. intros Hs. unfold rem_boxroot_teardown. by rewrite bind_gets, Hs. Qed.

(** The loop of [free_all_pools] releases the pools of the ring [pools], one
    by one, and nothing else. *)
Lemma free_all_pools_loop_spec lp :
  ∀ s fuel,
    cyc (heap s) lp → pools s = ring_head lp → NoDup lp → 0 ∉ lp →
    (length lp < fuel)%nat →
    ∃ s', free_all_pools_loop fuel s = Ok (tt, s') ∧
          pools s' = 0 ∧ full_pools s' = full_pools s ∧ setup s' = setup s ∧
          (∀ b, b ∈ lp → heap s' !! b = None) ∧
          (∀ b, b ∉ lp → heap s' !! b = heap s !! b).
Proof.
  induction lp as [|a l IH]; intros s fuel Hc Hp Hnd H0 Hfuel;
    (destruct fuel as [|fuel]; [simpl in Hfuel; lia|]).
  - simpl in Hp. cbn [free_all_pools_loop]. rewrite bind_gets, Hp.
    exists s. split; [done|]. split_and!; try done. by intros b ?%elem_of_nil.
  - simpl in Hp, Hfuel.
    assert (a ≠ 0) as Ha0 by (intros ->; apply H0; by left).
    destruct (ring_pop_spec a l s Hc Hnd H0)
      as (s1 & Epop & Hc1 & _ & Hout & Hb & (Ep1 & Ef1 & Es1 & _)).
    apply NoDup_cons in Hnd as [Hal Hnd].
    cbn [free_all_pools_loop]. rewrite bind_gets, Hp.
    replace (a =? 0) with false by (symmetry; by apply Z.eqb_neq).
    rewrite (bind_ok _ _ _ _ _ Epop). cbn [fst snd].
    rewrite bind_modify. unfold bxr_free_pool. rewrite bind_modify.
    unfold bump_freed, bump. rewrite bind_modify.
    set (s2 := with_stat _ _).
    destruct (IH s2 fuel) as (s' & E & Hp' & Hf' & Hs' & Hin & Hout');
      [| done | done | | lia |].
    + subst s2. cbn [heap with_stat with_heap with_pools].
      eapply (cyc_frame _ _ [a]); [| |exact Hc1].
      * intros b Hb'. rewrite lookup_delete_ne; [done|]. intros <-. apply Hb'. by left.
      * intros b Hbl ->%list_elem_of_singleton. done.
    + intros Hl. apply H0. by right.
    + exists s'. split; [done|]. split_and!; [done|by rewrite Hf'|by rewrite Hs'| |].
      * intros b [->|Hbl]%elem_of_cons; [|by apply Hin].
        rewrite Hout' by done. subst s2. cbn [heap with_stat with_heap with_pools].
        apply lookup_delete_eq.
      * intros b Hnb. apply not_elem_of_cons in Hnb as [Hne Hnl].
        rewrite Hout' by done. subst s2. cbn [heap with_stat with_heap with_pools].
        rewrite lookup_delete_ne by done.
        destruct (Hout b) as [Hn Hpv]; [by apply not_elem_of_cons|].
        apply lookup_eq_parts; [done|done|apply Hb].
Qed.

(** C7: in a well-formed state [rem_boxroot_teardown] marks the engine as
    not set up and releases the pools of the ring [pools], and only those:
    [free_all_pools] never looks at the ring [full_pools], whose pools stay
    allocated, with [full_pools] still pointing to them.  A second teardown
    does nothing. *)
Theorem teardown_leaves_full_pools s live :
  Inv s live →
  ∃ lp lf s',
    ring (heap s) (pools s) lp ∧ ring (heap s) (full_pools s) lf ∧
    (∀ b, b ∈ lp ++ lf ↔ is_Some (heap s !! b)) ∧
    rem_boxroot_teardown s = Ok (tt, s') ∧
    setup s' = false ∧ pools s' = 0 ∧ full_pools s' = full_pools s ∧
    (∀ b, b ∈ lp → heap s' !! b = None) ∧
    (∀ b, b ∈ lf → is_Some (heap s' !! b) ∧ heap s' !! b = heap s !! b) ∧
    rem_boxroot_teardown s' = Ok (tt, s').
Proof.
  intros HI.
  destruct (Inv_rings_data _ _ HI) as (lp & lf & Hrp & Hrf & Hnd & H0 & Hd & Hsz).
  unfold rem_boxroot_teardown at 1. rewrite bind_gets, (inv_setup _ _ HI).
  cbn [negb]. rewrite bind_modify. unfold free_all_pools. rewrite bind_gets.
  cbn [heap with_setup].
  destruct Hrp as [Ehd Hc].
  destruct (free_all_pools_loop_spec lp (with_setup false s) (S (size (heap s))))
    as (s' & E & Hp' & Hf' & Hs' & Hin & Hout); [done|done| | | |].
  - by apply NoDup_app in Hnd as [? _].
  - intros Hl. apply H0, elem_of_app. by left.
  - rewrite Hsz, length_app. lia.
  - exists lp, lf, s'. split; [by split|]. split; [done|]. split; [done|].
    split; [done|]. split; [done|]. split; [done|]. split; [done|].
    split; [done|]. split.
    + intros b Hbl.
      assert (heap s' !! b = heap s !! b) as Eb.
      { apply Hout. intros Hbp. apply NoDup_app in Hnd as (_ & Hdis & _).
        by apply (Hdis b). }
      split; [|done]. rewrite Eb. apply Hd, elem_of_app. by right.
    + by apply teardown_not_setup.
Qed.

(** *** Runs from the fresh state *)

Lemma state_after_ok {S A} (m : M S A) s r s' :
  m s = Ok (r, s') → state_after m s = s'.
Proof. intros E. unfold state_after. by rewrite E. Qed.

Lemma value_after_ok {S A} (m : M S A) s r s' d :
  m s = Ok (r, s') → value_after m s d = r.
Proof. intros E. unfold value_after. by rewrite E. Qed.

Lemma ops_eq s : ops s = ring_operations (stat s).
Proof. reflexivity. Qed.

Lemma counted_eq s :
  counted s ↔
  ∀ b x, heap s !! b = Some x → count_full_roots b x = alloc_count x.
Proof. reflexivity. Qed.

Lemma valid_base_32768 : valid_base 32768.
Proof. split; [lia|reflexivity]. Qed.

Lemma ring_head_only (h : gmap Z pool) lf a :
  (∀ b, b ∈ lf ↔ is_Some (h !! b)) → is_Some (h !! a) →
  (∀ b, b ≠ a → h !! b = None) → ring_head lf = a ∧ a ∈ lf.
Proof.
  intros Hd Ha Hn. apply Hd in Ha. split; [|done].
  destruct lf as [|c lf]; [by apply elem_of_nil in Ha|]. simpl.
  destruct (decide (c = a)) as [|Hne]; [done|].
  assert (is_Some (h !! c)) as Hc by (apply Hd; by left).
  rewrite (Hn c Hne) in Hc. by destruct Hc.
Qed.


Section FirstCreate.

Variable Is_young : Z → bool.

Lemma reach_create_null s live mem v s' :
  reachable Is_young s live → fresh_mem (heap s) mem →
  rem_boxroot_create Is_young mem v s = Ok (0, s') → reachable Is_young s' live.
Proof.
  intros Hr Hf E. pose proof (reach_create Is_young _ _ _ _ _ _ Hr Hf E) as H.
  by rewrite decide_True in H.
Qed.

Lemma reach_create_handle s live mem v r s' :
  reachable Is_young s live → fresh_mem (heap s) mem →
  rem_boxroot_create Is_young mem v s = Ok (r, s') → r ≠ 0 →
  reachable Is_young s' ({[r]} ∪ live).
Proof.
  intros Hr Hf E Hr0. pose proof (reach_create Is_young _ _ _ _ _ _ Hr Hf E) as H.
  by rewrite decide_False in H.
Qed.

Lemma create_all_cons mem v reqs s :
  create_all Is_young ((mem, v) :: reqs) s
  = (do h <- rem_boxroot_create Is_young mem v ;
     do hs <- create_all Is_young reqs ;
     ret (h :: hs)) s.
Proof. reflexivity. Qed.

Lemma fresh_run_cons mem v reqs s r s' :
  fresh_mem (heap s) mem → rem_boxroot_create Is_young mem v s = Ok (r, s') →
  fresh_run Is_young reqs s' → fresh_run Is_young ((mem, v) :: reqs) s.
Proof. intros Hm E Hr. simpl. by rewrite E. Qed.

(** The first create after the setup, when the page allocator gives the
    pool at [mem]: the handle is the first cell of the pool. *)
Lemma first_create mem v :
  valid_base mem →
  ∃ s', rem_boxroot_create Is_young mem v fresh_state
        = Ok (slot_addr mem 0, s') ∧
        fresh_mem (heap fresh_state) mem ∧
        reachable Is_young s' ({[slot_addr mem 0]} ∪ ∅) ∧
        pools s' = mem ∧ full_pools s' = 0 ∧
        live_pools (stat s') = 1 ∧ 0 < ops s' ∧
        (∃ y, heap s' !! mem = Some y ∧ alloc_count y = 1 ∧
              (is_free_slot v mem = false → count_full_roots mem y = 1)) ∧
        (∀ b, b ≠ mem → heap s' !! b = None).
Proof.
  intros Hm. pose proof (valid_base_nonzero _ Hm) as Hm0.
  pose proof (reachable_fresh_state Is_young) as Hr0.
  assert (fresh_mem (heap fresh_state) mem) as Hfresh by (right; by split).
  destruct (create_full Is_young mem v fresh_state ∅
              (reachable_Inv _ _ _ Hr0))
    as (r & s' & E & Hr & Hp & (lf & [Ehd _] & Hlf) & Hl & Hnew & Hb);
    [by intros b x Hx|done|].
  replace (mem =? 0) with false in Hr by (symmetry; by apply Z.eqb_neq).
  subst r. exists s'. split; [done|]. split; [done|].
  destruct (Hnew Hm0) as (Hops & y & Hy & Hc & Hn).
  split_and!; [|done| |done|done| |].
  - apply (reach_create_handle _ _ _ _ _ _ Hr0 Hfresh E).
    by apply slot_addr_nonzero.
  - rewrite Ehd. destruct lf as [|a lf]; [done|].
    assert (is_Some (heap fresh_state !! a)) as [? Ha] by (apply Hlf; by left).
    done.
  - by exists y.
  - intros b Hne. specialize (Hb b Hne).
    destruct (heap s' !! b); [by discriminate Hb|done].
Qed.

End FirstCreate.

Lemma one_handle_run :
  rem_boxroot_create nursery 16384 1 fresh_state = Ok (16432, one_handle) ∧
  reachable nursery one_handle ({[16432]} ∪ ∅) ∧
  pools one_handle = 16384 ∧ counted one_handle ∧
  is_Some (heap one_handle !! 16384).
Proof.
  destruct (first_create nursery 16384 1 valid_base_16384)
    as (s' & E & _ & Hr & Hp & Hf & Hl & Hops & (y & Hy & Hc & Hn) & Hb).
  change (slot_addr 16384 0) with 16432 in E, Hr.
  rewrite (state_after_ok _ _ _ _ E : one_handle = s').
  split; [done|]. split; [done|]. split; [done|]. split; [|by exists y].
  intros b x Hx. destruct (decide (b = 16384)) as [->|Hne].
  - rewrite Hy in Hx. injection Hx as <-. rewrite Hc. by apply Hn.
  - by rewrite (Hb b Hne) in Hx.
Qed.

Lemma one_handle_head :
  ∃ y, heap one_handle !! pools one_handle = Some y ∧ alloc_count y = 1 ∧
       is_full_pool y = false.
Proof.
  destruct (first_create nursery 16384 1 valid_base_16384)
    as (s' & E & _ & _ & Hp & _ & _ & _ & (y & Hy & Hc & _) & _).
  rewrite (state_after_ok _ _ _ _ E : one_handle = s').
  exists y. rewrite Hp. split; [exact Hy|]. split; [exact Hc|].
  unfold is_full_pool. rewrite Hc. reflexivity.
Qed.

Lemma full_pool_run :
  ∃ live,
    create_all nursery fill_requests fresh_state = Ok (fill_handles, full_pool) ∧
    fresh_run nursery fill_requests fresh_state ∧ 0 ∉ fill_handles ∧
    reachable nursery full_pool live ∧
    pools full_pool = 16384 ∧ full_pools full_pool = 0 ∧
    0 < ops full_pool ∧ counted full_pool ∧
    (∃ x, heap full_pool !! 16384 = Some x ∧ is_full_pool x = true) ∧
    (∀ b, b ≠ 16384 → heap full_pool !! b = None).
Proof.
  destruct (first_create nursery 16384 1 valid_base_16384)
    as (s1 & E1 & Hfm & Hr1 & Hp1 & Hf1 & Hl1 & Hops1 & (y & Hy & Hc & Hn) & Hb1).
  rewrite <- Hp1 in Hy.
  destruct (fill_spec nursery 1 2041 s1 _ y Hr1 Hy)
    as (hs & s2 & E2 & Hfr2 & H02 & Hr2 & Hp2 & Hf2 & Hs2 & (x & Hx & Hcx & Hnx)
        & Hb2).
  { rewrite Hc. apply Z.leb_le. reflexivity. }
  assert (create_all nursery fill_requests fresh_state
          = Ok (slot_addr 16384 0 :: hs, s2)) as Eall.
  { unfold fill_requests.
    by rewrite create_all_cons, (bind_ok _ _ _ _ _ E1), (bind_ok _ _ _ _ _ E2). }
  rewrite (value_after_ok _ _ _ _ [] Eall : fill_handles = _).
  rewrite (state_after_ok _ _ _ _ Eall : full_pool = _).
  exists (list_to_set hs ∪ ({[slot_addr 16384 0]} ∪ ∅)).
  split; [done|]. split.
  { unfold fill_requests.
    exact (fresh_run_cons nursery 16384 1 _ fresh_state _ s1 Hfm E1 Hfr2). }
  split.
  { intros [?|?]%elem_of_cons; [|by apply H02].
    by apply (slot_addr_nonzero 16384 0 valid_base_16384). }
  split; [done|]. split; [congruence|]. split; [congruence|].
  split; [rewrite !ops_eq in *; by rewrite Hs2|].
  rewrite Hp1 in *.
  split; [|split].
  - intros b x' Hx'. destruct (decide (b = 16384)) as [->|Hne].
    + rewrite Hx in Hx'. injection Hx' as <-.
      rewrite Hnx, Hn, Hcx, Hc by reflexivity. reflexivity.
    + by rewrite (Hb2 b Hne), (Hb1 b Hne) in Hx'.
  - exists x. split; [done|]. unfold is_full_pool. rewrite Hcx, Hc. reflexivity.
  - intros b Hne. by rewrite (Hb2 b Hne), (Hb1 b Hne).
Qed.

Lemma full_pool_all_full b x :
  heap full_pool !! b = Some x → is_full_pool x = true.
Proof.
  destruct full_pool_run as (_ & _ & _ & _ & _ & _ & _ & _ & _ & (y & Hy & Hf) & Hb).
  intros Hx. destruct (decide (b = 16384)) as [->|Hne].
  - rewrite Hy in Hx. by injection Hx as <-.
  - by rewrite (Hb b Hne) in Hx.
Qed.


Lemma two_pools_run :
  ∃ live,
    rem_boxroot_create nursery 32768 1 full_pool = Ok (32816, two_pools) ∧
    reachable nursery two_pools live ∧
    pools two_pools = 32768 ∧ full_pools two_pools = 16384 ∧
    is_Some (heap two_pools !! 16384).
Proof.
  destruct full_pool_run
    as (live & _ & _ & _ & Hr & Hp & Hf & Hops & Hcnt & (y & Hy & Hfull) & Hb).
  pose proof (reachable_Inv _ _ _ Hr) as HI.
  assert (fresh_mem (heap full_pool) 32768) as Hfresh.
  { right. split; [apply valid_base_32768|]. by apply Hb. }
  destruct (create_full nursery 32768 1 full_pool live HI full_pool_all_full
              Hfresh)
    as (r & s' & E & Hr' & Hp' & (lf & [Ehd Hc] & Hlf) & _ & _ & Hbody).
  change (r = 32816) in Hr'. subst r.
  assert (32816 ≠ 0) as Hne by done.
  pose proof (reach_create_handle nursery _ _ _ _ _ _ Hr Hfresh E Hne) as Hr2.
  rewrite (state_after_ok _ _ _ _ E : two_pools = s').
  exists ({[32816]} ∪ live). split; [done|]. split; [done|]. split; [done|].
  destruct (ring_head_only (heap full_pool) lf 16384) as [Eh Hin];
    [done|by exists y|done|].
  split; [congruence|]. by eapply cyc_is_Some.
Qed.

(** *** The scan callback on an empty ring *)

Section NullRing.

Context {D : Type}.
Variable action : D → Z → Z → D * Z.




End NullRing.

(** *** The claims on runs from the fresh state *)

Lemma minor_scan_visits_no_slot_witness :
  ∃ s', ∀ (D : Type) (action : D → Z → Z → D * Z) (d : D),
          scanning_callback action true d one_handle = Ok (d, s').
Proof.
  destruct one_handle_run as (_ & Hr & Hp & _).
  destruct (minor_scan_visits_no_slot one_handle ({[16432]} ∪ ∅))
    as (s' & Hrun & _).
  - exact (reachable_Inv nursery _ _ Hr).
  - rewrite Hp. discriminate.
  - exists s'. exact Hrun.
Defined.

Lemma major_scan_visits_full_slots_witness :
  ∃ lp lf s',
    scanning_callback (λ (d : list Z) v a, (a :: d, v)) false [] one_handle
    = Ok (visit (λ (d : list Z) v a, (a :: d, v)) []
                (ring_cells (heap one_handle) (lp ++ lf)), s').
Proof.
  destruct one_handle_run as (_ & Hr & Hp & Hc & _).
  destruct (major_scan_visits_full_slots (λ (d : list Z) v a, (a :: d, v)) []
              one_handle ({[16432]} ∪ ∅))
    as (lp & lf & s' & _ & _ & _ & _ & Hrun & _).
  - exact (reachable_Inv nursery _ _ Hr).
  - rewrite Hp. discriminate.
  - exact (proj1 (counted_eq one_handle) Hc).
  - exists lp, lf, s'. exact Hrun.
Defined.

Lemma modify_keeps_handle_witness :
  ∃ s', modify_all nursery 16432 [1504; 3; 4096] one_handle = Ok (16432, s').
Proof.
  destruct one_handle_run as (_ & Hr & _).
  destruct (modify_keeps_handle nursery [1504; 3; 4096] 16432 one_handle
              ({[16432]} ∪ ∅))
    as (s' & E & _).
  - exact (reachable_Inv nursery _ _ Hr).
  - apply elem_of_union. left. by apply elem_of_singleton.
  - exists s'. exact E.
Defined.

Lemma free_list_integrity_witness :
  ∃ lmaj lmin : list nat,
    validate_free_list 16384 Major one_handle
    = Ok (Z.of_nat (length lmaj), one_handle) ∧
    validate_free_list 16384 Minor one_handle
    = Ok (Z.of_nat (length lmin), one_handle).
Proof.
  destruct one_handle_run as (_ & Hr & _ & _ & [x Hx]).
  destruct (free_list_integrity nursery one_handle _ 16384 x Hr Hx)
    as (lmaj & lmin & H1 & H2 & _).
  exists lmaj, lmin. exact (conj H1 H2).
Defined.

(** A create that gets a pool and a create that finds room in it. *)
Lemma two_creates v w :
  ∃ h1 h2 s1,
    create_all nursery [(16384, v); (0, w)] fresh_state = Ok ([h1; h2], s1) ∧
    fresh_run nursery [(16384, v); (0, w)] fresh_state ∧ 0 ∉ [h1; h2].
Proof.
  destruct (first_create nursery 16384 v valid_base_16384)
    as (s1 & E1 & Hfm & Hr1 & Hp1 & _ & _ & _ & (y & Hy & Hc & _) & _).
  rewrite <- Hp1 in Hy.
  destruct (create_hot nursery 0 w s1 _ y (reachable_Inv _ _ _ Hr1) Hy)
    as (h2 & s2 & E2 & Hh2 & _).
  { unfold is_full_pool. rewrite Hc. reflexivity. }
  exists (slot_addr 16384 0), h2, s2. split; [|split].
  - assert (create_all nursery [(0, w)] s1 = Ok ([h2], s2)) as E3.
    { rewrite create_all_cons, (bind_ok _ _ _ _ _ E2). reflexivity. }
    rewrite create_all_cons, (bind_ok _ _ _ _ _ E1), (bind_ok _ _ _ _ _ E3).
    reflexivity.
  - apply (fresh_run_cons nursery _ _ _ _ _ s1 Hfm E1).
    exact (fresh_run_cons nursery 0 w [] s1 h2 s2 (or_introl eq_refl) E2 I).
  - intros [H|[H|H%elem_of_nil]%elem_of_cons]%elem_of_cons.
    + exact (slot_addr_nonzero 16384 0 valid_base_16384 (eq_sym H)).
    + exact (Hh2 (eq_sym H)).
    + exact H.
Qed.

(** C6, as stated: one create and the delete of its handle leave the pool
    the create allocated, so neither the pools in use nor [live_pools] are
    back to what they were. *)
Lemma round_trip_keeps_pool_counterexample :
  ∃ s1 s2,
    create_all nursery [(16384, 1)] fresh_state = Ok ([16432], s1) ∧
    delete_all nursery [16432] s1 = Ok (tt, s2) ∧
    live_pools (stat fresh_state) = 0 ∧ live_pools (stat s2) = 1 ∧
    heap fresh_state !! 16384 = None ∧
    alloc_count <$> heap s2 !! 16384 = Some 0.
Proof.
  destruct (first_create nursery 16384 1 valid_base_16384)
    as (s1 & E1 & Hfm & Hr1 & Hp1 & _ & Hl1 & _ & (y & Hy & _) & _).
  change (slot_addr 16384 0) with 16432 in E1, Hr1.
  destruct (delete_all_spec nursery [16432] s1 _ Hr1) as (s2 & E2 & Hr2 & Hl2 & Hd2).
  { apply NoDup_singleton. }
  { intros h ->%list_elem_of_singleton. apply elem_of_union. left.
    by apply elem_of_singleton. }
  exists s1, s2. split.
  { rewrite create_all_cons, (bind_ok _ _ _ _ _ E1). reflexivity. }
  split; [exact E2|]. split; [reflexivity|].
  split; [exact (eq_trans Hl2 Hl1)|]. split; [reflexivity|].
  destruct (proj2 (Hd2 16384)) as [x2 Hx2]; [by exists y|].
  rewrite Hx2. simpl. f_equal.
  apply (Inv_alloc_count_zero s2 _ 16384 x2 (reachable_Inv _ _ _ Hr2) Hx2).
  clear. intros i _. set_solver.
Qed.

Lemma teardown_leaves_full_pools_witness :
  ∃ s', rem_boxroot_teardown two_pools = Ok (tt, s') ∧
        pools s' = 0 ∧ full_pools s' = 16384 ∧
        heap s' !! 32768 = None ∧ is_Some (heap s' !! 16384).
Proof.
  destruct two_pools_run as (live & _ & Hr & Hp & Hf & Hs).
  destruct (teardown_leaves_full_pools two_pools live (reachable_Inv _ _ _ Hr))
    as (lp & lf & s' & [Ep _] & [Ef _] & Hd & E & _ & Hp' & Hf' & Hlp & Hlf & _).
  exists s'. split; [exact E|]. split; [exact Hp'|].
  split; [exact (eq_trans Hf' Hf)|].
  split.
  - apply Hlp. rewrite Hp in Ep. destruct lp as [|a lp]; [discriminate Ep|].
    simpl in Ep. subst a. by left.
  - apply Hlf. rewrite Hf in Ef. destruct lf as [|a lf]; [discriminate Ef|].
    simpl in Ef. subst a. by left.
Defined.

(** *** What a create leaves alone *)

Lemma load_slot_roots a w s s' :
  load_slot a s = Ok (w, s) →
  roots <$> heap s' !! get_pool_header a = roots <$> heap s !! get_pool_header a →
  load_slot a s' = Ok (w, s').
Proof.
  intros Hload Hr. unfold load_slot in Hload.
  apply bind_inv in Hload as (x & s1 & H1 & H2).
  apply load_pool_inv in H1 as (-> & Hn0 & Hx).
  rewrite Hx in Hr. destruct (heap s' !! get_pool_header a) as [x'|] eqn:Hx';
    [|discriminate Hr].
  assert (roots x' = roots x) as Er by (apply (inj Some); exact Hr).
  unfold load_slot. rewrite (bind_ok _ _ _ _ _ (load_pool_ok _ _ _ Hn0 Hx')).
  destruct (slot_index a) as [j|]; [|done]. rewrite Er.
  destruct (roots x !! j); [|done]. by injection H2 as ->.
Qed.

Lemma body_roots_lookup (h h' : gmap Z pool) b :
  body <$> h' !! b = body <$> h !! b → roots <$> h' !! b = roots <$> h !! b.
Proof.
  destruct (h' !! b) as [x'|], (h !! b) as [x|]; simpl; try done.
  intros H. f_equal. apply body_roots. by apply (inj Some).
Qed.

(** [find_available_pool] changes the cells and the counts of no pool; the
    pool it answers is an old one with room or the pool the page allocator
    gave, and it answers null only when the page allocator failed. *)
Lemma find_available_pool_frame mem s live :
  Inv s live → fresh_mem (heap s) mem →
  ∃ q s', find_available_pool mem s = Ok (q, s') ∧ Inv s' live ∧
          (q = 0 → mem = 0) ∧
          (∀ b, is_Some (heap s !! b) →
                body <$> heap s' !! b = body <$> heap s !! b) ∧
          (∀ b, is_Some (heap s' !! b) → is_Some (heap s !! b) ∨ b = q) ∧
          (q ≠ 0 →
           pools s' = q ∧
           ∃ x, heap s' !! q = Some x ∧ is_full_pool x = false ∧
                (heap s !! q = None →
                 count_full_roots q x = 0 ∧ alloc_count x = 0)).
Proof.
  intros HI Hfresh.
  destruct (Inv_rings_data _ _ HI) as (lp & lf & Hrp & Hrf & Hnd & H0 & Hd & Hsz).
  unfold find_available_pool. rewrite bind_gets.
  destruct (skip_full_pools_spec lp lf s (S (size (heap s))))
    as (s1 & lp' & lf' & E & Hrp' & Hrf' & Hperm & Hb & Hs & Hl & Hhead);
    [done..| |].
  { rewrite Hsz, length_app. lia. }
  rewrite (bind_ok _ _ _ _ _ E), bind_gets.
  assert (Inv s1 live) as HI1.
  { eapply (Inv_rings s s1 live lp' lf'); [done..| |].
    - by rewrite Hperm.
    - intros b. by rewrite Hperm. }
  assert (∀ b, is_Some (heap s1 !! b) ↔ is_Some (heap s !! b)) as Hdom1.
  { intros b. by apply bodies_eq_is_Some. }
  destruct Hhead as [Hp0|(x & Hx & Hnf)].
  - rewrite Hp0. change (0 =? 0) with true. cbv iota.
    destruct Hfresh as [->|[Hm Hnone]].
    + rewrite (bind_ok _ _ _ _ _ (get_empty_pool_fail s1)).
      rewrite bind_modify. change (0 =? 0) with true. cbv iota.
      eexists 0, _. split; [reflexivity|]. cbn [heap with_pools with_stat].
      split_and!; [|done| | |done].
      * eapply Inv_ext; [exact HI1|done|by simpl|done|done].
      * intros b _. apply Hb.
      * intros b Hbs. left. by apply Hdom1.
    + assert (heap s1 !! mem = None) as Hnone1.
      { apply eq_None_not_Some. rewrite Hdom1. by rewrite Hnone; intros []. }
      destruct (get_empty_pool_spec mem s1 Hm Hnone1)
        as (y & s2 & E2 & Hh2 & Hn2 & Hp2 & Hac2 & Hlen2 & Hch2 & Hmin2
            & Ep2 & Ef2 & Es2 & El2).
      rewrite (bind_ok _ _ _ _ _ E2). rewrite bind_modify.
      pose proof (valid_base_nonzero _ Hm) as Hm0.
      replace (mem =? 0) with false by (symmetry; by apply Z.eqb_neq).
      assert (heap (with_pools mem s2) !! mem = Some y) as Hy.
      { simpl. rewrite Hh2. apply lookup_insert_eq. }
      assert (is_full_pool y = false) as Hnf.
      { unfold is_full_pool. rewrite Hac2, capacity_val. done. }
      rewrite (bind_ok _ _ _ _ _ (load_pool_ok _ _ _ Hm0 Hy)), Hnf.
      cbn [negb]. rewrite (bind_ok _ _ _ _ _ (assert_true _ _)).
      eexists mem, _. split; [reflexivity|]. cbn [heap pools with_pools].
      split_and!.
      * eapply (Inv_new_pool s1 _ live mem y); try done.
      * done.
      * intros b Hbs. rewrite Hh2, lookup_insert_ne; [apply Hb|].
        intros <-. rewrite Hnone in Hbs. by destruct Hbs.
      * intros b. rewrite Hh2, lookup_insert_is_Some.
        intros [<-|[_ Hbs]]; [by right|left; by apply Hdom1].
      * intros _. split; [done|]. exists y. split; [done|]. split; [done|].
        intros _. split; [|done].
        rewrite count_full_roots_eq. apply count_full_all_free.
        intros i v Hv.
        destruct (chain_cells_free _ _ _ _ i Hm Hch2) as (v' & Hv' & Hf & _).
        { apply elem_of_seq. apply lookup_lt_Some in Hv. lia. }
        rewrite Hv in Hv'. by injection Hv' as <-.
  - assert (pools s1 ≠ 0) as Hp0.
    { intros Heq. rewrite Heq in Hx.
      assert (valid_base 0) as [? _] by (apply (inv_base _ _ HI1); by eauto). lia. }
    replace (pools s1 =? 0) with false by (symmetry; by apply Z.eqb_neq).
    rewrite (bind_ok _ _ _ _ _ (load_pool_ok _ _ _ Hp0 Hx)), Hnf.
    cbn [negb]. rewrite (bind_ok _ _ _ _ _ (assert_true _ _)).
    exists (pools s1), s1. split; [done|]. split_and!; [done|done| | |].
    + intros b _. apply Hb.
    + intros b Hbs. left. by apply Hdom1.
    + intros _. split; [done|]. exists x. split; [done|]. split; [done|].
      intros Hn. assert (is_Some (heap s !! pools s1)) as [? Hs']
        by (apply Hdom1; by eauto). congruence.
Qed.

Lemma select_pool_frame mem s live :
  Inv s live → fresh_mem (heap s) mem →
  ∃ q s', select_pool mem s = Ok (q, s') ∧ Inv s' live ∧
          (q = 0 → mem = 0) ∧
          (∀ b, is_Some (heap s !! b) →
                body <$> heap s' !! b = body <$> heap s !! b) ∧
          (∀ b, is_Some (heap s' !! b) → is_Some (heap s !! b) ∨ b = q) ∧
          (q ≠ 0 →
           pools s' = q ∧
           ∃ x, heap s' !! q = Some x ∧ is_full_pool x = false ∧
                (heap s !! q = None →
                 count_full_roots q x = 0 ∧ alloc_count x = 0)).
Proof.
  intros HI Hfresh. unfold select_pool. rewrite bind_gets.
  assert (∀ s0 : state,
            (do su <- gets setup ;
             if negb su then
               modify (λ s, with_stderr (stderr s ++ ["boxroot is not setup"]) s) ;;
               ret 0
             else
               do q <- find_available_pool mem ;
               if q =? 0 then ret 0
               else
                 do x <- load_pool q ;
                 assert "!is_full_pool(p)" (negb (is_full_pool x)) ;;
                 ret q) s
            = find_available_pool mem s) as Hslow.
  { intros _. rewrite bind_gets, (inv_setup _ _ HI). cbn [negb].
    destruct (find_available_pool_frame mem s live HI Hfresh)
      as (q & s1 & E & HI1 & _ & _ & _ & Hq).
    rewrite (bind_ok _ _ _ _ _ E), E.
    destruct (Z.eqb_spec q 0) as [->|Hq0]; [done|].
    destruct (Hq Hq0) as (_ & x & Hx & Hnf & _).
    rewrite (bind_ok _ _ _ _ _ (load_pool_ok _ _ _ Hq0 Hx)), Hnf.
    cbn [negb]. by rewrite (bind_ok _ _ _ _ _ (assert_true _ _)). }
  destruct (decide (pools s = 0)) as [Hp0|Hp0].
  - rewrite Hp0. change (0 =? 0) with true. cbv iota. rewrite bind_ret.
    rewrite (Hslow s). by apply (find_available_pool_frame mem s live).
  - replace (pools s =? 0) with false by (symmetry; by apply Z.eqb_neq).
    destruct (Inv_head_pool _ _ HI Hp0) as [x Hx].
    rewrite bind_assoc, (bind_ok _ _ _ _ _ (load_pool_ok _ _ _ Hp0 Hx)), bind_ret.
    destruct (is_full_pool x) eqn:Hfull.
    + rewrite (Hslow s). by apply (find_available_pool_frame mem s live).
    + exists (pools s), s. split; [done|]. split_and!; [done|done|done| |].
      * intros b Hbs. by left.
      * intros _. split; [done|]. exists x. split; [done|]. split; [done|].
        intros Hn. congruence.
Qed.

Section CreateFrame.

Variable Is_young : Z → bool.

(** [rem_boxroot_create] in a well-formed state, with what it leaves alone:
    the payloads of the handles in use, and the agreement between the cells
    and the allocation counts when the payload does not look like a link of
    a free list. *)
Lemma create_frame mem v s live :
  Inv s live → fresh_mem (heap s) mem →
  ∃ r s', rem_boxroot_create Is_young mem v s = Ok (r, s') ∧
          Inv s' (if decide (r = 0) then live else {[r]} ∪ live) ∧
          (r = 0 → mem = 0) ∧
          (r ≠ 0 → r ∉ live ∧ load_slot r s' = Ok (v, s')) ∧
          (∀ h w, h ∈ live → load_slot h s = Ok (w, s) →
                  load_slot h s' = Ok (w, s')) ∧
          (counted s → (∀ b, valid_base b → is_free_slot v b = false) →
           counted s').
Proof.
  intros HI Hfresh.
  destruct (create_spec Is_young mem v s live HI Hfresh)
    as (r & s' & E & HI' & Hr & _ & _).
  exists r, s'. split; [done|]. split; [done|].
  destruct (select_pool_frame mem s live HI Hfresh)
    as (q & s1 & Esel & HI1 & Hq0 & Hbody & Hdom & Hq).
  pose proof (alloc_slot_select mem (is_young_block Is_young v) s) as Ealloc.
  rewrite (bind_ok _ _ _ _ _ Esel) in Ealloc.
  assert (∀ h w, load_slot h s = Ok (w, s) → load_slot h s1 = Ok (w, s1))
    as Hload1.
  { intros h w Hl. apply (load_slot_roots _ _ s); [done|].
    apply body_roots_lookup, Hbody.
    apply load_slot_inv in Hl as (_ & x & j & Hx & _). by eauto. }
  assert (counted s → ∀ b x, b ≠ q → heap s1 !! b = Some x →
                             count_full_roots b x = alloc_count x) as Hcnt1.
  { intros Hc b x Hne Hx.
    destruct (Hdom b) as [[y Hy]|?]; [by eauto| |done].
    specialize (Hbody b (mk_is_Some _ _ Hy)). rewrite Hx, Hy in Hbody.
    assert (body x = body y) as Hbd by (apply (inj Some); exact Hbody).
    rewrite count_full_roots_eq, (body_roots _ _ Hbd), (body_alloc_count _ _ Hbd).
    by apply Hc. }
  unfold rem_boxroot_create in E.
  destruct (Z.eqb_spec q 0) as [->|Hqn].
  - rewrite (bind_ok _ _ _ _ _ Ealloc) in E. change (0 =? 0) with true in E.
    cbv iota in E. injection E as <- <-.
    split; [by intros _; apply Hq0|]. split; [done|]. split.
    + intros h w _. apply Hload1.
    + intros Hc _ b x Hx. apply (Hcnt1 Hc); [|done].
      intros ->. assert (valid_base 0) as [? _]
        by (apply (inv_base _ _ HI1); by eauto). lia.
  - destruct (Hq Hqn) as (Hpq & x & Hx & Hnf & Hnew).
    destruct (take_store Is_young q x v s1 live HI1 Hx Hnf)
      as (i & s2 & s3 & x' & Hhd & Etake & Est & Hr0 & Ep & Ef & Es & Hx' & Hc'
          & Hn' & Hfr).
    rewrite Etake in Ealloc. rewrite (bind_ok _ _ _ _ _ Ealloc) in E.
    replace (slot_addr q i =? 0) with false in E
      by (symmetry; by apply Z.eqb_neq).
    rewrite (bind_ok _ _ _ _ _ Est) in E. injection E as <- <-.
    split; [done|]. split; [done|].
    destruct (Hr Hr0) as [Hnl _].
    destruct (take_slot_spec q x (is_young_block Is_young v) s1 live HI1 Hx Hnf)
      as (i' & s2' & Etake' & _ & _ & HI2 & _).
    rewrite Etake in Etake'. injection Etake' as Ei <-.
    destruct (take_slot_choice q x (is_young_block Is_young v) s1 live HI1 Hx Hnf)
      as (i'' & link & s2'' & _ & _ & _ & Etake'' & Hh2 & _).
    rewrite Etake in Etake''. injection Etake'' as _ <-.
    destruct (store_live_frame s2 _ (slot_addr q i) v HI2) as (s3' & Est' & Hfr3 & _).
    { apply elem_of_union. left. by apply elem_of_singleton. }
    rewrite Est in Est'. injection Est' as <-.
    split.
    + intros h w Hh Hl. apply Hfr3; [by intros ->|].
      apply (load_slot_roots _ _ s1); [by apply Hload1|].
      rewrite Hh2. destruct (decide (get_pool_header h = q)) as [->|Hne].
      * rewrite lookup_insert_eq, Hx. simpl. f_equal.
        by destruct (chosen_list (is_young_block Is_young v) x q).
      * by rewrite lookup_insert_ne.
    + intros Hc Hv b y Hy. destruct (decide (b = q)) as [->|Hne].
      * rewrite Hx' in Hy. injection Hy as <-.
        rewrite Hn', Hc' by (apply Hv, (inv_base _ _ HI1); by eauto).
        f_equal. destruct (heap s !! q) as [x0|] eqn:Hx0.
        -- specialize (Hbody q (mk_is_Some _ _ Hx0)). rewrite Hx, Hx0 in Hbody.
           assert (body x = body x0) as Hbd by (apply (inj Some); exact Hbody).
           rewrite count_full_roots_eq, (body_roots _ _ Hbd),
             (body_alloc_count _ _ Hbd).
           by apply Hc.
        -- destruct (Hnew eq_refl) as [-> ->]. done.
      * rewrite Hfr in Hy by done. by apply (Hcnt1 Hc).
Qed.

End CreateFrame.

(** *** Payloads that look like links of a free list *)

(** The cells that do not look free, by their indices. *)
Lemma count_full_indices p cells :
  ∃ F : list nat,
    NoDup F ∧ Z.of_nat (length F) = count_full p cells ∧
    ∀ k, k ∈ F ↔ ∃ v, cells !! k = Some v ∧ is_free_slot v p = false.
Proof.
  induction cells as [|w cs (F & Hnd & Hlen & HF)].
  - exists []. split; [constructor|]. split; [done|].
    intros k. split; [by intros ?%elem_of_nil|by intros (v & ? & _)].
  - rewrite count_full_cons.
    assert (NoDup (S <$> F)) as HndS by (apply NoDup_fmap; [apply _|done]).
    assert (∀ k, S k ∈ S <$> F ↔ k ∈ F) as HS.
    { intros k. rewrite list_elem_of_fmap. split.
      - by intros (j & [= ->] & ?).
      - intros ?. by exists k. }
    assert (0%nat ∉ S <$> F) as H0.
    { rewrite list_elem_of_fmap. by intros (j & ? & _). }
    destruct (is_free_slot w p) eqn:Hw.
    + exists (S <$> F). split; [done|]. split; [by rewrite length_fmap|].
      intros [|k].
      * split; [done|]. simpl. intros (v & [= <-] & Hv). congruence.
      * rewrite HS, HF. done.
    + exists (0%nat :: (S <$> F)). split; [by constructor|].
      split; [simpl; rewrite length_fmap; lia|].
      intros [|k].
      * split; [|intros _; by left]. intros _. by exists w.
      * rewrite elem_of_cons, HS, HF. split; [by intros [?|?]|by right].
Qed.

(** In a well-formed pool the cells that do not look free are among the
    cells in use.  A cell in use whose payload looks like a link of a free
    list makes them fewer than the allocation count. *)
Lemma count_full_le b x live lmaj lmin :
  valid_base b → pool_lists b x live lmaj lmin →
  count_full_roots b x ≤ alloc_count x.
Proof.
  intros Hb Hl. rewrite count_full_roots_eq.
  destruct (count_full_indices b (roots x)) as (F & Hnd & Hlen & HF).
  rewrite <- Hlen, (pl_count _ _ _ _ _ Hl).
  assert (length (F ++ (lmaj ++ lmin)) ≤ CAP)%nat as Hle.
  { apply bounded_nodup_length.
    - apply NoDup_app. split; [done|]. split; [|apply Hl].
      intros k [v [Hv Hf]]%HF Hk.
      assert (∃ v', roots x !! k = Some v' ∧ is_free_slot v' b = true)
        as (v' & Hv' & Hf').
      { apply elem_of_app in Hk as [Hk|Hk].
        - destruct (chain_cells_free _ _ _ _ k Hb (pl_major _ _ _ _ _ Hl) Hk)
            as (v' & ? & ? & _). by exists v'.
        - destruct (chain_cells_free _ _ _ _ k Hb (pl_minor _ _ _ _ _ Hl) Hk)
            as (v' & ? & ? & _). by exists v'. }
      congruence.
    - intros k [[v [Hv _]]%HF|Hk]%elem_of_app.
      + apply lookup_lt_Some in Hv. by rewrite (pl_length _ _ _ _ _ Hl) in Hv.
      + by eapply pool_lists_bound. }
  rewrite length_app in Hle. pose proof CAP_val. rewrite capacity_val. lia.
Qed.

Lemma count_full_lt b x live lmaj lmin i v :
  valid_base b → pool_lists b x live lmaj lmin →
  (i < CAP)%nat → slot_addr b i ∈ live →
  roots x !! i = Some v → is_free_slot v b = true →
  count_full_roots b x < alloc_count x.
Proof.
  intros Hb Hl Hi Hlive Hv Hfree. rewrite count_full_roots_eq.
  destruct (count_full_indices b (roots x)) as (F & Hnd & Hlen & HF).
  rewrite <- Hlen, (pl_count _ _ _ _ _ Hl).
  assert (∀ k, k ∈ lmaj ++ lmin →
               ∃ v', roots x !! k = Some v' ∧ is_free_slot v' b = true) as Hfl.
  { intros k [Hk|Hk]%elem_of_app.
    - destruct (chain_cells_free _ _ _ _ k Hb (pl_major _ _ _ _ _ Hl) Hk)
        as (v' & ? & ? & _). by exists v'.
    - destruct (chain_cells_free _ _ _ _ k Hb (pl_minor _ _ _ _ _ Hl) Hk)
        as (v' & ? & ? & _). by exists v'. }
  assert (length (i :: F ++ (lmaj ++ lmin)) ≤ CAP)%nat as Hle.
  { apply bounded_nodup_length.
    - constructor.
      + intros [[v' [Hv' Hf']]%HF|Hk]%elem_of_app; [congruence|].
        by apply (pl_live _ _ _ _ _ Hl i Hi) in Hk.
      + apply NoDup_app. split; [done|]. split; [|apply Hl].
        intros k [v' [Hv' Hf']]%HF (v'' & Hv'' & Hf'')%Hfl. congruence.
    - intros k [->|[[v' [Hv' _]]%HF|Hk]%elem_of_app]%elem_of_cons; [done| |].
      + apply lookup_lt_Some in Hv'. by rewrite (pl_length _ _ _ _ _ Hl) in Hv'.
      + by eapply pool_lists_bound. }
  simpl in Hle. rewrite length_app in Hle.
  pose proof CAP_val. rewrite capacity_val. lia.
Qed.

(** *** A major scan that does not find its full cells *)

Section ShortScan.

Context {D : Type}.
Variable action : D → Z → Z → D * Z.

(** When fewer cells look full than the walk has to find, it goes through
    every cell and fails its final assertion. *)
Lemma scan_slots_short p cells :
  ∀ pre x s d a,
    valid_base p → heap s !! p = Some x → roots x = pre ++ cells →
    length (pre ++ cells) = CAP → count_full p cells < a →
    scan_slots action p (seq (length pre) (length cells)) a d s
    = Err (AssertFailed "allocs_to_find == 0").
Proof.
  induction cells as [|v cs IH]; intros pre x s d a Hp Hx Hr Hlen Ha.
  - cbn [length seq scan_slots].
    replace (a =? 0) with false; [done|].
    symmetry. apply Z.eqb_neq. change (count_full p []) with 0 in Ha. lia.
  - cbn [length seq scan_slots].
    pose proof (count_full_nonneg p (v :: cs)) as Hnn.
    replace (a =? 0) with false by (symmetry; apply Z.eqb_neq; lia).
    assert (length pre < CAP)%nat as Hi.
    { rewrite <- Hlen, length_app. simpl. lia. }
    assert (roots x !! length pre = Some v) as Hv.
    { rewrite Hr. by rewrite list_lookup_middle. }
    rewrite (bind_ok _ _ _ _ _ (load_slot_ok _ _ _ _ _ Hp Hi Hx Hv)).
    rewrite count_full_cons in Ha.
    destruct (is_free_slot v p) eqn:Hfree; cbn [negb].
    + specialize (IH (pre ++ [v]) x s d a Hp Hx).
      replace (length (pre ++ [v])) with (S (length pre)) in IH
        by (rewrite length_app; simpl; lia).
      apply IH; [by rewrite <- app_assoc|by rewrite <- app_assoc|done].
    + assert (length (roots x) = CAP) as Hlx by by rewrite Hr.
      rewrite (bind_ok _ _ _ _ _ (store_slot_ok _ _ _ _ _ Hp Hi Hx Hlx)).
      set (r := action d v (slot_addr p (length pre))).
      set (x1 := with_roots _ x). set (s1 := with_heap _ s).
      assert (roots x1 = (pre ++ [snd r]) ++ cs) as Hr1.
      { subst x1. simpl. rewrite Hr.
        rewrite insert_app_r_alt by done. rewrite Nat.sub_diag. simpl.
        by rewrite <- app_assoc. }
      specialize (IH (pre ++ [snd r]) x1 s1 (fst r) (a - 1) Hp).
      replace (length (pre ++ [snd r])) with (S (length pre)) in IH
        by (rewrite length_app; simpl; lia).
      apply IH; [apply lookup_insert_eq|done| |lia].
      rewrite <- app_assoc. rewrite <- Hlen, !length_app. done.
Qed.

Lemma scan_pool_major_short p x d s :
  valid_base p → heap s !! p = Some x → length (roots x) = CAP →
  count_full_roots p x < alloc_count x →
  scan_pool action false p d s = Err (AssertFailed "allocs_to_find == 0").
Proof.
  intros Hp Hx Hlen Hcount. pose proof (valid_base_nonzero _ Hp) as Hp0.
  unfold scan_pool.
  rewrite (bind_ok _ _ _ _ _ (load_pool_ok _ _ _ Hp0 Hx)).
  unfold add_scanning_work, bump. rewrite bind_modify.
  rewrite <- Hlen.
  apply (scan_slots_short p (roots x) [] x); try done.
Qed.

Lemma scan_pool_ring_short p x d s :
  valid_base p → heap s !! p = Some x → length (roots x) = CAP →
  count_full_roots p x < alloc_count x →
  scan_pool_ring action false p d s = Err (AssertFailed "allocs_to_find == 0").
Proof.
  intros Hp Hx Hlen Hcount. pose proof (valid_base_nonzero _ Hp) as Hp0.
  unfold scan_pool_ring.
  replace (p =? 0) with false by (symmetry; by apply Z.eqb_neq).
  rewrite bind_gets.
  destruct (size (heap s)) as [|n] eqn:Hsz.
  - apply map_size_empty_inv in Hsz.
    rewrite Hsz in Hx. by rewrite lookup_empty in Hx.
  - cbn [scan_pool_ring_loop].
    by rewrite (bind_err _ _ _ _ (scan_pool_major_short p x d s Hp Hx Hlen Hcount)).
Qed.









End ShortScan.

(** *** The counter of the pools asked for *)

Lemma ring_link_stat_live p q s r s' :
  ring_link p q s = Ok (r, s') → live_pools (stat s') = live_pools (stat s).
Proof.
  unfold ring_link. intros (? & s1 & H1 & (? & s2 & H2 & H3)%bind_inv)%bind_inv.
  apply update_pool_stat in H1, H2. injection H3 as _ <-.
  simpl. by rewrite H2, H1.
Qed.

Lemma ring_pop_live a s r s' :
  ring_pop a s = Ok (r, s') → live_pools (stat s') = live_pools (stat s).
Proof.
  unfold ring_pop. intros (? & s1 & H1 & (x & s2 & H2 & H3)%bind_inv)%bind_inv.
  unfold assert in H1. destruct (negb (a =? 0)); [|done]. injection H1 as _ <-.
  apply load_pool_inv in H2 as (-> & _ & _).
  destruct (next x =? a); [by injection H3 as _ <-|].
  apply bind_inv in H3 as (? & s3 & H3 & (y & s4 & H4 & H5)%bind_inv).
  apply load_pool_inv in H4 as (-> & _ & _).
  apply bind_inv in H5 as (? & s5 & H5 & H6). injection H6 as _ <-.
  apply ring_link_stat_live in H3, H5. congruence.
Qed.

Lemma ring_push_back_live a b s r s' :
  ring_push_back a b s = Ok (r, s') → live_pools (stat s') = live_pools (stat s).
Proof.
  unfold ring_push_back. destruct (a =? 0); [by intros [= _ <-]|].
  destruct (b =? 0); [by intros [= _ <-]|].
  intros (x & s1 & H1 & (y & s2 & H2 & H3)%bind_inv)%bind_inv.
  apply load_pool_inv in H1 as (-> & _ & _).
  apply load_pool_inv in H2 as (-> & _ & _).
  apply bind_inv in H3 as (? & s3 & H3 & (? & s4 & H4 & H5)%bind_inv).
  injection H5 as _ <-. apply ring_link_stat_live in H3, H4. congruence.
Qed.

Lemma get_empty_pool_live mem s q s' :
  get_empty_pool mem s = Ok (q, s') →
  live_pools (stat s') = live_pools (stat s) + 1.
Proof.
  unfold get_empty_pool, bump. rewrite bind_modify.
  unfold bxr_alloc_uninitialised_pool. destruct (mem =? 0) eqn:Hm.
  - rewrite bind_ret. change (0 =? 0) with true. cbv iota.
    by intros [= _ <-].
  - rewrite bind_assoc, bind_modify, bind_ret, Hm. rewrite bind_modify.
    intros (? & s1 & H1 & H2)%bind_inv. apply ring_link_stat_live in H1.
    apply bind_inv in H2 as (? & s2 & H2 & H3). apply update_pool_stat in H2.
    apply bind_inv in H3 as (? & s3 & H3 & H4). apply update_pool_stat in H3.
    apply bind_inv in H4 as (? & s4 & H4 & H5). apply update_pool_stat in H4.
    apply bind_inv in H5 as (? & s5 & H5 & H6). apply update_pool_stat in H5.
    apply bind_inv in H6 as (? & s6 & H6 & H7). apply push_all_stat in H6.
    injection H7 as _ <-. simpl in H1.
    by rewrite H6, H5, H4, H3, H2.
Qed.

Lemma skip_full_pools_live fuel :
  ∀ s r s', skip_full_pools fuel s = Ok (r, s') →
            live_pools (stat s') = live_pools (stat s).
Proof.
  induction fuel as [|fuel IH]; intros s r s'; [done|].
  cbn [skip_full_pools]. rewrite bind_gets.
  destruct (pools s =? 0); [by intros [= _ <-]|].
  intros (x & s1 & H1 & H2)%bind_inv.
  apply load_pool_inv in H1 as (-> & _ & _).
  destruct (is_full_pool x); [|by injection H2 as _ <-].
  apply bind_inv in H2 as (p & s2 & H2 & H3). apply ring_pop_live in H2.
  rewrite bind_modify, bind_gets in H3.
  apply bind_inv in H3 as (f & s3 & H3 & H4). apply ring_push_back_live in H3.
  rewrite bind_modify in H4. apply IH in H4.
  simpl in *. congruence.
Qed.

Lemma find_available_pool_live mem s q s' :
  find_available_pool mem s = Ok (q, s') →
  live_pools (stat s) ≤ live_pools (stat s') ≤ live_pools (stat s) + 1.
Proof.
  unfold find_available_pool. rewrite bind_gets.
  intros (? & s1 & H1 & H2)%bind_inv. apply skip_full_pools_live in H1.
  rewrite bind_gets in H2. destruct (pools s1 =? 0).
  - apply bind_inv in H2 as (p & s2 & H2 & H3). apply get_empty_pool_live in H2.
    rewrite bind_modify in H3. destruct (p =? 0).
    + injection H3 as _ <-. simpl. lia.
    + apply bind_inv in H3 as (y & s3 & H3 & H4).
      apply load_pool_inv in H3 as (-> & _ & _).
      apply bind_inv in H4 as (? & s4 & H4 & H5). injection H5 as _ <-.
      unfold assert in H4. destruct (negb (is_full_pool y)); [|done].
      injection H4 as _ <-. simpl. lia.
  - apply bind_inv in H2 as (y & s3 & H3 & H4).
    apply load_pool_inv in H3 as (-> & _ & _).
    apply bind_inv in H4 as (? & s4 & H4 & H5). injection H5 as _ <-.
    unfold assert in H4. destruct (negb (is_full_pool y)); [|done].
    injection H4 as _ <-. lia.
Qed.

Lemma select_pool_live mem s q s' :
  select_pool mem s = Ok (q, s') →
  live_pools (stat s) ≤ live_pools (stat s') ≤ live_pools (stat s) + 1.
Proof.
  unfold select_pool. rewrite bind_gets.
  intros (full & s1 & H1 & H2)%bind_inv.
  assert (s1 = s) as ->.
  { destruct (pools s =? 0); [by injection H1 as _ <-|].
    apply bind_inv in H1 as (x & s2 & H1 & H3).
    apply load_pool_inv in H1 as (-> & _ & _). by injection H3 as _ <-. }
  destruct full; [|injection H2 as _ <-; lia].
  rewrite bind_gets in H2. destruct (negb (setup s)).
  - rewrite bind_modify in H2. injection H2 as _ <-. simpl. lia.
  - apply bind_inv in H2 as (p & s2 & H2 & H3).
    apply find_available_pool_live in H2. destruct (p =? 0).
    + injection H3 as _ <-. lia.
    + apply bind_inv in H3 as (x & s3 & H3 & H4).
      apply load_pool_inv in H3 as (-> & _ & _).
      apply bind_inv in H4 as (? & s4 & H4 & H5). injection H5 as _ <-.
      unfold assert in H4. destruct (negb (is_full_pool x)); [|done].
      injection H4 as _ <-. lia.
Qed.

Section RoundTrip.

Variable Is_young : Z → bool.

(** A create asks for a pool at most once. *)
Lemma create_live mem v s r s' :
  rem_boxroot_create Is_young mem v s = Ok (r, s') →
  live_pools (stat s) ≤ live_pools (stat s') ≤ live_pools (stat s) + 1.
Proof.
  unfold rem_boxroot_create. intros (c & s1 & H1 & H2)%bind_inv.
  rewrite alloc_slot_select in H1.
  apply bind_inv in H1 as (q & s2 & H1 & H3). apply select_pool_live in H1.
  assert (stat s1 = stat s2) as E1.
  { destruct (q =? 0); [by injection H3 as _ <-|]. by apply take_slot_stat in H3. }
  assert (stat s' = stat s1) as E2.
  { destruct (c =? 0); [by injection H2 as _ <-|].
    apply bind_inv in H2 as (? & s3 & H2 & H4). injection H4 as _ <-.
    by apply store_slot_stat in H2. }
  rewrite E2, E1. done.
Qed.

Lemma create_all_live reqs :
  ∀ s hs s', create_all Is_young reqs s = Ok (hs, s') →
             live_pools (stat s) ≤ live_pools (stat s')
             ≤ live_pools (stat s) + Z.of_nat (length reqs).
Proof.
  induction reqs as [|[mem v] reqs IH]; intros s hs s'.
  - intros [= _ <-]. simpl. lia.
  - cbn [create_all]. intros (r & s1 & H1 & H2)%bind_inv.
    apply bind_inv in H2 as (rs & s2 & H2 & H3). injection H3 as _ <-.
    apply create_live in H1. apply IH in H2. simpl length. lia.
Qed.


(** C6, amended: after the creates of a list of payloads, all successful,
    and the deletes of the handles they gave, the handles in use are those
    of before and every pool of before is still there with the
    [alloc_count] it had.  The deletes release no pool: the pools are those
    after the creates, and a pool the creates allocated stays allocated, with
    no slot in use.  [live_pools] has not decreased, and has grown by at
    most one for each create. *)
Theorem round_trip_restores_alloc_count reqs s live hs s1 :
  reachable Is_young s live → fresh_run Is_young reqs s →
  create_all Is_young reqs s = Ok (hs, s1) → 0 ∉ hs →
  ∃ s2, delete_all Is_young hs s1 = Ok (tt, s2) ∧
        reachable Is_young s2 live ∧
        (∀ b x, heap s !! b = Some x →
                ∃ x2, heap s2 !! b = Some x2 ∧ alloc_count x2 = alloc_count x) ∧
        (∀ b, is_Some (heap s2 !! b) ↔ is_Some (heap s1 !! b)) ∧
        (∀ b, heap s !! b = None → is_Some (heap s1 !! b) →
              ∃ x2, heap s2 !! b = Some x2 ∧ alloc_count x2 = 0) ∧
        live_pools (stat s) ≤ live_pools (stat s2)
        ≤ live_pools (stat s) + Z.of_nat (length reqs).
Proof.
  intros Hr Hfresh Hrun H0.
  destruct (create_all_spec Is_young reqs s live hs s1 Hr Hfresh Hrun H0)
    as (Hr1 & Hnd & Hnew & Hlp & Hdom).
  destruct (delete_all_spec Is_young hs s1 _ Hr1 Hnd) as (s2 & E2 & Hr2 & Hlp2 & Hdom2).
  { intros h Hh. apply elem_of_union. left. by apply elem_of_list_to_set. }
  assert ((list_to_set hs ∪ live) ∖ list_to_set hs = live) as Elive.
  { apply set_eq. intros h.
    rewrite elem_of_difference, elem_of_union, elem_of_list_to_set.
    split; [by intros [[?|?] ?]|]. intros Hh. split; [by right|].
    intros Hhs. by apply (Hnew h). }
  rewrite Elive in Hr2.
  pose proof (reachable_Inv Is_young _ _ Hr) as HI.
  pose proof (reachable_Inv Is_young _ _ Hr2) as HI2.
  pose proof (create_all_live _ _ _ _ Hrun) as Hbound.
  assert (∀ b x2, heap s !! b = None → heap s2 !! b = Some x2 →
                  alloc_count x2 = 0) as Hzero.
  { intros b x2 Hn Hx2. eapply (Inv_alloc_count_zero s2 live); [done..|].
    intros i Hi Hin.
    destruct (inv_live _ _ HI _ Hin) as (b' & j & Heq & Hj & Hb').
    assert (valid_base b) as Hvb by (apply (inv_base _ _ HI2); by eauto).
    assert (valid_base b') as Hvb' by by apply (inv_base _ _ HI).
    apply slot_addr_pool_inj in Heq as [-> _]; [|done..].
    destruct Hb' as [? ?]. congruence. }
  exists s2. split_and!; [done|done| |done| |lia|lia].
  - intros b x Hx. destruct (proj2 (Hdom2 b)) as [x2 Hx2].
    { apply Hdom. by eauto. }
    exists x2. split; [done|]. symmetry. by eapply (Inv_alloc_count s s2).
  - intros b Hn Hs1. destruct (proj2 (Hdom2 b) Hs1) as [x2 Hx2].
    exists x2. split; [done|]. by apply (Hzero b).
Qed.

End RoundTrip.

Lemma round_trip_restores_alloc_count_witness :
  ∃ hs s1 s2,
    create_all nursery [(16384, 1); (0, 1504)] fresh_state = Ok (hs, s1) ∧
    delete_all nursery hs s1 = Ok (tt, s2) ∧
    (∀ b, heap fresh_state !! b = None → is_Some (heap s1 !! b) →
          ∃ x2, heap s2 !! b = Some x2 ∧ alloc_count x2 = 0) ∧
    live_pools (stat fresh_state) ≤ live_pools (stat s2)
    ≤ live_pools (stat fresh_state) + 2.
Proof.
  destruct (two_creates 1 1504) as (h1 & h2 & s1 & E & Hf & H0).
  destruct (round_trip_restores_alloc_count nursery [(16384, 1); (0, 1504)]
              fresh_state ∅ [h1; h2] s1 (reachable_fresh_state nursery) Hf E H0)
    as (s2 & E2 & _ & _ & _ & Hz & Hl).
  exists [h1; h2], s1, s2. exact (conj E (conj E2 (conj Hz Hl))).
Defined.

(** *** A payload that looks like a link of a free list *)

(** The pool of a handle in use whose payload looks like a link of a free
    list of that pool has fewer cells that look full than its allocation
    count says. *)
Lemma live_free_looking_short s live h v :
  Inv s live → h ∈ live → load_slot h s = Ok (v, s) →
  is_free_slot v (get_pool_header h) = true →
  ∃ x, valid_base (get_pool_header h) ∧
       heap s !! get_pool_header h = Some x ∧ length (roots x) = CAP ∧
       count_full_roots (get_pool_header h) x < alloc_count x.
Proof.
  intros HI Hh Hload Hfree.
  destruct (Inv_slot _ _ _ HI Hh) as (b & i & x & -> & Hi & Hb & Hx & lmaj & lmin & Hl).
  rewrite get_pool_header_slot in * by done.
  apply load_slot_inv in Hload as (_ & y & j & Hy & Hj & Hv).
  rewrite get_pool_header_slot in Hy by done.
  rewrite slot_index_slot in Hj by done. injection Hj as <-.
  rewrite Hx in Hy. injection Hy as <-.
  exists x. split; [done|]. split; [done|]. split; [apply Hl|].
  by eapply (count_full_lt b x live lmaj lmin i v).
Qed.

Section MajorAbort.

Context {D : Type}.
Variable action : D → Z → Z → D * Z.

(** The scan callback of a major collection when the first pool it scans
    has fewer cells that look full than its allocation count says. *)
Lemma major_callback_short s d p x :
  setup s = true →
  p = (if pools s =? 0 then full_pools s else pools s) →
  pools s ≠ 0 ∨ 0 < ring_operations (stat s) →
  valid_base p → heap s !! p = Some x → length (roots x) = CAP →
  count_full_roots p x < alloc_count x →
  scanning_callback action false d s
  = Err (AssertFailed "allocs_to_find == 0").
Proof.
  intros Hs Hp Hused Hvb Hx Hlen Hshort.
  unfold scanning_callback. rewrite bind_gets, Hs. cbn [negb].
  unfold bump. rewrite bind_modify. unfold boxroot_used. rewrite bind_gets.
  set (s0 := with_stat _ s).
  assert (negb (pools s0 =? 0) || (0 <? ring_operations (stat s0)) = true) as ->.
  { subst s0. simpl. destruct Hused as [Hn|Ho].
    - replace (pools s =? 0) with false by (symmetry; by apply Z.eqb_neq). done.
    - apply orb_true_iff. right. by apply Z.ltb_lt. }
  unfold scan_roots. rewrite bind_gets.
  change (pools s0) with (pools s). change (heap s0) with (heap s) in *.
  destruct (Z.eqb_spec (pools s) 0) as [E0|Hn0].
  - rewrite E0.
    assert (scan_pool_ring action false 0 d s0 = Ok (d, s0)) as E1 by done.
    rewrite (bind_ok _ _ _ _ _ E1), bind_gets.
    change (full_pools s0) with (full_pools s). rewrite <- Hp.
    by rewrite (bind_err _ _ _ _ (scan_pool_ring_short action p x d s0 Hvb Hx Hlen Hshort)).
  - rewrite <- Hp.
    by rewrite (bind_err _ _ _ _ (scan_pool_ring_short action p x d s0 Hvb Hx Hlen Hshort)).
Qed.

(** C2: the scan callback of a major collection does not call the action
    once for each slot in use.  [scan_pool] tells a full cell from a free
    one by its content ([is_free_slot]), so a payload that is odd and falls
    in the page of its pool is skipped.  When a handle of the head pool holds
    such a payload, the pool has fewer cells that look full than its
    [alloc_count], the walk reaches the end of the pool with slots still to
    find, and the callback stops on the assertion [allocs_to_find == 0]. *)
Theorem major_scan_misses_free_looking_payload d s live h v :
  Inv s live → h ∈ live → get_pool_header h = pools s →
  rem_boxroot_get h s = Ok (v, s) → is_free_slot v (pools s) = true →
  (∃ x, heap s !! pools s = Some x ∧
        count_full_roots (pools s) x < alloc_count x) ∧
  scanning_callback action false d s
  = Err (AssertFailed "allocs_to_find == 0").
Proof.
  intros HI Hh Hhd Hget Hfree. rewrite <- Hhd in Hfree.
  destruct (live_free_looking_short s live h v HI Hh Hget Hfree)
    as (x & Hvb & Hx & Hlen & Hshort).
  rewrite Hhd in Hvb, Hx, Hshort.
  split; [by exists x|].
  pose proof (valid_base_nonzero _ Hvb) as Hn0.
  apply (major_callback_short s d (pools s) x); try done.
  - apply (inv_setup _ _ HI).
  - by replace (pools s =? 0) with false by (symmetry; by apply Z.eqb_neq).
  - by left.
Qed.


End MajorAbort.

(** *** Runs with a payload that looks like a link of a free list *)

(** The first create after the setup, with the payload it stores. *)
Lemma first_create_load v :
  ∃ s1, rem_boxroot_create nursery 16384 v fresh_state = Ok (16432, s1) ∧
        reachable nursery s1 ({[16432]} ∪ ∅) ∧ pools s1 = 16384 ∧
        0 < ops s1 ∧ load_slot 16432 s1 = Ok (v, s1) ∧
        (∃ y, heap s1 !! 16384 = Some y ∧ alloc_count y = 1) ∧
        (∀ b, b ≠ 16384 → heap s1 !! b = None).
Proof.
  destruct (first_create nursery 16384 v valid_base_16384)
    as (s1 & E & Hfm & Hr & Hp & _ & _ & Hops & (y & Hy & Hc & _) & Hb).
  change (slot_addr 16384 0) with 16432 in E, Hr.
  destruct (create_frame nursery 16384 v fresh_state ∅
              (reachable_Inv _ _ _ (reachable_fresh_state nursery)) Hfm)
    as (r & s' & E' & _ & _ & Hn & _).
  rewrite E in E'. injection E' as <- <-.
  exists s1. split; [exact E|]. split; [exact Hr|]. split; [exact Hp|].
  split; [exact Hops|].
  split; [|split; [exists y; exact (conj Hy Hc)|exact Hb]].
  apply Hn. clear. lia.
Qed.


(** *** The claims on runs from the fresh state, continued *)

Lemma major_scan_misses_free_looking_payload_witness :
  ∃ s, rem_boxroot_create nursery 16384 16449 fresh_state = Ok (16432, s) ∧
       rem_boxroot_get 16432 s = Ok (16449, s) ∧
       scanning_callback (λ (d : list Z) v a, (a :: d, v)) false [] s
       = Err (AssertFailed "allocs_to_find == 0").
Proof.
  destruct (first_create_load 16449)
    as (s1 & E1 & Hr1 & Hp1 & _ & Hl1 & _).
  exists s1. split; [exact E1|]. split; [exact Hl1|].
  apply (major_scan_misses_free_looking_payload
           (λ (d : list Z) v a, (a :: d, v)) [] s1 ({[16432]} ∪ ∅) 16432 16449).
  - exact (reachable_Inv nursery _ _ Hr1).
  - apply elem_of_union. left. by apply elem_of_singleton.
  - rewrite Hp1. reflexivity.
  - exact Hl1.
  - rewrite Hp1. reflexivity.
Defined.



(** *** Addresses and tags *)

(** X1: the cell [i] of the pool at [b] lies inside the page of the pool,
    after the header, and [get_pool_header] and the index of a cell find
    [b] and [i] again from its address; two cells have the same address
    only if they are the same cell of the same pool. *)
Theorem handle_address_round_trip b i :
  valid_base b → (i < CAP)%nat →
  get_pool_header (slot_addr b i) = b ∧
  slot_index (slot_addr b i) = Some i ∧
  b + header_size ≤ slot_addr b i ∧
  slot_addr b i + slot_size ≤ b + POOL_SIZE ∧
  ∀ b' j, valid_base b' → (j < CAP)%nat →
          slot_addr b i = slot_addr b' j → b = b' ∧ i = j.
Proof.
  intros Hb Hi. split; [by apply get_pool_header_slot|].
  split; [by apply slot_index_slot|].
  pose proof (slot_offset i Hi) as Ho. pose proof CAP_val as Hc.
  unfold slot_addr, header_size, slot_size in *. rewrite POOL_SIZE_val in *.
  split; [lia|]. split; [lia|].
  intros b' j Hb' Hj Heq.
  by apply (slot_addr_pool_inj b b' i j Hb Hb' Hi Hj).
Qed.

Lemma handle_address_round_trip_witness :
  get_pool_header (slot_addr 16384 2041) = 16384 ∧
  slot_index (slot_addr 16384 2041) = Some 2041%nat.
Proof.
  destruct (handle_address_round_trip 16384 2041 valid_base_16384)
    as (H1 & H2 & _).
  - apply Nat2Z.inj_lt. rewrite CAP_val. reflexivity.
  - exact (conj H1 H2).
Defined.

(** X2: a word is taken for a link of a free list of the pool at [p]
    exactly when it is odd and lies in the page of [p].  So no pointer to a
    block (an even word) is ever taken for a free cell, whereas an immediate
    whose bits fall in the page of the pool is. *)
Theorem is_free_slot_exact v p :
  valid_base p →
  (is_free_slot v p = true ↔ v mod 2 = 1 ∧ p ≤ v < p + POOL_SIZE) ∧
  (Is_block v = true → is_free_slot v p = false).
Proof.
  intros Hp.
  assert (is_free_slot v p = true ↔ v mod 2 = 1 ∧ p ≤ v < p + POOL_SIZE) as H.
  { rewrite (is_free_slot_spec v p Hp).
    destruct Hp as [Hp0 Hpm]. rewrite POOL_SIZE_val in *.
    apply Z.mod_divide in Hpm as [k ->]; [|lia].
    pose proof (Z.div_mod v 16384 ltac:(lia)) as Hdm.
    pose proof (Z.mod_pos_bound v 16384 ltac:(lia)) as Hmb.
    split.
    - intros [He Ho]. split; [done|]. lia.
    - intros [Ho [Hl Hu]]. split; [|done].
      assert (v / 16384 = k) as ->; [|lia].
      symmetry. apply Z.div_unique with (r := v - k * 16384); lia. }
  split; [done|].
  intros Hblk. destruct (is_free_slot v p) eqn:Hf; [|done].
  destruct (proj1 H eq_refl) as [Ho _]. unfold Is_block in Hblk.
  rewrite low_bit_eq, Ho in Hblk. discriminate Hblk.
Qed.

Lemma is_free_slot_exact_witness :
  is_free_slot 16433 16384 = true ∧ is_free_slot 16432 16384 = false.
Proof.
  destruct (is_free_slot_exact 16433 16384 valid_base_16384) as [H _].
  destruct (is_free_slot_exact 16432 16384 valid_base_16384) as [_ H'].
  split; [apply H; split; [reflexivity|split; [discriminate|reflexivity]]
         |apply H'; reflexivity].
Defined.

(** *** Create *)

Section CreateExtras.

Variable Is_young : Z → bool.

(** X3: in a state reached through the API, [rem_boxroot_create] never
    fails an assertion or a memory access.  It answers the null handle only
    when the page allocator failed; otherwise it answers a handle that was
    not in use, through which [rem_boxroot_get] reads the payload.  In both
    cases the handles in use keep their payloads. *)
Theorem create_gives_fresh_handle mem v s live :
  reachable Is_young s live → fresh_mem (heap s) mem →
  ∃ r s', rem_boxroot_create Is_young mem v s = Ok (r, s') ∧
          (r = 0 → mem = 0 ∧ reachable Is_young s' live) ∧
          (r ≠ 0 → r ∉ live ∧ reachable Is_young s' ({[r]} ∪ live) ∧
                   rem_boxroot_get r s' = Ok (v, s')) ∧
          (∀ h w, h ∈ live → rem_boxroot_get h s = Ok (w, s) →
                  rem_boxroot_get h s' = Ok (w, s')).
Proof.
  intros Hr Hfresh. pose proof (reachable_Inv _ _ _ Hr) as HI.
  destruct (create_frame Is_young mem v s live HI Hfresh)
    as (r & s' & E & _ & H0 & Hn & Hload & _).
  exists r, s'. split; [done|]. split_and!.
  - intros ->. split; [by apply H0|].
    by apply (reach_create_null Is_young s live mem v).
  - intros Hr0. destruct (Hn Hr0) as [Hnl Hget]. split; [done|].
    split; [|done]. by apply (reach_create_handle Is_young s live mem v).
  - exact Hload.
Qed.

(** X4: the agreement between the cells and the allocation counts, which
    the major scan relies on, is kept by a create whose payload does not
    look like a link of a free list. *)
Theorem create_keeps_counted mem v s live r s' :
  reachable Is_young s live → fresh_mem (heap s) mem →
  (∀ b, valid_base b → is_free_slot v b = false) →
  (∀ b x, heap s !! b = Some x → count_full_roots b x = alloc_count x) →
  rem_boxroot_create Is_young mem v s = Ok (r, s') →
  ∀ b x, heap s' !! b = Some x → count_full_roots b x = alloc_count x.
Proof.
  intros Hr Hfresh Hv Hc E. pose proof (reachable_Inv _ _ _ Hr) as HI.
  destruct (create_frame Is_young mem v s live HI Hfresh)
    as (r' & s'' & E' & _ & _ & _ & _ & Hcnt).
  rewrite E in E'. injection E' as <- <-. by apply Hcnt.
Qed.

(** X5: while the head pool has room, a create does not ask the page
    allocator for anything: its outcome does not depend on what the
    allocator would answer, the handle is not null, and neither the rings
    nor the statistics change. *)
Theorem create_hot_ignores_allocator mem mem' v s live x :
  reachable Is_young s live → heap s !! pools s = Some x →
  is_full_pool x = false →
  rem_boxroot_create Is_young mem v s = rem_boxroot_create Is_young mem' v s ∧
  ∃ r s', rem_boxroot_create Is_young mem v s = Ok (r, s') ∧ r ≠ 0 ∧
          pools s' = pools s ∧ full_pools s' = full_pools s ∧
          stat s' = stat s ∧
          ∀ b, is_Some (heap s' !! b) ↔ is_Some (heap s !! b).
Proof.
  intros Hr Hx Hnf. pose proof (reachable_Inv _ _ _ Hr) as HI.
  destruct (create_hot Is_young mem v s live x HI Hx Hnf)
    as (r & s' & E & Hr0 & Ep & Ef & Es & (x' & Hx' & _) & Hfr).
  destruct (create_hot Is_young mem' v s live x HI Hx Hnf)
    as (r2 & s2 & E2 & _).
  assert (valid_base (pools s)) as Hb by (apply (inv_base _ _ HI); by eauto).
  pose proof (valid_base_nonzero _ Hb) as Hp0.
  assert (∀ m, select_pool m s = Ok (pools s, s)) as Esel.
  { intros m. unfold select_pool. rewrite bind_gets.
    replace (pools s =? 0) with false by (symmetry; by apply Z.eqb_neq).
    rewrite bind_assoc, (bind_ok _ _ _ _ _ (load_pool_ok _ _ _ Hp0 Hx)).
    by rewrite bind_ret, Hnf. }
  assert (alloc_slot mem (is_young_block Is_young v) s
          = alloc_slot mem' (is_young_block Is_young v) s) as Ea.
  { rewrite !alloc_slot_select.
    by rewrite (bind_ok _ _ _ _ _ (Esel mem)), (bind_ok _ _ _ _ _ (Esel mem')). }
  split.
  - unfold rem_boxroot_create, bind. by rewrite Ea.
  - exists r, s'. split; [done|]. split_and!; [done..|].
    intros b. destruct (decide (b = pools s)) as [->|Hne].
    + rewrite Hx', Hx. split; by eauto.
    + by rewrite Hfr.
Qed.

(** X6: a pool gives [POOL_ROOTS_CAPACITY] handles.  As many creates as the
    head pool has free cells all succeed without the page allocator, with
    handles that are distinct, not null and were not in use; no pool is
    allocated, and the head pool ends with that many more cells in use. *)
Theorem head_pool_serves_its_free_cells v n s live x :
  reachable Is_young s live → heap s !! pools s = Some x →
  alloc_count x + Z.of_nat n ≤ POOL_ROOTS_CAPACITY →
  ∃ hs s',
    create_all Is_young (replicate n (0, v)) s = Ok (hs, s') ∧
    length hs = n ∧ NoDup hs ∧ 0 ∉ hs ∧ (∀ h, h ∈ hs → h ∉ live) ∧
    reachable Is_young s' (list_to_set hs ∪ live) ∧
    pools s' = pools s ∧ stat s' = stat s ∧
    (∀ b, is_Some (heap s' !! b) ↔ is_Some (heap s !! b)) ∧
    ∃ x', heap s' !! pools s = Some x' ∧
          alloc_count x' = alloc_count x + Z.of_nat n.
Proof.
  intros Hr Hx Hle.
  destruct (fill_spec Is_young v n s live x Hr Hx Hle)
    as (hs & s' & E & Hfr & H0 & Hr' & Ep & Ef & Es & (x' & Hx' & Hc' & _) & Hb).
  destruct (create_all_spec Is_young _ s live hs s' Hr Hfr E H0)
    as (_ & Hnd & Hnew & _ & _).
  exists hs, s'. split; [done|]. split_and!; try done.
  - clear -E. revert s hs s' E. induction n as [|n IH]; intros s hs s' E.
    + by injection E as <- _.
    + cbn [replicate create_all] in E.
      apply bind_inv in E as (r & s1 & E1 & E).
      apply bind_inv in E as (rs & s2 & E2 & E). injection E as <- _.
      simpl. f_equal. by eapply IH.
  - intros b. destruct (decide (b = pools s)) as [->|Hne].
    + rewrite Hx', Hx. split; by eauto.
    + by rewrite Hb.
  - by exists x'.
Qed.

(** X7: when every pool is full and the page allocator fails, a create
    answers the null handle and leaves the ring [pools] empty, the full
    pools and the handles in use being kept; a later create for which the
    page allocator gives a pool succeeds, with the first cell of that pool
    as its handle. *)
Theorem create_recovers_from_exhaustion v w mem s live :
  reachable Is_young s live →
  (∀ b x, heap s !! b = Some x → is_full_pool x = true) →
  valid_base mem → heap s !! mem = None →
  ∃ s1 s2,
    rem_boxroot_create Is_young 0 v s = Ok (0, s1) ∧
    pools s1 = 0 ∧ reachable Is_young s1 live ∧
    (∀ b, is_Some (heap s1 !! b) ↔ is_Some (heap s !! b)) ∧
    rem_boxroot_create Is_young mem w s1 = Ok (slot_addr mem 0, s2) ∧
    pools s2 = mem ∧ reachable Is_young s2 ({[slot_addr mem 0]} ∪ live).
Proof.
  intros Hr Hfull Hm Hnone. pose proof (reachable_Inv _ _ _ Hr) as HI.
  destruct (create_full Is_young 0 v s live HI Hfull (or_introl eq_refl))
    as (r & s1 & E1 & Hr1 & Hp1 & _ & _ & _ & Hb1).
  change (r = 0) in Hr1. subst r.
  pose proof (reach_create_null Is_young _ _ _ _ _ Hr (or_introl eq_refl) E1)
    as Hreach1.
  pose proof (reachable_Inv _ _ _ Hreach1) as HI1.
  assert (heap s !! 0 = None) as H0.
  { destruct (heap s !! 0) eqn:E0; [|done].
    destruct (inv_base _ _ HI 0) as [? _]; [by eauto|lia]. }
  assert (heap s1 !! 0 = None) as H01.
  { destruct (heap s1 !! 0) eqn:E0; [|done].
    destruct (inv_base _ _ HI1 0) as [? _]; [by eauto|lia]. }
  assert (∀ b, body <$> heap s1 !! b = body <$> heap s !! b) as Hbody.
  { intros b. destruct (decide (b = 0)) as [->|Hne]; [by rewrite H0, H01|].
    by apply Hb1. }
  assert (∀ b, is_Some (heap s1 !! b) ↔ is_Some (heap s !! b)) as Hdom.
  { intros b. rewrite <- !(fmap_is_Some body). by rewrite Hbody. }
  assert (fresh_mem (heap s1) mem) as Hfresh.
  { right. split; [done|]. apply eq_None_not_Some. rewrite Hdom, Hnone.
    by intros []. }
  destruct (create_full Is_young mem w s1 live HI1) as (r & s2 & E2 & Hr2 & Hp2 & _);
    [|done|].
  { intros b x1 Hx1. specialize (Hbody b). rewrite Hx1 in Hbody.
    destruct (heap s !! b) as [x|] eqn:Hx; [|discriminate Hbody].
    assert (body x1 = body x) as Hbd by (apply (inj Some); exact Hbody).
    specialize (Hfull b x Hx). unfold is_full_pool in *.
    by rewrite (body_alloc_count _ _ Hbd). }
  pose proof (valid_base_nonzero _ Hm) as Hm0.
  replace (mem =? 0) with false in Hr2 by (symmetry; by apply Z.eqb_neq).
  subst r. exists s1, s2. split_and!; try done.
  apply (reach_create_handle Is_young _ _ _ _ _ _ Hreach1 Hfresh E2).
  by apply slot_addr_nonzero.
Qed.

End CreateExtras.

Lemma create_gives_fresh_handle_witness :
  ∃ r s', rem_boxroot_create nursery 0 1504 one_handle = Ok (r, s') ∧
          (r ≠ 0 → rem_boxroot_get r s' = Ok (1504, s')).
Proof.
  destruct one_handle_run as (_ & Hr & _).
  destruct (create_gives_fresh_handle nursery 0 1504 one_handle _ Hr
              (or_introl eq_refl))
    as (r & s' & E & _ & Hn & _).
  exists r, s'. split; [exact E|]. intros Hr0. exact (proj2 (proj2 (Hn Hr0))).
Defined.

Lemma create_keeps_counted_witness :
  ∃ x, heap one_handle !! 16384 = Some x ∧
       count_full_roots 16384 x = alloc_count x.
Proof.
  destruct one_handle_run as (E & _ & _ & _ & [x Hx]).
  exists x. split; [exact Hx|].
  apply (create_keeps_counted nursery 16384 1 fresh_state ∅ 16432 one_handle
           (reachable_fresh_state nursery)
           (or_intror (conj valid_base_16384 eq_refl))); [| |exact E|exact Hx].
  - intros b Hb. pose proof (is_free_slot_spec 1 b Hb) as H.
    destruct (is_free_slot 1 b) eqn:Hf; [|reflexivity].
    destruct (proj1 H eq_refl) as [Hl _]. destruct Hb as [Hb0 _].
    exfalso. clear -Hl Hb0. rewrite POOL_SIZE_val in Hl.
    change (1 / 16384) with 0 in Hl. lia.
  - intros b y Hy. discriminate Hy.
Defined.

Lemma create_hot_ignores_allocator_witness :
  rem_boxroot_create nursery 0 3 one_handle
  = rem_boxroot_create nursery 32768 3 one_handle.
Proof.
  destruct one_handle_run as (_ & Hr & _).
  destruct one_handle_head as (y & Hy & _ & Hc).
  exact (proj1 (create_hot_ignores_allocator nursery 0 32768 3 one_handle _ y
                  Hr Hy Hc)).
Defined.

Lemma head_pool_serves_its_free_cells_witness :
  ∃ hs s', create_all nursery (replicate 3 (0, 1)) one_handle = Ok (hs, s') ∧
           length hs = 3%nat ∧ NoDup hs ∧ 0 ∉ hs.
Proof.
  destruct one_handle_run as (_ & Hr & _).
  destruct one_handle_head as (y & Hy & Hc & _).
  destruct (head_pool_serves_its_free_cells nursery 1 3 one_handle _ y Hr Hy)
    as (hs & s' & E & Hlen & Hnd & H0 & _).
  - rewrite Hc. apply Z.leb_le. reflexivity.
  - exists hs, s'. exact (conj E (conj Hlen (conj Hnd H0))).
Defined.

Lemma create_recovers_from_exhaustion_witness :
  ∃ s1 s2,
    rem_boxroot_create nursery 0 1 full_pool = Ok (0, s1) ∧
    rem_boxroot_create nursery 32768 1 s1 = Ok (slot_addr 32768 0, s2).
Proof.
  destruct full_pool_run as (live & _ & _ & _ & Hr & _ & _ & _ & _ & _ & Hb).
  destruct (create_recovers_from_exhaustion nursery 1 1 32768 full_pool live Hr
              full_pool_all_full valid_base_32768)
    as (s1 & s2 & E1 & _ & _ & _ & E2 & _).
  - apply Hb. discriminate.
  - exists s1, s2. exact (conj E1 E2).
Defined.

End RemProofs.

(** ** The bitmap-chunk engine *)

Module BitmapProofs.

Import Bitmap.

(** *** The young ring *)

Lemma foreach_index_visit {A} (body : Z → A → E A) c allocated i l acc s :
  Z.testbit allocated (Z.of_nat i) = true →
  foreach_index body c allocated (i :: l) acc s
  = (do acc' <- body (chunk_index c i) acc ;
     foreach_index body c allocated l acc') s.
Proof. intros H. cbn [foreach_index]. by rewrite H. Qed.

Lemma validate_one_root Is_young v :
  is_young_block Is_young v = false →
  validate_all_rings Is_young (one_root v)
  = Err (AssertFailed "is_young_block(*elem)").
Proof.
  intros Hv. unfold validate_all_rings. rewrite bind_gets.
  apply bind_err. change (young (one_root v)) with 512.
  unfold foreach_elem_in_ring. change (512 =? 0) with false. cbv iota.
  rewrite bind_gets.
  replace (size (heap (one_root v))) with 1%nat by (vm_compute; reflexivity).
  cbn [foreach_chunk]. apply bind_err. unfold foreach_elem_in_chunk.
  assert (load_chunk 512 (one_root v)
          = Ok (mk_chunk (v :: replicate 63 0) 512 512 true (BITMAP_EMPTY - 1),
                one_root v)) as Hload by (vm_compute; reflexivity).
  rewrite (bind_ok _ _ _ _ _ Hload).
  change (seq 0 (Z.to_nat CHUNK_SIZE)) with (0%nat :: seq 1 63).
  rewrite foreach_index_visit by (vm_compute; reflexivity).
  apply bind_err. cbv beta.
  assert (load_value (chunk_index 512 0) (one_root v) = Ok (v, one_root v))
    as Hval by (vm_compute; reflexivity).
  rewrite (bind_ok _ _ _ _ _ Hval), Hv. reflexivity.
Qed.

(** C9: [bitmap_boxroot_create] sends every payload to the young ring: from
    the state the setup leaves, a create puts the first chunk at the head
    of the young ring with [is_young] set, whatever the payload.  When the
    payload is not a nursery pointer the young ring holds a chunk without a
    nursery pointer, and the check of [validate_all_rings] on the young ring
    fails.  A minor collection then moves the chunk to the old ring, clears
    [is_young], empties the young ring, and calls the action on nothing. *)
Theorem young_ring_takes_every_payload :
  (∀ v, bitmap_boxroot_create 512 v ready = Ok (512, one_root v)) ∧
  (∀ Is_young v,
     is_young_block Is_young v = false →
     validate_all_rings Is_young (one_root v)
     = Err (AssertFailed "is_young_block(*elem)")) ∧
  scanning_callback 1000 1000 collect true [] (one_root 1)
  = Ok ([], one_root_scanned 1) ∧
  scanning_callback 1000 1000 collect true [] (one_root 4096)
  = Ok ([], one_root_scanned 4096).
Proof.
  split; [intros v; vm_compute; reflexivity|].
  split; [exact validate_one_root|].
  split; vm_compute; reflexivity.
Qed.

End BitmapProofs.
